(** * Rocket Blaster: the per-frame update and the input handlers

    A shallow embedding of [src/components/RocketBlaster.tsx].

    - JavaScript numbers are modelled as exact rationals [Q]; the rounding
      of IEEE doubles is outside the model.  A division by zero, which
      gives NaN or an infinity in JavaScript, is [None] of [divide]; it is
      checked where a divisor could be zero ([normalizeChecked]).
    - [Math.random], [Math.hypot], [Math.cos], [Math.sin], [Math.atan2],
      [Math.PI] and [String.prototype.toLowerCase] belong to the host: they
      are the fields of the class [Host].  [Math.random] is a sequence of
      draws; the state counts the calls made so far.
    - A React ref [fooRef.current] is the state field [fooRef]; the React
      state variables [score] and [mode] are state fields too, assigned
      when [setScore] and [setMode] are called.
    - Drawing reads the state and writes only the menu hit rectangles.
    - DOM objects read by the handlers (the canvas and the container
      rectangles) come with each command, in [Env].
    - A computation either completes, or fails with [TypeError] (a property
      read on [undefined]) or [OutOfFuel] (a [while] loop that was not seen
      to stop within the fuel given). *)

From Stdlib Require Import QArith Qround Qabs Qminmax ZArith List Bool String Ascii Lia Lqa.
Import ListNotations.
Open Scope Q_scope.

(** ** Numbers *)

Definition Qltb (a b : Q) : bool := negb (Qle_bool b a).
Definition Qleb (a b : Q) : bool := Qle_bool a b.
Definition Qgtb (a b : Q) : bool := Qltb b a.
Definition Qgeb (a b : Q) : bool := Qle_bool b a.

(** [a || b] on numbers: [b] when [a] is zero. *)
Definition orElse (a b : Q) : Q := if Qeq_bool a 0 then b else a.

(** [a / b] where it is a finite number: dividing by zero gives NaN or an
    infinity in JavaScript, [None] here. *)
Definition divide (a b : Q) : option Q :=
  if Qeq_bool b 0 then None else Some (a / b).

(** [Math.floor], as a number and as an integer. *)
Definition floorZ (a : Q) : Z := Qfloor a.
Definition floor (a : Q) : Q := inject_Z (Qfloor a).

(** ** Data model *)

Module Vector2D.
Record t := mk { x : Q; y : Q }.
End Vector2D.
Abbreviation vec := Vector2D.mk.

Module Bullet.
Record t := mk {
    x : Q;
    y : Q;
    radius : Q;
    speed : Q;
    direction : Vector2D.t;
    homing : bool  (* [undefined] is falsy *)
  }.
End Bullet.

Inductive EnemyKind := asteroid | ufo | bossUfo | bossGolem.

Module Enemy.
Record t := mk {
    position : Vector2D.t;
    width : Q;
    height : Q;
    velocity : Vector2D.t;
    kind : EnemyKind;
    rotation : Q;
    spin : Q;
    hp : Q;
    asteroidRadii : option (list Q)
  }.
End Enemy.

Module Rocket.
Record t := mk {
    position : Vector2D.t;
    width : Q;
    height : Q;
    speed : Q
  }.
End Rocket.

Module Particle.
Record t := mk {
    position : Vector2D.t;
    velocity : Vector2D.t;
    life : Q;
    maxLife : Q;
    sizeStart : Q;
    sizeEnd : Q;
    colorStart : string;
    colorEnd : string;
    additive : bool
  }.
End Particle.

Inductive PowerUpType := spread | laser | homing | shield | slowmo | magnet.

Module PowerUp.
Record t := mk {
    position : Vector2D.t;
    radius : Q;
    type : PowerUpType;
    ttl : Q
  }.
End PowerUp.

Module ScoreOrb.
Record t := mk {
    position : Vector2D.t;
    velocity : Vector2D.t;
    value : Q
  }.
End ScoreOrb.

Module GravityWell.
Record t := mk {
    position : Vector2D.t;
    radius : Q;
    strength : Q;
    drift : Vector2D.t
  }.
End GravityWell.

Module Beam.
Record t := mk {
    origin : Vector2D.t;
    direction : Vector2D.t;
    width : Q;
    ttl : Q
  }.
End Beam.

(** The gameplay fields of [EnvironmentTheme]; the palette fields are only
    read by the drawing code. *)
Module EnvironmentTheme.
Record t := mk {
    name : string;
    starDensity : Q;
    ufoChance : Q;
    enemySpeedMultiplier : Q
  }.
End EnvironmentTheme.

Definition THEMES : list EnvironmentTheme.t :=
  [ EnvironmentTheme.mk "Blue Void" 120 0.45 1.0;
    EnvironmentTheme.mk "Ember Rift" 110 0.3 1.1;
    EnvironmentTheme.mk "Emerald Drift" 130 0.5 0.95;
    EnvironmentTheme.mk "Violet Nebula" 140 0.55 1.0;
    EnvironmentTheme.mk "Icy Expanse" 150 0.4 0.9 ].

Definition THEMES_length : Z := Z.of_nat (List.length THEMES).

Inductive Mode := menu | playing | gameover.

Inductive MenuSection := Controls | PowerUps | Scoring | BossHazards | Maps.

Inductive HitType := hitSection | hitStart.

Module HitRect.
Record t := mk {
    x : Q;
    y : Q;
    w : Q;
    h : Q;
    type : HitType;
    section : option MenuSection
  }.
End HitRect.

Inductive EventKind := meteor.

(** ** The component's state *)

Record Core := mkCore {
  score : Q;
  mode : Mode;
  rocketRef : Rocket.t;
  bulletsRef : list Bullet.t;
  enemiesRef : list Enemy.t;
  particlesRef : list Particle.t
}.

Record Spawn := mkSpawn {
  spawnAccumulatorRef : Q;
  spawnIntervalRef : Q;
  difficultyTimerRef : Q;
  screenShakeRef : Q
}.

Record Gameplay := mkGameplay {
  powerUpsRef : list PowerUp.t;
  scoreOrbsRef : list ScoreOrb.t;
  wellsRef : list GravityWell.t;
  beamsRef : list Beam.t;
  powerupSpawnTimerRef : Q;
  wellSpawnTimerRef : Q;
  hideHUDRef : bool
}.

Record BossEvents := mkBossEvents {
  bossTimerRef : Q;
  eventTimerRef : Q;
  eventActiveRef : option EventKind;
  eventTimeLeftRef : Q;
  meteorSpawnAccRef : Q
}.

Record Effects := mkEffects {
  hasShieldRef : bool;
  shieldTimerRef : Q;
  slowMoRef : Q;
  magnetRef : Q;
  homingRef : Q;
  spreadRef : Q;
  laserRef : Q
}.

Record Combo := mkCombo {
  multiplierRef : Q;
  comboTimerRef : Q
}.

Record Toggles := mkToggles {
  pauseRef : bool;
  highContrastRef : bool;
  reducedMotionRef : bool;
  flashTimerRef : Q
}.

Record ThemeRotation := mkThemeRotation {
  currentThemeIdxRef : Z;
  nextThemeIdxRef : Z;
  themeBlendRef : Q;
  themeTimerRef : Q;
  themeDurationRef : Q;
  themeTransitioningRef : bool
}.

Record Io := mkIo {
  pressedKeysRef : list string;
  aimPositionRef : option Vector2D.t;
  lastTimeRef : option Q;
  menuSectionRef : MenuSection;
  menuHitRectsRef : list HitRect.t;
  randomCalls : nat  (* calls of Math.random so far *)
}.

Record State := mkState {
  core :> Core;
  spawn :> Spawn;
  gameplay :> Gameplay;
  bossEvents :> BossEvents;
  effects :> Effects;
  combo :> Combo;
  toggles :> Toggles;
  themeRotation :> ThemeRotation;
  io :> Io
}.

(** ** Assignments to the refs *)

Definition set_core (c : Core) (s : State) : State :=
  mkState c s s s s s s s s.
Definition set_spawn (c : Spawn) (s : State) : State :=
  mkState s c s s s s s s s.
Definition set_gameplay (c : Gameplay) (s : State) : State :=
  mkState s s c s s s s s s.
Definition set_bossEvents (c : BossEvents) (s : State) : State :=
  mkState s s s c s s s s s.
Definition set_effects (c : Effects) (s : State) : State :=
  mkState s s s s c s s s s.
Definition set_combo (c : Combo) (s : State) : State :=
  mkState s s s s s c s s s.
Definition set_toggles (c : Toggles) (s : State) : State :=
  mkState s s s s s s c s s.
Definition set_themeRotation (c : ThemeRotation) (s : State) : State :=
  mkState s s s s s s s c s.
Definition set_io (c : Io) (s : State) : State :=
  mkState s s s s s s s s c.

Definition set_score (v : Q) (s : State) : State :=
  set_core (mkCore v (mode s) (rocketRef s) (bulletsRef s) (enemiesRef s) (particlesRef s)) s.
Definition set_mode (v : Mode) (s : State) : State :=
  set_core (mkCore (score s) v (rocketRef s) (bulletsRef s) (enemiesRef s) (particlesRef s)) s.
Definition set_rocketRef (v : Rocket.t) (s : State) : State :=
  set_core (mkCore (score s) (mode s) v (bulletsRef s) (enemiesRef s) (particlesRef s)) s.
Definition set_bulletsRef (v : list Bullet.t) (s : State) : State :=
  set_core (mkCore (score s) (mode s) (rocketRef s) v (enemiesRef s) (particlesRef s)) s.
Definition set_enemiesRef (v : list Enemy.t) (s : State) : State :=
  set_core (mkCore (score s) (mode s) (rocketRef s) (bulletsRef s) v (particlesRef s)) s.
Definition set_particlesRef (v : list Particle.t) (s : State) : State :=
  set_core (mkCore (score s) (mode s) (rocketRef s) (bulletsRef s) (enemiesRef s) v) s.

Definition set_spawnAccumulatorRef (v : Q) (s : State) : State :=
  set_spawn (mkSpawn v (spawnIntervalRef s) (difficultyTimerRef s) (screenShakeRef s)) s.
Definition set_spawnIntervalRef (v : Q) (s : State) : State :=
  set_spawn (mkSpawn (spawnAccumulatorRef s) v (difficultyTimerRef s) (screenShakeRef s)) s.
Definition set_difficultyTimerRef (v : Q) (s : State) : State :=
  set_spawn (mkSpawn (spawnAccumulatorRef s) (spawnIntervalRef s) v (screenShakeRef s)) s.
Definition set_screenShakeRef (v : Q) (s : State) : State :=
  set_spawn (mkSpawn (spawnAccumulatorRef s) (spawnIntervalRef s) (difficultyTimerRef s) v) s.

Definition set_powerUpsRef (v : list PowerUp.t) (s : State) : State :=
  set_gameplay (mkGameplay v (scoreOrbsRef s) (wellsRef s) (beamsRef s)
                  (powerupSpawnTimerRef s) (wellSpawnTimerRef s) (hideHUDRef s)) s.
Definition set_scoreOrbsRef (v : list ScoreOrb.t) (s : State) : State :=
  set_gameplay (mkGameplay (powerUpsRef s) v (wellsRef s) (beamsRef s)
                  (powerupSpawnTimerRef s) (wellSpawnTimerRef s) (hideHUDRef s)) s.
Definition set_wellsRef (v : list GravityWell.t) (s : State) : State :=
  set_gameplay (mkGameplay (powerUpsRef s) (scoreOrbsRef s) v (beamsRef s)
                  (powerupSpawnTimerRef s) (wellSpawnTimerRef s) (hideHUDRef s)) s.
Definition set_beamsRef (v : list Beam.t) (s : State) : State :=
  set_gameplay (mkGameplay (powerUpsRef s) (scoreOrbsRef s) (wellsRef s) v
                  (powerupSpawnTimerRef s) (wellSpawnTimerRef s) (hideHUDRef s)) s.
Definition set_hideHUDRef (v : bool) (s : State) : State :=
  set_gameplay (mkGameplay (powerUpsRef s) (scoreOrbsRef s) (wellsRef s) (beamsRef s)
                  (powerupSpawnTimerRef s) (wellSpawnTimerRef s) v) s.

Definition set_bossTimerRef (v : Q) (s : State) : State :=
  set_bossEvents (mkBossEvents v (eventTimerRef s) (eventActiveRef s)
                    (eventTimeLeftRef s) (meteorSpawnAccRef s)) s.
Definition set_eventTimerRef (v : Q) (s : State) : State :=
  set_bossEvents (mkBossEvents (bossTimerRef s) v (eventActiveRef s)
                    (eventTimeLeftRef s) (meteorSpawnAccRef s)) s.
Definition set_eventActiveRef (v : option EventKind) (s : State) : State :=
  set_bossEvents (mkBossEvents (bossTimerRef s) (eventTimerRef s) v
                    (eventTimeLeftRef s) (meteorSpawnAccRef s)) s.
Definition set_eventTimeLeftRef (v : Q) (s : State) : State :=
  set_bossEvents (mkBossEvents (bossTimerRef s) (eventTimerRef s) (eventActiveRef s)
                    v (meteorSpawnAccRef s)) s.
Definition set_meteorSpawnAccRef (v : Q) (s : State) : State :=
  set_bossEvents (mkBossEvents (bossTimerRef s) (eventTimerRef s) (eventActiveRef s)
                    (eventTimeLeftRef s) v) s.

Definition set_hasShieldRef (v : bool) (s : State) : State :=
  set_effects (mkEffects v (shieldTimerRef s) (slowMoRef s) (magnetRef s)
                 (homingRef s) (spreadRef s) (laserRef s)) s.
Definition set_shieldTimerRef (v : Q) (s : State) : State :=
  set_effects (mkEffects (hasShieldRef s) v (slowMoRef s) (magnetRef s)
                 (homingRef s) (spreadRef s) (laserRef s)) s.
Definition set_slowMoRef (v : Q) (s : State) : State :=
  set_effects (mkEffects (hasShieldRef s) (shieldTimerRef s) v (magnetRef s)
                 (homingRef s) (spreadRef s) (laserRef s)) s.
Definition set_magnetRef (v : Q) (s : State) : State :=
  set_effects (mkEffects (hasShieldRef s) (shieldTimerRef s) (slowMoRef s) v
                 (homingRef s) (spreadRef s) (laserRef s)) s.
Definition set_homingRef (v : Q) (s : State) : State :=
  set_effects (mkEffects (hasShieldRef s) (shieldTimerRef s) (slowMoRef s) (magnetRef s)
                 v (spreadRef s) (laserRef s)) s.
Definition set_spreadRef (v : Q) (s : State) : State :=
  set_effects (mkEffects (hasShieldRef s) (shieldTimerRef s) (slowMoRef s) (magnetRef s)
                 (homingRef s) v (laserRef s)) s.
Definition set_laserRef (v : Q) (s : State) : State :=
  set_effects (mkEffects (hasShieldRef s) (shieldTimerRef s) (slowMoRef s) (magnetRef s)
                 (homingRef s) (spreadRef s) v) s.

Definition set_multiplierRef (v : Q) (s : State) : State :=
  set_combo (mkCombo v (comboTimerRef s)) s.
Definition set_comboTimerRef (v : Q) (s : State) : State :=
  set_combo (mkCombo (multiplierRef s) v) s.

Definition set_pauseRef (v : bool) (s : State) : State :=
  set_toggles (mkToggles v (highContrastRef s) (reducedMotionRef s) (flashTimerRef s)) s.
Definition set_highContrastRef (v : bool) (s : State) : State :=
  set_toggles (mkToggles (pauseRef s) v (reducedMotionRef s) (flashTimerRef s)) s.
Definition set_reducedMotionRef (v : bool) (s : State) : State :=
  set_toggles (mkToggles (pauseRef s) (highContrastRef s) v (flashTimerRef s)) s.

Definition set_currentThemeIdxRef (v : Z) (s : State) : State :=
  set_themeRotation (mkThemeRotation v (nextThemeIdxRef s) (themeBlendRef s)
                       (themeTimerRef s) (themeDurationRef s) (themeTransitioningRef s)) s.
Definition set_nextThemeIdxRef (v : Z) (s : State) : State :=
  set_themeRotation (mkThemeRotation (currentThemeIdxRef s) v (themeBlendRef s)
                       (themeTimerRef s) (themeDurationRef s) (themeTransitioningRef s)) s.
Definition set_themeBlendRef (v : Q) (s : State) : State :=
  set_themeRotation (mkThemeRotation (currentThemeIdxRef s) (nextThemeIdxRef s) v
                       (themeTimerRef s) (themeDurationRef s) (themeTransitioningRef s)) s.
Definition set_themeTimerRef (v : Q) (s : State) : State :=
  set_themeRotation (mkThemeRotation (currentThemeIdxRef s) (nextThemeIdxRef s) (themeBlendRef s)
                       v (themeDurationRef s) (themeTransitioningRef s)) s.
Definition set_themeTransitioningRef (v : bool) (s : State) : State :=
  set_themeRotation (mkThemeRotation (currentThemeIdxRef s) (nextThemeIdxRef s) (themeBlendRef s)
                       (themeTimerRef s) (themeDurationRef s) v) s.

Definition set_pressedKeysRef (v : list string) (s : State) : State :=
  set_io (mkIo v (aimPositionRef s) (lastTimeRef s) (menuSectionRef s)
            (menuHitRectsRef s) (randomCalls s)) s.
Definition set_aimPositionRef (v : option Vector2D.t) (s : State) : State :=
  set_io (mkIo (pressedKeysRef s) v (lastTimeRef s) (menuSectionRef s)
            (menuHitRectsRef s) (randomCalls s)) s.
Definition set_lastTimeRef (v : option Q) (s : State) : State :=
  set_io (mkIo (pressedKeysRef s) (aimPositionRef s) v (menuSectionRef s)
            (menuHitRectsRef s) (randomCalls s)) s.
Definition set_menuSectionRef (v : MenuSection) (s : State) : State :=
  set_io (mkIo (pressedKeysRef s) (aimPositionRef s) (lastTimeRef s) v
            (menuHitRectsRef s) (randomCalls s)) s.
Definition set_menuHitRectsRef (v : list HitRect.t) (s : State) : State :=
  set_io (mkIo (pressedKeysRef s) (aimPositionRef s) (lastTimeRef s) (menuSectionRef s)
            v (randomCalls s)) s.
Definition set_randomCalls (v : nat) (s : State) : State :=
  set_io (mkIo (pressedKeysRef s) (aimPositionRef s) (lastTimeRef s) (menuSectionRef s)
            (menuHitRectsRef s) v) s.

(** ** The host *)

Class Host := {
  Math_random : nat -> Q;        (* the n-th value returned by Math.random() *)
  Math_hypot : Q -> Q -> Q;
  Math_cos : Q -> Q;
  Math_sin : Q -> Q;
  Math_atan2 : Q -> Q -> Q;
  Math_PI : Q;
  toLowerCase : string -> string   (* s.toLowerCase() *)
}.

Module DOMRect.
Record t := mk { left : Q; top : Q; width : Q; height : Q }.
End DOMRect.

Module KeyboardEvent.
Record t := mk { key : string; repeat : bool }.
End KeyboardEvent.

Module MouseEvent.
Record t := mk { clientX : Q; clientY : Q }.
End MouseEvent.

(** What the handlers read from the DOM: [canvasRef.current] and
    [containerRef.current] with their bounding rectangles, [None] when the
    ref is null. *)
Record Env := mkEnv {
  canvasRef : option DOMRect.t;
  containerRef : option DOMRect.t
}.

(** ** A concrete host

    Rational stand-ins for the host's functions, for running the model:
    a Lehmer generator (the constants of [createRng]), a square root exact
    to six decimals, truncated series for the cosine and the sine. *)

Fixpoint lehmer (n : nat) : Z :=
  match n with
  | O => 20231105
  | S n' => ((lehmer n' * 48271) mod 2147483647)%Z
  end.

Definition sampleRandom (n : nat) : Q :=
  inject_Z (lehmer (S n) mod 1000) / 1000.

Definition sampleHypot (a b : Q) : Q :=
  inject_Z (Z.sqrt (Qfloor ((a * a + b * b) * 1000000000000))) / 1000000.

Definition sampleCos (t : Q) : Q := 1 - t * t / 2 + t * t * t * t / 24.
Definition sampleSin (t : Q) : Q := t - t * t * t / 6 + t * t * t * t * t / 120.
Definition sampleAtan2 (b a : Q) : Q :=
  if Qeq_bool a 0 then (if Qle_bool 0 b then 1.5708 else -1.5708)
  else (b / a) / (1 + 0.28 * (b / a) * (b / a)).

(** Lower case on the letters A to Z, which is what [toLowerCase] does on
    the key names of an ASCII keyboard. *)
Definition lowerAscii (c : ascii) : ascii :=
  let n := nat_of_ascii c in
  if (Nat.leb 65 n && Nat.leb n 90)%bool then ascii_of_nat (n + 32) else c.

Fixpoint sampleLowerCase (s : string) : string :=
  match s with
  | EmptyString => EmptyString
  | String c s' => String (lowerAscii c) (sampleLowerCase s')
  end.

Definition sampleHost : Host :=
  Build_Host sampleRandom sampleHypot sampleCos sampleSin sampleAtan2 3.1416
    sampleLowerCase.

(** Another stream of draws: the first picks theme 0, the later ones pick
    themes 3 and 4 in turn. *)
Definition redrawRandom (n : nat) : Q :=
  match n with
  | O => 0.1
  | S _ => if Nat.even n then 0.7 else 0.9
  end.

Definition redrawHost : Host :=
  Build_Host redrawRandom sampleHypot sampleCos sampleSin sampleAtan2 3.1416
    sampleLowerCase.

Definition sampleCanvas : DOMRect.t := DOMRect.mk 0 0 800 600.
Definition sampleEnv : Env := mkEnv (Some sampleCanvas) (Some sampleCanvas).

(** ** Sample states *)

(** A game under way: the rocket at the center of the sample canvas, the
    first theme current, sixteen draws made. *)
Definition playingState : State :=
  mkState
    (mkCore 0 playing (Rocket.mk (vec 376 286) 48 28 460) [] [] [])
    (mkSpawn 0 900 0 0)
    (mkGameplay [] [] [] [] 0 0 false)
    (mkBossEvents 0 0 None 0 0)
    (mkEffects false 0 0 0 0 0 0)
    (mkCombo 1 0)
    (mkToggles false false false 0)
    (mkThemeRotation 0 1 0 0 35 false)
    (mkIo [] None None Controls [] 16).

(** Half way through the crossfade from Blue Void to Ember Rift. *)
Definition blendingState : State :=
  set_themeBlendRef 0.5 (set_themeTransitioningRef true playingState).

(** A shield power-up on the rocket, the shield timer still holding 3 s. *)
Definition pickupState : State :=
  set_powerUpsRef [PowerUp.mk (vec 400 300) 10 shield 5]
    (set_shieldTimerRef 3 playingState).

(** A boss among the enemies, and two spawn steps of 1.8 x 900 ms due. *)
Definition bossState : State :=
  set_enemiesRef [Enemy.mk (vec 280 (-100)) 240 120 (vec 0 40) bossUfo 0 0.2 50 None]
    (set_spawnAccumulatorRef 3300 playingState).

(** About to start a transition, in the middle of one, and about to commit. *)
Definition ripeState : State := set_themeTimerRef 35 playingState.
Definition commitState : State :=
  set_themeBlendRef 0.999 (set_themeTransitioningRef true playingState).

(** An asteroid in contact with the rocket, without and with a shield up. *)
Definition contactEnemy : Enemy.t :=
  Enemy.mk (vec 380 290) 20 16 (vec 0 0) asteroid 0 0 2 None.

Definition contactState : State := set_enemiesRef [contactEnemy] playingState.

Definition shieldedState : State :=
  set_shieldTimerRef 5 (set_hasShieldRef true contactState).

(** Two orbs in flight: one at the rocket's center, one far from it. *)
Definition orbsState : State :=
  set_scoreOrbsRef
    [ScoreOrb.mk (vec 400 300) (vec 0 0) 1; ScoreOrb.mk (vec 100 100) (vec 0 60) 1]
    playingState.

(** The menu open, with one section tab and the start button painted. *)
Definition menuState : State :=
  set_menuHitRectsRef
    [HitRect.mk 100 100 120 30 hitSection (Some Maps);
     HitRect.mk 290 400 220 36 hitStart None]
    (set_mode menu playingState).

(** A bullet that has left the canvas on the left. *)
Definition strayState : State :=
  set_bulletsRef [Bullet.mk (-50) 300 3.2 1000 (vec (-1) 0) false] playingState.

(** ** Computations on the state *)

Inductive Failure := OutOfFuel | TypeError.

Inductive Result (A : Type) :=
| Ok (a : A) (s : State)
| Fail (e : Failure).
Arguments Ok {A} a s.
Arguments Fail {A} e.

Definition M (A : Type) : Type := State -> Result A.

Definition ret {A} (a : A) : M A := fun s => Ok a s.

Definition bind {A B} (m : M A) (k : A -> M B) : M B :=
  fun s => match m s with
           | Ok a s' => k a s'
           | Fail e => Fail e
           end.

Definition get : M State := fun s => Ok s s.
Definition modify (f : State -> State) : M unit := fun s => Ok tt (f s).
Definition throw {A} (e : Failure) : M A := fun _ => Fail e.

Declare Scope m_scope.
Delimit Scope m_scope with m.
Notation "x <- m ;; k" := (bind m (fun x => k))
  (at level 61, m at next level, right associativity) : m_scope.
Notation "m ;; k" := (bind m (fun _ => k))
  (at level 61, right associativity) : m_scope.
Notation "' pat <- m ;; k" := (bind m (fun x => match x with pat => k end))
  (at level 61, pat pattern, m at next level, right associativity) : m_scope.
Open Scope m_scope.

(** [for (const a of l) body(a)], for a body that does not change [l]. *)
Fixpoint forEach {A} (l : list A) (body : A -> M unit) : M unit :=
  match l with
  | [] => ret tt
  | a :: l' => body a ;; forEach l' body
  end.

(** [l.map(f)] for an [f] with effects. *)
Fixpoint mapM {A B} (f : A -> M B) (l : list A) : M (list B) :=
  match l with
  | [] => ret []
  | a :: l' => b <- f a ;; bs <- mapM f l' ;; ret (b :: bs)
  end.

(** [for (let i = 0; i < n; i++) body]. *)
Fixpoint times (n : nat) (body : M unit) : M unit :=
  match n with
  | O => ret tt
  | S n' => body ;; times n' body
  end.

(** [new Array(n).fill(0).map(() => f())]. *)
Fixpoint fillMap {A} (n : nat) (f : M A) : M (list A) :=
  match n with
  | O => ret []
  | S n' => a <- f ;; l <- fillMap n' f ;; ret (a :: l)
  end.

(** ** Helpers *)

Definition clamp (v min max : Q) : Q := Qmax min (Qmin max v).
Definition lerp (a b t : Q) : Q := a + (b - a) * t.

(** [array.some(p)], [set.has(k)], [set.add(k)], [set.delete(k)]. *)
Definition has (k : string) (l : list string) : bool := existsb (String.eqb k) l.
Definition add (k : string) (l : list string) : list string :=
  if has k l then l else l ++ [k].
Definition delete (k : string) (l : list string) : list string :=
  filter (fun k' => negb (String.eqb k k')) l.

Definition rectCircleCollide (rectX rectY rectW rectH circleX circleY radius : Q) : bool :=
  let closestX := clamp circleX rectX (rectX + rectW) in
  let closestY := clamp circleY rectY (rectY + rectH) in
  let dx := circleX - closestX in
  let dy := circleY - closestY in
  Qleb (dx * dx + dy * dy) (radius * radius).

Definition rectRectOverlap (ax ay aw ah bx by_ bw bh : Q) : bool :=
  (Qltb ax (bx + bw) && Qgtb (ax + aw) bx && Qltb ay (by_ + bh) && Qgtb (ay + ah) by_)%bool.

Definition isBoss (e : Enemy.t) : bool :=
  match Enemy.kind e with
  | bossUfo | bossGolem => true
  | _ => false
  end.

Definition set_hp (v : Q) (e : Enemy.t) : Enemy.t :=
  Enemy.mk (Enemy.position e) (Enemy.width e) (Enemy.height e) (Enemy.velocity e)
    (Enemy.kind e) (Enemy.rotation e) (Enemy.spin e) v (Enemy.asteroidRadii e).

Definition set_ttl (v : Q) (b : Beam.t) : Beam.t :=
  Beam.mk (Beam.origin b) (Beam.direction b) (Beam.width b) v.

Definition set_position (v : Vector2D.t) (r : Rocket.t) : Rocket.t :=
  Rocket.mk v (Rocket.width r) (Rocket.height r) (Rocket.speed r).

Definition push_particle (p : Particle.t) : M unit :=
  modify (fun s => set_particlesRef (particlesRef s ++ [p]) s).
Definition push_enemy (e : Enemy.t) : M unit :=
  modify (fun s => set_enemiesRef (enemiesRef s ++ [e]) s).
Definition push_bullet (b : Bullet.t) : M unit :=
  modify (fun s => set_bulletsRef (bulletsRef s ++ [b]) s).
Definition push_beam (b : Beam.t) : M unit :=
  modify (fun s => set_beamsRef (beamsRef s ++ [b]) s).
Definition push_orb (o : ScoreOrb.t) : M unit :=
  modify (fun s => set_scoreOrbsRef (scoreOrbsRef s ++ [o]) s).

Section Game.

Context {host : Host}.

(** [Math.random()]: the next draw. *)
Definition random : M Q :=
  fun s => Ok (Math_random (randomCalls s)) (set_randomCalls (S (randomCalls s)) s).

Definition length (v : Vector2D.t) : Q := Math_hypot (Vector2D.x v) (Vector2D.y v).

Definition normalize (v : Vector2D.t) : Vector2D.t :=
  let len := orElse (length v) 1 in
  vec (Vector2D.x v / len) (Vector2D.y v / len).

(** [normalize] with its two divisions checked: [None] when a component
    would be NaN or infinite. *)
Definition normalizeChecked (v : Vector2D.t) : option Vector2D.t :=
  let len := orElse (length v) 1 in
  match divide (Vector2D.x v) len, divide (Vector2D.y v) len with
  | Some x, Some y => Some (vec x y)
  | _, _ => None
  end.

(** ** Theme rotation *)

Fixpoint pickLoop (fuel : nat) (exclude idx : Z) : M Z :=
  if (idx =? exclude)%Z then
    match fuel with
    | O => throw OutOfFuel
    | S fuel' =>
        r <- random ;;
        pickLoop fuel' exclude (floorZ (r * inject_Z THEMES_length))
    end
  else ret idx.

Definition pickNextThemeIndex (fuel : nat) (exclude : Z) : M Z :=
  if (THEMES_length <=? 1)%Z then ret exclude
  else pickLoop fuel exclude exclude.

(** [THEMES[idx]]; [undefined] is [None]. *)
Definition themeAt (idx : Z) : option EnvironmentTheme.t :=
  if (idx <? 0)%Z then None else nth_error THEMES (Z.to_nat idx).

Definition getEffectiveThemeBlend (s : State)
  : option EnvironmentTheme.t * option EnvironmentTheme.t * Q :=
  let idxA := currentThemeIdxRef s in
  let idxB := nextThemeIdxRef s in
  let blend := if themeTransitioningRef s then clamp (themeBlendRef s) 0 1 else 0 in
  (themeAt idxA, themeAt idxB, blend).

(** ** Mode changes *)

Definition resetGame (env : Env) : M unit :=
  modify (set_score 0) ;;
  modify (set_bulletsRef []) ;;
  modify (set_enemiesRef []) ;;
  modify (set_particlesRef []) ;;
  modify (set_spawnAccumulatorRef 0) ;;
  modify (set_spawnIntervalRef 900) ;;
  modify (set_difficultyTimerRef 0) ;;
  modify (set_lastTimeRef None) ;;
  modify (set_screenShakeRef 0) ;;
  match containerRef env with
  | Some rect =>
      modify (fun s =>
        let r := rocketRef s in
        set_rocketRef
          (set_position (vec (DOMRect.width rect / 2 - Rocket.width r / 2)
                             (DOMRect.height rect / 2 - Rocket.height r / 2)) r) s)
  | None => ret tt
  end.

Definition startGame (env : Env) : M unit :=
  resetGame env ;;
  modify (set_mode playing).

(** ** Firing *)

Definition center (r : Rocket.t) : Vector2D.t :=
  vec (Vector2D.x (Rocket.position r) + Rocket.width r / 2)
      (Vector2D.y (Rocket.position r) + Rocket.height r / 2).

Definition muzzleFlash (origin direction : Vector2D.t) : M unit :=
  r1 <- random ;; r2 <- random ;; r3 <- random ;; r4 <- random ;; r5 <- random ;;
  push_particle
    (Particle.mk
       (vec (Vector2D.x origin + Vector2D.x direction * 4)
            (Vector2D.y origin + Vector2D.y direction * 4))
       (vec (Vector2D.x direction * (200 + r1 * 200) + (r2 - 0.5) * 80)
            (Vector2D.y direction * (200 + r3 * 200) + (r4 - 0.5) * 80))
       0
       (0.18 + r5 * 0.12)
       4
       0
       "rgba(255,210,120,0.9)"
       "rgba(255,120,40,0.0)"
       true).

Definition makeBullet (origin dir : Vector2D.t) : M unit :=
  push_bullet (Bullet.mk (Vector2D.x origin) (Vector2D.y origin) 3.2 1000 dir false).

(** The direction from the rocket's center to the aim, and the nose tip. *)
Definition aimDirection (s : State) : Vector2D.t :=
  let rocket := rocketRef s in
  let center := center rocket in
  let aim :=
    match aimPositionRef s with
    | Some a => a
    | None => vec (Vector2D.x center) (Vector2D.y center - 1)
    end in
  normalize (vec (Vector2D.x aim - Vector2D.x center)
                 (Vector2D.y aim - Vector2D.y center)).

Definition noseTip (s : State) : Vector2D.t :=
  let rocket := rocketRef s in
  let center := center rocket in
  let direction := aimDirection s in
  let noseOffset := Rocket.width rocket * 0.52 in
  vec (Vector2D.x center + Vector2D.x direction * noseOffset)
      (Vector2D.y center + Vector2D.y direction * noseOffset).

Definition shootBullet (env : Env) : M unit :=
  match canvasRef env with
  | None => ret tt
  | Some _ =>
      s <- get ;;
      let direction := aimDirection s in
      let origin := noseTip s in
      if Qgtb (laserRef s) 0 then
        push_beam (Beam.mk origin direction 6 0.12)
      else
        (if Qgtb (spreadRef s) 0 then
           let ang := Math_atan2 (Vector2D.y direction) (Vector2D.x direction) in
           let off := 0.18 in
           makeBullet origin (vec (Math_cos (ang - off)) (Math_sin (ang - off))) ;;
           makeBullet origin direction ;;
           makeBullet origin (vec (Math_cos (ang + off)) (Math_sin (ang + off)))
         else
           makeBullet origin direction) ;;
        times 8 (muzzleFlash origin direction)
  end.

(** ** Spawning and destruction *)

(** The theme [spawnEnemy] reads its parameters from. *)
Definition spawnTheme (s : State) : option EnvironmentTheme.t :=
  let '(themeA, themeB, blend) := getEffectiveThemeBlend s in
  if Qgtb blend 0 then themeB else themeA.

(** The body of [spawnEnemy] once the theme is chosen. *)
Definition spawnFrom (theme : EnvironmentTheme.t) (width height : Q) : M unit :=
  redge <- random ;;
  let edge := floorZ (redge * 4) in
  r1 <- random ;;
  let '(x, y) :=
    if (edge =? 0)%Z then (r1 * width, -20)
    else if (edge =? 1)%Z then (width + 20, r1 * height)
    else if (edge =? 2)%Z then (r1 * width, height + 20)
    else (-20, r1 * height) in
  rkind <- random ;;
  let kind := if Qltb rkind (EnvironmentTheme.ufoChance theme) then ufo else asteroid in
  '(enemyWidth, enemyHeight, hp, asteroidRadii) <-
    match kind with
    | asteroid =>
        rb <- random ;;
        let base := 20 + rb * 18 in
        rs <- random ;;
        let segments := (10 + floorZ (rs * 5))%Z in
        radii <- fillMap (Z.to_nat segments)
                   (r <- random ;; ret (base + (r * 10 - 5))) ;;
        rh <- random ;;
        ret (base * 2, base * 2, 2 + (if Qltb rh 0.5 then 1 else 0), Some radii)
    | _ =>
        rw <- random ;;
        rh <- random ;;
        ret (52 + rw * 12, 26 + rh * 6, 2, None)
    end ;;
  s <- get ;;
  let rocket := rocketRef s in
  rx <- random ;;
  ry <- random ;;
  let target :=
    vec (Vector2D.x (Rocket.position rocket) + Rocket.width rocket / 2 + (rx * 80 - 40))
        (Vector2D.y (Rocket.position rocket) + Rocket.height rocket / 2 + (ry * 80 - 40)) in
  let dir := normalize (vec (Vector2D.x target - x) (Vector2D.y target - y)) in
  rspeed <- random ;;
  let speed := (90 + rspeed * 140) * EnvironmentTheme.enemySpeedMultiplier theme in
  rrot <- random ;;
  rspin <- random ;;
  push_enemy
    (Enemy.mk
       (vec (x - enemyWidth / 2) (y - enemyHeight / 2))
       enemyWidth
       enemyHeight
       (vec (Vector2D.x dir * speed) (Vector2D.y dir * speed))
       kind
       (rrot * Math_PI * 2)
       ((rspin - 0.5) * 1.6)
       hp
       asteroidRadii).

Definition spawnEnemy (width height : Q) : M unit :=
  s <- get ;;
  match spawnTheme s with
  | None => throw TypeError  (* theme.ufoChance on undefined *)
  | Some theme => spawnFrom theme width height
  end.

Definition explosionParticle (x y : Q) (kind : EnemyKind) : M unit :=
  rang <- random ;;
  let ang := rang * Math_PI * 2 in
  rspd <- random ;;
  let spd := 120 + rspd * 240 in
  let vel := vec (Math_cos ang * spd) (Math_sin ang * spd) in
  rlife <- random ;;
  let life := 0.5 + rlife * 0.4 in
  match kind with
  | asteroid =>
      r1 <- random ;;
      push_particle
        (Particle.mk (vec x y) (vec (Vector2D.x vel * 0.8) (Vector2D.y vel * 0.8))
           0 life (4 + r1 * 3) 0
           "rgba(255,185,90,0.95)" "rgba(255,80,30,0.0)" true) ;;
      r2 <- random ;;
      push_particle
        (Particle.mk (vec x y) (vec (Vector2D.x vel * 0.3) (Vector2D.y vel * 0.3))
           0 (life + 0.2) (2 + r2 * 2) 0
           "rgba(200,200,200,0.9)" "rgba(180,180,180,0.0)" false)
  | _ =>
      r1 <- random ;;
      push_particle
        (Particle.mk (vec x y) (vec (Vector2D.x vel) (Vector2D.y vel))
           0 life (3.5 + r1 * 2.5) 0
           "rgba(140,220,255,0.95)" "rgba(80,160,255,0.0)" true)
  end.

Definition createExplosion (x y : Q) (kind : EnemyKind) : M unit :=
  let count := match kind with asteroid => 30%nat | _ => 24%nat end in
  times count (explosionParticle x y kind) ;;
  modify (fun s => set_screenShakeRef (Qmax (screenShakeRef s) 6) s).

Definition spawnOrb (cx cy : Q) : M unit :=
  rang <- random ;;
  let ang := rang * Math_PI * 2 in
  rspd <- random ;;
  let spd := 60 + rspd * 120 in
  push_orb (ScoreOrb.mk (vec cx cy) (vec (Math_cos ang * spd) (Math_sin ang * spd)) 1).

Definition onEnemyDestroyed (enemy : Enemy.t) : M unit :=
  let cx := Vector2D.x (Enemy.position enemy) + Enemy.width enemy / 2 in
  let cy := Vector2D.y (Enemy.position enemy) + Enemy.height enemy / 2 in
  modify (fun s => set_score (score s + Qmax 1 (floor (multiplierRef s))) s) ;;
  modify (fun s => set_multiplierRef (Qmin 5 (multiplierRef s + 0.2)) s) ;;
  modify (set_comboTimerRef 0) ;;
  rorbs <- random ;;
  let orbs := (2 + floorZ (rorbs * 3))%Z in
  times (Z.to_nat orbs) (spawnOrb cx cy) ;;
  createExplosion cx cy (Enemy.kind enemy).

(** The movement keys, read as in [update] and [spawnThruster]. *)
Definition moveIntent (pressed : list string) : Q * Q :=
  let left := (has "arrowleft" pressed || has "a" pressed)%bool in
  let right := (has "arrowright" pressed || has "d" pressed)%bool in
  let up := (has "arrowup" pressed || has "w" pressed)%bool in
  let down := (has "arrowdown" pressed || has "s" pressed)%bool in
  let moveX := if (left && negb right)%bool then -1
               else if (right && negb left)%bool then 1 else 0 in
  let moveY := if (up && negb down)%bool then -1
               else if (down && negb up)%bool then 1 else 0 in
  (moveX, moveY).

Definition isMoving (mv : Q * Q) : bool :=
  (negb (Qeq_bool (fst mv) 0) || negb (Qeq_bool (snd mv) 0))%bool.

Definition thrusterParticle (rocket : Rocket.t) (center dir : Vector2D.t) : M unit :=
  rj <- random ;;
  let jitter := (rj - 0.5) * 0.6 in
  let back := vec (Vector2D.x center - Vector2D.x dir * (Rocket.width rocket * 0.6))
                  (Vector2D.y center - Vector2D.y dir * (Rocket.height rocket * 0.6)) in
  r1 <- random ;; r2 <- random ;; r3 <- random ;; r4 <- random ;;
  r5 <- random ;; r6 <- random ;;
  push_particle
    (Particle.mk
       (vec (Vector2D.x back + - Vector2D.y dir * (r1 * 6 - 3))
            (Vector2D.y back + Vector2D.x dir * (r2 * 6 - 3)))
       (vec (- Vector2D.x dir * (120 + r3 * 120) + jitter * 40)
            (- Vector2D.y dir * (120 + r4 * 120) + jitter * 40))
       0
       (0.35 + r5 * 0.2)
       (3 + r6 * 2)
       0
       "rgba(255,220,140,0.9)"
       "rgba(255,120,40,0.0)"
       true).

Definition spawnThruster (dt : Q) : M unit :=
  s <- get ;;
  let rocket := rocketRef s in
  let center := center rocket in
  let mv := moveIntent (pressedKeysRef s) in
  let moving := isMoving mv in
  let dir := if moving then normalize (vec (fst mv) (snd mv)) else vec 0 1 in
  let rate := if moving then 90 else 45 in
  let count := floorZ (rate * dt) in
  times (Z.to_nat count) (thrusterParticle rocket center dir).

(** ** The passes of [update], in source order *)

(** Input and ship movement. *)
Definition moveShip (dt width height : Q) : M unit :=
  modify (fun s =>
    let rocket := rocketRef s in
    let mv := moveIntent (pressedKeysRef s) in
    let pos := Rocket.position rocket in
    let pos :=
      if isMoving mv then
        let n := normalize (vec (fst mv) (snd mv)) in
        vec (Vector2D.x pos + Vector2D.x n * Rocket.speed rocket * dt)
            (Vector2D.y pos + Vector2D.y n * Rocket.speed rocket * dt)
      else pos in
    set_rocketRef
      (set_position
         (vec (clamp (Vector2D.x pos) 0 (width - Rocket.width rocket))
              (clamp (Vector2D.y pos) 0 (height - Rocket.height rocket)))
         rocket) s).

(** Theme rotation. *)
Definition themeRotate (fuel : nat) (dt : Q) : M unit :=
  modify (fun s => set_themeTimerRef (themeTimerRef s + dt) s) ;;
  s <- get ;;
  (if (negb (themeTransitioningRef s) && Qgtb (themeTimerRef s) (themeDurationRef s))%bool
   then
     modify (set_themeTransitioningRef true) ;;
     modify (set_themeBlendRef 0) ;;
     modify (set_themeTimerRef 0) ;;
     s <- get ;;
     idx <- pickNextThemeIndex fuel (currentThemeIdxRef s) ;;
     modify (set_nextThemeIdxRef idx)
   else ret tt) ;;
  s <- get ;;
  if themeTransitioningRef s then
    modify (fun s => set_themeBlendRef (themeBlendRef s + dt / 4) s) ;;
    s <- get ;;
    if Qgeb (themeBlendRef s) 1 then
      modify (set_themeBlendRef 0) ;;
      modify (set_themeTransitioningRef false) ;;
      modify (fun s => set_currentThemeIdxRef (nextThemeIdxRef s) s) ;;
      s <- get ;;
      idx <- pickNextThemeIndex fuel (currentThemeIdxRef s) ;;
      modify (set_nextThemeIdxRef idx)
    else ret tt
  else ret tt.

(** Combo decay. *)
Definition comboDecay (dt : Q) : M unit :=
  modify (fun s => set_comboTimerRef (comboTimerRef s + dt) s) ;;
  s <- get ;;
  if Qgtb (comboTimerRef s) 2.5 then
    modify (fun s => set_multiplierRef (Qmax 1 (multiplierRef s - dt * 0.4)) s)
  else ret tt.

(** Difficulty. *)
Definition difficulty (dt : Q) : M unit :=
  modify (fun s => set_difficultyTimerRef (difficultyTimerRef s + dt * 1000) s) ;;
  s <- get ;;
  if Qgtb (difficultyTimerRef s) 5000 then
    modify (set_difficultyTimerRef 0) ;;
    modify (fun s => set_spawnIntervalRef (Qmax 220 (spawnIntervalRef s - 40)) s)
  else ret tt.

(** Spawning: [while (spawnAccumulatorRef.current >= spawnStep) ...]. *)
Fixpoint spawnLoop (fuel : nat) (spawnStep : Q) (bossAlive : bool) (width height : Q)
  : M unit :=
  s <- get ;;
  if Qgeb (spawnAccumulatorRef s) spawnStep then
    match fuel with
    | O => throw OutOfFuel
    | S fuel' =>
        modify (fun s => set_spawnAccumulatorRef (spawnAccumulatorRef s - spawnStep) s) ;;
        (if negb bossAlive then spawnEnemy width height else ret tt) ;;
        spawnLoop fuel' spawnStep bossAlive width height
    end
  else ret tt.

Definition bossAliveIn (enemies : list Enemy.t) : bool := existsb isBoss enemies.

Definition spawnStepOf (bossAlive : bool) (s : State) : Q :=
  if bossAlive then spawnIntervalRef s * 1.8 else spawnIntervalRef s.

(** Returns [bossAlive], which the boss pass reads again. *)
Definition spawning (fuel : nat) (dt width height : Q) : M bool :=
  modify (fun s => set_spawnAccumulatorRef (spawnAccumulatorRef s + dt * 1000) s) ;;
  s <- get ;;
  let bossAlive := bossAliveIn (enemiesRef s) in
  let spawnStep := spawnStepOf bossAlive s in
  spawnLoop fuel spawnStep bossAlive width height ;;
  ret bossAlive.

(** Boss waves. *)
Definition bossWaves (bossAlive : bool) (dt width : Q) : M unit :=
  modify (fun s => set_bossTimerRef (bossTimerRef s + dt) s) ;;
  s <- get ;;
  if (negb bossAlive && Qgtb (bossTimerRef s) 45)%bool then
    modify (set_bossTimerRef 0) ;;
    rk <- random ;;
    if Qltb rk 0.5 then
      rv <- random ;;
      push_enemy
        (Enemy.mk (vec (width / 2 - 120) (-100)) 240 120
           (vec ((rv - 0.5) * 30) 40) bossUfo 0 0.2 50 None)
    else
      let base := 80 in
      let segments := 14%nat in
      radii <- fillMap segments (r <- random ;; ret (base + (r * 24 - 12))) ;;
      rx <- random ;;
      rvx <- random ;;
      rrot <- random ;;
      rspin <- random ;;
      push_enemy
        (Enemy.mk (vec (rx * (width - base * 2)) (- base * 2)) (base * 2) (base * 2)
           (vec ((rvx - 0.5) * 20) 35) bossGolem (rrot * Math_PI * 2)
           ((rspin - 0.5) * 0.6) 60 (Some radii))
  else ret tt.

(** Meteor shower: [while (meteorSpawnAccRef.current > meteorInterval) ...]. *)
Fixpoint meteorLoop (fuel : nat) (width : Q) : M unit :=
  let meteorInterval := 180 in
  s <- get ;;
  if Qgtb (meteorSpawnAccRef s) meteorInterval then
    match fuel with
    | O => throw OutOfFuel
    | S fuel' =>
        modify (fun s => set_meteorSpawnAccRef (meteorSpawnAccRef s - meteorInterval) s) ;;
        rw <- random ;;
        let w := 18 + rw * 10 in
        rh <- random ;;
        let h := 14 + rh * 8 in
        rx <- random ;;
        let x := rx * width in
        rvx <- random ;;
        rvy <- random ;;
        rrot <- random ;;
        rspin <- random ;;
        push_enemy
          (Enemy.mk (vec x (- h - 10)) w h
             (vec ((rvx - 0.5) * 80) (260 + rvy * 80)) asteroid (rrot * Math_PI * 2)
             ((rspin - 0.5) * 2.0) 1
             (Some [w / 2; w / 2.4; w / 2.1; w / 2.6; w / 2.2; w / 2.5])) ;;
        meteorLoop fuel' width
    end
  else ret tt.

Definition events (fuel : nat) (dt width : Q) : M unit :=
  modify (fun s => set_eventTimerRef (eventTimerRef s + dt) s) ;;
  s <- get ;;
  (match eventActiveRef s with
   | None =>
       if Qgtb (eventTimerRef s) 25 then
         modify (set_eventActiveRef (Some meteor)) ;;
         modify (set_eventTimeLeftRef 8) ;;
         modify (set_eventTimerRef 0) ;;
         modify (set_meteorSpawnAccRef 0)
       else ret tt
   | Some _ => ret tt
   end) ;;
  s <- get ;;
  match eventActiveRef s with
  | Some meteor =>
      modify (fun s => set_eventTimeLeftRef (eventTimeLeftRef s - dt) s) ;;
      modify (fun s => set_meteorSpawnAccRef (meteorSpawnAccRef s + dt * 1000) s) ;;
      meteorLoop fuel width ;;
      s <- get ;;
      if Qleb (eventTimeLeftRef s) 0 then modify (set_eventActiveRef None) else ret tt
  | None => ret tt
  end.

(** Gravity wells drift. *)
Definition driftWell (dt : Q) (w : GravityWell.t) : GravityWell.t :=
  GravityWell.mk
    (vec (Vector2D.x (GravityWell.position w) + Vector2D.x (GravityWell.drift w) * dt)
         (Vector2D.y (GravityWell.position w) + Vector2D.y (GravityWell.drift w) * dt))
    (GravityWell.radius w) (GravityWell.strength w) (GravityWell.drift w).

Definition updateWells (dt : Q) : M unit :=
  modify (fun s => set_wellsRef (map (driftWell dt) (wellsRef s)) s).

(** Slow-mo: returns [effectiveDt]. *)
Definition slowMo (dt : Q) : M Q :=
  s <- get ;;
  let effectiveDt := if Qgtb (slowMoRef s) 0 then dt * 0.6 else dt in
  (if Qgtb (slowMoRef s) 0 then modify (fun s => set_slowMoRef (slowMoRef s - dt) s)
   else ret tt) ;;
  ret effectiveDt.

(** Enemy motion and the pull of the wells. *)
Definition pull (effectiveDt : Q) (position : Vector2D.t) (width height : Q)
  (velocity : Vector2D.t) (w : GravityWell.t) : Vector2D.t :=
  let to := vec (Vector2D.x (GravityWell.position w) - (Vector2D.x position + width / 2))
                (Vector2D.y (GravityWell.position w) - (Vector2D.y position + height / 2)) in
  let d := orElse (Math_hypot (Vector2D.x to) (Vector2D.y to)) 1 in
  if Qltb d (GravityWell.radius w) then
    let n := vec (Vector2D.x to / d) (Vector2D.y to / d) in
    let pull := (1 - d / GravityWell.radius w) * GravityWell.strength w in
    vec (Vector2D.x velocity + Vector2D.x n * pull * effectiveDt)
        (Vector2D.y velocity + Vector2D.y n * pull * effectiveDt)
  else velocity.

Definition moveEnemy (effectiveDt : Q) (wells : list GravityWell.t) (enemy : Enemy.t)
  : Enemy.t :=
  let position :=
    vec (Vector2D.x (Enemy.position enemy) + Vector2D.x (Enemy.velocity enemy) * effectiveDt)
        (Vector2D.y (Enemy.position enemy) + Vector2D.y (Enemy.velocity enemy) * effectiveDt) in
  let rotation := Enemy.rotation enemy + Enemy.spin enemy * effectiveDt in
  let velocity :=
    fold_left (pull effectiveDt position (Enemy.width enemy) (Enemy.height enemy))
      wells (Enemy.velocity enemy) in
  Enemy.mk position (Enemy.width enemy) (Enemy.height enemy) velocity (Enemy.kind enemy)
    rotation (Enemy.spin enemy) (Enemy.hp enemy) (Enemy.asteroidRadii enemy).

Definition updateEnemies (effectiveDt : Q) : M unit :=
  modify (fun s => set_enemiesRef (map (moveEnemy effectiveDt (wellsRef s)) (enemiesRef s)) s).

(** Bullet motion, with homing.  [bestDist] starts at [Infinity]: [None]. *)
Definition enemyCenter (e : Enemy.t) : Vector2D.t :=
  vec (Vector2D.x (Enemy.position e) + Enemy.width e / 2)
      (Vector2D.y (Enemy.position e) + Enemy.height e / 2).

Definition nearer (bx by_ : Q) (best : option (Enemy.t * Q)) (e : Enemy.t)
  : option (Enemy.t * Q) :=
  let ex := Vector2D.x (enemyCenter e) in
  let ey := Vector2D.y (enemyCenter e) in
  let d := (ex - bx) * (ex - bx) + (ey - by_) * (ey - by_) in
  match best with
  | None => Some (e, d)
  | Some (_, bestDist) => if Qltb d bestDist then Some (e, d) else best
  end.

Definition steer (enemies : list Enemy.t) (bullet : Bullet.t) : Vector2D.t :=
  match fold_left (nearer (Bullet.x bullet) (Bullet.y bullet)) enemies None with
  | Some (best, _) =>
      let ex := Vector2D.x (enemyCenter best) in
      let ey := Vector2D.y (enemyCenter best) in
      let desired := normalize (vec (ex - Bullet.x bullet) (ey - Bullet.y bullet)) in
      let dx := lerp (Vector2D.x (Bullet.direction bullet)) (Vector2D.x desired) 0.08 in
      let dy := lerp (Vector2D.y (Bullet.direction bullet)) (Vector2D.y desired) 0.08 in
      let L := orElse (Math_hypot dx dy) 1 in
      vec (dx / L) (dy / L)
  | None => Bullet.direction bullet
  end.

Definition moveBullet (effectiveDt : Q) (bullet : Bullet.t) : M Bullet.t :=
  s <- get ;;
  homing <- (if (Qgtb (homingRef s) 0 && negb (Bullet.homing bullet))%bool
             then r <- random ;; ret (Qltb r 0.5)
             else ret (Bullet.homing bullet)) ;;
  let direction :=
    if homing then steer (enemiesRef s) bullet else Bullet.direction bullet in
  ret (Bullet.mk
         (Bullet.x bullet + Vector2D.x direction * effectiveDt * Bullet.speed bullet)
         (Bullet.y bullet + Vector2D.y direction * effectiveDt * Bullet.speed bullet)
         (Bullet.radius bullet) (Bullet.speed bullet) direction homing).

Definition updateBullets (effectiveDt : Q) : M unit :=
  s <- get ;;
  bullets <- mapM (moveBullet effectiveDt) (bulletsRef s) ;;
  modify (set_bulletsRef bullets).

(** Beams: ttl and damage. *)
Definition inCapsule (b : Beam.t) (e : Enemy.t) : bool :=
  let nx := - Vector2D.y (Beam.direction b) in
  let ny := Vector2D.x (Beam.direction b) in
  let half := Beam.width b / 2 + 2 in
  let ex := Vector2D.x (Enemy.position e) + Enemy.width e / 2 in
  let ey := Vector2D.y (Enemy.position e) + Enemy.height e / 2 in
  let to := vec (ex - Vector2D.x (Beam.origin b)) (ey - Vector2D.y (Beam.origin b)) in
  let distSide := Qabs (Vector2D.x to * nx + Vector2D.y to * ny) in
  let along := Vector2D.x to * Vector2D.x (Beam.direction b)
               + Vector2D.y to * Vector2D.y (Beam.direction b) in
  (Qltb distSide half && Qgtb along (-20))%bool.

Definition beamDamage (b : Beam.t) (e : Enemy.t) : Enemy.t :=
  if inCapsule b e then set_hp (Enemy.hp e - 0.8) e else e.

Fixpoint beamsLoop (dt : Q) (beams remainingBeams : list Beam.t) : M (list Beam.t) :=
  match beams with
  | [] => ret remainingBeams
  | b :: beams' =>
      let b := set_ttl (Beam.ttl b - dt) b in
      let remainingBeams :=
        if Qgtb (Beam.ttl b) 0 then remainingBeams ++ [b] else remainingBeams in
      modify (fun s => set_enemiesRef (map (beamDamage b) (enemiesRef s)) s) ;;
      beamsLoop dt beams' remainingBeams
  end.

Definition updateBeams (dt : Q) : M unit :=
  s <- get ;;
  remainingBeams <- beamsLoop dt (beamsRef s) [] ;;
  modify (set_beamsRef remainingBeams).

(** Collisions bullets vs enemies.  [before] are the bullets already passed
    by the index [i], [after] those from [i] on; [splice(i, 1)] drops the
    head of [after]. *)
Definition impactParticle (bullet : Bullet.t) : M unit :=
  r1 <- random ;;
  r2 <- random ;;
  push_particle
    (Particle.mk (vec (Bullet.x bullet) (Bullet.y bullet))
       (vec ((r1 - 0.5) * 120) ((r2 - 0.5) * 120))
       0 0.25 3 0 "rgba(255,200,120,0.9)" "rgba(255,100,30,0.0)" true).

Definition hits (enemy : Enemy.t) (bullet : Bullet.t) : bool :=
  rectCircleCollide
    (Vector2D.x (Enemy.position enemy)) (Vector2D.y (Enemy.position enemy))
    (Enemy.width enemy) (Enemy.height enemy)
    (Bullet.x bullet) (Bullet.y bullet) (Bullet.radius bullet).

Fixpoint bulletLoop (enemy : Enemy.t) (before after : list Bullet.t)
  : M (Enemy.t * bool) :=
  match after with
  | [] => ret (enemy, false)
  | bullet :: after' =>
      if hits enemy bullet then
        modify (set_bulletsRef (before ++ after')) ;;
        let enemy := set_hp (Enemy.hp enemy - 1) enemy in
        impactParticle bullet ;;
        if Qleb (Enemy.hp enemy) 0 then
          onEnemyDestroyed enemy ;;
          ret (enemy, true)
        else bulletLoop enemy before after'
      else bulletLoop enemy (before ++ [bullet]) after'
  end.

Fixpoint enemyLoop (enemies remainingEnemies : list Enemy.t) : M (list Enemy.t) :=
  match enemies with
  | [] => ret remainingEnemies
  | enemy :: enemies' =>
      s <- get ;;
      '(enemy, isDestroyed) <- bulletLoop enemy [] (bulletsRef s) ;;
      enemyLoop enemies'
        (if negb isDestroyed then remainingEnemies ++ [enemy] else remainingEnemies)
  end.

Definition onScreen (width height : Q) (bullet : Bullet.t) : bool :=
  (Qgeb (Bullet.x bullet + Bullet.radius bullet) 0
   && Qleb (Bullet.x bullet - Bullet.radius bullet) width
   && Qgeb (Bullet.y bullet + Bullet.radius bullet) 0
   && Qleb (Bullet.y bullet - Bullet.radius bullet) height)%bool.

Definition inMargin (width height : Q) (e : Enemy.t) : bool :=
  (Qgeb (Vector2D.x (Enemy.position e) + Enemy.width e) (-80)
   && Qleb (Vector2D.x (Enemy.position e)) (width + 80)
   && Qgeb (Vector2D.y (Enemy.position e) + Enemy.height e) (-80)
   && Qleb (Vector2D.y (Enemy.position e)) (height + 80))%bool.

Definition collisions (width height : Q) : M unit :=
  s <- get ;;
  remainingEnemies <- enemyLoop (enemiesRef s) [] ;;
  s <- get ;;
  let remainingBullets := filter (onScreen width height) (bulletsRef s) in
  modify (set_enemiesRef (filter (inMargin width height) remainingEnemies)) ;;
  modify (set_bulletsRef remainingBullets).

(** Score orbs (magnet). *)
Fixpoint orbsLoop (effectiveDt : Q) (orbs remainingOrbs : list ScoreOrb.t)
  : M (list ScoreOrb.t) :=
  match orbs with
  | [] => ret remainingOrbs
  | orb :: orbs' =>
      s <- get ;;
      let rocket := rocketRef s in
      let velocity :=
        if Qgtb (magnetRef s) 0 then
          let cx := Vector2D.x (Rocket.position rocket) + Rocket.width rocket / 2 in
          let cy := Vector2D.y (Rocket.position rocket) + Rocket.height rocket / 2 in
          let dir := normalize (vec (cx - Vector2D.x (ScoreOrb.position orb))
                                    (cy - Vector2D.y (ScoreOrb.position orb))) in
          vec (lerp (Vector2D.x (ScoreOrb.velocity orb)) (Vector2D.x dir * 220) 0.08)
              (lerp (Vector2D.y (ScoreOrb.velocity orb)) (Vector2D.y dir * 220) 0.08)
        else ScoreOrb.velocity orb in
      let position :=
        vec (Vector2D.x (ScoreOrb.position orb) + Vector2D.x velocity * effectiveDt)
            (Vector2D.y (ScoreOrb.position orb) + Vector2D.y velocity * effectiveDt) in
      let orb := ScoreOrb.mk position velocity (ScoreOrb.value orb) in
      let dx := Vector2D.x position
                - (Vector2D.x (Rocket.position rocket) + Rocket.width rocket / 2) in
      let dy := Vector2D.y position
                - (Vector2D.y (Rocket.position rocket) + Rocket.height rocket / 2) in
      if Qltb (dx * dx + dy * dy) (26 * 26) then
        modify (fun s => set_score (score s + ScoreOrb.value orb) s) ;;
        orbsLoop effectiveDt orbs' remainingOrbs
      else orbsLoop effectiveDt orbs' (remainingOrbs ++ [orb])
  end.

Definition updateOrbs (effectiveDt : Q) : M unit :=
  s <- get ;;
  remainingOrbs <- orbsLoop effectiveDt (scoreOrbsRef s) [] ;;
  modify (set_scoreOrbsRef remainingOrbs).

(** Power-up TTL and collection. *)
Definition collect (type : PowerUpType) : M unit :=
  match type with
  | shield =>
      modify (set_hasShieldRef true) ;;
      modify (set_shieldTimerRef 8)
  | slowmo => modify (set_slowMoRef 6)
  | magnet => modify (set_magnetRef 10)
  | homing => modify (set_homingRef 10)
  | spread => modify (set_spreadRef 10)
  | laser => modify (set_laserRef 6)
  end.

Definition inPickupRange (rocket : Rocket.t) (p : PowerUp.t) : bool :=
  let dx := Vector2D.x (PowerUp.position p)
            - (Vector2D.x (Rocket.position rocket) + Rocket.width rocket / 2) in
  let dy := Vector2D.y (PowerUp.position p)
            - (Vector2D.y (Rocket.position rocket) + Rocket.height rocket / 2) in
  let r := PowerUp.radius p + Qmax (Rocket.width rocket) (Rocket.height rocket) * 0.25 in
  Qltb (dx * dx + dy * dy) (r * r).

Fixpoint powerUpsLoop (dt : Q) (pups remainingPups : list PowerUp.t)
  : M (list PowerUp.t) :=
  match pups with
  | [] => ret remainingPups
  | p :: pups' =>
      let p := PowerUp.mk (PowerUp.position p) (PowerUp.radius p) (PowerUp.type p)
                 (PowerUp.ttl p - dt) in
      s <- get ;;
      if inPickupRange (rocketRef s) p then
        collect (PowerUp.type p) ;;
        powerUpsLoop dt pups' remainingPups
      else if Qgtb (PowerUp.ttl p) 0 then
        powerUpsLoop dt pups' (remainingPups ++ [p])
      else powerUpsLoop dt pups' remainingPups
  end.

Definition updatePowerUps (dt : Q) : M unit :=
  s <- get ;;
  remainingPups <- powerUpsLoop dt (powerUpsRef s) [] ;;
  modify (set_powerUpsRef remainingPups).

(** Decrement timers. *)
Definition decrementTimers (dt : Q) : M unit :=
  s <- get ;;
  (if Qgtb (shieldTimerRef s) 0 then
     modify (fun s => set_shieldTimerRef (shieldTimerRef s - dt) s) ;;
     s <- get ;;
     if Qleb (shieldTimerRef s) 0 then modify (set_hasShieldRef false) else ret tt
   else ret tt) ;;
  s <- get ;;
  (if Qgtb (magnetRef s) 0 then modify (fun s => set_magnetRef (magnetRef s - dt) s)
   else ret tt) ;;
  s <- get ;;
  (if Qgtb (homingRef s) 0 then modify (fun s => set_homingRef (homingRef s - dt) s)
   else ret tt) ;;
  s <- get ;;
  (if Qgtb (spreadRef s) 0 then modify (fun s => set_spreadRef (spreadRef s - dt) s)
   else ret tt) ;;
  s <- get ;;
  (if Qgtb (laserRef s) 0 then modify (fun s => set_laserRef (laserRef s - dt) s)
   else ret tt).

(** Particles. *)
Definition ageParticle (dt effectiveDt : Q) (p : Particle.t) : Particle.t :=
  Particle.mk
    (vec (Vector2D.x (Particle.position p) + Vector2D.x (Particle.velocity p) * effectiveDt)
         (Vector2D.y (Particle.position p) + Vector2D.y (Particle.velocity p) * effectiveDt))
    (vec (Vector2D.x (Particle.velocity p) * 0.98) (Vector2D.y (Particle.velocity p) * 0.98))
    (Particle.life p + dt) (Particle.maxLife p) (Particle.sizeStart p) (Particle.sizeEnd p)
    (Particle.colorStart p) (Particle.colorEnd p) (Particle.additive p).

Definition updateParticles (dt effectiveDt : Q) : M unit :=
  modify (fun s =>
    set_particlesRef
      (filter (fun p => Qleb (Particle.life p) (Particle.maxLife p))
         (map (ageParticle dt effectiveDt) (particlesRef s))) s).

(** Screen shake decay. *)
Definition shakeDecay : M unit :=
  modify (fun s =>
    if Qgtb (screenShakeRef s) 0 then set_screenShakeRef (screenShakeRef s * 0.9) s else s).

(** Game over with shield check. *)
Fixpoint shipLoop (enemies survivors : list Enemy.t) : M (list Enemy.t) :=
  match enemies with
  | [] => ret survivors
  | enemy :: enemies' =>
      s <- get ;;
      let rocket := rocketRef s in
      if rectRectOverlap
           (Vector2D.x (Rocket.position rocket)) (Vector2D.y (Rocket.position rocket))
           (Rocket.width rocket) (Rocket.height rocket)
           (Vector2D.x (Enemy.position enemy)) (Vector2D.y (Enemy.position enemy))
           (Enemy.width enemy) (Enemy.height enemy)
      then
        if hasShieldRef s then
          modify (set_hasShieldRef false) ;;
          modify (set_shieldTimerRef 0) ;;
          onEnemyDestroyed enemy ;;
          shipLoop enemies' survivors
        else
          modify (set_mode gameover) ;;
          ret survivors
      else shipLoop enemies' (survivors ++ [enemy])
  end.

Definition shipCollisions : M unit :=
  s <- get ;;
  survivors <- shipLoop (enemiesRef s) [] ;;
  modify (set_enemiesRef survivors).

(** ** [update] *)

Definition update (fuel : nat) (dt width height : Q) : M unit :=
  s <- get ;;
  match mode s with
  | playing =>
      if pauseRef s then ret tt
      else
        moveShip dt width height ;;
        themeRotate fuel dt ;;
        comboDecay dt ;;
        difficulty dt ;;
        bossAlive <- spawning fuel dt width height ;;
        bossWaves bossAlive dt width ;;
        events fuel dt width ;;
        updateWells dt ;;
        effectiveDt <- slowMo dt ;;
        updateEnemies effectiveDt ;;
        updateBullets effectiveDt ;;
        updateBeams dt ;;
        collisions width height ;;
        updateOrbs effectiveDt ;;
        updatePowerUps dt ;;
        decrementTimers dt ;;
        updateParticles dt effectiveDt ;;
        spawnThruster dt ;;
        shakeDecay ;;
        shipCollisions
  | _ => ret tt
  end.

(** ** Input handlers and the frame loop *)

Definition switchMap (fuel : nat) (key : string) : M unit :=
  let dir := if String.eqb key "e" then 1%Z else (-1)%Z in
  let len := THEMES_length in
  modify (fun s => set_currentThemeIdxRef (Z.rem (currentThemeIdxRef s + dir + len) len) s) ;;
  s <- get ;;
  idx <- pickNextThemeIndex fuel (currentThemeIdxRef s) ;;
  modify (set_nextThemeIdxRef idx) ;;
  modify (set_themeTransitioningRef false) ;;
  modify (set_themeBlendRef 0) ;;
  modify (set_themeTimerRef 0).

Definition isKey (key k : string) : bool := String.eqb key k.

Definition handleKeyDown (fuel : nat) (env : Env) (e : KeyboardEvent.t) : M unit :=
  if KeyboardEvent.repeat e then ret tt
  else
    let key := toLowerCase (KeyboardEvent.key e) in
    modify (fun s => set_pressedKeysRef (add key (pressedKeysRef s)) s) ;;
    s <- get ;;
    match mode s, (isKey key "enter" || isKey key " ")%bool with
    | menu, true => startGame env
    | _, _ =>
        if isKey key "p" then modify (fun s => set_pauseRef (negb (pauseRef s)) s)
        else
          (if isKey key "h" then modify (fun s => set_hideHUDRef (negb (hideHUDRef s)) s)
           else ret tt) ;;
          (if isKey key "m"
           then modify (fun s => set_reducedMotionRef (negb (reducedMotionRef s)) s)
           else ret tt) ;;
          (if isKey key "c"
           then modify (fun s => set_highContrastRef (negb (highContrastRef s)) s)
           else ret tt) ;;
          match mode s, (isKey key "r" || isKey key "enter")%bool with
          | gameover, true => startGame env
          | _, _ =>
              (match mode s, (isKey key " " || isKey key "k")%bool with
               | playing, true => shootBullet env
               | _, _ => ret tt
               end) ;;
              if (isKey key "q" || isKey key "e")%bool then switchMap fuel key
              else ret tt
          end
    end.

Definition handleKeyUp (e : KeyboardEvent.t) : M unit :=
  modify (fun s =>
    set_pressedKeysRef (delete (toLowerCase (KeyboardEvent.key e)) (pressedKeysRef s)) s).

Definition handleMouseMove (env : Env) (e : MouseEvent.t) : M unit :=
  match canvasRef env with
  | None => ret tt
  | Some rect =>
      modify (set_aimPositionRef
                (Some (vec (MouseEvent.clientX e - DOMRect.left rect)
                           (MouseEvent.clientY e - DOMRect.top rect))))
  end.

(** The scan of [menuHitRectsRef.current]: [true] when a button took the
    click and the handler returned. *)
Fixpoint hitScan (env : Env) (mx my : Q) (rects : list HitRect.t) : M bool :=
  match rects with
  | [] => ret false
  | hit :: rects' =>
      if (Qgeb mx (HitRect.x hit) && Qleb mx (HitRect.x hit + HitRect.w hit)
          && Qgeb my (HitRect.y hit) && Qleb my (HitRect.y hit + HitRect.h hit))%bool
      then
        match HitRect.type hit, HitRect.section hit with
        | hitStart, _ => startGame env ;; ret true
        | hitSection, Some section => modify (set_menuSectionRef section) ;; ret true
        | hitSection, None => hitScan env mx my rects'
        end
      else hitScan env mx my rects'
  end.

Definition handleMouseDown (env : Env) (e : option MouseEvent.t) : M unit :=
  s <- get ;;
  match mode s with
  | menu =>
      handled <-
        match e, canvasRef env with
        | Some e, Some rect =>
            let mx := MouseEvent.clientX e - DOMRect.left rect in
            let my := MouseEvent.clientY e - DOMRect.top rect in
            hitScan env mx my (menuHitRectsRef s)
        | _, _ => ret false
        end ;;
      if handled then ret tt else startGame env
  | gameover => startGame env
  | playing => shootBullet env
  end.

Definition resizeCanvasToContainer (env : Env) : M unit :=
  match canvasRef env, containerRef env with
  | Some _, Some rect =>
      let width := Qmax 360 (floor (DOMRect.width rect)) in
      let height := Qmax 360 (floor (DOMRect.height rect)) in
      modify (fun s =>
        let rocket := rocketRef s in
        let pos := Rocket.position rocket in
        let pos :=
          if (Qeq_bool (Vector2D.x pos) 0 && Qeq_bool (Vector2D.y pos) 0)%bool then
            vec (width / 2 - Rocket.width rocket / 2) (height / 2 - Rocket.height rocket / 2)
          else
            vec (clamp (Vector2D.x pos) 0 (width - Rocket.width rocket))
                (clamp (Vector2D.y pos) 0 (height - Rocket.height rocket)) in
        set_rocketRef (set_position pos rocket) s)
  | _, _ => ret tt
  end.

(** One animation frame: the time step, then [update].  Drawing follows and
    only rebuilds the menu's hit rectangles (see [Draw]). *)
Definition loop (fuel : nat) (rect : DOMRect.t) (time : Q) : M unit :=
  let width := DOMRect.width rect in
  let height := DOMRect.height rect in
  s <- get ;;
  let last := match lastTimeRef s with Some t => t | None => time end in
  modify (set_lastTimeRef (Some last)) ;;
  let dt := Qmin 0.033 ((time - last) / 1000) in
  modify (set_lastTimeRef (Some time)) ;;
  update fuel dt width height.

(** ** Commands of the environment *)

Inductive Command :=
| KeyDown (env : Env) (e : KeyboardEvent.t)
| KeyUp (e : KeyboardEvent.t)
| MouseMove (env : Env) (e : MouseEvent.t)
| MouseDown (env : Env) (e : option MouseEvent.t)
| Resize (env : Env)
| Frame (rect : DOMRect.t) (time : Q)
| Tick (dt width height : Q)              (* [update] called directly *)
| Draw (rects : list HitRect.t)           (* the menu painter's hit rectangles *)
| Remount.                                (* an effect cleanup: lastTimeRef.current = null *)

Definition run (fuel : nat) (c : Command) : M unit :=
  match c with
  | KeyDown env e => handleKeyDown fuel env e
  | KeyUp e => handleKeyUp e
  | MouseMove env e => handleMouseMove env e
  | MouseDown env e => handleMouseDown env e
  | Resize env => resizeCanvasToContainer env
  | Frame rect time => loop fuel rect time
  | Tick dt width height => update fuel dt width height
  | Draw rects =>
      s <- get ;;
      match mode s with
      | menu => modify (set_menuHitRectsRef rects)
      | _ => ret tt
      end
  | Remount => modify (set_lastTimeRef None)
  end.

(** The refs as [useRef] and [useState] initialise them.  The first draw of
    [Math.random] picks the theme. *)
Definition initialState : State :=
  let currentThemeIdx := floorZ (Math_random 0 * inject_Z THEMES_length) in
  mkState
    (mkCore 0 menu (Rocket.mk (vec 0 0) 48 28 460) [] [] [])
    (mkSpawn 0 900 0 0)
    (mkGameplay [] [] [] [] 0 0 false)
    (mkBossEvents 0 0 None 0 0)
    (mkEffects false 0 0 0 0 0 0)
    (mkCombo 1 0)
    (mkToggles false false false 0)
    (mkThemeRotation currentThemeIdx (Z.rem (currentThemeIdx + 1) THEMES_length) 0 0 35 false)
    (mkIo [] None None Controls [] 1).

(** States reachable from the initial one by commands that complete. *)
Inductive reachable : State -> Prop :=
| reachable_init : reachable initialState
| reachable_step s fuel c s' :
    reachable s -> run fuel c s = Ok tt s' -> reachable s'.

(** Commands run one after the other. *)
Fixpoint runAll (fuel : nat) (cs : list Command) : M unit :=
  match cs with
  | [] => ret tt
  | c :: cs' => run fuel c ;; runAll fuel cs'
  end.

(** ** Specification vocabulary *)

(** The effect timer a power-up type stands for, and its fixed duration. *)
Definition timerOf (type : PowerUpType) (s : State) : Q :=
  match type with
  | shield => shieldTimerRef s
  | slowmo => slowMoRef s
  | magnet => magnetRef s
  | homing => homingRef s
  | spread => spreadRef s
  | laser => laserRef s
  end.

Definition durationOf (type : PowerUpType) : Q :=
  match type with
  | shield => 8
  | slowmo => 6
  | magnet => 10
  | homing => 10
  | spread => 10
  | laser => 6
  end.

(** No power-up, no well, no effect running. *)
Definition effectsIdle (s : State) : Prop :=
  powerUpsRef s = [] /\ wellsRef s = [] /\
  hasShieldRef s = false /\ shieldTimerRef s = 0 /\ slowMoRef s = 0 /\
  magnetRef s = 0 /\ homingRef s = 0 /\ spreadRef s = 0 /\ laserRef s = 0.

(** [m] completes from [s], with a result and a final state in [Q]. *)
Definition wp {A} (m : M A) (Q : A -> State -> Prop) (s : State) : Prop :=
  match m s with
  | Ok a s' => Q a s'
  | Fail _ => False
  end.

(** [k] whole intervals of length [step] fit in [acc]. *)
Definition wholeIntervals (k : nat) (step acc : Q) : Prop :=
  inject_Z (Z.of_nat k) * step <= acc /\ acc < (inject_Z (Z.of_nat k) + 1) * step.

(** [s'] is [s] up to the count of random draws. *)
Definition sameButRandom (s s' : State) : Prop :=
  core s' = core s /\ spawn s' = spawn s /\ gameplay s' = gameplay s /\
  bossEvents s' = bossEvents s /\ effects s' = effects s /\ combo s' = combo s /\
  toggles s' = toggles s /\ themeRotation s' = themeRotation s /\
  pressedKeysRef s' = pressedKeysRef s /\ aimPositionRef s' = aimPositionRef s /\
  lastTimeRef s' = lastTimeRef s /\ menuSectionRef s' = menuSectionRef s /\
  menuHitRectsRef s' = menuHitRectsRef s.

(** Among the next [fuel] draws, one picks an index other than [exclude]. *)
Definition pickable (fuel : nat) (exclude : Z) (n : nat) : Prop :=
  exists j, (j < fuel)%nat /\
            floorZ (Math_random (n + j) * inject_Z THEMES_length) <> exclude.

(** [idx] is the index that one of the next [fuel] draws gives. *)
Definition drawn (fuel n : nat) (idx : Z) : Prop :=
  exists j, (j < fuel)%nat /\
            idx = floorZ (Math_random (n + j) * inject_Z THEMES_length).

(** The beams of [beams] whose capsule holds the center of [e]. *)
Definition hitCount (beams : list Beam.t) (e : Enemy.t) : nat :=
  List.length (filter (fun b => inCapsule b e) beams).

(** A beam after its ttl has been decremented. *)
Definition aged (dt : Q) (b : Beam.t) : Beam.t := set_ttl (Beam.ttl b - dt) b.

(** [e'] is [e] with another hp. *)
Definition sameButHp (e e' : Enemy.t) : Prop := e' = set_hp (Enemy.hp e') e.

(** A power-up after its ttl has been decremented. *)
Definition agedPowerUp (dt : Q) (p : PowerUp.t) : PowerUp.t :=
  PowerUp.mk (PowerUp.position p) (PowerUp.radius p) (PowerUp.type p) (PowerUp.ttl p - dt).

Definition PowerUpType_eqb (a b : PowerUpType) : bool :=
  match a, b with
  | spread, spread | laser, laser | homing, homing
  | shield, shield | slowmo, slowmo | magnet, magnet => true
  | _, _ => false
  end.

(** A power-up of type [type] in [pups] is within the rocket's pickup range. *)
Definition collectedIn (rocket : Rocket.t) (type : PowerUpType) (pups : list PowerUp.t)
  : bool :=
  existsb (fun p => (inPickupRange rocket p && PowerUpType_eqb (PowerUp.type p) type)%bool)
    pups.

(** A particle of the muzzle flash: warm colors, additive, born now, living
    0.18 s plus 0.12 s times a draw. *)
Definition isMuzzleFlash (p : Particle.t) : Prop :=
  Particle.colorStart p = "rgba(255,210,120,0.9)"%string /\
  Particle.colorEnd p = "rgba(255,120,40,0.0)"%string /\
  Particle.additive p = true /\
  Particle.life p = 0 /\
  Particle.sizeStart p = 4 /\
  Particle.sizeEnd p = 0 /\
  exists n, Particle.maxLife p = 0.18 + Math_random n * 0.12.

(** The bullets one shot adds: one along the aim, or the fan of three. *)
Definition shotBullets (s : State) : list Bullet.t :=
  let direction := aimDirection s in
  let origin := noseTip s in
  let bullet dir := Bullet.mk (Vector2D.x origin) (Vector2D.y origin) 3.2 1000 dir false in
  if Qgtb (spreadRef s) 0 then
    let ang := Math_atan2 (Vector2D.y direction) (Vector2D.x direction) in
    [ bullet (vec (Math_cos (ang - 0.18)) (Math_sin (ang - 0.18)));
      bullet direction;
      bullet (vec (Math_cos (ang + 0.18)) (Math_sin (ang + 0.18))) ]
  else [bullet direction].

(** The claim that the spawner's parameters are interpolated, at [s]. *)
Definition interpolatedAt (s : State) : Prop :=
  exists themeA themeB theme,
    themeAt (currentThemeIdxRef s) = Some themeA /\
    themeAt (nextThemeIdxRef s) = Some themeB /\
    spawnTheme s = Some theme /\
    EnvironmentTheme.ufoChance theme ==
      lerp (EnvironmentTheme.ufoChance themeA) (EnvironmentTheme.ufoChance themeB)
        (themeBlendRef s) /\
    EnvironmentTheme.enemySpeedMultiplier theme ==
      lerp (EnvironmentTheme.enemySpeedMultiplier themeA)
        (EnvironmentTheme.enemySpeedMultiplier themeB) (themeBlendRef s).

(** A session played to its end: the canvas is sized, Enter starts the game,
    and frames follow every 16 ms until, in the 164th, the first enemy
    reaches the rocket. *)
Definition crashScript : list Command :=
  Resize sampleEnv
  :: KeyDown sampleEnv (KeyboardEvent.mk "Enter" false)
  :: map (fun k => Frame sampleCanvas (inject_Z (16 * Z.of_nat k))) (seq 0 164).

(** A short session: the canvas is sized, Enter starts the game, a frame
    passes, a click fires, two more frames pass. *)
Definition shortScript : list Command :=
  [ Resize sampleEnv;
    KeyDown sampleEnv (KeyboardEvent.mk "Enter" false);
    Frame sampleCanvas 0;
    MouseDown sampleEnv (Some (MouseEvent.mk 500 200));
    Frame sampleCanvas 16;
    Frame sampleCanvas 32 ].

(** A session with an enemy on the field: the canvas is sized, Enter starts
    the game, a tick of one second lets the first enemy in, a click fires,
    and a short tick follows. *)
Definition briefScript : list Command :=
  [ Resize sampleEnv;
    KeyDown sampleEnv (KeyboardEvent.mk "Enter" false);
    Tick 1 800 600;
    MouseDown sampleEnv (Some (MouseEvent.mk 500 200));
    Tick (1 / 60) 800 600 ].

(** The commands of a session played at 40 frames a second: a tick of 25 ms,
    or the Enter key. *)
Definition enterKey : KeyboardEvent.t := KeyboardEvent.mk "Enter" false.

Definition sessionCommand (c : Command) : Prop :=
  c = Tick 0.025 800 600 \/ c = KeyDown sampleEnv enterKey.

(** The fire commands: a mouse button going down, or the Space or K key. *)
Definition isFireCommand (env : Env) (c : Command) : Prop :=
  (exists e, c = MouseDown env e) \/
  (exists key,
      c = KeyDown env (KeyboardEvent.mk key false) /\
      (toLowerCase key = " "%string \/ toLowerCase key = "k"%string)).

(** The velocity of a spawned enemy: a direction scaled by a speed of
    90 + 140 x a draw, times the theme's multiplier. *)
Definition spawnVelocity (theme : EnvironmentTheme.t) (v : Vector2D.t) : Prop :=
  exists dir n,
    v = vec (Vector2D.x dir
             * ((90 + Math_random n * 140) * EnvironmentTheme.enemySpeedMultiplier theme))
            (Vector2D.y dir
             * ((90 + Math_random n * 140) * EnvironmentTheme.enemySpeedMultiplier theme)).

(** Successive ticks, and the time they add up to. *)
Fixpoint updates (fuel : nat) (dts : list Q) (width height : Q) : M unit :=
  match dts with
  | [] => ret tt
  | dt :: dts' => update fuel dt width height ;; updates fuel dts' width height
  end.

Definition sumOf (dts : list Q) : Q := fold_right Qplus 0 dts.

(** [P] survives every assignment to the refs that the passes of a tick
    write, the theme pass apart: all but the theme rotation refs and the
    toggles. *)
Definition passStable (P : State -> Prop) : Prop :=
  (forall c s, P s -> P (set_core c s)) /\
  (forall c s, P s -> P (set_spawn c s)) /\
  (forall c s, P s -> P (set_gameplay c s)) /\
  (forall c s, P s -> P (set_bossEvents c s)) /\
  (forall c s, P s -> P (set_effects c s)) /\
  (forall c s, P s -> P (set_combo c s)) /\
  (forall c s, P s -> P (set_io c s)).

(** ** Further vocabulary *)

(** The rocket lies within a canvas of the given size. *)
Definition inBounds (width height : Q) (r : Rocket.t) : Prop :=
  0 <= Vector2D.x (Rocket.position r) /\
  Vector2D.x (Rocket.position r) <= width - Rocket.width r /\
  0 <= Vector2D.y (Rocket.position r) /\
  Vector2D.y (Rocket.position r) <= height - Rocket.height r.

(** The enemy's rectangle overlaps the rocket's. *)
Definition touches (rocket : Rocket.t) (enemy : Enemy.t) : bool :=
  rectRectOverlap
    (Vector2D.x (Rocket.position rocket)) (Vector2D.y (Rocket.position rocket))
    (Rocket.width rocket) (Rocket.height rocket)
    (Vector2D.x (Enemy.position enemy)) (Vector2D.y (Enemy.position enemy))
    (Enemy.width enemy) (Enemy.height enemy).

(** [m] completes from every state. *)
Definition total {A} (m : M A) : Prop := forall s, exists a s', m s = Ok a s'.

(** Both theme indices name a theme, and they differ. *)
Definition validTheme (current next : Z) : Prop :=
  (0 <= current < THEMES_length)%Z /\ (0 <= next < THEMES_length)%Z /\ next <> current.

(** [Math.random] returns a number in [0, 1). *)
Definition randomInRange : Prop :=
  forall n, 0 <= Math_random n /\ Math_random n < 1.

(** No power-up on the field, no laser running, no beam in flight, and every
    enemy above 0 hp. *)
Definition healthy (pups : list PowerUp.t) (laser : Q) (beams : list Beam.t)
  (enemies : list Enemy.t) : Prop :=
  pups = [] /\ laser = 0 /\ beams = [] /\ Forall (fun e => 0 < Enemy.hp e) enemies.

(** The bounds the game keeps on its counters: the spawn interval between
    220 and 900 ms, the multiplier at least 1, the score not negative, every
    orb worth one point, and the rocket of the size and speed it starts
    with. *)
Definition steady (interval multiplier points : Q) (orbs : list ScoreOrb.t)
  (rocket : Rocket.t) : Prop :=
  220 <= interval /\ interval <= 900 /\ 1 <= multiplier /\ 0 <= points /\
  Forall (fun o => ScoreOrb.value o = 1) orbs /\
  Rocket.width rocket = 48 /\ Rocket.height rocket = 28 /\ Rocket.speed rocket = 460.

(** The point lies in the hit rectangle, borders included: the test of the
    menu's click handler. *)
Definition inside (mx my : Q) (hit : HitRect.t) : bool :=
  (Qgeb mx (HitRect.x hit) && Qleb mx (HitRect.x hit + HitRect.w hit)
   && Qgeb my (HitRect.y hit) && Qleb my (HitRect.y hit + HitRect.h hit))%bool.

(** [createRng(seed)]: the state the returned closure starts from; one call
    of the closure, giving the new state and the number returned; and the
    first [n] numbers. *)
Definition createRng (seed : Q) : Z :=
  let s := Z.rem (Qfloor (seed * 1000000000)) 2147483647 in
  if (s <=? 0)%Z then (s + 2147483646)%Z else s.

Definition rngNext (s : Z) : Z * Q :=
  let s' := Z.rem (s * 48271) 2147483647 in
  (s', inject_Z s' / 2147483647).

Fixpoint rngDraws (n : nat) (s : Z) : list Q :=
  match n with
  | O => []
  | S n' => let '(s', r) := rngNext s in r :: rngDraws n' s'
  end.

(** A particle within its lifetime, the lifetime being positive. *)
Definition liveParticle (p : Particle.t) : Prop :=
  Particle.life p <= Particle.maxLife p /\ 0 < Particle.maxLife p.

(** One orb after its motion in a tick of the orb pass: steered toward the
    rocket's center while the magnet lasts, then moved by its velocity. *)
Definition movedOrb (magnetOn : bool) (rocket : Rocket.t) (effectiveDt : Q)
  (orb : ScoreOrb.t) : ScoreOrb.t :=
  let velocity :=
    if magnetOn then
      let cx := Vector2D.x (Rocket.position rocket) + Rocket.width rocket / 2 in
      let cy := Vector2D.y (Rocket.position rocket) + Rocket.height rocket / 2 in
      let dir := normalize (vec (cx - Vector2D.x (ScoreOrb.position orb))
                                (cy - Vector2D.y (ScoreOrb.position orb))) in
      vec (lerp (Vector2D.x (ScoreOrb.velocity orb)) (Vector2D.x dir * 220) 0.08)
          (lerp (Vector2D.y (ScoreOrb.velocity orb)) (Vector2D.y dir * 220) 0.08)
    else ScoreOrb.velocity orb in
  ScoreOrb.mk
    (vec (Vector2D.x (ScoreOrb.position orb) + Vector2D.x velocity * effectiveDt)
         (Vector2D.y (ScoreOrb.position orb) + Vector2D.y velocity * effectiveDt))
    velocity (ScoreOrb.value orb).

(** The orb is within 26 px of the rocket's center. *)
Definition inOrbRange (rocket : Rocket.t) (orb : ScoreOrb.t) : bool :=
  let dx := Vector2D.x (ScoreOrb.position orb)
            - (Vector2D.x (Rocket.position rocket) + Rocket.width rocket / 2) in
  let dy := Vector2D.y (ScoreOrb.position orb)
            - (Vector2D.y (Rocket.position rocket) + Rocket.height rocket / 2) in
  Qltb (dx * dx + dy * dy) (26 * 26).

(** What a tick finds in a state it can start from: theme indices of the
    table, a spawn interval in its range, and accumulators that hold no more
    than a completed tick leaves in them. *)
Definition paced (current next : Z) (interval accumulator meteorAcc : Q) : Prop :=
  validTheme current next /\ 220 <= interval /\ interval <= 900 /\
  accumulator < 1620 /\ meteorAcc <= 180.

Definition ready (s : State) : Prop :=
  paced (currentThemeIdxRef s) (nextThemeIdxRef s) (spawnIntervalRef s)
    (spawnAccumulatorRef s) (meteorSpawnAccRef s).

(** [fuel] covers the loops of a tick of length [dt]: the enemies and the
    meteors that fall due. *)
Definition shortTick (fuel : nat) (dt : Q) : Prop :=
  1620 + dt * 1000 <= (inject_Z (Z.of_nat fuel) + 1) * 220 /\
  180 + dt * 1000 <= inject_Z (Z.of_nat fuel) * 180.

(** What the destruction of one enemy makes of the combo multiplier. *)
Definition comboStep (m : Q) : Q := Qmin 5 (m + 0.2).

(** The score that [n] enemies destroyed in a row bring, from multiplier [m]:
    each at least 1. *)
Fixpoint comboGain (n : nat) (m : Q) : Q :=
  match n with
  | O => 0
  | S n' => Qmax 1 (floor m) + comboGain n' (comboStep m)
  end.

(** How many bosses a list of enemies holds. *)
Definition bossCount (enemies : list Enemy.t) : nat :=
  List.length (filter isBoss enemies).

(** [m] keeps [P]: every completed run from a state in [P] ends in [P]. *)
Definition preserves {A} (P : State -> Prop) (m : M A) : Prop :=
  forall s a s', m s = Ok a s' -> P s -> P s'.

End Game.

(** The state that session ends in, on the sample host. *)
Definition briefState : State :=
  Eval vm_compute in
    match runAll (host := sampleHost) 20 briefScript (initialState (host := sampleHost)) with
    | Ok _ s => s
    | Fail _ => initialState (host := sampleHost)
    end.

(** * Proofs *)

(** Projections of assignments reduce. *)
Ltac fields_in H :=
  cbn [core spawn gameplay bossEvents effects combo toggles themeRotation io
       score mode rocketRef bulletsRef enemiesRef particlesRef
       spawnAccumulatorRef spawnIntervalRef difficultyTimerRef screenShakeRef
       powerUpsRef scoreOrbsRef wellsRef beamsRef powerupSpawnTimerRef
       wellSpawnTimerRef hideHUDRef
       bossTimerRef eventTimerRef eventActiveRef eventTimeLeftRef meteorSpawnAccRef
       hasShieldRef shieldTimerRef slowMoRef magnetRef homingRef spreadRef laserRef
       multiplierRef comboTimerRef
       pauseRef highContrastRef reducedMotionRef flashTimerRef
       currentThemeIdxRef nextThemeIdxRef themeBlendRef themeTimerRef
       themeDurationRef themeTransitioningRef
       pressedKeysRef aimPositionRef lastTimeRef menuSectionRef menuHitRectsRef
       randomCalls
       set_core set_spawn set_gameplay set_bossEvents set_effects set_combo
       set_toggles set_themeRotation set_io
       set_score set_mode set_rocketRef set_bulletsRef set_enemiesRef
       set_particlesRef set_spawnAccumulatorRef set_spawnIntervalRef
       set_difficultyTimerRef set_screenShakeRef set_powerUpsRef set_scoreOrbsRef
       set_wellsRef set_beamsRef set_hideHUDRef set_bossTimerRef set_eventTimerRef
       set_eventActiveRef set_eventTimeLeftRef set_meteorSpawnAccRef
       set_hasShieldRef set_shieldTimerRef set_slowMoRef set_magnetRef
       set_homingRef set_spreadRef set_laserRef set_multiplierRef
       set_comboTimerRef set_pauseRef set_highContrastRef set_reducedMotionRef
       set_currentThemeIdxRef set_nextThemeIdxRef set_themeBlendRef
       set_themeTimerRef set_themeTransitioningRef set_pressedKeysRef
       set_aimPositionRef set_lastTimeRef set_menuSectionRef
       set_menuHitRectsRef set_randomCalls] in H.

Ltac fields :=
  cbn [core spawn gameplay bossEvents effects combo toggles themeRotation io
       score mode rocketRef bulletsRef enemiesRef particlesRef
       spawnAccumulatorRef spawnIntervalRef difficultyTimerRef screenShakeRef
       powerUpsRef scoreOrbsRef wellsRef beamsRef powerupSpawnTimerRef
       wellSpawnTimerRef hideHUDRef
       bossTimerRef eventTimerRef eventActiveRef eventTimeLeftRef meteorSpawnAccRef
       hasShieldRef shieldTimerRef slowMoRef magnetRef homingRef spreadRef laserRef
       multiplierRef comboTimerRef
       pauseRef highContrastRef reducedMotionRef flashTimerRef
       currentThemeIdxRef nextThemeIdxRef themeBlendRef themeTimerRef
       themeDurationRef themeTransitioningRef
       pressedKeysRef aimPositionRef lastTimeRef menuSectionRef menuHitRectsRef
       randomCalls
       set_core set_spawn set_gameplay set_bossEvents set_effects set_combo
       set_toggles set_themeRotation set_io
       set_score set_mode set_rocketRef set_bulletsRef set_enemiesRef
       set_particlesRef set_spawnAccumulatorRef set_spawnIntervalRef
       set_difficultyTimerRef set_screenShakeRef set_powerUpsRef set_scoreOrbsRef
       set_wellsRef set_beamsRef set_hideHUDRef set_bossTimerRef set_eventTimerRef
       set_eventActiveRef set_eventTimeLeftRef set_meteorSpawnAccRef
       set_hasShieldRef set_shieldTimerRef set_slowMoRef set_magnetRef
       set_homingRef set_spreadRef set_laserRef set_multiplierRef
       set_comboTimerRef set_pauseRef set_highContrastRef set_reducedMotionRef
       set_currentThemeIdxRef set_nextThemeIdxRef set_themeBlendRef
       set_themeTimerRef set_themeTransitioningRef set_pressedKeysRef
       set_aimPositionRef set_lastTimeRef set_menuSectionRef
       set_menuHitRectsRef set_randomCalls].

(** ** Comparisons *)

Lemma Qltb_lt a b : Qltb a b = true <-> a < b.
Proof.
  unfold Qltb. rewrite negb_true_iff, <- not_true_iff_false, Qle_bool_iff.
  split; [apply Qnot_le_lt | apply Qlt_not_le].
Qed.

Lemma Qltb_ge a b : Qltb a b = false <-> b <= a.
Proof.
  unfold Qltb. rewrite negb_false_iff. apply Qle_bool_iff.
Qed.

Lemma Qleb_le a b : Qleb a b = true <-> a <= b.
Proof. apply Qle_bool_iff. Qed.

Lemma Qleb_gt a b : Qleb a b = false <-> b < a.
Proof.
  unfold Qleb. rewrite <- not_true_iff_false, Qle_bool_iff.
  split; [apply Qnot_le_lt | apply Qlt_not_le].
Qed.

Lemma Qgtb_lt a b : Qgtb a b = true <-> b < a.
Proof. apply Qltb_lt. Qed.

Lemma Qgtb_le a b : Qgtb a b = false <-> a <= b.
Proof. apply Qltb_ge. Qed.

Lemma Qgeb_le a b : Qgeb a b = true <-> b <= a.
Proof. apply Qle_bool_iff. Qed.

Lemma Qgeb_lt a b : Qgeb a b = false <-> a < b.
Proof. apply (Qleb_gt b a). Qed.

Lemma inject_nat_S n : inject_Z (Z.of_nat (S n)) == inject_Z (Z.of_nat n) + 1.
Proof.
  rewrite Nat2Z.inj_succ, <- Z.add_1_r, inject_Z_plus. reflexivity.
Qed.

Lemma orElse_nonzero a b : ~ b == 0 -> ~ orElse a b == 0.
Proof.
  intros Hb. unfold orElse. destruct (Qeq_bool a 0) eqn:E; [exact Hb |].
  intros H. apply Qeq_bool_iff in H. congruence.
Qed.

Lemma orElse_zero a b : a == 0 -> orElse a b = b.
Proof.
  intros H. unfold orElse. apply Qeq_bool_iff in H. now rewrite H.
Qed.

Lemma orElse_one a : a == 1 -> orElse a 1 == 1.
Proof.
  intros H. unfold orElse. destruct (Qeq_bool a 0); [reflexivity | exact H].
Qed.

(** ** Running computations *)

Lemma bind_Ok {A B} (m : M A) (k : A -> M B) s b s' :
  bind m k s = Ok b s' <-> exists a s1, m s = Ok a s1 /\ k a s1 = Ok b s'.
Proof.
  unfold bind. split.
  - destruct (m s) as [a s1 | e]; [eauto | discriminate].
  - intros (a & s1 & -> & H). exact H.
Qed.

Lemma bind_run {A B} (m : M A) (k : A -> M B) s a s1 :
  m s = Ok a s1 -> bind m k s = k a s1.
Proof. unfold bind. now intros ->. Qed.

Section Preserves.

Context {host : Host}.
Variable P : State -> Prop.

Lemma preserves_ret {A} (a : A) : preserves P (ret a).
Proof. intros s a' s' H. inversion H. now subst. Qed.

Lemma preserves_get : preserves P get.
Proof. intros s a' s' H. inversion H. now subst. Qed.

Lemma preserves_throw {A} e : preserves P (@throw A e).
Proof. intros s a' s' H. discriminate. Qed.

Lemma preserves_bind {A B} (m : M A) (k : A -> M B) :
  preserves P m -> (forall a, preserves P (k a)) -> preserves P (bind m k).
Proof.
  intros Hm Hk s b s' H HP. apply bind_Ok in H as (a & s1 & H1 & H2).
  eapply Hk; eauto.
Qed.

Lemma preserves_modify f : (forall s, P s -> P (f s)) -> preserves P (modify f).
Proof. intros Hf s a s' H HP. inversion H. subst. now apply Hf. Qed.

Lemma preserves_random :
  (forall n s, P s -> P (set_randomCalls n s)) -> preserves P random.
Proof. intros Hr s a s' H HP. inversion H. subst. now apply Hr. Qed.

Lemma preserves_times n (body : M unit) :
  preserves P body -> preserves P (times n body).
Proof.
  intros Hb. induction n as [| n IH]; cbn [times].
  - apply preserves_ret.
  - apply preserves_bind; auto.
Qed.

Lemma preserves_fillMap {A} n (f : M A) :
  preserves P f -> preserves P (fillMap n f).
Proof.
  intros Hf. induction n as [| n IH]; cbn [fillMap].
  - apply preserves_ret.
  - apply preserves_bind; [exact Hf | intros a].
    apply preserves_bind; [exact IH | intros l]. apply preserves_ret.
Qed.

Lemma preserves_mapM {A B} (f : A -> M B) l :
  (forall a, preserves P (f a)) -> preserves P (mapM f l).
Proof.
  intros Hf. induction l as [| a l IH]; cbn [mapM].
  - apply preserves_ret.
  - apply preserves_bind; [apply Hf | intros b].
    apply preserves_bind; [exact IH | intros bs]. apply preserves_ret.
Qed.

End Preserves.

(** ** No power-up is ever spawned *)

Section Idle.

Context {host : Host}.

Create HintDb idle discriminated.

Ltac idle_setter :=
  intros;
  lazymatch goal with
  | H : effectsIdle _ |- effectsIdle _ => unfold effectsIdle in *; fields; exact H
  end.

Ltac idle_step :=
  lazymatch goal with
  | |- preserves _ (ret _) => apply preserves_ret
  | |- preserves _ get => apply preserves_get
  | |- preserves _ (throw _) => apply preserves_throw
  | |- preserves _ random => apply preserves_random; idle_setter
  | |- preserves _ (modify _) => apply preserves_modify; idle_setter
  | |- preserves _ (bind _ _) => apply preserves_bind; [ | intros ? ]
  | |- preserves _ (times _ _) => apply preserves_times
  | |- preserves _ (fillMap _ _) => apply preserves_fillMap
  | |- preserves _ (mapM _ _) => apply preserves_mapM; intros ?
  | |- preserves _ (if ?b then _ else _) => destruct b
  | |- preserves _ (match ?x with _ => _ end) => destruct x
  | |- preserves _ (let _ := _ in _) => cbv zeta
  | |- preserves _ _ => solve [auto with idle nocore]
  end.

Ltac idle := repeat idle_step.

Lemma idle_random : preserves effectsIdle random.
Proof. idle. Qed.
Hint Resolve idle_random : idle.

Lemma idle_pickLoop fuel exclude idx : preserves effectsIdle (pickLoop fuel exclude idx).
Proof.
  revert idx. induction fuel as [| fuel IH]; intros idx; cbn [pickLoop]; idle.
Qed.
Hint Resolve idle_pickLoop : idle.

Lemma idle_pickNextThemeIndex fuel exclude :
  preserves effectsIdle (pickNextThemeIndex fuel exclude).
Proof. unfold pickNextThemeIndex. idle. Qed.
Hint Resolve idle_pickNextThemeIndex : idle.

Lemma idle_resetGame env : preserves effectsIdle (resetGame env).
Proof. unfold resetGame. idle. Qed.
Hint Resolve idle_resetGame : idle.

Lemma idle_startGame env : preserves effectsIdle (startGame env).
Proof. unfold startGame. idle. Qed.
Hint Resolve idle_startGame : idle.

Lemma idle_push_particle p : preserves effectsIdle (push_particle p).
Proof. unfold push_particle. idle. Qed.
Lemma idle_push_enemy e : preserves effectsIdle (push_enemy e).
Proof. unfold push_enemy. idle. Qed.
Lemma idle_push_bullet b : preserves effectsIdle (push_bullet b).
Proof. unfold push_bullet. idle. Qed.
Lemma idle_push_beam b : preserves effectsIdle (push_beam b).
Proof. unfold push_beam. idle. Qed.
Lemma idle_push_orb o : preserves effectsIdle (push_orb o).
Proof. unfold push_orb. idle. Qed.
Hint Resolve idle_push_particle idle_push_enemy idle_push_bullet idle_push_beam
  idle_push_orb : idle.

Lemma idle_muzzleFlash origin direction :
  preserves effectsIdle (muzzleFlash origin direction).
Proof. unfold muzzleFlash. idle. Qed.
Hint Resolve idle_muzzleFlash : idle.

Lemma idle_makeBullet origin dir : preserves effectsIdle (makeBullet origin dir).
Proof. unfold makeBullet. idle. Qed.
Hint Resolve idle_makeBullet : idle.

Lemma idle_shootBullet env : preserves effectsIdle (shootBullet env).
Proof. unfold shootBullet. idle. Qed.
Hint Resolve idle_shootBullet : idle.

Lemma idle_spawnFrom theme width height :
  preserves effectsIdle (spawnFrom theme width height).
Proof. unfold spawnFrom. idle. Qed.
Hint Resolve idle_spawnFrom : idle.

Lemma idle_spawnEnemy width height : preserves effectsIdle (spawnEnemy width height).
Proof. unfold spawnEnemy. idle. Qed.
Hint Resolve idle_spawnEnemy : idle.

Lemma idle_explosionParticle x y kind :
  preserves effectsIdle (explosionParticle x y kind).
Proof. unfold explosionParticle. idle. Qed.
Hint Resolve idle_explosionParticle : idle.

Lemma idle_createExplosion x y kind : preserves effectsIdle (createExplosion x y kind).
Proof. unfold createExplosion. idle. Qed.
Hint Resolve idle_createExplosion : idle.

Lemma idle_spawnOrb cx cy : preserves effectsIdle (spawnOrb cx cy).
Proof. unfold spawnOrb. idle. Qed.
Hint Resolve idle_spawnOrb : idle.

Lemma idle_onEnemyDestroyed enemy : preserves effectsIdle (onEnemyDestroyed enemy).
Proof. unfold onEnemyDestroyed. idle. Qed.
Hint Resolve idle_onEnemyDestroyed : idle.

Lemma idle_thrusterParticle rocket c dir :
  preserves effectsIdle (thrusterParticle rocket c dir).
Proof. unfold thrusterParticle. idle. Qed.
Hint Resolve idle_thrusterParticle : idle.

Lemma idle_spawnThruster dt : preserves effectsIdle (spawnThruster dt).
Proof. unfold spawnThruster. idle. Qed.
Hint Resolve idle_spawnThruster : idle.

Lemma idle_moveShip dt width height : preserves effectsIdle (moveShip dt width height).
Proof. unfold moveShip. idle. Qed.
Hint Resolve idle_moveShip : idle.

Lemma idle_themeRotate fuel dt : preserves effectsIdle (themeRotate fuel dt).
Proof. unfold themeRotate. idle. Qed.
Hint Resolve idle_themeRotate : idle.

Lemma idle_comboDecay dt : preserves effectsIdle (comboDecay dt).
Proof. unfold comboDecay. idle. Qed.
Hint Resolve idle_comboDecay : idle.

Lemma idle_difficulty dt : preserves effectsIdle (difficulty dt).
Proof. unfold difficulty. idle. Qed.
Hint Resolve idle_difficulty : idle.

Lemma idle_spawnLoop fuel spawnStep bossAlive width height :
  preserves effectsIdle (spawnLoop fuel spawnStep bossAlive width height).
Proof. induction fuel as [| fuel IH]; cbn [spawnLoop]; idle. Qed.
Hint Resolve idle_spawnLoop : idle.

Lemma idle_spawning fuel dt width height :
  preserves effectsIdle (spawning fuel dt width height).
Proof. unfold spawning. idle. Qed.
Hint Resolve idle_spawning : idle.

Lemma idle_bossWaves bossAlive dt width :
  preserves effectsIdle (bossWaves bossAlive dt width).
Proof. unfold bossWaves. idle. Qed.
Hint Resolve idle_bossWaves : idle.

Lemma idle_meteorLoop fuel width : preserves effectsIdle (meteorLoop fuel width).
Proof. induction fuel as [| fuel IH]; cbn [meteorLoop]; idle. Qed.
Hint Resolve idle_meteorLoop : idle.

Lemma idle_events fuel dt width : preserves effectsIdle (events fuel dt width).
Proof. unfold events. idle. Qed.
Hint Resolve idle_events : idle.

(** The passes that read the effect timers or the power-ups do nothing to
    them in an idle state. *)
Lemma idle_updateWells dt : preserves effectsIdle (updateWells dt).
Proof.
  unfold updateWells. apply preserves_modify. intros s H.
  unfold effectsIdle in *. cbn. destruct H as (H1 & H2 & H). rewrite H2. cbn. auto.
Qed.
Hint Resolve idle_updateWells : idle.

Lemma idle_slowMo dt : preserves effectsIdle (slowMo dt).
Proof.
  intros s a s' Hrun H. pose proof H as (_ & _ & _ & _ & Hs & _).
  unfold slowMo, bind, get in Hrun. rewrite Hs in Hrun. cbn in Hrun.
  inversion Hrun. now subst.
Qed.
Hint Resolve idle_slowMo : idle.

Lemma idle_updateEnemies effectiveDt : preserves effectsIdle (updateEnemies effectiveDt).
Proof. unfold updateEnemies. idle. Qed.
Hint Resolve idle_updateEnemies : idle.

Lemma idle_moveBullet effectiveDt bullet :
  preserves effectsIdle (moveBullet effectiveDt bullet).
Proof. unfold moveBullet. idle. Qed.
Hint Resolve idle_moveBullet : idle.

Lemma idle_updateBullets effectiveDt : preserves effectsIdle (updateBullets effectiveDt).
Proof. unfold updateBullets. idle. Qed.
Hint Resolve idle_updateBullets : idle.

Lemma idle_beamsLoop dt beams remaining :
  preserves effectsIdle (beamsLoop dt beams remaining).
Proof.
  revert remaining. induction beams as [| b beams IH]; intros remaining;
    cbn [beamsLoop]; idle.
Qed.
Hint Resolve idle_beamsLoop : idle.

Lemma idle_updateBeams dt : preserves effectsIdle (updateBeams dt).
Proof. unfold updateBeams. idle. Qed.
Hint Resolve idle_updateBeams : idle.

Lemma idle_impactParticle bullet : preserves effectsIdle (impactParticle bullet).
Proof. unfold impactParticle. idle. Qed.
Hint Resolve idle_impactParticle : idle.

Lemma idle_bulletLoop enemy before after :
  preserves effectsIdle (bulletLoop enemy before after).
Proof.
  revert enemy before. induction after as [| bullet after IH]; intros enemy before;
    cbn [bulletLoop]; idle.
Qed.
Hint Resolve idle_bulletLoop : idle.

Lemma idle_enemyLoop enemies remaining :
  preserves effectsIdle (enemyLoop enemies remaining).
Proof.
  revert remaining. induction enemies as [| enemy enemies IH]; intros remaining;
    cbn [enemyLoop]; idle.
Qed.
Hint Resolve idle_enemyLoop : idle.

Lemma idle_collisions width height : preserves effectsIdle (collisions width height).
Proof. unfold collisions. idle. Qed.
Hint Resolve idle_collisions : idle.

Lemma idle_orbsLoop effectiveDt orbs remaining :
  preserves effectsIdle (orbsLoop effectiveDt orbs remaining).
Proof.
  revert remaining. induction orbs as [| orb orbs IH]; intros remaining;
    cbn [orbsLoop]; idle.
Qed.
Hint Resolve idle_orbsLoop : idle.

Lemma idle_updateOrbs effectiveDt : preserves effectsIdle (updateOrbs effectiveDt).
Proof. unfold updateOrbs. idle. Qed.
Hint Resolve idle_updateOrbs : idle.

Lemma idle_updatePowerUps dt : preserves effectsIdle (updatePowerUps dt).
Proof.
  intros s a s' Hrun H. pose proof H as (Hp & _).
  unfold updatePowerUps, bind, get in Hrun. rewrite Hp in Hrun. cbn in Hrun.
  inversion Hrun. subst. unfold effectsIdle in *. cbn. tauto.
Qed.
Hint Resolve idle_updatePowerUps : idle.

Lemma idle_decrementTimers dt : preserves effectsIdle (decrementTimers dt).
Proof.
  intros s a s' Hrun H. pose proof H as (_ & _ & _ & H1 & _ & H2 & H3 & H4 & H5).
  unfold decrementTimers, bind, get in Hrun.
  rewrite H1 in Hrun; cbn in Hrun. rewrite H2 in Hrun; cbn in Hrun.
  rewrite H3 in Hrun; cbn in Hrun. rewrite H4 in Hrun; cbn in Hrun.
  rewrite H5 in Hrun; cbn in Hrun.
  inversion Hrun. now subst.
Qed.
Hint Resolve idle_decrementTimers : idle.

Lemma idle_updateParticles dt effectiveDt :
  preserves effectsIdle (updateParticles dt effectiveDt).
Proof. unfold updateParticles. idle. Qed.
Hint Resolve idle_updateParticles : idle.

Lemma idle_shakeDecay : preserves effectsIdle shakeDecay.
Proof.
  unfold shakeDecay. apply preserves_modify. intros s H.
  destruct (Qgtb (screenShakeRef s) 0); [idle_setter | exact H].
Qed.
Hint Resolve idle_shakeDecay : idle.

Lemma idle_shipLoop enemies survivors :
  preserves effectsIdle (shipLoop enemies survivors).
Proof.
  revert survivors. induction enemies as [| enemy enemies IH]; intros survivors;
    cbn [shipLoop]; [idle |].
  apply preserves_bind; [idle | intros s0].
  destruct (rectRectOverlap _ _ _ _ _ _ _ _); [| idle].
  destruct (hasShieldRef s0); [| idle].
  apply preserves_bind.
  { apply preserves_modify. intros s H. unfold effectsIdle in *. cbn. tauto. }
  intros _. apply preserves_bind.
  { apply preserves_modify. intros s H. unfold effectsIdle in *. cbn. tauto. }
  intros _. idle.
Qed.
Hint Resolve idle_shipLoop : idle.

Lemma idle_shipCollisions : preserves effectsIdle shipCollisions.
Proof. unfold shipCollisions. idle. Qed.
Hint Resolve idle_shipCollisions : idle.

Lemma idle_update fuel dt width height :
  preserves effectsIdle (update fuel dt width height).
Proof. unfold update. idle. Qed.
Hint Resolve idle_update : idle.

Lemma idle_switchMap fuel key : preserves effectsIdle (switchMap fuel key).
Proof. unfold switchMap. idle. Qed.
Hint Resolve idle_switchMap : idle.

Lemma idle_handleKeyDown fuel env e : preserves effectsIdle (handleKeyDown fuel env e).
Proof. unfold handleKeyDown. idle. Qed.

Lemma idle_handleKeyUp e : preserves effectsIdle (handleKeyUp e).
Proof. unfold handleKeyUp. idle. Qed.

Lemma idle_handleMouseMove env e : preserves effectsIdle (handleMouseMove env e).
Proof. unfold handleMouseMove. idle. Qed.

Lemma idle_hitScan env mx my rects : preserves effectsIdle (hitScan env mx my rects).
Proof. induction rects as [| hit rects IH]; cbn [hitScan]; idle. Qed.
Hint Resolve idle_hitScan : idle.

Lemma idle_handleMouseDown env e : preserves effectsIdle (handleMouseDown env e).
Proof. unfold handleMouseDown. idle. Qed.

Lemma idle_resizeCanvasToContainer env :
  preserves effectsIdle (resizeCanvasToContainer env).
Proof. unfold resizeCanvasToContainer. idle. Qed.

Lemma idle_loop fuel rect time : preserves effectsIdle (loop fuel rect time).
Proof. unfold loop. idle. Qed.

Lemma idle_run fuel c : preserves effectsIdle (run fuel c).
Proof.
  destruct c; cbn [run];
    auto using idle_handleKeyDown, idle_handleKeyUp, idle_handleMouseMove,
      idle_handleMouseDown, idle_resizeCanvasToContainer, idle_loop, idle_update.
  - idle.
  - idle.
Qed.

Lemma idle_initialState : effectsIdle initialState.
Proof. unfold effectsIdle, initialState. cbn. tauto. Qed.

(** C2. In every state reachable from the initial one by ticks and input
    commands, the power-up and gravity-well populations are empty, every
    timed-effect duration (shield, slow-mo, magnet, homing, spread, laser)
    is 0 and the has-shield flag is false. *)
Theorem no_powerups_ever (s : State) :
  reachable s ->
  powerUpsRef s = [] /\ wellsRef s = [] /\
  shieldTimerRef s = 0 /\ slowMoRef s = 0 /\ magnetRef s = 0 /\
  homingRef s = 0 /\ spreadRef s = 0 /\ laserRef s = 0 /\
  hasShieldRef s = false.
Proof.
  intros H.
  assert (Hidle : effectsIdle s).
  { induction H as [| s fuel c s' _ IH Hrun].
    - apply idle_initialState.
    - exact (idle_run fuel c s tt s' Hrun IH). }
  unfold effectsIdle in Hidle. tauto.
Qed.

End Idle.

(** ** The passes that leave the theme rotation alone *)

Section Frame.

Context {host : Host}.
Variable P : State -> Prop.
Hypothesis P_stable : passStable P.

Create HintDb frame discriminated.

Ltac frame_setter :=
  intros; cbv beta zeta;
  repeat match goal with
         | |- P (if ?b then _ else _) => destruct b
         end;
  try assumption;
  unfold set_score, set_mode, set_rocketRef, set_bulletsRef, set_enemiesRef,
    set_particlesRef, set_spawnAccumulatorRef, set_spawnIntervalRef,
    set_difficultyTimerRef, set_screenShakeRef, set_powerUpsRef, set_scoreOrbsRef,
    set_wellsRef, set_beamsRef, set_hideHUDRef, set_bossTimerRef, set_eventTimerRef,
    set_eventActiveRef, set_eventTimeLeftRef, set_meteorSpawnAccRef,
    set_hasShieldRef, set_shieldTimerRef, set_slowMoRef, set_magnetRef,
    set_homingRef, set_spreadRef, set_laserRef, set_multiplierRef,
    set_comboTimerRef, set_pauseRef, set_highContrastRef, set_reducedMotionRef,
    set_pressedKeysRef, set_aimPositionRef, set_lastTimeRef, set_menuSectionRef,
    set_menuHitRectsRef, set_randomCalls;
  destruct P_stable as (? & ? & ? & ? & ? & ? & ?); auto.

Ltac frame_step :=
  lazymatch goal with
  | |- preserves _ (ret _) => apply preserves_ret
  | |- preserves _ get => apply preserves_get
  | |- preserves _ (throw _) => apply preserves_throw
  | |- preserves _ random => apply preserves_random; frame_setter
  | |- preserves _ (modify _) => apply preserves_modify; frame_setter
  | |- preserves _ (bind _ _) => apply preserves_bind; [ | intros ? ]
  | |- preserves _ (times _ _) => apply preserves_times
  | |- preserves _ (fillMap _ _) => apply preserves_fillMap
  | |- preserves _ (mapM _ _) => apply preserves_mapM; intros ?
  | |- preserves _ (if ?b then _ else _) => destruct b
  | |- preserves _ (match ?x with _ => _ end) => destruct x
  | |- preserves _ (let _ := _ in _) => cbv zeta
  | |- preserves _ _ => solve [auto with frame nocore]
  end.

Ltac frame := repeat frame_step.

Lemma frame_random : preserves P random.
Proof. frame. Qed.
Hint Resolve frame_random : frame.

Lemma frame_push_particle p : preserves P (push_particle p).
Proof. unfold push_particle. frame. Qed.
Lemma frame_push_enemy e : preserves P (push_enemy e).
Proof. unfold push_enemy. frame. Qed.
Lemma frame_push_orb o : preserves P (push_orb o).
Proof. unfold push_orb. frame. Qed.
Hint Resolve frame_push_particle frame_push_enemy frame_push_orb : frame.

Lemma frame_spawnFrom theme width height : preserves P (spawnFrom theme width height).
Proof. unfold spawnFrom. frame. Qed.
Hint Resolve frame_spawnFrom : frame.

Lemma frame_spawnEnemy width height : preserves P (spawnEnemy width height).
Proof. unfold spawnEnemy. frame. Qed.
Hint Resolve frame_spawnEnemy : frame.

Lemma frame_explosionParticle x y kind : preserves P (explosionParticle x y kind).
Proof. unfold explosionParticle. frame. Qed.
Hint Resolve frame_explosionParticle : frame.

Lemma frame_createExplosion x y kind : preserves P (createExplosion x y kind).
Proof. unfold createExplosion. frame. Qed.
Hint Resolve frame_createExplosion : frame.

Lemma frame_spawnOrb cx cy : preserves P (spawnOrb cx cy).
Proof. unfold spawnOrb. frame. Qed.
Hint Resolve frame_spawnOrb : frame.

Lemma frame_onEnemyDestroyed enemy : preserves P (onEnemyDestroyed enemy).
Proof. unfold onEnemyDestroyed. frame. Qed.
Hint Resolve frame_onEnemyDestroyed : frame.

Lemma frame_thrusterParticle rocket c dir : preserves P (thrusterParticle rocket c dir).
Proof. unfold thrusterParticle. frame. Qed.
Hint Resolve frame_thrusterParticle : frame.

Lemma frame_spawnThruster dt : preserves P (spawnThruster dt).
Proof. unfold spawnThruster. frame. Qed.
Hint Resolve frame_spawnThruster : frame.

Lemma frame_moveShip dt width height : preserves P (moveShip dt width height).
Proof. unfold moveShip. frame. Qed.
Hint Resolve frame_moveShip : frame.

Lemma frame_comboDecay dt : preserves P (comboDecay dt).
Proof. unfold comboDecay. frame. Qed.
Hint Resolve frame_comboDecay : frame.

Lemma frame_difficulty dt : preserves P (difficulty dt).
Proof. unfold difficulty. frame. Qed.
Hint Resolve frame_difficulty : frame.

Lemma frame_spawnLoop fuel spawnStep bossAlive width height :
  preserves P (spawnLoop fuel spawnStep bossAlive width height).
Proof. induction fuel as [| fuel IH]; cbn [spawnLoop]; frame. Qed.
Hint Resolve frame_spawnLoop : frame.

Lemma frame_spawning fuel dt width height : preserves P (spawning fuel dt width height).
Proof. unfold spawning. frame. Qed.
Hint Resolve frame_spawning : frame.

Lemma frame_bossWaves bossAlive dt width : preserves P (bossWaves bossAlive dt width).
Proof. unfold bossWaves. frame. Qed.
Hint Resolve frame_bossWaves : frame.

Lemma frame_meteorLoop fuel width : preserves P (meteorLoop fuel width).
Proof. induction fuel as [| fuel IH]; cbn [meteorLoop]; frame. Qed.
Hint Resolve frame_meteorLoop : frame.

Lemma frame_events fuel dt width : preserves P (events fuel dt width).
Proof. unfold events. frame. Qed.
Hint Resolve frame_events : frame.

Lemma frame_updateWells dt : preserves P (updateWells dt).
Proof. unfold updateWells. frame. Qed.
Hint Resolve frame_updateWells : frame.

Lemma frame_slowMo dt : preserves P (slowMo dt).
Proof. unfold slowMo. frame. Qed.
Hint Resolve frame_slowMo : frame.

Lemma frame_updateEnemies effectiveDt : preserves P (updateEnemies effectiveDt).
Proof. unfold updateEnemies. frame. Qed.
Hint Resolve frame_updateEnemies : frame.

Lemma frame_moveBullet effectiveDt bullet : preserves P (moveBullet effectiveDt bullet).
Proof. unfold moveBullet. frame. Qed.
Hint Resolve frame_moveBullet : frame.

Lemma frame_updateBullets effectiveDt : preserves P (updateBullets effectiveDt).
Proof. unfold updateBullets. frame. Qed.
Hint Resolve frame_updateBullets : frame.

Lemma frame_beamsLoop dt beams remaining : preserves P (beamsLoop dt beams remaining).
Proof.
  revert remaining. induction beams as [| b beams IH]; intros remaining;
    cbn [beamsLoop]; frame.
Qed.
Hint Resolve frame_beamsLoop : frame.

Lemma frame_updateBeams dt : preserves P (updateBeams dt).
Proof. unfold updateBeams. frame. Qed.
Hint Resolve frame_updateBeams : frame.

Lemma frame_impactParticle bullet : preserves P (impactParticle bullet).
Proof. unfold impactParticle. frame. Qed.
Hint Resolve frame_impactParticle : frame.

Lemma frame_bulletLoop enemy before after : preserves P (bulletLoop enemy before after).
Proof.
  revert enemy before. induction after as [| bullet after IH]; intros enemy before;
    cbn [bulletLoop]; frame.
Qed.
Hint Resolve frame_bulletLoop : frame.

Lemma frame_enemyLoop enemies remaining : preserves P (enemyLoop enemies remaining).
Proof.
  revert remaining. induction enemies as [| enemy enemies IH]; intros remaining;
    cbn [enemyLoop]; frame.
Qed.
Hint Resolve frame_enemyLoop : frame.

Lemma frame_collisions width height : preserves P (collisions width height).
Proof. unfold collisions. frame. Qed.
Hint Resolve frame_collisions : frame.

Lemma frame_orbsLoop effectiveDt orbs remaining :
  preserves P (orbsLoop effectiveDt orbs remaining).
Proof.
  revert remaining. induction orbs as [| orb orbs IH]; intros remaining;
    cbn [orbsLoop]; frame.
Qed.
Hint Resolve frame_orbsLoop : frame.

Lemma frame_updateOrbs effectiveDt : preserves P (updateOrbs effectiveDt).
Proof. unfold updateOrbs. frame. Qed.
Hint Resolve frame_updateOrbs : frame.

Lemma frame_collect type : preserves P (collect type).
Proof. unfold collect. frame. Qed.
Hint Resolve frame_collect : frame.

Lemma frame_powerUpsLoop dt pups remaining : preserves P (powerUpsLoop dt pups remaining).
Proof.
  revert remaining. induction pups as [| p pups IH]; intros remaining;
    cbn [powerUpsLoop]; frame.
Qed.
Hint Resolve frame_powerUpsLoop : frame.

Lemma frame_updatePowerUps dt : preserves P (updatePowerUps dt).
Proof. unfold updatePowerUps. frame. Qed.
Hint Resolve frame_updatePowerUps : frame.

Lemma frame_decrementTimers dt : preserves P (decrementTimers dt).
Proof. unfold decrementTimers. frame. Qed.
Hint Resolve frame_decrementTimers : frame.

Lemma frame_updateParticles dt effectiveDt : preserves P (updateParticles dt effectiveDt).
Proof. unfold updateParticles. frame. Qed.
Hint Resolve frame_updateParticles : frame.

Lemma frame_shakeDecay : preserves P shakeDecay.
Proof. unfold shakeDecay. frame. Qed.
Hint Resolve frame_shakeDecay : frame.

Lemma frame_shipLoop enemies survivors : preserves P (shipLoop enemies survivors).
Proof.
  revert survivors. induction enemies as [| enemy enemies IH]; intros survivors;
    cbn [shipLoop]; frame.
Qed.
Hint Resolve frame_shipLoop : frame.

Lemma frame_shipCollisions : preserves P shipCollisions.
Proof. unfold shipCollisions. frame. Qed.
Hint Resolve frame_shipCollisions : frame.

(** Everything in a tick after the theme pass. *)
Lemma frame_after_theme fuel dt width height :
  preserves P
    (comboDecay dt ;;
     difficulty dt ;;
     bossAlive <- spawning fuel dt width height ;;
     bossWaves bossAlive dt width ;;
     events fuel dt width ;;
     updateWells dt ;;
     effectiveDt <- slowMo dt ;;
     updateEnemies effectiveDt ;;
     updateBullets effectiveDt ;;
     updateBeams dt ;;
     collisions width height ;;
     updateOrbs effectiveDt ;;
     updatePowerUps dt ;;
     decrementTimers dt ;;
     updateParticles dt effectiveDt ;;
     spawnThruster dt ;;
     shakeDecay ;;
     shipCollisions).
Proof. frame. Qed.

End Frame.

(** ** Weakest preconditions *)

Lemma wp_Ok {A} (m : M A) Post s : wp m Post s <-> exists a s', m s = Ok a s' /\ Post a s'.
Proof.
  unfold wp. destruct (m s) as [a s' | e].
  - split; [eauto | intros (a' & s'' & E & H); inversion E; now subst].
  - split; [tauto | intros (a' & s'' & E & _); discriminate].
Qed.

Lemma wp_ret {A} (a : A) Post s : Post a s -> wp (ret a) Post s.
Proof. auto. Qed.

Lemma wp_bind {A B} (m : M A) (k : A -> M B) Post s :
  wp m (fun a s' => wp (k a) Post s') s -> wp (bind m k) Post s.
Proof. unfold wp, bind. destruct (m s); auto. Qed.

Lemma wp_get Post s : Post s s -> wp get Post s.
Proof. auto. Qed.

Lemma wp_modify f Post s : Post tt (f s) -> wp (modify f) Post s.
Proof. auto. Qed.

Lemma wp_mono {A} (m : M A) (Post Post' : A -> State -> Prop) s :
  wp m Post s -> (forall a s', Post a s' -> Post' a s') -> wp m Post' s.
Proof. unfold wp. destruct (m s); auto. Qed.

Lemma sameButRandom_refl s : sameButRandom s s.
Proof. unfold sameButRandom. tauto. Qed.

Lemma sameButRandom_trans s1 s2 s3 :
  sameButRandom s1 s2 -> sameButRandom s2 s3 -> sameButRandom s1 s3.
Proof.
  unfold sameButRandom. intros H1 H2.
  repeat match goal with H : _ /\ _ |- _ => destruct H end.
  repeat split; congruence.
Qed.

Lemma sameButRandom_set n s : sameButRandom s (set_randomCalls n s).
Proof. unfold sameButRandom. cbn. tauto. Qed.

Section Spawning.

Context {host : Host}.

Lemma wp_random (Post : Q -> State -> Prop) (s : State) :
  Post (Math_random (randomCalls s)) (set_randomCalls (S (randomCalls s)) s) ->
  wp random Post s.
Proof. auto. Qed.

(** A draw changes nothing but the count of draws. *)
Lemma wp_random_frame (Post : Q -> State -> Prop) s :
  (forall r s', sameButRandom s s' -> Post r s') -> wp random Post s.
Proof. intros H. apply wp_random, H, sameButRandom_set. Qed.

Lemma wp_random_draw (Post : Q -> State -> Prop) s :
  (forall n s', sameButRandom s s' -> Post (Math_random n) s') -> wp random Post s.
Proof. intros H. apply wp_random, H, sameButRandom_set. Qed.

Lemma wp_fillMap_random (g : Q -> Q) n (Post : list Q -> State -> Prop) s :
  (forall l s', sameButRandom s s' -> Post l s') ->
  wp (fillMap n (r <- random ;; ret (g r))) Post s.
Proof.
  revert Post s. induction n as [| n IH]; intros Post s H; cbn [fillMap].
  - apply wp_ret, H, sameButRandom_refl.
  - apply wp_bind, wp_bind, wp_random_frame. intros r s1 H1.
    apply wp_ret, wp_bind, IH. intros l s2 H2.
    apply wp_ret, H. eapply sameButRandom_trans; eauto.
Qed.

(** [spawnFrom] completes; it appends one regular enemy, whose kind the
    third draw decides against the theme's [ufoChance], and draws. *)
Lemma wp_spawnFrom theme width height (Post : unit -> State -> Prop) (s : State) :
  (forall e s1,
      sameButRandom s s1 ->
      Enemy.kind e =
        (if Qltb (Math_random (2 + randomCalls s)) (EnvironmentTheme.ufoChance theme)
         then ufo else asteroid) ->
      spawnVelocity theme (Enemy.velocity e) ->
      Post tt (set_enemiesRef (enemiesRef s1 ++ [e]) s1)) ->
  wp (spawnFrom theme width height) Post s.
Proof.
  intros H. unfold spawnFrom.
  apply wp_bind, wp_random. apply wp_bind, wp_random.
  destruct (if (floorZ (Math_random (randomCalls s) * 4) =? 0)%Z then _ else _) as [x y].
  apply wp_bind, wp_random. cbn [randomCalls set_randomCalls set_io io].
  set (s3 := set_randomCalls _ (set_randomCalls _ (set_randomCalls _ s))).
  assert (H3 : sameButRandom s s3) by (unfold sameButRandom; cbn; tauto).
  clearbody s3.
  change (S (S (randomCalls s))) with (2 + randomCalls s)%nat.
  destruct (Qltb (Math_random (2 + randomCalls s)) (EnvironmentTheme.ufoChance theme))
    eqn:Ekind.
  - (* ufo *)
    apply wp_bind, wp_bind, wp_random_frame. intros rw s4 H4.
    apply wp_bind, wp_random_frame. intros rh s5 H5.
    apply wp_ret, wp_bind, wp_get.
    apply wp_bind, wp_random_frame. intros rx s6 H6.
    apply wp_bind, wp_random_frame. intros ry s7 H7.
    apply wp_bind, wp_random_draw. intros nspeed s8 H8.
    apply wp_bind, wp_random_frame. intros rrot s9 H9.
    apply wp_bind, wp_random_frame. intros rspin s10 H10.
    unfold push_enemy. apply wp_modify, H; [| reflexivity |].
    + eauto 10 using sameButRandom_trans.
    + cbn [Enemy.velocity]. eexists. exists nspeed. reflexivity.
  - (* asteroid *)
    apply wp_bind, wp_bind, wp_random_frame. intros rb s4 H4.
    apply wp_bind, wp_random_frame. intros rs s5 H5.
    apply wp_bind, wp_fillMap_random. intros radii s5' H5'.
    apply wp_bind, wp_random_frame. intros rh s5'' H5''.
    apply wp_ret, wp_bind, wp_get.
    apply wp_bind, wp_random_frame. intros rx s6 H6.
    apply wp_bind, wp_random_frame. intros ry s7 H7.
    apply wp_bind, wp_random_draw. intros nspeed s8 H8.
    apply wp_bind, wp_random_frame. intros rrot s9 H9.
    apply wp_bind, wp_random_frame. intros rspin s10 H10.
    unfold push_enemy. apply wp_modify, H; [| reflexivity |].
    + eauto 12 using sameButRandom_trans.
    + cbn [Enemy.velocity]. eexists. exists nspeed. reflexivity.
Qed.

Lemma spawnTheme_ext (s s' : State) :
  themeRotation s' = themeRotation s -> spawnTheme s' = spawnTheme s.
Proof. unfold spawnTheme, getEffectiveThemeBlend. now intros ->. Qed.

Lemma kind_regular e (b : bool) : Enemy.kind e = (if b then ufo else asteroid) -> isBoss e = false.
Proof. unfold isBoss. intros ->. now destruct b. Qed.

Lemma wp_spawnEnemy theme width height (Post : unit -> State -> Prop) (s : State) :
  spawnTheme s = Some theme ->
  (forall e s1,
      sameButRandom s s1 ->
      Enemy.kind e =
        (if Qltb (Math_random (2 + randomCalls s)) (EnvironmentTheme.ufoChance theme)
         then ufo else asteroid) ->
      spawnVelocity theme (Enemy.velocity e) ->
      Post tt (set_enemiesRef (enemiesRef s1 ++ [e]) s1)) ->
  wp (spawnEnemy width height) Post s.
Proof.
  intros Ht H. unfold spawnEnemy. apply wp_bind, wp_get. rewrite Ht.
  now apply wp_spawnFrom.
Qed.

(** The spawn loop: [k] whole steps in the accumulator make [k] rounds. *)
Lemma wp_spawnLoop spawnStep bossAlive width height k :
  0 < spawnStep ->
  forall fuel (Post : unit -> State -> Prop) (s : State),
    wholeIntervals k spawnStep (spawnAccumulatorRef s) ->
    (k <= fuel)%nat ->
    (bossAlive = false -> exists theme, spawnTheme s = Some theme) ->
    (forall (s' : State) new,
        spawnAccumulatorRef s' == spawnAccumulatorRef s - inject_Z (Z.of_nat k) * spawnStep ->
        spawnIntervalRef s' = spawnIntervalRef s ->
        themeRotation s' = themeRotation s ->
        enemiesRef s' = enemiesRef s ++ new ->
        List.length new = (if bossAlive then 0 else k)%nat ->
        Forall (fun e => isBoss e = false) new ->
        Post tt s') ->
    wp (spawnLoop fuel spawnStep bossAlive width height) Post s.
Proof.
  intros Hstep. induction k as [| k IH]; intros fuel Post s [Hlo Hhi] Hfuel Htheme HQ.
  - change (inject_Z (Z.of_nat 0)) with 0 in *.
    assert (E : Qgeb (spawnAccumulatorRef s) spawnStep = false).
    { apply Qgeb_lt. lra. }
    assert (HP : Post tt s).
    { apply (HQ s []).
      - lra.
      - reflexivity.
      - reflexivity.
      - now rewrite app_nil_r.
      - now destruct bossAlive.
      - constructor. }
    destruct fuel; cbn [spawnLoop]; apply wp_bind, wp_get; rewrite E;
      apply wp_ret; exact HP.
  - rewrite Nat2Z.inj_succ, <- Z.add_1_r, inject_Z_plus in Hlo, Hhi.
    change (inject_Z 1) with 1 in Hlo, Hhi.
    assert (Hk : 0 <= inject_Z (Z.of_nat k)).
    { change 0 with (inject_Z 0). rewrite <- Zle_Qle. lia. }
    assert (Hks : 0 <= inject_Z (Z.of_nat k) * spawnStep) by nra.
    assert (E : Qgeb (spawnAccumulatorRef s) spawnStep = true).
    { apply Qgeb_le. nra. }
    destruct fuel as [| fuel]; [lia |]. cbn [spawnLoop].
    apply wp_bind, wp_get. rewrite E.
    apply wp_bind, wp_modify.
    set (s1 := set_spawnAccumulatorRef _ s).
    assert (Hnext : forall s2 new1,
               sameButRandom s1 s2 \/ s2 = s1 ->
               List.length new1 = (if bossAlive then 0 else 1)%nat ->
               Forall (fun e => isBoss e = false) new1 ->
               wp (spawnLoop fuel spawnStep bossAlive width height) Post
                 (set_enemiesRef (enemiesRef s2 ++ new1) s2)).
    { intros s2 new1 H12 Hlen Hreg.
      assert (Hspawn : spawn s2 = spawn s1 /\ themeRotation s2 = themeRotation s1
                       /\ core s2 = core s1).
      { destruct H12 as [H12 | ->]; [unfold sameButRandom in H12; tauto | tauto]. }
      destruct Hspawn as (Hsp & Hth & Hco).
      assert (Hacc2 : spawnAccumulatorRef s2 = spawnAccumulatorRef s - spawnStep).
      { rewrite Hsp. reflexivity. }
      apply IH.
      - unfold wholeIntervals. fields. rewrite Hacc2. split; nra.
      - lia.
      - intros Hb. destruct (Htheme Hb) as [theme Ht]. exists theme.
        rewrite <- Ht. apply spawnTheme_ext. fields. rewrite Hth. reflexivity.
      - intros s' new Hacc Hint Hrot Hen Hlen' Hreg'. fields_in Hacc.
        fields_in Hint. fields_in Hrot. fields_in Hen.
        apply (HQ s' (new1 ++ new)).
        + rewrite Hacc, Hacc2.
          rewrite Nat2Z.inj_succ, <- Z.add_1_r, inject_Z_plus.
          change (inject_Z 1) with 1. ring.
        + rewrite Hint, Hsp. reflexivity.
        + rewrite Hrot, Hth. reflexivity.
        + rewrite Hen, Hco. subst s1. fields. now rewrite <- app_assoc.
        + rewrite length_app, Hlen, Hlen'. now destruct bossAlive.
        + apply Forall_app. split; assumption. }
    destruct bossAlive; cbn [negb].
    + apply wp_bind, wp_ret.
      specialize (Hnext s1 [] (or_intror eq_refl) eq_refl (Forall_nil _)).
      rewrite app_nil_r in Hnext.
      replace (set_enemiesRef (enemiesRef s1) s1) with s1 in Hnext; [exact Hnext |].
      subst s1. destruct s as [[] ? ? ? ? ? ? ? ?]. reflexivity.
    + destruct (Htheme eq_refl) as [theme Ht].
      apply wp_bind, (wp_spawnEnemy theme).
      { rewrite <- Ht. apply spawnTheme_ext. reflexivity. }
      intros e s2 H12 Hkind _.
      apply (Hnext s2 [e]); [now left | reflexivity |].
      constructor; [eapply kind_regular; eauto | constructor].
Qed.

(** C6. While a boss (bossUfo or bossGolem) is alive the spawning pass emits
    no enemy and takes 1.8 spawn intervals from the accumulator for each of
    the [k] slots it holds; while none is alive it emits exactly one regular
    enemy for each of the [k] whole spawn intervals accumulated. *)
Theorem spawning_per_interval fuel dt width height (s : State) k :
  0 < spawnIntervalRef s ->
  wholeIntervals k (spawnStepOf (bossAliveIn (enemiesRef s)) s)
    (spawnAccumulatorRef s + dt * 1000) ->
  (k <= fuel)%nat ->
  (bossAliveIn (enemiesRef s) = false -> exists theme, spawnTheme s = Some theme) ->
  exists s' new,
    spawning fuel dt width height s = Ok (bossAliveIn (enemiesRef s)) s' /\
    enemiesRef s' = enemiesRef s ++ new /\
    Forall (fun e => isBoss e = false) new /\
    (bossAliveIn (enemiesRef s) = true ->
       new = [] /\
       spawnAccumulatorRef s' ==
         spawnAccumulatorRef s + dt * 1000
         - inject_Z (Z.of_nat k) * (spawnIntervalRef s * 1.8)) /\
    (bossAliveIn (enemiesRef s) = false ->
       List.length new = k /\
       spawnAccumulatorRef s' ==
         spawnAccumulatorRef s + dt * 1000 - inject_Z (Z.of_nat k) * spawnIntervalRef s).
Proof.
  intros Hint Hk Hfuel Htheme.
  set (boss := bossAliveIn (enemiesRef s)) in *.
  assert (Hwp : wp (spawning fuel dt width height)
                  (fun b s' => b = boss /\ exists new,
                     enemiesRef s' = enemiesRef s ++ new /\
                     Forall (fun e => isBoss e = false) new /\
                     List.length new = (if boss then 0 else k)%nat /\
                     spawnAccumulatorRef s' ==
                       spawnAccumulatorRef s + dt * 1000
                       - inject_Z (Z.of_nat k) * spawnStepOf boss s) s).
  { unfold spawning. apply wp_bind, wp_modify, wp_bind, wp_get.
    cbn [enemiesRef core set_spawnAccumulatorRef set_spawn]. fold boss.
    apply wp_bind.
    apply (wp_spawnLoop (spawnStepOf boss (set_spawnAccumulatorRef _ s)) boss width height k).
    - unfold spawnStepOf. cbn. destruct boss; lra.
    - exact Hk.
    - exact Hfuel.
    - exact Htheme.
    - intros s' new Hacc _ _ Hen Hlen Hreg. apply wp_ret. split; [reflexivity |].
      exists new. repeat split; try assumption. }
  apply wp_Ok in Hwp as (b & s' & Hrun & -> & new & Hen & Hreg & Hlen & Hacc).
  exists s', new. repeat split; try assumption.
  - destruct boss; [| discriminate]. now destruct new.
  - destruct boss; [| discriminate]. exact Hacc.
  - destruct boss; [discriminate | exact Hlen].
  - destruct boss; [discriminate | exact Hacc].
Qed.

(** C4, amended. During a theme transition with blend fraction strictly
    between 0 and 1, the spawner reads ufoChance and enemySpeedMultiplier
    from the next theme alone, without interpolation: it spawns as it would
    with the next theme current, the kind of the enemy is ufo exactly when
    the draw is under the next theme's ufoChance, and its speed carries the
    next theme's multiplier. *)
Theorem spawn_uses_next_theme width height (s : State) themeB :
  themeTransitioningRef s = true ->
  0 < themeBlendRef s ->
  themeBlendRef s < 1 ->
  themeAt (nextThemeIdxRef s) = Some themeB ->
  spawnTheme s = Some themeB /\
  spawnEnemy width height s = spawnFrom themeB width height s /\
  exists s' e,
    spawnEnemy width height s = Ok tt s' /\
    enemiesRef s' = enemiesRef s ++ [e] /\
    Enemy.kind e =
      (if Qltb (Math_random (2 + randomCalls s)) (EnvironmentTheme.ufoChance themeB)
       then ufo else asteroid) /\
    spawnVelocity themeB (Enemy.velocity e).
Proof.
  intros Htr H0 H1 HB.
  assert (Ht : spawnTheme s = Some themeB).
  { unfold spawnTheme, getEffectiveThemeBlend. rewrite Htr, HB.
    assert (E : Qgtb (clamp (themeBlendRef s) 0 1) 0 = true).
    { apply Qgtb_lt. unfold clamp.
      apply Q.max_lt_iff. right. apply Q.min_glb_lt; [reflexivity | assumption]. }
    now rewrite E. }
  split; [exact Ht |]. split.
  - unfold spawnEnemy, bind, get. now rewrite Ht.
  - assert (Hwp : wp (spawnEnemy width height)
                    (fun _ s' => exists e,
                       enemiesRef s' = enemiesRef s ++ [e] /\
                       Enemy.kind e =
                         (if Qltb (Math_random (2 + randomCalls s))
                               (EnvironmentTheme.ufoChance themeB)
                          then ufo else asteroid) /\
                       spawnVelocity themeB (Enemy.velocity e)) s).
    { apply (wp_spawnEnemy themeB); [exact Ht |].
      intros e s1 H12 Hkind Hvel. exists e. fields.
      destruct H12 as (Hco & _). now rewrite Hco. }
    apply wp_Ok in Hwp as ([] & s' & Hrun & e & H). exists s', e. tauto.
Qed.

End Spawning.

(** ** Theme rotation *)

Section Themes.

Context {host : Host}.

Lemma wp_pickLoop fuel : forall exclude idx (Post : Z -> State -> Prop) (s : State),
  idx <> exclude \/ pickable fuel exclude (randomCalls s) ->
  (forall r s', r <> exclude -> sameButRandom s s' -> Post r s') ->
  wp (pickLoop fuel exclude idx) Post s.
Proof.
  induction fuel as [| fuel IH]; intros exclude idx Post s H HQ; cbn [pickLoop].
  - destruct (Z.eqb_spec idx exclude) as [-> | Hne].
    + destruct H as [H | (j & Hj & _)]; [congruence | lia].
    + apply wp_ret, HQ; [assumption | apply sameButRandom_refl].
  - destruct (Z.eqb_spec idx exclude) as [-> | Hne].
    + destruct H as [H | (j & Hj & Hpick)]; [congruence |].
      apply wp_bind, wp_random. apply IH.
      * destruct j as [| j].
        -- left. now rewrite Nat.add_0_r in Hpick.
        -- right. exists j. split; [lia |]. cbn.
           now rewrite Nat.add_succ_r in Hpick.
      * intros r s' Hr Hs'. apply HQ; [assumption |].
        eapply sameButRandom_trans; [apply sameButRandom_set | exact Hs'].
    + apply wp_ret, HQ; [assumption | apply sameButRandom_refl].
Qed.

Lemma wp_pickNextThemeIndex fuel exclude (Post : Z -> State -> Prop) (s : State) :
  pickable fuel exclude (randomCalls s) ->
  (forall r s', r <> exclude -> sameButRandom s s' -> Post r s') ->
  wp (pickNextThemeIndex fuel exclude) Post s.
Proof.
  intros H HQ. unfold pickNextThemeIndex. cbn. apply wp_pickLoop; auto.
Qed.

(** The four cases of the theme pass, as equations. *)
Lemma themeRotate_stays fuel dt (s : State) :
  themeTransitioningRef s = false ->
  themeTimerRef s + dt <= themeDurationRef s ->
  themeRotate fuel dt s = Ok tt (set_themeTimerRef (themeTimerRef s + dt) s).
Proof.
  intros Htr Hle. unfold themeRotate, bind, modify, get. fields.
  rewrite Htr. cbn [negb andb].
  apply Qgtb_le in Hle. rewrite Hle. unfold ret. fields. rewrite Htr. reflexivity.
Qed.

Lemma themeRotate_grows fuel dt (s : State) :
  themeTransitioningRef s = true ->
  themeBlendRef s + dt / 4 < 1 ->
  themeRotate fuel dt s =
    Ok tt (set_themeBlendRef (themeBlendRef s + dt / 4)
             (set_themeTimerRef (themeTimerRef s + dt) s)).
Proof.
  intros Htr Hlt. unfold themeRotate, bind, modify, get. fields.
  rewrite Htr. cbn [negb andb]. unfold ret. fields. rewrite Htr. fields.
  apply Qgeb_lt in Hlt. rewrite Hlt. reflexivity.
Qed.

Lemma wp_themeRotate_begins fuel dt (s : State) (Post : unit -> State -> Prop) :
  themeTransitioningRef s = false ->
  themeDurationRef s < themeTimerRef s + dt ->
  dt < 4 ->
  pickable fuel (currentThemeIdxRef s) (randomCalls s) ->
  (forall (s' : State) next,
      next <> currentThemeIdxRef s ->
      themeRotation s' =
        mkThemeRotation (currentThemeIdxRef s) next (0 + dt / 4) 0 (themeDurationRef s) true ->
      effects s' = effects s -> gameplay s' = gameplay s -> core s' = core s ->
      Post tt s') ->
  wp (themeRotate fuel dt) Post s.
Proof.
  intros Htr Hgt Hdt Hpick HQ. unfold themeRotate.
  apply wp_bind, wp_modify, wp_bind, wp_get. fields.
  rewrite Htr. apply Qgtb_lt in Hgt. rewrite Hgt. cbn [negb andb].
  apply wp_bind, wp_bind, wp_modify, wp_bind, wp_modify, wp_bind, wp_modify,
    wp_bind, wp_get. fields.
  apply wp_bind, wp_pickNextThemeIndex; [exact Hpick |].
  intros next s1 Hnext H1. apply wp_modify, wp_bind, wp_get. fields.
  destruct H1 as (Hc & Hsp & Hg & Hb & He & Hco & Ht & Hth & _).
  fields_in Hc. fields_in Hg. fields_in He. fields_in Hth.
  rewrite Hth. fields.
  apply wp_bind, wp_modify, wp_bind, wp_get. fields. rewrite Hth. fields.
  assert (E : Qgeb (0 + dt / 4) 1 = false).
  { apply Qgeb_lt. setoid_replace (dt / 4) with (dt * (1 # 4)) by (now field). lra. }
  rewrite E. apply wp_ret. apply (HQ _ next); fields; try assumption.
  rewrite Hth. reflexivity.
Qed.

Lemma wp_themeRotate_commits fuel dt (s : State) (Post : unit -> State -> Prop) :
  themeTransitioningRef s = true ->
  1 <= themeBlendRef s + dt / 4 ->
  pickable fuel (nextThemeIdxRef s) (randomCalls s) ->
  (forall (s' : State) next,
      next <> nextThemeIdxRef s ->
      themeRotation s' =
        mkThemeRotation (nextThemeIdxRef s) next 0 (themeTimerRef s + dt)
          (themeDurationRef s) false ->
      effects s' = effects s -> gameplay s' = gameplay s -> core s' = core s ->
      Post tt s') ->
  wp (themeRotate fuel dt) Post s.
Proof.
  intros Htr Hge Hpick HQ. unfold themeRotate.
  apply wp_bind, wp_modify, wp_bind, wp_get. fields.
  rewrite Htr. cbn [negb andb].
  apply wp_bind, wp_ret, wp_bind, wp_get. fields. rewrite Htr.
  apply wp_bind, wp_modify, wp_bind, wp_get. fields.
  apply Qgeb_le in Hge. rewrite Hge.
  apply wp_bind, wp_modify, wp_bind, wp_modify, wp_bind, wp_modify, wp_bind, wp_get.
  fields.
  apply wp_bind, wp_pickNextThemeIndex; [exact Hpick |].
  intros next s1 Hnext H1. apply wp_modify.
  destruct H1 as (Hc & Hsp & Hg & Hb & He & Hco & Ht & Hth & _).
  fields_in Hc. fields_in Hg. fields_in He. fields_in Hth.
  apply (HQ _ next); fields; try assumption.
  rewrite Hth. reflexivity.
Qed.

(** What a completed draw of the next index returns. *)
Lemma pickLoop_Ok fuel : forall exclude idx (s s' : State) r,
  pickLoop fuel exclude idx s = Ok r s' -> r <> exclude /\ sameButRandom s s'.
Proof.
  induction fuel as [| fuel IH]; intros exclude idx s s' r; cbn [pickLoop];
    destruct (Z.eqb_spec idx exclude) as [-> | Hne]; intros H;
    try (inversion H; subst; split; [assumption | apply sameButRandom_refl]).
  - discriminate.
  - unfold bind, random, get, modify in H. cbn beta iota in H.
    apply IH in H as [Hr Hs]. split; [exact Hr |].
    eapply sameButRandom_trans; [apply sameButRandom_set | exact Hs].
Qed.

Lemma pickNextThemeIndex_Ok fuel exclude (s s' : State) r :
  pickNextThemeIndex fuel exclude s = Ok r s' -> r <> exclude /\ sameButRandom s s'.
Proof. unfold pickNextThemeIndex. cbn. apply pickLoop_Ok. Qed.

Lemma themeRotate_begins fuel dt (s s' : State) :
  themeRotate fuel dt s = Ok tt s' ->
  themeTransitioningRef s = false ->
  themeDurationRef s < themeTimerRef s + dt ->
  dt < 4 ->
  exists next, next <> currentThemeIdxRef s /\
    themeRotation s' =
      mkThemeRotation (currentThemeIdxRef s) next (0 + dt / 4) 0 (themeDurationRef s) true.
Proof.
  intros Hrun Htr Hgt Hdt. unfold themeRotate, bind, modify, get in Hrun.
  fields_in Hrun. rewrite Htr in Hrun. apply Qgtb_lt in Hgt. rewrite Hgt in Hrun.
  cbn [negb andb] in Hrun. fields_in Hrun.
  match type of Hrun with
  | context [pickNextThemeIndex ?f ?e ?st] =>
      destruct (pickNextThemeIndex f e st) as [next s1 | e1] eqn:Hpick
  end; [| discriminate].
  apply pickNextThemeIndex_Ok in Hpick as [Hnext Hs1].
  destruct Hs1 as (_ & _ & _ & _ & _ & _ & _ & Hth & _). fields_in Hth.
  fields_in Hrun. rewrite Hth in Hrun. fields_in Hrun.
  rewrite Hth in Hrun. fields_in Hrun.
  assert (E : Qgeb (0 + dt / 4) 1 = false).
  { apply Qgeb_lt. setoid_replace (dt / 4) with (dt * (1 # 4)) by (now field). lra. }
  rewrite E in Hrun. inversion Hrun; subst s'. exists next. split; [exact Hnext |].
  fields. rewrite Hth. reflexivity.
Qed.

Lemma themeRotate_commits fuel dt (s s' : State) :
  themeRotate fuel dt s = Ok tt s' ->
  themeTransitioningRef s = true ->
  1 <= themeBlendRef s + dt / 4 ->
  exists next, next <> nextThemeIdxRef s /\
    themeRotation s' =
      mkThemeRotation (nextThemeIdxRef s) next 0 (themeTimerRef s + dt)
        (themeDurationRef s) false.
Proof.
  intros Hrun Htr Hge. unfold themeRotate, bind, modify, get in Hrun.
  fields_in Hrun. rewrite Htr in Hrun. cbn [negb andb] in Hrun.
  unfold ret at 1 in Hrun. fields_in Hrun. rewrite Htr in Hrun. fields_in Hrun.
  apply Qgeb_le in Hge. rewrite Hge in Hrun.
  match type of Hrun with
  | context [pickNextThemeIndex ?f ?e ?st] =>
      destruct (pickNextThemeIndex f e st) as [next s1 | e1] eqn:Hpick
  end; [| discriminate].
  apply pickNextThemeIndex_Ok in Hpick as [Hnext Hs1].
  destruct Hs1 as (_ & _ & _ & _ & _ & _ & _ & Hth & _). fields_in Hth.
  inversion Hrun; subst s'. exists next. split; [exact Hnext |].
  fields. rewrite Hth. reflexivity.
Qed.

(** The next index that a transition or a commit assigns is one of the next
    [fuel] draws. *)
Lemma pickLoop_drawn fuel : forall exclude idx (s s' : State) r,
  pickLoop fuel exclude idx s = Ok r s' ->
  r = idx \/ drawn fuel (randomCalls s) r.
Proof.
  induction fuel as [| fuel IH]; intros exclude idx s s' r; cbn [pickLoop];
    destruct (Z.eqb_spec idx exclude) as [-> | Hne]; intros H;
    try (inversion H; subst; left; reflexivity).
  unfold bind, random, get, modify in H. cbn beta iota in H.
  apply IH in H as [-> | (j & Hj & E)]; right.
  - exists 0%nat. split; [lia |]. now rewrite Nat.add_0_r.
  - fields_in E. exists (S j). split; [lia |]. now rewrite Nat.add_succ_r.
Qed.

Lemma pickNextThemeIndex_drawn fuel exclude (s s' : State) r :
  pickNextThemeIndex fuel exclude s = Ok r s' -> drawn fuel (randomCalls s) r.
Proof.
  intros H. pose proof (pickNextThemeIndex_Ok _ _ _ _ _ H) as [Hne _].
  unfold pickNextThemeIndex in H. cbn in H.
  apply pickLoop_drawn in H as [-> | H]; [congruence | exact H].
Qed.

Lemma themeRotate_redraws fuel dt (s s' : State) :
  themeRotate fuel dt s = Ok tt s' ->
  themeTransitioningRef s = false ->
  themeDurationRef s < themeTimerRef s + dt ->
  dt < 4 ->
  drawn fuel (randomCalls s) (nextThemeIdxRef s').
Proof.
  intros Hrun Htr Hgt Hdt. unfold themeRotate, bind, modify, get in Hrun.
  fields_in Hrun. rewrite Htr in Hrun. apply Qgtb_lt in Hgt. rewrite Hgt in Hrun.
  cbn [negb andb] in Hrun. fields_in Hrun.
  match type of Hrun with
  | context [pickNextThemeIndex ?f ?e ?st] =>
      destruct (pickNextThemeIndex f e st) as [next s1 | e1] eqn:Hpick
  end; [| discriminate].
  pose proof (pickNextThemeIndex_drawn _ _ _ _ _ Hpick) as Hd. fields_in Hd.
  apply pickNextThemeIndex_Ok in Hpick as [Hnext Hs1].
  destruct Hs1 as (_ & _ & _ & _ & _ & _ & _ & Hth & _). fields_in Hth.
  fields_in Hrun. rewrite Hth in Hrun. fields_in Hrun.
  rewrite Hth in Hrun. fields_in Hrun.
  assert (E : Qgeb (0 + dt / 4) 1 = false).
  { apply Qgeb_lt. setoid_replace (dt / 4) with (dt * (1 # 4)) by (now field). lra. }
  rewrite E in Hrun. inversion Hrun; subst s'. fields. exact Hd.
Qed.

Lemma themeRotate_draws fuel dt (s s' : State) :
  themeRotate fuel dt s = Ok tt s' ->
  themeTransitioningRef s = true ->
  1 <= themeBlendRef s + dt / 4 ->
  drawn fuel (randomCalls s) (nextThemeIdxRef s').
Proof.
  intros Hrun Htr Hge. unfold themeRotate, bind, modify, get in Hrun.
  fields_in Hrun. rewrite Htr in Hrun. cbn [negb andb] in Hrun.
  unfold ret at 1 in Hrun. fields_in Hrun. rewrite Htr in Hrun. fields_in Hrun.
  apply Qgeb_le in Hge. rewrite Hge in Hrun.
  match type of Hrun with
  | context [pickNextThemeIndex ?f ?e ?st] =>
      destruct (pickNextThemeIndex f e st) as [next s1 | e1] eqn:Hpick
  end; [| discriminate].
  pose proof (pickNextThemeIndex_drawn _ _ _ _ _ Hpick) as Hd. fields_in Hd.
  inversion Hrun; subst s'. fields. exact Hd.
Qed.

(** The theme pass within a tick: the passes around it leave the theme
    rotation refs and the toggles alone. *)
Lemma passStable_theme r : passStable (fun s => themeRotation s = r).
Proof. repeat split; intros c s H; exact H. Qed.

Lemma passStable_toggles t : passStable (fun s => toggles s = t).
Proof. repeat split; intros c s H; exact H. Qed.

Lemma themeRotate_toggles fuel dt t :
  preserves (fun s => toggles s = t) (themeRotate fuel dt).
Proof.
  unfold themeRotate.
  repeat lazymatch goal with
         | |- preserves _ (bind _ _) => apply preserves_bind; [ | intros ? ]
         | |- preserves _ (modify _) => apply preserves_modify; intros ? H; exact H
         | |- preserves _ get => apply preserves_get
         | |- preserves _ (ret _) => apply preserves_ret
         | |- preserves _ (if ?b then _ else _) => destruct b
         | |- preserves _ (pickNextThemeIndex _ _) =>
             intros ? ? ? Hp ?; apply pickNextThemeIndex_Ok in Hp as [_ Hp];
             destruct Hp as (_ & _ & _ & _ & _ & _ & Ht & _); congruence
         end.
Qed.

Lemma update_inactive fuel dt width height (s : State) :
  mode s <> playing \/ pauseRef s = true ->
  update fuel dt width height s = Ok tt s.
Proof.
  intros H. unfold update, bind, get.
  destruct (mode s); try reflexivity.
  destruct H as [H | ->]; [congruence | reflexivity].
Qed.

Lemma update_active fuel dt width height (s s' : State) :
  update fuel dt width height s = Ok tt s' ->
  mode s = playing -> pauseRef s = false ->
  exists s0 s1 : State,
    themeRotation s0 = themeRotation s /\
    themeRotate fuel dt s0 = Ok tt s1 /\
    themeRotation s' = themeRotation s1 /\
    toggles s' = toggles s.
Proof.
  intros H Hm Hp. unfold update in H.
  apply bind_Ok in H as (x & sx & Hg & H). unfold get in Hg.
  inversion Hg; subst x sx; clear Hg. rewrite Hm, Hp in H.
  apply bind_Ok in H as ([] & s0 & H0 & H).
  apply bind_Ok in H as ([] & s1 & H1 & H).
  exists s0, s1.
  pose proof (frame_moveShip _ (passStable_theme (themeRotation s))
                dt width height s tt s0 H0 eq_refl) as E0.
  pose proof (frame_moveShip _ (passStable_toggles (toggles s))
                dt width height s tt s0 H0 eq_refl) as T0.
  pose proof (themeRotate_toggles fuel dt (toggles s) s0 tt s1 H1 T0) as T1.
  pose proof (frame_after_theme _ (passStable_theme (themeRotation s1))
                fuel dt width height s1 tt s' H eq_refl) as E1.
  pose proof (frame_after_theme _ (passStable_toggles (toggles s))
                fuel dt width height s1 tt s' H T1) as T2.
  auto.
Qed.

Lemma update_mode fuel dt width height (s s' : State) :
  update fuel dt width height s = Ok tt s' -> mode s' = playing -> mode s = playing.
Proof.
  intros H Hm. destruct (mode s) eqn:E; try reflexivity;
    rewrite update_inactive in H by (left; congruence);
    inversion H; congruence.
Qed.

Lemma update_toggles fuel dt width height (s s' : State) :
  update fuel dt width height s = Ok tt s' -> toggles s' = toggles s.
Proof.
  intros H. destruct (mode s) eqn:Em;
    try (rewrite update_inactive in H by (left; congruence); now inversion H).
  destruct (pauseRef s) eqn:Ep.
  - rewrite update_inactive in H by (now right). now inversion H.
  - now destruct (update_active _ _ _ _ _ _ H Em Ep) as (_ & _ & _ & _ & _ & T).
Qed.

Lemma sumOf_nonneg dts : Forall (fun dt => 0 <= dt) dts -> 0 <= sumOf dts.
Proof.
  induction 1 as [| dt dts Hdt _ IH]; cbn [sumOf fold_right]; [lra |].
  fold (sumOf dts). lra.
Qed.

(** Over a run of ticks that ends with the game still under way. *)
Lemma updates_mode fuel width height dts : forall s s' : State,
  updates fuel dts width height s = Ok tt s' -> mode s' = playing -> mode s = playing.
Proof.
  induction dts as [| dt dts IH]; intros s s' Hrun Hm; cbn [updates] in Hrun.
  - inversion Hrun; congruence.
  - apply bind_Ok in Hrun as ([] & s1 & H1 & Hrun).
    eapply update_mode; [exact H1 | eapply IH; eassumption].
Qed.

Lemma updates_stay fuel width height dts : forall s s' : State,
  updates fuel dts width height s = Ok tt s' ->
  mode s' = playing -> pauseRef s = false ->
  Forall (fun dt => 0 <= dt) dts ->
  themeTransitioningRef s = false ->
  themeTimerRef s + sumOf dts <= themeDurationRef s ->
  themeTransitioningRef s' = false /\
  themeTimerRef s' == themeTimerRef s + sumOf dts /\
  themeBlendRef s' = themeBlendRef s /\
  currentThemeIdxRef s' = currentThemeIdxRef s /\
  nextThemeIdxRef s' = nextThemeIdxRef s.
Proof.
  induction dts as [| dt dts IH]; intros s s' Hrun Hm Hp Hdts Htr Hle;
    cbn [updates sumOf fold_right] in *.
  - inversion Hrun; subst s'.
    split; [exact Htr |]. split; [ring | auto].
  - fold (sumOf dts) in *.
    apply bind_Ok in Hrun as ([] & s1 & H1 & Hrun).
    inversion Hdts as [| ? ? Hdt Hdts']; subst.
    pose proof (sumOf_nonneg dts Hdts') as Hsum.
    pose proof (update_toggles _ _ _ _ _ _ H1) as Ht.
    assert (Hp1 : pauseRef s1 = false) by (rewrite Ht; exact Hp).
    pose proof (updates_mode _ _ _ _ _ _ Hrun Hm) as Hm1.
    pose proof (update_mode _ _ _ _ _ _ H1 Hm1) as Hm0.
    destruct (update_active _ _ _ _ _ _ H1 Hm0 Hp) as (s0 & s0' & E0 & Hrot & E1 & _).
    assert (Htr0 : themeTransitioningRef s0 = false) by (rewrite E0; exact Htr).
    assert (Hle0 : themeTimerRef s0 + dt <= themeDurationRef s0) by (rewrite E0; lra).
    rewrite (themeRotate_stays _ _ _ Htr0 Hle0) in Hrot.
    inversion Hrot; subst s0'; clear Hrot. fields_in E1. rewrite E0 in E1.
    assert (A : themeTransitioningRef s1 = false) by (rewrite E1; exact Htr).
    assert (B : themeTimerRef s1 = themeTimerRef s + dt) by (rewrite E1; reflexivity).
    assert (D : themeDurationRef s1 = themeDurationRef s) by (rewrite E1; reflexivity).
    destruct (IH s1 s' Hrun Hm Hp1 Hdts' A) as (A' & B' & C' & E' & F').
    { rewrite B, D. lra. }
    split; [exact A' |]. split; [rewrite B', B; ring |].
    rewrite C', E', F', E1. auto.
Qed.

Lemma updates_grow fuel width height dts : forall s s' : State,
  updates fuel dts width height s = Ok tt s' ->
  mode s' = playing -> pauseRef s = false ->
  Forall (fun dt => 0 <= dt) dts ->
  themeTransitioningRef s = true ->
  themeBlendRef s + sumOf dts / 4 < 1 ->
  themeTransitioningRef s' = true /\
  themeBlendRef s' == themeBlendRef s + sumOf dts / 4 /\
  currentThemeIdxRef s' = currentThemeIdxRef s /\
  nextThemeIdxRef s' = nextThemeIdxRef s.
Proof.
  induction dts as [| dt dts IH]; intros s s' Hrun Hm Hp Hdts Htr Hlt;
    cbn [updates sumOf fold_right] in *.
  - inversion Hrun; subst s'.
    split; [exact Htr |]. split; [field | auto].
  - fold (sumOf dts) in *.
    apply bind_Ok in Hrun as ([] & s1 & H1 & Hrun).
    inversion Hdts as [| ? ? Hdt Hdts']; subst.
    pose proof (sumOf_nonneg dts Hdts') as Hsum.
    pose proof (update_toggles _ _ _ _ _ _ H1) as Ht.
    assert (Hp1 : pauseRef s1 = false) by (rewrite Ht; exact Hp).
    pose proof (updates_mode _ _ _ _ _ _ Hrun Hm) as Hm1.
    pose proof (update_mode _ _ _ _ _ _ H1 Hm1) as Hm0.
    destruct (update_active _ _ _ _ _ _ H1 Hm0 Hp) as (s0 & s0' & E0 & Hrot & E1 & _).
    assert (Hsplit : (dt + sumOf dts) / 4 == dt / 4 + sumOf dts / 4) by field.
    assert (Hq : 0 <= sumOf dts / 4).
    { setoid_replace (sumOf dts / 4) with (sumOf dts * (1 # 4)) by (now field). lra. }
    assert (Htr0 : themeTransitioningRef s0 = true) by (rewrite E0; exact Htr).
    assert (Hlt0 : themeBlendRef s0 + dt / 4 < 1) by (rewrite E0; lra).
    rewrite (themeRotate_grows _ _ _ Htr0 Hlt0) in Hrot.
    inversion Hrot; subst s0'; clear Hrot. fields_in E1. rewrite E0 in E1.
    assert (A : themeTransitioningRef s1 = true) by (rewrite E1; exact Htr).
    assert (B : themeBlendRef s1 = themeBlendRef s + dt / 4) by (rewrite E1; reflexivity).
    destruct (IH s1 s' Hrun Hm Hp1 Hdts' A) as (A' & B' & E' & F').
    { rewrite B. lra. }
    split; [exact A' |]. split; [rewrite B', B, Hsplit; ring |].
    rewrite E', F', E1. auto.
Qed.

End Themes.

(** ** Beams *)

Section Beams.

Lemma inCapsule_iff b e :
  inCapsule b e = true <->
  Qabs ((Vector2D.x (enemyCenter e) - Vector2D.x (Beam.origin b))
          * - Vector2D.y (Beam.direction b)
        + (Vector2D.y (enemyCenter e) - Vector2D.y (Beam.origin b))
          * Vector2D.x (Beam.direction b))
    < Beam.width b / 2 + 2
  /\
  -20 < (Vector2D.x (enemyCenter e) - Vector2D.x (Beam.origin b))
          * Vector2D.x (Beam.direction b)
        + (Vector2D.y (enemyCenter e) - Vector2D.y (Beam.origin b))
          * Vector2D.y (Beam.direction b).
Proof.
  unfold inCapsule, enemyCenter. cbn [Vector2D.x Vector2D.y].
  rewrite andb_true_iff, Qltb_lt, Qgtb_lt. reflexivity.
Qed.

Lemma inCapsule_aged dt b e : inCapsule (aged dt b) e = inCapsule b e.
Proof. reflexivity. Qed.

Lemma inCapsule_sameButHp b e e' : sameButHp e e' -> inCapsule b e' = inCapsule b e.
Proof. intros ->. reflexivity. Qed.

Lemma hitCount_sameButHp beams e e' :
  sameButHp e e' -> hitCount beams e' = hitCount beams e.
Proof.
  intros H. unfold hitCount. f_equal. apply filter_ext.
  intros b. now apply inCapsule_sameButHp.
Qed.

Lemma hitCount_aged dt beams e : hitCount (map (aged dt) beams) e = hitCount beams e.
Proof.
  unfold hitCount. induction beams as [| b bs IH]; cbn [map filter].
  - reflexivity.
  - rewrite inCapsule_aged. destruct (inCapsule b e); cbn [List.length]; congruence.
Qed.

(** One beam takes 0.8 hp from an enemy in its capsule, and nothing else. *)
Lemma beamDamage_spec b e :
  sameButHp e (beamDamage b e) /\
  Enemy.hp (beamDamage b e) ==
    Enemy.hp e - 0.8 * inject_Z (Z.of_nat (hitCount [b] e)).
Proof.
  unfold beamDamage, hitCount, sameButHp. cbn [filter].
  destruct (inCapsule b e); cbn [List.length Z.of_nat].
  - split; [reflexivity |]. cbn [Enemy.hp set_hp]. change (inject_Z 1) with 1. ring.
  - split; [now destruct e |]. change (inject_Z 0) with 0. ring.
Qed.

(** All the beams, one after the other, on one enemy. *)
Lemma beams_on_enemy beams : forall e,
  let e' := fold_left (fun e b => beamDamage b e) beams e in
  sameButHp e e' /\
  Enemy.hp e' == Enemy.hp e - 0.8 * inject_Z (Z.of_nat (hitCount beams e)).
Proof.
  induction beams as [| b beams IH]; intros e; cbn [fold_left].
  - split; [unfold sameButHp; now destruct e |].
    unfold hitCount. cbn. change (inject_Z 0) with 0. ring.
  - destruct (beamDamage_spec b e) as [Hs1 H1].
    destruct (IH (beamDamage b e)) as [Hs2 H2]. cbv zeta in *. split.
    + unfold sameButHp in *. rewrite Hs2. rewrite Hs1 at 2. reflexivity.
    + rewrite H2, H1. rewrite (hitCount_sameButHp beams e _ Hs1).
      unfold hitCount. cbn [filter].
      destruct (inCapsule b e); cbn [List.length].
      * rewrite !inject_nat_S. change (inject_Z (Z.of_nat 0)) with 0. ring.
      * change (inject_Z (Z.of_nat 0)) with 0. ring.
Qed.

Lemma beamsLoop_run dt beams : forall remainingBeams (s : State),
  exists s',
    beamsLoop dt beams remainingBeams s =
      Ok (remainingBeams ++ filter (fun b => Qgtb (Beam.ttl b) 0) (map (aged dt) beams)) s' /\
    enemiesRef s' =
      map (fun e => fold_left (fun e b => beamDamage b e) (map (aged dt) beams) e)
        (enemiesRef s) /\
    score s' = score s /\ mode s' = mode s /\ rocketRef s' = rocketRef s /\
    bulletsRef s' = bulletsRef s /\ particlesRef s' = particlesRef s /\
    spawn s' = spawn s /\ gameplay s' = gameplay s /\ bossEvents s' = bossEvents s /\
    effects s' = effects s /\ combo s' = combo s /\ toggles s' = toggles s /\
    themeRotation s' = themeRotation s /\ io s' = io s.
Proof.
  induction beams as [| b beams IH]; intros remainingBeams s; cbn [beamsLoop map filter].
  - exists s. rewrite app_nil_r. cbn [fold_left]. rewrite map_id. repeat split.
  - unfold bind at 1. unfold modify at 1.
    fold (aged dt b).
    destruct (IH (if Qgtb (Beam.ttl (aged dt b)) 0
                  then remainingBeams ++ [aged dt b] else remainingBeams)
                (set_enemiesRef (map (beamDamage (aged dt b)) (enemiesRef s)) s))
      as (s' & Hrun & Hen & H).
    exists s'. split; [| split].
    + rewrite Hrun. f_equal.
      destruct (Qgtb (Beam.ttl (aged dt b)) 0); [now rewrite <- app_assoc | reflexivity].
    + rewrite Hen. fields. rewrite map_map. reflexivity.
    + exact H.
Qed.

(** C10. Each beam present when the beam pass starts takes a flat 0.8 hp,
    once, from every enemy whose center lies in its capsule (distance from
    the beam line under width/2 + 2, forward projection over -20); the
    amount does not depend on dt, and a beam whose ttl the pass brings to 0
    or less is dropped but still counted. *)
Theorem beam_damage_per_tick dt (s : State) :
  exists s',
    updateBeams dt s = Ok tt s' /\
    beamsRef s' = filter (fun b => Qgtb (Beam.ttl b) 0) (map (aged dt) (beamsRef s)) /\
    Forall2
      (fun e e' =>
         sameButHp e e' /\
         Enemy.hp e' == Enemy.hp e - 0.8 * inject_Z (Z.of_nat (hitCount (beamsRef s) e)))
      (enemiesRef s) (enemiesRef s').
Proof.
  unfold updateBeams. unfold bind at 1. unfold get at 1.
  destruct (beamsLoop_run dt (beamsRef s) [] s) as (s' & Hrun & Hen & H).
  unfold bind. rewrite Hrun. cbn [app]. unfold modify. eexists. split; [reflexivity |].
  fields. split.
  - reflexivity.
  - rewrite Hen. clear. induction (enemiesRef s) as [| e es IH]; cbn [map].
    + constructor.
    + constructor; [| exact IH].
      destruct (beams_on_enemy (map (aged dt) (beamsRef s)) e) as [H1 H2].
      cbv zeta in *. split; [exact H1 |]. rewrite H2, hitCount_aged. reflexivity.
Qed.

(** The last tick of a beam: it is dropped and has dealt its damage. *)
Lemma expiring_beam_still_damages dt (s : State) b e :
  beamsRef s = [b] -> enemiesRef s = [e] ->
  Beam.ttl b - dt <= 0 -> inCapsule b e = true ->
  exists s' e',
    updateBeams dt s = Ok tt s' /\ beamsRef s' = [] /\
    enemiesRef s' = [e'] /\ Enemy.hp e' == Enemy.hp e - 0.8.
Proof.
  intros Hb He Httl Hin.
  destruct (beam_damage_per_tick dt s) as (s' & Hrun & Hbeams & Hen).
  rewrite Hb in Hbeams, Hen. rewrite He in Hen. cbn [map filter] in Hbeams.
  apply Qgtb_le in Httl. unfold aged at 1 in Hbeams. cbn [Beam.ttl set_ttl] in Hbeams.
  rewrite Httl in Hbeams.
  inversion Hen as [| e0 e' l l' [_ Hhp] Hrest]; subst. inversion Hrest; subst.
  exists s', e'. repeat split; try assumption; try congruence.
  rewrite Hhp. unfold hitCount. cbn [filter]. rewrite Hin. cbn [List.length].
  change (inject_Z (Z.of_nat 1)) with 1. ring.
Qed.

End Beams.

(** ** Power-ups *)

Section PowerUps.

Lemma PowerUpType_eqb_eq a b : PowerUpType_eqb a b = true <-> a = b.
Proof. destruct a, b; cbn; split; congruence. Qed.

Lemma inPickupRange_aged dt rocket p :
  inPickupRange rocket (agedPowerUp dt p) = inPickupRange rocket p.
Proof. reflexivity. Qed.

(** [collect] assigns the fixed duration of the type, and the shield flag;
    the other timers stay. *)
Lemma collect_run type (s : State) :
  exists s',
    collect type s = Ok tt s' /\
    timerOf type s' = durationOf type /\
    (forall type', type' <> type -> timerOf type' s' = timerOf type' s) /\
    hasShieldRef s' = (if PowerUpType_eqb type shield then true else hasShieldRef s) /\
    core s' = core s /\ gameplay s' = gameplay s.
Proof.
  destruct type; cbn [collect]; unfold bind, modify; eexists;
    (split; [reflexivity |]); fields; repeat split;
    intros [] Hne; try reflexivity; congruence.
Qed.

Lemma powerUpsLoop_run dt pups : forall remainingPups (s : State),
  exists s',
    powerUpsLoop dt pups remainingPups s =
      Ok (remainingPups ++
            filter (fun p => (negb (inPickupRange (rocketRef s) p)
                              && Qgtb (PowerUp.ttl p) 0)%bool)
              (map (agedPowerUp dt) pups)) s' /\
    (forall type,
        timerOf type s' =
          if collectedIn (rocketRef s) type pups then durationOf type
          else timerOf type s) /\
    hasShieldRef s' =
      (if collectedIn (rocketRef s) shield pups then true else hasShieldRef s) /\
    core s' = core s /\ gameplay s' = gameplay s.
Proof.
  induction pups as [| p pups IH]; intros remainingPups s;
    cbn [powerUpsLoop map filter collectedIn existsb].
  - exists s. rewrite app_nil_r. repeat split.
  - fold (agedPowerUp dt p). unfold bind at 1. unfold get at 1.
    rewrite !inPickupRange_aged.
    destruct (inPickupRange (rocketRef s) p) eqn:Hin; cbn [negb andb orb].
    + (* collected *)
      destruct (collect_run (PowerUp.type p) s) as (s1 & Hc & Ht & Hother & Hsh & Hco & Hg).
      cbn [PowerUp.type agedPowerUp].
      unfold bind at 1. rewrite Hc.
      destruct (IH remainingPups s1) as (s' & Hrun & Htim & Hshield & Hco' & Hg').
      assert (Hr : rocketRef s1 = rocketRef s) by (now rewrite Hco).
      rewrite Hr in *.
      exists s'. split; [exact Hrun |]. repeat split.
      * intros type. rewrite Htim. fold (collectedIn (rocketRef s) type pups).
        destruct (collectedIn (rocketRef s) type pups); [now rewrite orb_true_r |].
        rewrite orb_false_r.
        destruct (PowerUpType_eqb (PowerUp.type p) type) eqn:E.
        -- apply PowerUpType_eqb_eq in E. now subst.
        -- apply Hother. intros ->.
           assert (PowerUpType_eqb (PowerUp.type p) (PowerUp.type p) = true)
             by now apply PowerUpType_eqb_eq.
           congruence.
      * rewrite Hshield, Hsh. fold (collectedIn (rocketRef s) shield pups).
        destruct (collectedIn (rocketRef s) shield pups); [now rewrite orb_true_r |].
        now rewrite orb_false_r.
      * congruence.
      * congruence.
    + (* kept or expired *)
      destruct (Qgtb (PowerUp.ttl (agedPowerUp dt p)) 0).
      * destruct (IH (remainingPups ++ [agedPowerUp dt p]) s)
          as (s' & Hrun & Htim & Hshield & Hco' & Hg').
        exists s'. split; [rewrite Hrun; now rewrite <- app_assoc |]. repeat split; auto.
      * destruct (IH remainingPups s) as (s' & Hrun & Htim & Hshield & Hco' & Hg').
        exists s'. split; [exact Hrun |]. repeat split; auto.
Qed.

Lemma collectedIn_intro rocket p pups :
  In p pups -> inPickupRange rocket p = true ->
  collectedIn rocket (PowerUp.type p) pups = true.
Proof.
  intros Hin Hr. unfold collectedIn. apply existsb_exists. exists p.
  split; [assumption |]. rewrite Hr. now apply PowerUpType_eqb_eq.
Qed.

(** C7. A power-up within pickup range is collected by the power-up pass:
    it leaves the population and the timer of its type holds exactly the
    fixed duration of that type (shield 8 with the has-shield flag set,
    slowmo 6, magnet 10, homing 10, spread 10, laser 6), whatever the timer
    held before. *)
Theorem pickup_sets_duration dt (s : State) p :
  In p (powerUpsRef s) ->
  inPickupRange (rocketRef s) p = true ->
  exists s',
    updatePowerUps dt s = Ok tt s' /\
    match PowerUp.type p with
    | shield => shieldTimerRef s' = 8 /\ hasShieldRef s' = true
    | slowmo => slowMoRef s' = 6
    | magnet => magnetRef s' = 10
    | homing => homingRef s' = 10
    | spread => spreadRef s' = 10
    | laser => laserRef s' = 6
    end /\
    Forall (fun q => inPickupRange (rocketRef s) q = false) (powerUpsRef s').
Proof.
  intros Hin Hr. unfold updatePowerUps. unfold bind at 1. unfold get at 1.
  destruct (powerUpsLoop_run dt (powerUpsRef s) [] s) as (s1 & Hrun & Htim & Hsh & Hco & Hg).
  unfold bind. rewrite Hrun. unfold modify. eexists. split; [reflexivity |].
  pose proof (collectedIn_intro _ _ _ Hin Hr) as Hc.
  specialize (Htim (PowerUp.type p)). rewrite Hc in Htim. split.
  - destruct (PowerUp.type p); fields; cbn [timerOf durationOf] in Htim; try exact Htim.
    split; [exact Htim |]. rewrite Hsh, Hc. reflexivity.
  - fields. cbn [app]. apply Forall_forall. intros q Hq.
    apply filter_In in Hq as [_ Hq]. apply andb_true_iff in Hq as [Hq _].
    now apply negb_true_iff in Hq.
Qed.

(** The timer pass that follows in the same tick has taken dt from the
    fresh duration of every effect but slow-mo, whose decrement comes
    earlier in the tick. *)
Lemma decrementTimers_run dt (s : State) :
  exists s',
    decrementTimers dt s = Ok tt s' /\
    slowMoRef s' = slowMoRef s /\
    (forall type, type <> slowmo ->
       timerOf type s' =
         if Qgtb (timerOf type s) 0 then timerOf type s - dt else timerOf type s).
Proof.
  unfold decrementTimers, bind, get, modify, ret.
  destruct (Qgtb (shieldTimerRef s) 0) eqn:E1; fields;
    [destruct (Qleb (shieldTimerRef s - dt) 0); fields |];
    destruct (Qgtb (magnetRef s) 0) eqn:E2; fields;
    destruct (Qgtb (homingRef s) 0) eqn:E3; fields;
    destruct (Qgtb (spreadRef s) 0) eqn:E4; fields;
    destruct (Qgtb (laserRef s) 0) eqn:E5; fields;
    eexists; (split; [reflexivity |]); fields; (split; [reflexivity |]);
    intros [] Hne; cbn [timerOf]; fields;
    rewrite ?E1, ?E2, ?E3, ?E4, ?E5; congruence.
Qed.

End PowerUps.

(** ** Firing *)

Section Firing.

Context {host : Host}.

Lemma muzzleFlash_run origin direction (s : State) :
  exists s' p,
    muzzleFlash origin direction s = Ok tt s' /\
    particlesRef s' = particlesRef s ++ [p] /\
    isMuzzleFlash p /\
    bulletsRef s' = bulletsRef s /\ gameplay s' = gameplay s /\ effects s' = effects s.
Proof.
  unfold muzzleFlash, bind, random, push_particle, modify.
  eexists. eexists. split; [reflexivity |]. fields. split; [reflexivity |].
  split; [| auto].
  unfold isMuzzleFlash. cbn [Particle.colorStart Particle.colorEnd Particle.additive
    Particle.life Particle.sizeStart Particle.sizeEnd Particle.maxLife].
  repeat split. eexists. reflexivity.
Qed.

Lemma muzzleFlashes_run origin direction n : forall (s : State),
  exists s' burst,
    times n (muzzleFlash origin direction) s = Ok tt s' /\
    particlesRef s' = particlesRef s ++ burst /\
    List.length burst = n /\
    Forall isMuzzleFlash burst /\
    bulletsRef s' = bulletsRef s /\ gameplay s' = gameplay s /\ effects s' = effects s.
Proof.
  induction n as [| n IH]; intros s; cbn [times].
  - exists s, []. rewrite app_nil_r. repeat split. constructor.
  - destruct (muzzleFlash_run origin direction s) as (s1 & p & Hrun & Hp & Hflash & Hb & Hg & He).
    destruct (IH s1) as (s' & burst & Hrun' & Hp' & Hlen & Hall & Hb' & Hg' & He').
    exists s', (p :: burst). unfold bind. rewrite Hrun. split; [exact Hrun' |].
    repeat split; try congruence.
    + rewrite Hp', Hp, <- app_assoc. reflexivity.
    + cbn. congruence.
    + now constructor.
Qed.

(** What one call of [shootBullet] does, with the canvas mounted. *)
Lemma shootBullet_run env rect (s : State) :
  canvasRef env = Some rect ->
  exists s',
    shootBullet env s = Ok tt s' /\
    if Qgtb (laserRef s) 0 then
      particlesRef s' = particlesRef s /\ bulletsRef s' = bulletsRef s /\
      beamsRef s' = beamsRef s ++ [Beam.mk (noseTip s) (aimDirection s) 6 0.12]
    else
      beamsRef s' = beamsRef s /\
      bulletsRef s' = bulletsRef s ++ shotBullets s /\
      exists burst,
        particlesRef s' = particlesRef s ++ burst /\
        List.length burst = 8%nat /\
        Forall isMuzzleFlash burst.
Proof.
  intros Hc. unfold shootBullet. rewrite Hc. unfold bind at 1. unfold get at 1.
  cbv zeta. destruct (Qgtb (laserRef s) 0).
  - unfold push_beam, modify. eexists. split; [reflexivity |]. fields. auto.
  - unfold shotBullets. cbv zeta.
    destruct (Qgtb (spreadRef s) 0);
      unfold bind, makeBullet, push_bullet, modify; cbn beta iota;
      match goal with
      | |- context [times 8 ?m ?st] =>
          destruct (muzzleFlashes_run (noseTip s) (aimDirection s) 8 st)
            as (s' & burst & Hrun & Hp & Hlen & Hall & Hbul & Hg & He)
      end;
      exists s'; (split; [exact Hrun |]);
      fields_in Hp; fields_in Hbul; fields_in Hg;
      (repeat split; [now rewrite Hg | rewrite Hbul, <- ?app_assoc; reflexivity |]);
      exists burst; auto.
Qed.

Lemma bind_ret_tt (m : M unit) s : bind m (fun _ => ret tt) s = m s.
Proof. unfold bind, ret. destruct (m s) as [[] s' | e]; reflexivity. Qed.

(** In mode playing a fire command comes down to one call of [shootBullet],
    for the key after the key has joined the pressed keys. *)
Lemma fire_command_run fuel env c (s : State) :
  isFireCommand env c ->
  mode s = playing ->
  exists s0,
    run fuel c s = shootBullet env s0 /\
    core s0 = core s /\ gameplay s0 = gameplay s /\ effects s0 = effects s /\
    aimPositionRef s0 = aimPositionRef s.
Proof.
  intros [[e ->] | (key & -> & Hkey)] Hmode; cbn [run].
  - exists s. unfold handleMouseDown, bind, get. rewrite Hmode. auto.
  - exists (set_pressedKeysRef (add (toLowerCase key) (pressedKeysRef s)) s).
    split; [| fields; auto].
    unfold handleKeyDown. cbn [KeyboardEvent.repeat KeyboardEvent.key].
    unfold bind at 1. unfold modify at 1. unfold bind at 1. unfold get at 1.
    fields. rewrite Hmode.
    destruct Hkey as [-> | ->]; cbn [isKey String.eqb Ascii.eqb Bool.eqb orb];
      unfold bind at 1; unfold ret at 1; unfold bind at 1; unfold ret at 1;
      unfold bind at 1; unfold ret at 1; apply bind_ret_tt.
Qed.

Lemma aimDirection_ext (s s0 : State) :
  core s0 = core s -> aimPositionRef s0 = aimPositionRef s ->
  aimDirection s0 = aimDirection s.
Proof. unfold aimDirection. now intros -> ->. Qed.

(** C9. [normalize] never divides by zero: on every vector its checked
    evaluation succeeds, with the value of [normalize], so no component is
    NaN; it maps the zero vector to the zero vector; with no pointer
    position known, the aim direction of a fire command is up, (0, -1), and
    it is the direction of the beam or of the bullet fired. *)
Theorem zero_vector_and_default_aim fuel env rect c (s : State) :
  Math_hypot 0 0 == 0 ->
  (forall a b, a == 0 -> b == -1 -> Math_hypot a b == 1) ->
  isFireCommand env c ->
  mode s = playing ->
  canvasRef env = Some rect ->
  aimPositionRef s = None ->
  (forall v, normalizeChecked v = Some (normalize v)) /\
  normalizeChecked (vec 0 0) = Some (vec 0 0) /\
  normalize (vec 0 0) = vec 0 0 /\
  Vector2D.x (aimDirection s) == 0 /\ Vector2D.y (aimDirection s) == -1 /\
  exists s',
    run fuel c s = Ok tt s' /\
    (0 < laserRef s ->
       exists b, beamsRef s' = beamsRef s ++ [b] /\ Beam.direction b = aimDirection s) /\
    (laserRef s <= 0 ->
       exists new b, bulletsRef s' = bulletsRef s ++ new /\ In b new /\
                     Bullet.direction b = aimDirection s).
Proof.
  intros H0 Hup Hfire Hmode Hc Haim.
  assert (Hchecked : forall v, normalizeChecked v = Some (normalize v)).
  { intros v. unfold normalizeChecked, normalize, divide. cbv zeta.
    destruct (Qeq_bool (orElse (length v) 1) 0) eqn:E; [| reflexivity].
    apply Qeq_bool_iff in E. now apply orElse_nonzero in E. }
  assert (Hzero : normalize (vec 0 0) = vec 0 0).
  { unfold normalize, length. cbn [Vector2D.x Vector2D.y].
    rewrite (orElse_zero _ _ H0). reflexivity. }
  split; [exact Hchecked |]. split; [now rewrite Hchecked, Hzero |].
  split; [exact Hzero |]. split; [| split].
  - unfold aimDirection. rewrite Haim. unfold normalize, length.
    cbn [Vector2D.x Vector2D.y].
    rewrite orElse_one by (apply Hup; ring). field.
  - unfold aimDirection. rewrite Haim. unfold normalize, length.
    cbn [Vector2D.x Vector2D.y].
    rewrite orElse_one by (apply Hup; ring). field.
  - destruct (fire_command_run fuel env c s Hfire Hmode)
      as (s0 & -> & Hco & Hg & He & Ha).
    destruct (shootBullet_run env rect s0 Hc) as (s' & Hrun & H).
    pose proof (aimDirection_ext s s0 Hco Ha) as Hdir.
    rewrite He, Hco, Hg in H.
    exists s'. split; [exact Hrun |]. split.
    + intros Hl. apply Qgtb_lt in Hl. rewrite Hl in H. destruct H as (_ & _ & Hb).
      eexists. split; [exact Hb |]. exact Hdir.
    + intros Hl. apply Qgtb_le in Hl. rewrite Hl in H. destruct H as (_ & Hb & _).
      exists (shotBullets s0). unfold shotBullets in *. cbv zeta in *.
      rewrite <- Hdir.
      destruct (Qgtb (spreadRef s0) 0).
      * eexists. split; [exact Hb |]. split; [right; left; reflexivity | reflexivity].
      * eexists. split; [exact Hb |]. split; [left; reflexivity | reflexivity].
Qed.

End Firing.

(** ** Destruction *)

Section Destruction.

Context {host : Host}.

(** The bullet pass keeps an enemy it does not destroy above 0 hp: every
    impact is followed by the test [hp <= 0]. *)
Lemma bulletLoop_positive after : forall enemy before (s : State) enemy' isDestroyed s',
  bulletLoop enemy before after s = Ok (enemy', isDestroyed) s' ->
  0 < Enemy.hp enemy ->
  isDestroyed = false ->
  0 < Enemy.hp enemy'.
Proof.
  induction after as [| bullet after IH]; intros enemy before s enemy' d s' Hrun Hpos Hd;
    cbn [bulletLoop] in Hrun.
  - inversion Hrun. now subst.
  - destruct (hits enemy bullet).
    + apply bind_Ok in Hrun as (? & s1 & _ & Hrun).
      apply bind_Ok in Hrun as (? & s2 & _ & Hrun).
      destruct (Qleb (Enemy.hp (set_hp (Enemy.hp enemy - 1) enemy)) 0) eqn:E.
      * apply bind_Ok in Hrun as (? & s3 & _ & Hrun). inversion Hrun. congruence.
      * apply Qleb_gt in E. eapply IH; eauto.
    + eapply IH; eauto.
Qed.

Lemma enemyLoop_positive enemies : forall remaining (s : State) r s',
  enemyLoop enemies remaining s = Ok r s' ->
  Forall (fun e => 0 < Enemy.hp e) enemies ->
  Forall (fun e => 0 < Enemy.hp e) remaining ->
  Forall (fun e => 0 < Enemy.hp e) r.
Proof.
  induction enemies as [| enemy enemies IH]; intros remaining s r s' Hrun Hall Hrem;
    cbn [enemyLoop] in Hrun.
  - inversion Hrun. now subst.
  - inversion Hall as [| ? ? Hpos Hall']; subst.
    apply bind_Ok in Hrun as (s0 & s1 & Hget & Hrun). inversion Hget; subst.
    apply bind_Ok in Hrun as ([enemy' d] & s2 & Hloop & Hrun).
    eapply IH; [exact Hrun | exact Hall' |].
    destruct d; cbn [negb]; [exact Hrem |].
    apply Forall_app. split; [exact Hrem |]. constructor; [| constructor].
    eapply bulletLoop_positive; eauto.
Qed.

(** Without beams in play, the collision pass keeps the invariant: enemies
    that came in with hp > 0 leave with hp > 0 or are gone. *)
Lemma collisions_keep_positive width height (s s' : State) :
  collisions width height s = Ok tt s' ->
  Forall (fun e => 0 < Enemy.hp e) (enemiesRef s) ->
  Forall (fun e => 0 < Enemy.hp e) (enemiesRef s').
Proof.
  intros Hrun Hall. unfold collisions in Hrun.
  apply bind_Ok in Hrun as (s0 & s1 & Hget & Hrun). inversion Hget; subst.
  apply bind_Ok in Hrun as (r & s2 & Hloop & Hrun).
  apply bind_Ok in Hrun as (s3 & s4 & Hget' & Hrun). inversion Hget'; subst.
  unfold bind, modify in Hrun. inversion Hrun; subst. fields.
  apply enemyLoop_positive in Hloop; [| assumption | constructor].
  apply Forall_forall. intros e He. apply filter_In in He as [He _].
  revert e He. now apply Forall_forall.
Qed.

(** With no bullet in flight the collision pass destroys nothing: whatever
    its hp, an enemy within the margin stays. *)
Lemma enemyLoop_no_bullets enemies : forall remaining (s : State),
  bulletsRef s = [] ->
  enemyLoop enemies remaining s = Ok (remaining ++ enemies) s.
Proof.
  induction enemies as [| enemy enemies IH]; intros remaining s Hb; cbn [enemyLoop].
  - now rewrite app_nil_r.
  - unfold bind at 1. unfold get at 1. rewrite Hb. cbn [bulletLoop].
    unfold bind, ret. cbn [negb]. rewrite IH by assumption.
    now rewrite <- app_assoc.
Qed.

Lemma collisions_without_bullets width height (s : State) :
  bulletsRef s = [] ->
  exists s',
    collisions width height s = Ok tt s' /\
    enemiesRef s' = filter (inMargin width height) (enemiesRef s).
Proof.
  intros Hb. unfold collisions. unfold bind at 1. unfold get at 1.
  unfold bind at 1. rewrite enemyLoop_no_bullets by assumption.
  unfold bind, get, modify. eexists. split; [reflexivity |]. reflexivity.
Qed.

(** Beam damage alone never removes an enemy: after the beam pass and the
    collision pass of a tick without bullets, the enemies within the margin
    are all still there, with the hp the beams left them. *)
Lemma beam_victims_stay dt width height (s : State) :
  bulletsRef s = [] ->
  exists s1 s2,
    updateBeams dt s = Ok tt s1 /\
    collisions width height s1 = Ok tt s2 /\
    enemiesRef s2 = filter (inMargin width height) (enemiesRef s1).
Proof.
  intros Hb.
  unfold updateBeams. unfold bind at 1. unfold get at 1.
  destruct (beamsLoop_run dt (beamsRef s) [] s)
    as (s0 & Hrun & _ & _ & _ & _ & Hbul & _).
  unfold bind. rewrite Hrun. unfold modify.
  eexists. destruct (collisions_without_bullets width height
                       (set_beamsRef ([] ++ filter (fun b => Qgtb (Beam.ttl b) 0)
                                              (map (aged dt) (beamsRef s))) s0))
    as (s2 & Hc & He).
  { fields. congruence. }
  exists s2. split; [reflexivity |]. split; [exact Hc | exact He].
Qed.

End Destruction.

(** ** Mode changes *)

Section Restart.

Context {host : Host}.

Lemma reachable_runAll fuel cs : forall s s',
  reachable s -> runAll fuel cs s = Ok tt s' -> reachable s'.
Proof.
  induction cs as [| c cs IH]; intros s s' Hs Hrun; cbn [runAll] in Hrun.
  - inversion Hrun. now subst.
  - apply bind_Ok in Hrun as ([] & s1 & H1 & H2).
    eapply IH; [| exact H2]. eapply reachable_step; eauto.
Qed.

End Restart.

(** What the start command resets, and what it leaves as it was. *)
Lemma startGame_run env (s : State) :
  exists s',
    startGame env s = Ok tt s' /\
    mode s' = playing /\ score s' = 0 /\
    bulletsRef s' = [] /\ enemiesRef s' = [] /\ particlesRef s' = [] /\
    spawnAccumulatorRef s' = 0 /\ spawnIntervalRef s' = 900 /\
    difficultyTimerRef s' = 0 /\ screenShakeRef s' = 0 /\ lastTimeRef s' = None /\
    gameplay s' = gameplay s /\ bossEvents s' = bossEvents s /\
    effects s' = effects s /\ combo s' = combo s /\
    themeRotation s' = themeRotation s.
Proof.
  unfold startGame, resetGame, bind, modify. destruct (containerRef env);
    eexists; (split; [reflexivity |]); fields; repeat split.
Qed.

(** ** The sample host *)

Lemma sampleRandom_range n : 0 <= sampleRandom n /\ sampleRandom n < 1.
Proof.
  unfold sampleRandom.
  pose proof (Z.mod_pos_bound (lehmer (S n)) 1000 eq_refl) as [Hlo Hhi].
  set (z := (lehmer (S n) mod 1000)%Z) in *. clearbody z.
  unfold Qle, Qlt, Qdiv, Qmult, Qinv, inject_Z. cbn [Qnum Qden]. split; lia.
Qed.

Lemma sampleHypot_zero : sampleHypot 0 0 == 0.
Proof. reflexivity. Qed.

Lemma sampleHypot_up a b : a == 0 -> b == -1 -> sampleHypot a b == 1.
Proof.
  intros Ha Hb. unfold sampleHypot.
  rewrite (Qfloor_comp _ 1000000000000) by (rewrite Ha, Hb; reflexivity).
  reflexivity.
Qed.

(** ** The claims on concrete runs *)

(** C3. A session played until the first enemy reaches the rocket ends in
    game over with the boss, event and theme timers at 2.608 s; the start
    command then returns to playing with these timers as they were, not at
    their initial value 0. *)
Theorem restart_keeps_timers :
  exists s s',
    runAll (host := sampleHost) 20 crashScript (initialState (host := sampleHost)) = Ok tt s /\
    mode s = gameover /\
    run (host := sampleHost) 20 (KeyDown sampleEnv (KeyboardEvent.mk "Enter" false)) s
      = Ok tt s' /\
    mode s' = playing /\
    bossTimerRef s' == 2.608 /\ eventTimerRef s' == 2.608 /\ themeTimerRef s' == 2.608.
Proof.
  eexists. eexists.
  split; [vm_compute; reflexivity |].
  split; [reflexivity |].
  split; [vm_compute; reflexivity |].
  split; [reflexivity |].
  split; [| split]; vm_compute; reflexivity.
Qed.

(** C4, as stated, fails half way through the crossfade from Blue Void
    (ufoChance 0.45) to Ember Rift (ufoChance 0.3): the spawner's parameters
    are not the interpolated ones, and with a draw of 0.36, under the
    interpolated chance 0.375, the enemy spawned is an asteroid. *)
Lemma spawn_parameters_not_interpolated :
  themeTransitioningRef blendingState = true /\
  0 < themeBlendRef blendingState /\ themeBlendRef blendingState < 1 /\
  ~ interpolatedAt blendingState /\
  Math_random (Host := sampleHost) (2 + randomCalls blendingState) < lerp 0.45 0.3 0.5 /\
  exists s' e,
    spawnEnemy (host := sampleHost) 800 600 blendingState = Ok tt s' /\
    enemiesRef s' = [e] /\ Enemy.kind e = asteroid.
Proof.
  split; [reflexivity |]. split; [reflexivity |]. split; [reflexivity |]. split.
  - intros (themeA & themeB & theme & HA & HB & Ht & Hu & _).
    vm_compute in HA, HB, Ht.
    injection HA as <-. injection HB as <-. injection Ht as <-.
    vm_compute in Hu. discriminate.
  - split; [reflexivity |].
    eexists. eexists. split; [vm_compute; reflexivity |]. split; reflexivity.
Qed.

(** ** The theorems at sample inputs *)

Lemma no_powerups_ever_witness :
  exists s,
    runAll (host := sampleHost) 20 shortScript (initialState (host := sampleHost)) = Ok tt s /\
    reachable (host := sampleHost) s /\
    mode s = playing /\
    powerUpsRef s = [] /\ wellsRef s = [] /\
    shieldTimerRef s = 0 /\ slowMoRef s = 0 /\ magnetRef s = 0 /\
    homingRef s = 0 /\ spreadRef s = 0 /\ laserRef s = 0 /\
    hasShieldRef s = false.
Proof.
  eexists. split; [vm_compute; reflexivity |].
  match goal with
  | |- reachable ?s /\ _ =>
      assert (H : reachable (host := sampleHost) s)
  end.
  { apply (reachable_runAll (host := sampleHost) 20 shortScript
             (initialState (host := sampleHost))).
    - apply reachable_init.
    - vm_compute. reflexivity. }
  split; [exact H |]. split; [reflexivity |].
  exact (no_powerups_ever (host := sampleHost) _ H).
Defined.

Lemma spawn_uses_next_theme_witness :
  themeTransitioningRef blendingState = true /\
  0 < themeBlendRef blendingState /\
  themeBlendRef blendingState < 1 /\
  themeAt (nextThemeIdxRef blendingState)
    = Some (EnvironmentTheme.mk "Ember Rift" 110 0.3 1.1) /\
  spawnTheme blendingState = Some (EnvironmentTheme.mk "Ember Rift" 110 0.3 1.1) /\
  exists s' e,
    spawnEnemy (host := sampleHost) 800 600 blendingState = Ok tt s' /\
    enemiesRef s' = enemiesRef blendingState ++ [e] /\
    Enemy.kind e = asteroid.
Proof.
  destruct (spawn_uses_next_theme (host := sampleHost) 800 600 blendingState
              (EnvironmentTheme.mk "Ember Rift" 110 0.3 1.1))
    as (Ht & _ & s' & e & Hrun & Hen & Hkind & _);
    try reflexivity.
  split; [reflexivity |]. split; [reflexivity |]. split; [reflexivity |].
  split; [reflexivity |]. split; [exact Ht |].
  exists s', e. split; [exact Hrun |]. split; [exact Hen |]. exact Hkind.
Defined.

Lemma spawning_per_interval_witness :
  (* no boss: two intervals of 900 ms fit in the 2000 ms accumulated *)
  (0 < spawnIntervalRef playingState /\
   wholeIntervals 2 900 (spawnAccumulatorRef playingState + 2 * 1000) /\
   exists s' new,
     spawning (host := sampleHost) 5 2 800 600 playingState = Ok false s' /\
     enemiesRef s' = new /\ List.length new = 2%nat /\
     spawnAccumulatorRef s' == 200) /\
  (* a boss alive: two steps of 1620 ms fit in the 3300 ms accumulated *)
  (bossAliveIn (enemiesRef bossState) = true /\
   wholeIntervals 2 (900 * 1.8) (spawnAccumulatorRef bossState + 0 * 1000) /\
   exists s',
     spawning (host := sampleHost) 5 0 800 600 bossState = Ok true s' /\
     enemiesRef s' = enemiesRef bossState /\
     spawnAccumulatorRef s' == 60).
Proof.
  split.
  - assert (H0 : 0 < spawnIntervalRef playingState) by reflexivity.
    assert (Hk : wholeIntervals 2 900 (spawnAccumulatorRef playingState + 2 * 1000)).
    { split; [discriminate | reflexivity]. }
    destruct (spawning_per_interval (host := sampleHost) 5 2 800 600 playingState 2 H0 Hk)
      as (s' & new & Hrun & Hen & _ & _ & Hno); [lia | eexists; reflexivity |].
    destruct (Hno eq_refl) as [Hlen Hacc].
    split; [exact H0 |]. split; [exact Hk |].
    exists s', new. split; [exact Hrun |]. split; [exact Hen |]. split; [exact Hlen |].
    rewrite Hacc. reflexivity.
  - assert (H0 : 0 < spawnIntervalRef bossState) by reflexivity.
    assert (Hk : wholeIntervals 2 (900 * 1.8) (spawnAccumulatorRef bossState + 0 * 1000)).
    { split; [discriminate | reflexivity]. }
    destruct (spawning_per_interval (host := sampleHost) 5 0 800 600 bossState 2 H0 Hk)
      as (s' & new & Hrun & Hen & _ & Hboss & _); [lia | discriminate |].
    destruct (Hboss eq_refl) as [Hnew Hacc].
    split; [reflexivity |]. split; [exact Hk |].
    exists s'. split; [exact Hrun |]. split.
    + rewrite Hen, Hnew. apply app_nil_r.
    + rewrite Hacc. reflexivity.
Defined.

Lemma pickup_sets_duration_witness :
  In (PowerUp.mk (vec 400 300) 10 shield 5) (powerUpsRef pickupState) /\
  inPickupRange (rocketRef pickupState) (PowerUp.mk (vec 400 300) 10 shield 5) = true /\
  shieldTimerRef pickupState = 3 /\
  exists s',
    updatePowerUps (1 / 60) pickupState = Ok tt s' /\
    shieldTimerRef s' = 8 /\ hasShieldRef s' = true /\ powerUpsRef s' = [].
Proof.
  assert (Hin : In (PowerUp.mk (vec 400 300) 10 shield 5) (powerUpsRef pickupState))
    by (left; reflexivity).
  assert (Hr : inPickupRange (rocketRef pickupState)
                 (PowerUp.mk (vec 400 300) 10 shield 5) = true) by reflexivity.
  destruct (pickup_sets_duration (1 / 60) pickupState _ Hin Hr)
    as (s' & Hrun & [Ht Hs] & _).
  split; [exact Hin |]. split; [exact Hr |]. split; [reflexivity |].
  exists s'. split; [exact Hrun |]. split; [exact Ht |]. split; [exact Hs |].
  vm_compute in Hrun. inversion Hrun. reflexivity.
Defined.

Lemma zero_vector_and_default_aim_witness :
  Math_hypot (Host := sampleHost) 0 0 == 0 /\
  isFireCommand (host := sampleHost) sampleEnv (MouseDown sampleEnv None) /\
  mode playingState = playing /\
  canvasRef sampleEnv = Some sampleCanvas /\
  aimPositionRef playingState = None /\
  laserRef playingState <= 0 /\
  normalizeChecked (host := sampleHost) (vec 0 0) = Some (vec 0 0) /\
  normalize (host := sampleHost) (vec 0 0) = vec 0 0 /\
  Vector2D.x (aimDirection (host := sampleHost) playingState) == 0 /\
  Vector2D.y (aimDirection (host := sampleHost) playingState) == -1 /\
  exists s' new b,
    run (host := sampleHost) 20 (MouseDown sampleEnv None) playingState = Ok tt s' /\
    bulletsRef s' = bulletsRef playingState ++ new /\
    In b new /\
    Bullet.direction b = aimDirection (host := sampleHost) playingState.
Proof.
  assert (Hfire : isFireCommand (host := sampleHost) sampleEnv (MouseDown sampleEnv None)).
  { left. exists None. reflexivity. }
  assert (Hl : laserRef playingState <= 0) by discriminate.
  destruct (zero_vector_and_default_aim (host := sampleHost) 20 sampleEnv sampleCanvas _
              playingState sampleHypot_zero sampleHypot_up Hfire eq_refl eq_refl eq_refl)
    as (_ & Hchecked & Hz & Hx & Hy & s' & Hrun & _ & Hbullet).
  destruct (Hbullet Hl) as (new & b & Hb & Hin & Hdir).
  split; [exact sampleHypot_zero |]. split; [exact Hfire |].
  split; [reflexivity |]. split; [reflexivity |]. split; [reflexivity |].
  split; [exact Hl |]. split; [exact Hchecked |].
  split; [exact Hz |]. split; [exact Hx |]. split; [exact Hy |].
  exists s', new, b. split; [exact Hrun |]. split; [exact Hb |].
  split; [exact Hin | exact Hdir].
Defined.

(** * Further properties *)

(** ** What each function leaves alone

    A property of the state that survives the assignments a function makes
    survives the function.  Each lemma asks only for the assignments its
    function can reach. *)

Section Footprint.

Context {host : Host}.
Variable P : State -> Prop.
Hypothesis K_score : forall v s, P s -> P (set_score v s).
Hypothesis K_mode : forall v s, P s -> P (set_mode v s).
Hypothesis K_rocketRef : forall v s, P s -> P (set_rocketRef v s).
Hypothesis K_bulletsRef : forall v s, P s -> P (set_bulletsRef v s).
Hypothesis K_enemiesRef : forall v s, P s -> P (set_enemiesRef v s).
Hypothesis K_particlesRef : forall v s, P s -> P (set_particlesRef v s).
Hypothesis K_spawnAccumulatorRef : forall v s, P s -> P (set_spawnAccumulatorRef v s).
Hypothesis K_spawnIntervalRef : forall v s, P s -> P (set_spawnIntervalRef v s).
Hypothesis K_difficultyTimerRef : forall v s, P s -> P (set_difficultyTimerRef v s).
Hypothesis K_screenShakeRef : forall v s, P s -> P (set_screenShakeRef v s).
Hypothesis K_powerUpsRef : forall v s, P s -> P (set_powerUpsRef v s).
Hypothesis K_scoreOrbsRef : forall v s, P s -> P (set_scoreOrbsRef v s).
Hypothesis K_wellsRef : forall v s, P s -> P (set_wellsRef v s).
Hypothesis K_beamsRef : forall v s, P s -> P (set_beamsRef v s).
Hypothesis K_hideHUDRef : forall v s, P s -> P (set_hideHUDRef v s).
Hypothesis K_bossTimerRef : forall v s, P s -> P (set_bossTimerRef v s).
Hypothesis K_eventTimerRef : forall v s, P s -> P (set_eventTimerRef v s).
Hypothesis K_eventActiveRef : forall v s, P s -> P (set_eventActiveRef v s).
Hypothesis K_eventTimeLeftRef : forall v s, P s -> P (set_eventTimeLeftRef v s).
Hypothesis K_meteorSpawnAccRef : forall v s, P s -> P (set_meteorSpawnAccRef v s).
Hypothesis K_hasShieldRef : forall v s, P s -> P (set_hasShieldRef v s).
Hypothesis K_shieldTimerRef : forall v s, P s -> P (set_shieldTimerRef v s).
Hypothesis K_slowMoRef : forall v s, P s -> P (set_slowMoRef v s).
Hypothesis K_magnetRef : forall v s, P s -> P (set_magnetRef v s).
Hypothesis K_homingRef : forall v s, P s -> P (set_homingRef v s).
Hypothesis K_spreadRef : forall v s, P s -> P (set_spreadRef v s).
Hypothesis K_laserRef : forall v s, P s -> P (set_laserRef v s).
Hypothesis K_multiplierRef : forall v s, P s -> P (set_multiplierRef v s).
Hypothesis K_comboTimerRef : forall v s, P s -> P (set_comboTimerRef v s).
Hypothesis K_pauseRef : forall v s, P s -> P (set_pauseRef v s).
Hypothesis K_highContrastRef : forall v s, P s -> P (set_highContrastRef v s).
Hypothesis K_reducedMotionRef : forall v s, P s -> P (set_reducedMotionRef v s).
Hypothesis K_currentThemeIdxRef : forall v s, P s -> P (set_currentThemeIdxRef v s).
Hypothesis K_nextThemeIdxRef : forall v s, P s -> P (set_nextThemeIdxRef v s).
Hypothesis K_themeBlendRef : forall v s, P s -> P (set_themeBlendRef v s).
Hypothesis K_themeTimerRef : forall v s, P s -> P (set_themeTimerRef v s).
Hypothesis K_themeTransitioningRef : forall v s, P s -> P (set_themeTransitioningRef v s).
Hypothesis K_pressedKeysRef : forall v s, P s -> P (set_pressedKeysRef v s).
Hypothesis K_aimPositionRef : forall v s, P s -> P (set_aimPositionRef v s).
Hypothesis K_lastTimeRef : forall v s, P s -> P (set_lastTimeRef v s).
Hypothesis K_menuSectionRef : forall v s, P s -> P (set_menuSectionRef v s).
Hypothesis K_menuHitRectsRef : forall v s, P s -> P (set_menuHitRectsRef v s).
Hypothesis K_randomCalls : forall v s, P s -> P (set_randomCalls v s).

Create HintDb keep discriminated.

Ltac keep_setter :=
  intros; cbv beta zeta;
  repeat lazymatch goal with
         | |- P (if ?b then _ else _) => destruct b
         | |- P (set_score _ _) => apply K_score
         | |- P (set_mode _ _) => apply K_mode
         | |- P (set_rocketRef _ _) => apply K_rocketRef
         | |- P (set_bulletsRef _ _) => apply K_bulletsRef
         | |- P (set_enemiesRef _ _) => apply K_enemiesRef
         | |- P (set_particlesRef _ _) => apply K_particlesRef
         | |- P (set_spawnAccumulatorRef _ _) => apply K_spawnAccumulatorRef
         | |- P (set_spawnIntervalRef _ _) => apply K_spawnIntervalRef
         | |- P (set_difficultyTimerRef _ _) => apply K_difficultyTimerRef
         | |- P (set_screenShakeRef _ _) => apply K_screenShakeRef
         | |- P (set_powerUpsRef _ _) => apply K_powerUpsRef
         | |- P (set_scoreOrbsRef _ _) => apply K_scoreOrbsRef
         | |- P (set_wellsRef _ _) => apply K_wellsRef
         | |- P (set_beamsRef _ _) => apply K_beamsRef
         | |- P (set_hideHUDRef _ _) => apply K_hideHUDRef
         | |- P (set_bossTimerRef _ _) => apply K_bossTimerRef
         | |- P (set_eventTimerRef _ _) => apply K_eventTimerRef
         | |- P (set_eventActiveRef _ _) => apply K_eventActiveRef
         | |- P (set_eventTimeLeftRef _ _) => apply K_eventTimeLeftRef
         | |- P (set_meteorSpawnAccRef _ _) => apply K_meteorSpawnAccRef
         | |- P (set_hasShieldRef _ _) => apply K_hasShieldRef
         | |- P (set_shieldTimerRef _ _) => apply K_shieldTimerRef
         | |- P (set_slowMoRef _ _) => apply K_slowMoRef
         | |- P (set_magnetRef _ _) => apply K_magnetRef
         | |- P (set_homingRef _ _) => apply K_homingRef
         | |- P (set_spreadRef _ _) => apply K_spreadRef
         | |- P (set_laserRef _ _) => apply K_laserRef
         | |- P (set_multiplierRef _ _) => apply K_multiplierRef
         | |- P (set_comboTimerRef _ _) => apply K_comboTimerRef
         | |- P (set_pauseRef _ _) => apply K_pauseRef
         | |- P (set_highContrastRef _ _) => apply K_highContrastRef
         | |- P (set_reducedMotionRef _ _) => apply K_reducedMotionRef
         | |- P (set_currentThemeIdxRef _ _) => apply K_currentThemeIdxRef
         | |- P (set_nextThemeIdxRef _ _) => apply K_nextThemeIdxRef
         | |- P (set_themeBlendRef _ _) => apply K_themeBlendRef
         | |- P (set_themeTimerRef _ _) => apply K_themeTimerRef
         | |- P (set_themeTransitioningRef _ _) => apply K_themeTransitioningRef
         | |- P (set_pressedKeysRef _ _) => apply K_pressedKeysRef
         | |- P (set_aimPositionRef _ _) => apply K_aimPositionRef
         | |- P (set_lastTimeRef _ _) => apply K_lastTimeRef
         | |- P (set_menuSectionRef _ _) => apply K_menuSectionRef
         | |- P (set_menuHitRectsRef _ _) => apply K_menuHitRectsRef
         | |- P (set_randomCalls _ _) => apply K_randomCalls
         | |- P _ => assumption
         end.

Ltac keep_step :=
  lazymatch goal with
  | |- preserves _ (ret _) => apply preserves_ret
  | |- preserves _ get => apply preserves_get
  | |- preserves _ (throw _) => apply preserves_throw
  | |- preserves _ random => apply preserves_random; keep_setter
  | |- preserves _ (modify _) => apply preserves_modify; keep_setter
  | |- preserves _ (bind _ _) => apply preserves_bind; [ | intros ? ]
  | |- preserves _ (times _ _) => apply preserves_times
  | |- preserves _ (fillMap _ _) => apply preserves_fillMap
  | |- preserves _ (mapM _ _) => apply preserves_mapM; intros ?
  | |- preserves _ (if ?b then _ else _) => destruct b
  | |- preserves _ (match ?x with _ => _ end) => destruct x
  | |- preserves _ (let _ := _ in _) => cbv zeta
  | |- preserves _ _ => solve [auto with keep nocore]
  end.

Ltac keep := repeat keep_step.

Lemma keep_random : preserves P random.
Proof. keep. Qed.
Hint Resolve keep_random : keep.

Lemma keep_pickLoop fuel exclude idx : preserves P (pickLoop fuel exclude idx).
Proof. revert idx. induction fuel as [| fuel IH]; intros idx; cbn [pickLoop]; keep. Qed.
Hint Resolve keep_pickLoop : keep.

Lemma keep_pickNextThemeIndex fuel exclude :
  preserves P (pickNextThemeIndex fuel exclude).
Proof. unfold pickNextThemeIndex. keep. Qed.
Hint Resolve keep_pickNextThemeIndex : keep.

Lemma keep_resetGame env : preserves P (resetGame env).
Proof. unfold resetGame. keep. Qed.
Hint Resolve keep_resetGame : keep.

Lemma keep_startGame env : preserves P (startGame env).
Proof. unfold startGame. keep. Qed.
Hint Resolve keep_startGame : keep.

Lemma keep_push_particle p : preserves P (push_particle p).
Proof. unfold push_particle. keep. Qed.
Hint Resolve keep_push_particle : keep.

Lemma keep_push_enemy e : preserves P (push_enemy e).
Proof. unfold push_enemy. keep. Qed.
Hint Resolve keep_push_enemy : keep.

Lemma keep_push_bullet b : preserves P (push_bullet b).
Proof. unfold push_bullet. keep. Qed.
Hint Resolve keep_push_bullet : keep.

Lemma keep_push_beam b : preserves P (push_beam b).
Proof. unfold push_beam. keep. Qed.
Hint Resolve keep_push_beam : keep.

Lemma keep_push_orb o : preserves P (push_orb o).
Proof. unfold push_orb. keep. Qed.
Hint Resolve keep_push_orb : keep.

Lemma keep_muzzleFlash origin direction : preserves P (muzzleFlash origin direction).
Proof. unfold muzzleFlash. keep. Qed.
Hint Resolve keep_muzzleFlash : keep.

Lemma keep_makeBullet origin dir : preserves P (makeBullet origin dir).
Proof. unfold makeBullet. keep. Qed.
Hint Resolve keep_makeBullet : keep.

Lemma keep_shootBullet env : preserves P (shootBullet env).
Proof. unfold shootBullet. keep. Qed.
Hint Resolve keep_shootBullet : keep.

Lemma keep_spawnFrom theme width height : preserves P (spawnFrom theme width height).
Proof. unfold spawnFrom. keep. Qed.
Hint Resolve keep_spawnFrom : keep.

Lemma keep_spawnEnemy width height : preserves P (spawnEnemy width height).
Proof. unfold spawnEnemy. keep. Qed.
Hint Resolve keep_spawnEnemy : keep.

Lemma keep_explosionParticle x y kind : preserves P (explosionParticle x y kind).
Proof. unfold explosionParticle. keep. Qed.
Hint Resolve keep_explosionParticle : keep.

Lemma keep_createExplosion x y kind : preserves P (createExplosion x y kind).
Proof. unfold createExplosion. keep. Qed.
Hint Resolve keep_createExplosion : keep.

Lemma keep_spawnOrb cx cy : preserves P (spawnOrb cx cy).
Proof. unfold spawnOrb. keep. Qed.
Hint Resolve keep_spawnOrb : keep.

Lemma keep_onEnemyDestroyed enemy : preserves P (onEnemyDestroyed enemy).
Proof. unfold onEnemyDestroyed. keep. Qed.
Hint Resolve keep_onEnemyDestroyed : keep.

Lemma keep_thrusterParticle rocket c dir : preserves P (thrusterParticle rocket c dir).
Proof. unfold thrusterParticle. keep. Qed.
Hint Resolve keep_thrusterParticle : keep.

Lemma keep_spawnThruster dt : preserves P (spawnThruster dt).
Proof. unfold spawnThruster. keep. Qed.
Hint Resolve keep_spawnThruster : keep.

Lemma keep_moveShip dt width height : preserves P (moveShip dt width height).
Proof. unfold moveShip. keep. Qed.
Hint Resolve keep_moveShip : keep.

Lemma keep_themeRotate fuel dt : preserves P (themeRotate fuel dt).
Proof. unfold themeRotate. keep. Qed.
Hint Resolve keep_themeRotate : keep.

Lemma keep_comboDecay dt : preserves P (comboDecay dt).
Proof. unfold comboDecay. keep. Qed.
Hint Resolve keep_comboDecay : keep.

Lemma keep_difficulty dt : preserves P (difficulty dt).
Proof. unfold difficulty. keep. Qed.
Hint Resolve keep_difficulty : keep.

Lemma keep_spawnLoop fuel spawnStep bossAlive width height :
  preserves P (spawnLoop fuel spawnStep bossAlive width height).
Proof. induction fuel as [| fuel IH]; cbn [spawnLoop]; keep. Qed.
Hint Resolve keep_spawnLoop : keep.

Lemma keep_spawning fuel dt width height : preserves P (spawning fuel dt width height).
Proof. unfold spawning. keep. Qed.
Hint Resolve keep_spawning : keep.

Lemma keep_bossWaves bossAlive dt width : preserves P (bossWaves bossAlive dt width).
Proof. unfold bossWaves. keep. Qed.
Hint Resolve keep_bossWaves : keep.

Lemma keep_meteorLoop fuel width : preserves P (meteorLoop fuel width).
Proof. induction fuel as [| fuel IH]; cbn [meteorLoop]; keep. Qed.
Hint Resolve keep_meteorLoop : keep.

Lemma keep_events fuel dt width : preserves P (events fuel dt width).
Proof. unfold events. keep. Qed.
Hint Resolve keep_events : keep.

Lemma keep_updateWells dt : preserves P (updateWells dt).
Proof. unfold updateWells. keep. Qed.
Hint Resolve keep_updateWells : keep.

Lemma keep_slowMo dt : preserves P (slowMo dt).
Proof. unfold slowMo. keep. Qed.
Hint Resolve keep_slowMo : keep.

Lemma keep_updateEnemies effectiveDt : preserves P (updateEnemies effectiveDt).
Proof. unfold updateEnemies. keep. Qed.
Hint Resolve keep_updateEnemies : keep.

Lemma keep_moveBullet effectiveDt bullet : preserves P (moveBullet effectiveDt bullet).
Proof. unfold moveBullet. keep. Qed.
Hint Resolve keep_moveBullet : keep.

Lemma keep_updateBullets effectiveDt : preserves P (updateBullets effectiveDt).
Proof. unfold updateBullets. keep. Qed.
Hint Resolve keep_updateBullets : keep.

Lemma keep_beamsLoop dt beams remaining : preserves P (beamsLoop dt beams remaining).
Proof. revert remaining. induction beams as [| b beams IH]; intros remaining; cbn [beamsLoop]; keep. Qed.
Hint Resolve keep_beamsLoop : keep.

Lemma keep_updateBeams dt : preserves P (updateBeams dt).
Proof. unfold updateBeams. keep. Qed.
Hint Resolve keep_updateBeams : keep.

Lemma keep_impactParticle bullet : preserves P (impactParticle bullet).
Proof. unfold impactParticle. keep. Qed.
Hint Resolve keep_impactParticle : keep.

Lemma keep_bulletLoop enemy before after : preserves P (bulletLoop enemy before after).
Proof. revert enemy before. induction after as [| bullet after IH]; intros enemy before; cbn [bulletLoop]; keep. Qed.
Hint Resolve keep_bulletLoop : keep.

Lemma keep_enemyLoop enemies remaining : preserves P (enemyLoop enemies remaining).
Proof. revert remaining. induction enemies as [| enemy enemies IH]; intros remaining; cbn [enemyLoop]; keep. Qed.
Hint Resolve keep_enemyLoop : keep.

Lemma keep_collisions width height : preserves P (collisions width height).
Proof. unfold collisions. keep. Qed.
Hint Resolve keep_collisions : keep.

Lemma keep_orbsLoop effectiveDt orbs remaining :
  preserves P (orbsLoop effectiveDt orbs remaining).
Proof. revert remaining. induction orbs as [| orb orbs IH]; intros remaining; cbn [orbsLoop]; keep. Qed.
Hint Resolve keep_orbsLoop : keep.

Lemma keep_updateOrbs effectiveDt : preserves P (updateOrbs effectiveDt).
Proof. unfold updateOrbs. keep. Qed.
Hint Resolve keep_updateOrbs : keep.

Lemma keep_collect type : preserves P (collect type).
Proof. unfold collect. keep. Qed.
Hint Resolve keep_collect : keep.

Lemma keep_powerUpsLoop dt pups remaining :
  preserves P (powerUpsLoop dt pups remaining).
Proof. revert remaining. induction pups as [| p pups IH]; intros remaining; cbn [powerUpsLoop]; keep. Qed.
Hint Resolve keep_powerUpsLoop : keep.

Lemma keep_updatePowerUps dt : preserves P (updatePowerUps dt).
Proof. unfold updatePowerUps. keep. Qed.
Hint Resolve keep_updatePowerUps : keep.

Lemma keep_decrementTimers dt : preserves P (decrementTimers dt).
Proof. unfold decrementTimers. keep. Qed.
Hint Resolve keep_decrementTimers : keep.

Lemma keep_updateParticles dt effectiveDt :
  preserves P (updateParticles dt effectiveDt).
Proof. unfold updateParticles. keep. Qed.
Hint Resolve keep_updateParticles : keep.

Lemma keep_shakeDecay : preserves P shakeDecay.
Proof. unfold shakeDecay. keep. Qed.
Hint Resolve keep_shakeDecay : keep.

Lemma keep_shipLoop enemies survivors : preserves P (shipLoop enemies survivors).
Proof. revert survivors. induction enemies as [| enemy enemies IH]; intros survivors; cbn [shipLoop]; keep. Qed.
Hint Resolve keep_shipLoop : keep.

Lemma keep_shipCollisions : preserves P shipCollisions.
Proof. unfold shipCollisions. keep. Qed.
Hint Resolve keep_shipCollisions : keep.

Lemma keep_update fuel dt width height : preserves P (update fuel dt width height).
Proof. unfold update. keep. Qed.
Hint Resolve keep_update : keep.

Lemma keep_switchMap fuel key : preserves P (switchMap fuel key).
Proof. unfold switchMap. keep. Qed.
Hint Resolve keep_switchMap : keep.

Lemma keep_handleKeyDown fuel env e : preserves P (handleKeyDown fuel env e).
Proof. unfold handleKeyDown. keep. Qed.
Hint Resolve keep_handleKeyDown : keep.

Lemma keep_handleKeyUp e : preserves P (handleKeyUp e).
Proof. unfold handleKeyUp. keep. Qed.
Hint Resolve keep_handleKeyUp : keep.

Lemma keep_handleMouseMove env e : preserves P (handleMouseMove env e).
Proof. unfold handleMouseMove. keep. Qed.
Hint Resolve keep_handleMouseMove : keep.

Lemma keep_hitScan env mx my rects : preserves P (hitScan env mx my rects).
Proof. induction rects as [| hit rects IH]; cbn [hitScan]; keep. Qed.
Hint Resolve keep_hitScan : keep.

Lemma keep_handleMouseDown env e : preserves P (handleMouseDown env e).
Proof. unfold handleMouseDown. keep. Qed.
Hint Resolve keep_handleMouseDown : keep.

Lemma keep_resizeCanvasToContainer env : preserves P (resizeCanvasToContainer env).
Proof. unfold resizeCanvasToContainer. keep. Qed.
Hint Resolve keep_resizeCanvasToContainer : keep.

Lemma keep_loop fuel rect time : preserves P (loop fuel rect time).
Proof. unfold loop. keep. Qed.
Hint Resolve keep_loop : keep.

Lemma keep_run fuel c : preserves P (run fuel c).
Proof. destruct c; cbn [run]; keep. Qed.
Hint Resolve keep_run : keep.

End Footprint.

(** A property that mentions the state only through refs a function does not
    assign survives it: [stable] closes the assignments, [kept] picks the
    function's footprint, [passes] walks a composed computation. *)
Ltac stable := intros; cbv beta in *; fields; assumption.

Ltac kept :=
  lazymatch goal with
  | |- preserves _ random => apply keep_random; stable
  | |- preserves _ (pickLoop _ _ _) => apply keep_pickLoop; stable
  | |- preserves _ (pickNextThemeIndex _ _) => apply keep_pickNextThemeIndex; stable
  | |- preserves _ (resetGame _) => apply keep_resetGame; stable
  | |- preserves _ (startGame _) => apply keep_startGame; stable
  | |- preserves _ (push_particle _) => apply keep_push_particle; stable
  | |- preserves _ (push_enemy _) => apply keep_push_enemy; stable
  | |- preserves _ (push_bullet _) => apply keep_push_bullet; stable
  | |- preserves _ (push_beam _) => apply keep_push_beam; stable
  | |- preserves _ (push_orb _) => apply keep_push_orb; stable
  | |- preserves _ (muzzleFlash _ _) => apply keep_muzzleFlash; stable
  | |- preserves _ (makeBullet _ _) => apply keep_makeBullet; stable
  | |- preserves _ (shootBullet _) => apply keep_shootBullet; stable
  | |- preserves _ (spawnFrom _ _ _) => apply keep_spawnFrom; stable
  | |- preserves _ (spawnEnemy _ _) => apply keep_spawnEnemy; stable
  | |- preserves _ (explosionParticle _ _ _) => apply keep_explosionParticle; stable
  | |- preserves _ (createExplosion _ _ _) => apply keep_createExplosion; stable
  | |- preserves _ (spawnOrb _ _) => apply keep_spawnOrb; stable
  | |- preserves _ (onEnemyDestroyed _) => apply keep_onEnemyDestroyed; stable
  | |- preserves _ (thrusterParticle _ _ _) => apply keep_thrusterParticle; stable
  | |- preserves _ (spawnThruster _) => apply keep_spawnThruster; stable
  | |- preserves _ (moveShip _ _ _) => apply keep_moveShip; stable
  | |- preserves _ (themeRotate _ _) => apply keep_themeRotate; stable
  | |- preserves _ (comboDecay _) => apply keep_comboDecay; stable
  | |- preserves _ (difficulty _) => apply keep_difficulty; stable
  | |- preserves _ (spawnLoop _ _ _ _ _) => apply keep_spawnLoop; stable
  | |- preserves _ (spawning _ _ _ _) => apply keep_spawning; stable
  | |- preserves _ (bossWaves _ _ _) => apply keep_bossWaves; stable
  | |- preserves _ (meteorLoop _ _) => apply keep_meteorLoop; stable
  | |- preserves _ (events _ _ _) => apply keep_events; stable
  | |- preserves _ (updateWells _) => apply keep_updateWells; stable
  | |- preserves _ (slowMo _) => apply keep_slowMo; stable
  | |- preserves _ (updateEnemies _) => apply keep_updateEnemies; stable
  | |- preserves _ (moveBullet _ _) => apply keep_moveBullet; stable
  | |- preserves _ (updateBullets _) => apply keep_updateBullets; stable
  | |- preserves _ (beamsLoop _ _ _) => apply keep_beamsLoop; stable
  | |- preserves _ (updateBeams _) => apply keep_updateBeams; stable
  | |- preserves _ (impactParticle _) => apply keep_impactParticle; stable
  | |- preserves _ (bulletLoop _ _ _) => apply keep_bulletLoop; stable
  | |- preserves _ (enemyLoop _ _) => apply keep_enemyLoop; stable
  | |- preserves _ (collisions _ _) => apply keep_collisions; stable
  | |- preserves _ (orbsLoop _ _ _) => apply keep_orbsLoop; stable
  | |- preserves _ (updateOrbs _) => apply keep_updateOrbs; stable
  | |- preserves _ (collect _) => apply keep_collect; stable
  | |- preserves _ (powerUpsLoop _ _ _) => apply keep_powerUpsLoop; stable
  | |- preserves _ (updatePowerUps _) => apply keep_updatePowerUps; stable
  | |- preserves _ (decrementTimers _) => apply keep_decrementTimers; stable
  | |- preserves _ (updateParticles _ _) => apply keep_updateParticles; stable
  | |- preserves _ shakeDecay => apply keep_shakeDecay; stable
  | |- preserves _ (shipLoop _ _) => apply keep_shipLoop; stable
  | |- preserves _ shipCollisions => apply keep_shipCollisions; stable
  | |- preserves _ (update _ _ _ _) => apply keep_update; stable
  | |- preserves _ (switchMap _ _) => apply keep_switchMap; stable
  | |- preserves _ (handleKeyDown _ _ _) => apply keep_handleKeyDown; stable
  | |- preserves _ (handleKeyUp _) => apply keep_handleKeyUp; stable
  | |- preserves _ (handleMouseMove _ _) => apply keep_handleMouseMove; stable
  | |- preserves _ (hitScan _ _ _ _) => apply keep_hitScan; stable
  | |- preserves _ (handleMouseDown _ _) => apply keep_handleMouseDown; stable
  | |- preserves _ (resizeCanvasToContainer _) => apply keep_resizeCanvasToContainer; stable
  | |- preserves _ (loop _ _ _) => apply keep_loop; stable
  | |- preserves _ (run _ _) => apply keep_run; stable
  end.

Create HintDb inv discriminated.

Ltac pass_step :=
  lazymatch goal with
  | |- preserves _ (ret _) => apply preserves_ret
  | |- preserves _ get => apply preserves_get
  | |- preserves _ (throw _) => apply preserves_throw
  | |- preserves _ (bind _ _) => apply preserves_bind; [ | intros ? ]
  | |- preserves _ (modify _) => apply preserves_modify; stable
  | |- preserves _ (times _ _) => apply preserves_times
  | |- preserves _ (fillMap _ _) => apply preserves_fillMap
  | |- preserves _ (mapM _ _) => apply preserves_mapM; intros ?
  | |- preserves _ (if ?b then _ else _) => destruct b
  | |- preserves _ (match ?x with _ => _ end) => destruct x
  | |- preserves _ (let _ := _ in _) => cbv zeta
  | |- preserves _ _ => first [ solve [auto with inv nocore] | solve [kept] ]
  end.

Ltac passes := repeat pass_step.

(** From a completed run [H : m s = Ok a s'], what [P] becomes of. *)
Ltac keeps_in H P :=
  lazymatch type of H with
  | ?m ?s = Ok ?a ?s' =>
      let K := fresh "K" in
      assert (K : preserves P m) by passes;
      specialize (K s a s' H); cbv beta in K
  end.

(** The first pass of a tick that runs, and the passes after it. *)
Ltac tick_in H Hmode Hpause :=
  unfold update in H;
  let x := fresh "x" in
  let sx := fresh "sx" in
  let Hg := fresh "Hg" in
  let E1 := fresh "E" in
  let E2 := fresh "E" in
  apply bind_Ok in H; destruct H as (x & sx & Hg & H);
  unfold get in Hg; injection Hg as E1 E2; subst x sx;
  rewrite Hmode, Hpause in H.

(** ** The ship *)

Section Ship.

Context {host : Host}.

Lemma clamp_bounds v lo hi : lo <= hi -> lo <= clamp v lo hi /\ clamp v lo hi <= hi.
Proof.
  intros H. unfold clamp. split.
  - apply Q.le_max_l.
  - apply Q.max_lub; [exact H | apply Q.le_min_l].
Qed.

Lemma clamp_inside v lo hi : lo <= v -> v <= hi -> clamp v lo hi == v.
Proof.
  intros Hlo Hhi. unfold clamp.
  rewrite (Q.min_r hi v Hhi). apply Q.max_r. exact Hlo.
Qed.

(** X1. After every tick of a game under way, the rocket lies within the
    canvas, whatever keys are held and however long the tick, provided the
    canvas is at least as large as the rocket; its size and speed are those
    it had; and with no movement key held (or opposite keys held together) a
    rocket within the canvas stays where it is. *)
Theorem ship_stays_in_canvas fuel dt width height (s s' : State) :
  update fuel dt width height s = Ok tt s' ->
  mode s = playing -> pauseRef s = false ->
  Rocket.width (rocketRef s) <= width ->
  Rocket.height (rocketRef s) <= height ->
  inBounds width height (rocketRef s') /\
  Rocket.width (rocketRef s') = Rocket.width (rocketRef s) /\
  Rocket.height (rocketRef s') = Rocket.height (rocketRef s) /\
  Rocket.speed (rocketRef s') = Rocket.speed (rocketRef s) /\
  (isMoving (moveIntent (pressedKeysRef s)) = false ->
   inBounds width height (rocketRef s) ->
   Vector2D.x (Rocket.position (rocketRef s'))
     == Vector2D.x (Rocket.position (rocketRef s)) /\
   Vector2D.y (Rocket.position (rocketRef s'))
     == Vector2D.y (Rocket.position (rocketRef s))).
Proof.
  intros Hrun Hm Hp Hw Hh. tick_in Hrun Hm Hp.
  apply bind_Ok in Hrun as ([] & s0 & H0 & Hrest).
  keeps_in Hrest (fun x : State => rocketRef x = rocketRef s0).
  rewrite (K eq_refl). clear K Hrest.
  unfold moveShip, modify in H0. inversion H0; subst s0; clear H0. fields.
  unfold inBounds, set_position.
  cbn [Rocket.position Rocket.width Rocket.height Rocket.speed Vector2D.x Vector2D.y].
  split; [| split; [reflexivity | split; [reflexivity | split; [reflexivity |]]]].
  - assert (HX : forall v, 0 <= clamp v 0 (width - Rocket.width (rocketRef s)) /\
                           clamp v 0 (width - Rocket.width (rocketRef s))
                           <= width - Rocket.width (rocketRef s))
      by (intros v; apply clamp_bounds; lra).
    assert (HY : forall v, 0 <= clamp v 0 (height - Rocket.height (rocketRef s)) /\
                           clamp v 0 (height - Rocket.height (rocketRef s))
                           <= height - Rocket.height (rocketRef s))
      by (intros v; apply clamp_bounds; lra).
    repeat split; first [apply HX | apply HY].
  - intros Hstill (A & B & C & D). rewrite Hstill.
    split; apply clamp_inside; assumption.
Qed.

End Ship.

(** ** Geometry helpers *)

(** X2. [clamp] returns a value between its bounds when they are in order,
    the value itself when it already lies between them, the nearer bound
    when it lies outside; with the bounds out of order it returns the
    lower bound [min], whatever the value. *)
Theorem clamp_range v lo hi :
  (lo <= hi -> lo <= clamp v lo hi /\ clamp v lo hi <= hi) /\
  (lo <= v -> v <= hi -> clamp v lo hi == v) /\
  (lo <= hi -> v <= lo -> clamp v lo hi == lo) /\
  (lo <= hi -> hi <= v -> clamp v lo hi == hi) /\
  (hi <= lo -> clamp v lo hi == lo).
Proof.
  unfold clamp. repeat split.
  - apply Q.le_max_l.
  - apply Q.max_lub; [assumption | apply Q.le_min_l].
  - intros Hlo Hhi. rewrite (Q.min_r hi v Hhi). now apply Q.max_r.
  - intros Hle Hv. apply Q.max_l. apply Q.min_le_iff. now right.
  - intros Hle Hv. rewrite (Q.min_l hi v Hv). now apply Q.max_r.
  - intros Hle. apply Q.max_l. apply Q.min_le_iff. now left.
Qed.

Lemma sq_nonneg (a : Q) : 0 <= a * a.
Proof. nra. Qed.

Lemma square_bound a r : 0 <= r -> a * a <= r * r -> - r <= a /\ a <= r.
Proof. intros Hr H. split; nra. Qed.

(** X3. The bullet test [rectCircleCollide]: a circle whose center lies in
    the rectangle collides with it, whatever its radius; and a circle that
    collides with a rectangle has its center within one radius of it on
    each axis. *)
Theorem circle_hits_rect rectX rectY rectW rectH circleX circleY radius :
  (rectX <= circleX -> circleX <= rectX + rectW ->
   rectY <= circleY -> circleY <= rectY + rectH ->
   rectCircleCollide rectX rectY rectW rectH circleX circleY radius = true) /\
  (0 <= rectW -> 0 <= rectH -> 0 <= radius ->
   rectCircleCollide rectX rectY rectW rectH circleX circleY radius = true ->
   rectX - radius <= circleX /\ circleX <= rectX + rectW + radius /\
   rectY - radius <= circleY /\ circleY <= rectY + rectH + radius).
Proof.
  unfold rectCircleCollide. cbv zeta. split.
  - intros Hx1 Hx2 Hy1 Hy2. apply Qleb_le.
    destruct (clamp_range circleX rectX (rectX + rectW)) as (_ & Hx & _).
    destruct (clamp_range circleY rectY (rectY + rectH)) as (_ & Hy & _).
    rewrite (Hx Hx1 Hx2), (Hy Hy1 Hy2).
    setoid_replace (circleX - circleX) with 0 by ring.
    setoid_replace (circleY - circleY) with 0 by ring.
    nra.
  - intros Hw Hh Hr H. apply Qleb_le in H.
    destruct (clamp_range circleX rectX (rectX + rectW)) as (Hx & _).
    destruct (clamp_range circleY rectY (rectY + rectH)) as (Hy & _).
    destruct Hx as [Hx1 Hx2]; [lra |]. destruct Hy as [Hy1 Hy2]; [lra |].
    set (cx := clamp circleX rectX (rectX + rectW)) in *.
    set (cy := clamp circleY rectY (rectY + rectH)) in *.
    clearbody cx cy.
    pose proof (sq_nonneg (circleX - cx)) as Sx.
    pose proof (sq_nonneg (circleY - cy)) as Sy.
    destruct (square_bound (circleX - cx) radius Hr) as [A B]; [lra |].
    destruct (square_bound (circleY - cy) radius Hr) as [C D]; [lra |].
    repeat split; lra.
Qed.

(** X4. The ship test [rectRectOverlap] does not depend on the order of the
    two rectangles; rectangles that only touch along an edge, or lie apart,
    do not overlap; and a rectangle with a positive area overlaps itself. *)
Theorem rect_overlap_symmetric ax ay aw ah bx by_ bw bh :
  rectRectOverlap ax ay aw ah bx by_ bw bh = rectRectOverlap bx by_ bw bh ax ay aw ah /\
  (ax + aw <= bx -> rectRectOverlap ax ay aw ah bx by_ bw bh = false) /\
  (ay + ah <= by_ -> rectRectOverlap ax ay aw ah bx by_ bw bh = false) /\
  (0 < aw -> 0 < ah -> rectRectOverlap ax ay aw ah ax ay aw ah = true).
Proof.
  unfold rectRectOverlap, Qgtb. repeat split.
  - destruct (Qltb ax (bx + bw)), (Qltb bx (ax + aw)),
      (Qltb ay (by_ + bh)), (Qltb by_ (ay + ah)); reflexivity.
  - intros H. apply Qltb_ge in H. rewrite H.
    destruct (Qltb ax (bx + bw)); reflexivity.
  - intros H. apply Qltb_ge in H. rewrite H.
    destruct (Qltb ax (bx + bw)), (Qltb bx (ax + aw)), (Qltb ay (by_ + bh)); reflexivity.
  - intros Hw Hh.
    assert (A : Qltb ax (ax + aw) = true) by (apply Qltb_lt; lra).
    assert (B : Qltb ay (ay + ah) = true) by (apply Qltb_lt; lra).
    rewrite A, B. reflexivity.
Qed.

(** ** Keys, pause and frames *)

Section Input.

Context {host : Host}.

Lemma has_add_same k l : has k (add k l) = true.
Proof.
  unfold add. destruct (has k l) eqn:E; [exact E |].
  unfold has. rewrite existsb_app. cbn. rewrite String.eqb_refl.
  now rewrite orb_true_r.
Qed.

Lemma has_add_other k k' l : k' <> k -> has k' (add k l) = has k' l.
Proof.
  intros Hne. unfold add. destruct (has k l); [reflexivity |].
  unfold has. rewrite existsb_app. cbn.
  apply String.eqb_neq in Hne. rewrite Hne. now rewrite !orb_false_r.
Qed.

Lemma has_delete_same k l : has k (delete k l) = false.
Proof.
  unfold has, delete. induction l as [| a l IH]; [reflexivity |].
  cbn. destruct (String.eqb k a) eqn:E; cbn; [exact IH |].
  rewrite E. exact IH.
Qed.

Lemma has_delete_other k k' l : k' <> k -> has k' (delete k l) = has k' l.
Proof.
  intros Hne. unfold has, delete. induction l as [| a l IH]; [reflexivity |].
  cbn. destruct (String.eqb k a) eqn:E; cbn.
  - apply String.eqb_eq in E. subst a.
    apply String.eqb_neq in Hne. rewrite Hne. exact IH.
  - now rewrite IH.
Qed.

(** X5. A key going down (not an auto-repeat) is held from then on, under
    its lower-case name, whatever else the key triggers; the key going up
    releases it; and neither changes whether any other key is held. *)
Theorem key_down_then_up fuel env k (s s1 : State) :
  handleKeyDown fuel env (KeyboardEvent.mk k false) s = Ok tt s1 ->
  has (toLowerCase k) (pressedKeysRef s1) = true /\
  (forall k', k' <> toLowerCase k ->
     has k' (pressedKeysRef s1) = has k' (pressedKeysRef s)) /\
  forall r, exists s2,
    handleKeyUp (KeyboardEvent.mk k r) s1 = Ok tt s2 /\
    has (toLowerCase k) (pressedKeysRef s2) = false /\
    (forall k', k' <> toLowerCase k ->
       has k' (pressedKeysRef s2) = has k' (pressedKeysRef s)).
Proof.
  intros Hrun. unfold handleKeyDown in Hrun.
  cbn [KeyboardEvent.repeat KeyboardEvent.key] in Hrun.
  apply bind_Ok in Hrun as ([] & s0 & H0 & Hrest).
  keeps_in Hrest (fun x : State => pressedKeysRef x = pressedKeysRef s0).
  specialize (K eq_refl). clear Hrest.
  unfold modify in H0. inversion H0; subst s0; clear H0. fields_in K.
  split; [rewrite K; apply has_add_same |].
  split; [intros k' Hne; rewrite K; now apply has_add_other |].
  intros r. eexists. split; [reflexivity |]. fields.
  cbn [KeyboardEvent.key]. rewrite K. split.
  - apply has_delete_same.
  - intros k' Hne. rewrite has_delete_other by exact Hne. now apply has_add_other.
Qed.

Lemma loop_inactive fuel rect time (s : State) :
  mode s <> playing \/ pauseRef s = true ->
  loop fuel rect time s = Ok tt (set_lastTimeRef (Some time) s).
Proof.
  intros H. unfold loop, bind, get, modify. cbn beta iota.
  rewrite update_inactive by (fields; exact H). reflexivity.
Qed.

Lemma frames_inactive fuel rect times : forall s : State,
  mode s <> playing \/ pauseRef s = true ->
  runAll fuel (map (Frame rect) times) s =
    Ok tt (match times with
           | [] => s
           | _ => set_lastTimeRef (Some (last times 0)) s
           end).
Proof.
  induction times as [| t ts IH]; intros s H; [reflexivity |].
  cbn [map runAll run]. unfold bind at 1. rewrite (loop_inactive _ _ _ _ H).
  rewrite IH by (fields; exact H). destruct ts; reflexivity.
Qed.

Lemma runAll_app fuel cs1 cs2 (s : State) :
  runAll fuel (cs1 ++ cs2) s = bind (runAll fuel cs1) (fun _ => runAll fuel cs2) s.
Proof.
  revert s. induction cs1 as [| c cs1 IH]; intros s; [reflexivity |].
  cbn [app runAll]. unfold bind.
  destruct (run fuel c s) as [[] s1 | e]; [| reflexivity].
  rewrite IH. reflexivity.
Qed.

Lemma pause_key fuel env k (s : State) :
  toLowerCase k = "p"%string ->
  handleKeyDown fuel env (KeyboardEvent.mk k false) s =
    Ok tt (set_pauseRef (negb (pauseRef s))
             (set_pressedKeysRef (add "p" (pressedKeysRef s)) s)).
Proof.
  intros Hk. unfold handleKeyDown.
  cbn [KeyboardEvent.repeat KeyboardEvent.key]. rewrite Hk.
  unfold bind, modify, get. cbn beta iota. fields.
  destruct (mode s); reflexivity.
Qed.

(** X6. Outside a game under way (in the menu, after game over, or while
    paused) animation frames leave the game alone: after any number of
    frames the entities, timers, score, theme, toggles, held keys and aim
    are those before them, and the time of the last frame is recorded. *)
Theorem frames_outside_play fuel rect times (s : State) :
  mode s <> playing \/ pauseRef s = true ->
  exists s',
    runAll fuel (map (Frame rect) times) s = Ok tt s' /\
    core s' = core s /\ spawn s' = spawn s /\ gameplay s' = gameplay s /\
    bossEvents s' = bossEvents s /\ effects s' = effects s /\ combo s' = combo s /\
    toggles s' = toggles s /\ themeRotation s' = themeRotation s /\
    pressedKeysRef s' = pressedKeysRef s /\ aimPositionRef s' = aimPositionRef s /\
    lastTimeRef s' = match times with [] => lastTimeRef s | _ => Some (last times 0) end.
Proof.
  intros H. rewrite (frames_inactive _ _ _ _ H). eexists. split; [reflexivity |].
  destruct times; fields; repeat split.
Qed.

(** X7. The P key pauses and resumes: pressed during play it freezes the
    game, so that however many frames pass nothing of the game changes, and
    a second press resumes play from the very game state it was paused
    in. *)
Theorem pause_and_resume fuel env rect times k1 k2 (s : State) :
  toLowerCase k1 = "p"%string -> toLowerCase k2 = "p"%string ->
  mode s = playing -> pauseRef s = false ->
  exists s',
    runAll fuel
      (KeyDown env (KeyboardEvent.mk k1 false)
       :: map (Frame rect) times ++ [KeyDown env (KeyboardEvent.mk k2 false)]) s
      = Ok tt s' /\
    mode s' = playing /\ pauseRef s' = false /\
    core s' = core s /\ spawn s' = spawn s /\ gameplay s' = gameplay s /\
    bossEvents s' = bossEvents s /\ effects s' = effects s /\ combo s' = combo s /\
    themeRotation s' = themeRotation s /\ aimPositionRef s' = aimPositionRef s.
Proof.
  intros Hk1 Hk2 Hm Hp. cbn [runAll run]. unfold bind at 1.
  rewrite (pause_key _ _ _ _ Hk1). rewrite runAll_app. unfold bind at 1.
  rewrite frames_inactive by (right; fields; rewrite Hp; reflexivity).
  cbn [runAll run]. unfold bind at 1. rewrite (pause_key _ _ _ _ Hk2).
  eexists. split; [reflexivity |].
  destruct times; fields; rewrite Hp; repeat split; assumption.
Qed.

End Input.

(** ** Difficulty, combo and score over a tick *)

Section Scoring.

Context {host : Host}.

Lemma difficulty_run dt (s : State) :
  difficulty dt s =
    Ok tt (if Qgtb (difficultyTimerRef s + dt * 1000) 5000
           then set_spawnIntervalRef (Qmax 220 (spawnIntervalRef s - 40))
                  (set_difficultyTimerRef 0 s)
           else set_difficultyTimerRef (difficultyTimerRef s + dt * 1000) s).
Proof.
  unfold difficulty, bind, modify, get. cbn beta iota. fields.
  destruct (Qgtb (difficultyTimerRef s + dt * 1000) 5000); reflexivity.
Qed.

(** X8. The difficulty ramp: each tick of a game under way adds its
    milliseconds to the difficulty timer; the tick that takes the timer past
    5000 resets it and shortens the spawn interval by 40 ms, but never below
    220 ms; no other pass of the tick touches either, so an interval of at
    least 220 ms never grows and never falls below 220 ms. *)
Theorem difficulty_ramp fuel dt width height (s s' : State) :
  update fuel dt width height s = Ok tt s' ->
  mode s = playing -> pauseRef s = false ->
  (difficultyTimerRef s + dt * 1000 <= 5000 ->
   spawnIntervalRef s' = spawnIntervalRef s /\
   difficultyTimerRef s' = difficultyTimerRef s + dt * 1000) /\
  (5000 < difficultyTimerRef s + dt * 1000 ->
   spawnIntervalRef s' = Qmax 220 (spawnIntervalRef s - 40) /\
   difficultyTimerRef s' = 0) /\
  (220 <= spawnIntervalRef s ->
   220 <= spawnIntervalRef s' /\ spawnIntervalRef s' <= spawnIntervalRef s).
Proof.
  intros Hrun Hm Hp. tick_in Hrun Hm Hp.
  apply bind_Ok in Hrun as ([] & s1 & H1 & Hrun).
  apply bind_Ok in Hrun as ([] & s2 & H2 & Hrun).
  apply bind_Ok in Hrun as ([] & s3 & H3 & Hrun).
  apply bind_Ok in Hrun as ([] & s4 & H4 & Hrun).
  keeps_in H1 (fun x : State => spawn x = spawn s). specialize (K eq_refl).
  keeps_in H2 (fun x : State => spawn x = spawn s). specialize (K0 K).
  keeps_in H3 (fun x : State => spawn x = spawn s). specialize (K1 K0).
  keeps_in Hrun (fun x : State =>
                   spawnIntervalRef x = spawnIntervalRef s4 /\
                   difficultyTimerRef x = difficultyTimerRef s4).
  destruct (K2 (conj eq_refl eq_refl)) as [Ei Et]. rewrite Ei, Et.
  rewrite difficulty_run in H4. injection H4 as E. rewrite <- E.
  assert (Ei' : spawnIntervalRef s3 = spawnIntervalRef s) by (now rewrite K1).
  assert (Et' : difficultyTimerRef s3 = difficultyTimerRef s) by (now rewrite K1).
  rewrite Et'.
  destruct (Qgtb (difficultyTimerRef s + dt * 1000) 5000) eqn:G; fields;
    rewrite ?Ei', ?Et'.
  - apply Qgtb_lt in G. split; [intros; lra |]. split; [auto |].
    intros Hi. split; [apply Q.le_max_l | apply Q.max_lub; lra].
  - apply Qgtb_le in G. split; [auto |]. split; [intros; lra |].
    intros Hi. split; [exact Hi | lra].
Qed.

(** The combo multiplier between 1 and 5. *)
Lemma comboDecay_range dt :
  0 <= dt ->
  preserves (fun x : State => 1 <= multiplierRef x /\ multiplierRef x <= 5)
    (comboDecay dt).
Proof.
  intros Hdt. unfold comboDecay. passes.
  apply preserves_modify. intros s [A B]. fields.
  split; [apply Q.le_max_l | apply Q.max_lub; lra].
Qed.

Lemma onEnemyDestroyed_range enemy :
  preserves (fun x : State => 1 <= multiplierRef x /\ multiplierRef x <= 5)
    (onEnemyDestroyed enemy).
Proof.
  unfold onEnemyDestroyed. cbv zeta.
  apply preserves_bind; [passes | intros _].
  apply preserves_bind; [| intros _; passes].
  apply preserves_modify. intros s [A B]. fields.
  split; [apply Q.min_glb; lra | apply Q.le_min_l].
Qed.
Hint Resolve onEnemyDestroyed_range : inv.

Lemma bulletLoop_range enemy before after :
  preserves (fun x : State => 1 <= multiplierRef x /\ multiplierRef x <= 5)
    (bulletLoop enemy before after).
Proof.
  revert enemy before. induction after as [| bullet after IH]; intros enemy before;
    cbn [bulletLoop]; passes.
Qed.
Hint Resolve bulletLoop_range : inv.

Lemma enemyLoop_range enemies remaining :
  preserves (fun x : State => 1 <= multiplierRef x /\ multiplierRef x <= 5)
    (enemyLoop enemies remaining).
Proof.
  revert remaining. induction enemies as [| enemy enemies IH]; intros remaining;
    cbn [enemyLoop]; passes.
Qed.
Hint Resolve enemyLoop_range : inv.

Lemma shipLoop_range enemies survivors :
  preserves (fun x : State => 1 <= multiplierRef x /\ multiplierRef x <= 5)
    (shipLoop enemies survivors).
Proof.
  revert survivors. induction enemies as [| enemy enemies IH]; intros survivors;
    cbn [shipLoop]; passes.
Qed.
Hint Resolve shipLoop_range : inv.

(** X9. The combo multiplier stays between 1 and 5 over every tick that
    does not run backwards in time: a kill raises it by 0.2 up to 5, and
    after 2.5 s without a kill it decays, down to 1. *)
Theorem multiplier_between_1_and_5 fuel dt width height (s s' : State) :
  update fuel dt width height s = Ok tt s' ->
  0 <= dt ->
  1 <= multiplierRef s -> multiplierRef s <= 5 ->
  1 <= multiplierRef s' /\ multiplierRef s' <= 5.
Proof.
  intros Hrun Hdt A B.
  assert (K : preserves (fun x : State => 1 <= multiplierRef x /\ multiplierRef x <= 5)
                (update fuel dt width height)).
  { pose proof (comboDecay_range dt Hdt). unfold update, collisions, shipCollisions.
    passes. }
  exact (K _ _ _ Hrun (conj A B)).
Qed.

(** The score and the orbs' values. *)
Lemma spawnOrb_score base cx cy :
  preserves (fun x : State =>
               base <= score x /\
               Forall (fun o => 0 <= ScoreOrb.value o) (scoreOrbsRef x))
    (spawnOrb cx cy).
Proof.
  unfold spawnOrb. passes. unfold push_orb.
  apply preserves_modify. intros s [A B]. fields. split; [exact A |].
  apply Forall_app. split; [exact B |]. constructor; [| constructor].
  cbn [ScoreOrb.value]. lra.
Qed.
Hint Resolve spawnOrb_score : inv.

Lemma onEnemyDestroyed_score base enemy :
  preserves (fun x : State =>
               base <= score x /\
               Forall (fun o => 0 <= ScoreOrb.value o) (scoreOrbsRef x))
    (onEnemyDestroyed enemy).
Proof.
  unfold onEnemyDestroyed. cbv zeta.
  apply preserves_bind; [| intros _; passes].
  apply preserves_modify. intros s [A B]. fields. split; [| exact B].
  pose proof (Q.le_max_l 1 (floor (multiplierRef s))). lra.
Qed.
Hint Resolve onEnemyDestroyed_score : inv.

Lemma bulletLoop_score base enemy before after :
  preserves (fun x : State =>
               base <= score x /\
               Forall (fun o => 0 <= ScoreOrb.value o) (scoreOrbsRef x))
    (bulletLoop enemy before after).
Proof.
  revert enemy before. induction after as [| bullet after IH]; intros enemy before;
    cbn [bulletLoop]; passes.
Qed.
Hint Resolve bulletLoop_score : inv.

Lemma enemyLoop_score base enemies remaining :
  preserves (fun x : State =>
               base <= score x /\
               Forall (fun o => 0 <= ScoreOrb.value o) (scoreOrbsRef x))
    (enemyLoop enemies remaining).
Proof.
  revert remaining. induction enemies as [| enemy enemies IH]; intros remaining;
    cbn [enemyLoop]; passes.
Qed.
Hint Resolve enemyLoop_score : inv.

Lemma shipLoop_score base enemies survivors :
  preserves (fun x : State =>
               base <= score x /\
               Forall (fun o => 0 <= ScoreOrb.value o) (scoreOrbsRef x))
    (shipLoop enemies survivors).
Proof.
  revert survivors. induction enemies as [| enemy enemies IH]; intros survivors;
    cbn [shipLoop]; passes.
Qed.
Hint Resolve shipLoop_score : inv.

Lemma orbsLoop_score base effectiveDt orbs : forall remaining (s : State) r s',
  orbsLoop effectiveDt orbs remaining s = Ok r s' ->
  Forall (fun o => 0 <= ScoreOrb.value o) orbs ->
  Forall (fun o => 0 <= ScoreOrb.value o) remaining ->
  base <= score s ->
  Forall (fun o => 0 <= ScoreOrb.value o) r /\ base <= score s'.
Proof.
  induction orbs as [| orb orbs IH]; intros remaining s r s' Hrun Horbs Hrem Hs;
    cbn [orbsLoop] in Hrun.
  - inversion Hrun; subst. auto.
  - inversion Horbs as [| ? ? Hv Horbs']; subst.
    unfold bind at 1, get at 1 in Hrun. cbv zeta in Hrun.
    match type of Hrun with
    | (if ?b then _ else _) _ = _ => destruct b
    end.
    + unfold bind at 1, modify at 1 in Hrun.
      apply IH in Hrun; auto. fields. cbn [ScoreOrb.value]. lra.
    + apply IH in Hrun; auto.
      apply Forall_app. split; [exact Hrem |]. constructor; [| constructor].
      cbn [ScoreOrb.value]. exact Hv.
Qed.

Lemma updateOrbs_score base effectiveDt :
  preserves (fun x : State =>
               base <= score x /\
               Forall (fun o => 0 <= ScoreOrb.value o) (scoreOrbsRef x))
    (updateOrbs effectiveDt).
Proof.
  intros s a s' Hrun [A B]. unfold updateOrbs in Hrun.
  unfold bind at 1, get at 1 in Hrun.
  apply bind_Ok in Hrun as (r & s1 & H1 & H2).
  destruct (orbsLoop_score base _ _ _ _ _ _ H1 B (Forall_nil _) A) as [C D].
  unfold modify in H2. inversion H2; subst. fields. auto.
Qed.
Hint Resolve updateOrbs_score : inv.

(** X10. No tick lowers the score: a kill adds at least one point and a
    collected orb adds its value, and nothing in a tick takes points away
    (the orbs in flight carrying no negative value, as those the game spawns
    do not). *)
Theorem score_never_decreases fuel dt width height (s s' : State) :
  update fuel dt width height s = Ok tt s' ->
  Forall (fun o => 0 <= ScoreOrb.value o) (scoreOrbsRef s) ->
  score s <= score s' /\
  Forall (fun o => 0 <= ScoreOrb.value o) (scoreOrbsRef s').
Proof.
  intros Hrun Horbs.
  assert (K : preserves (fun x : State =>
                           score s <= score x /\
                           Forall (fun o => 0 <= ScoreOrb.value o) (scoreOrbsRef x))
                (update fuel dt width height)).
  { unfold update, collisions, shipCollisions. passes. }
  apply (K _ _ _ Hrun). split; [lra | exact Horbs].
Qed.

End Scoring.

(** ** Computations that always complete *)

Section Total.

Context {host : Host}.

Lemma total_ret {A} (a : A) : total (ret a).
Proof. intros s. now exists a, s. Qed.

Lemma total_get : total get.
Proof. intros s. now exists s, s. Qed.

Lemma total_modify f : total (modify f).
Proof. intros s. now exists tt, (f s). Qed.

Lemma total_random : total random.
Proof. intros s. eexists. eexists. reflexivity. Qed.

Lemma total_bind {A B} (m : M A) (k : A -> M B) :
  total m -> (forall a, total (k a)) -> total (bind m k).
Proof.
  intros Hm Hk s. destruct (Hm s) as (a & s1 & H1).
  destruct (Hk a s1) as (b & s2 & H2). exists b, s2.
  unfold bind. now rewrite H1.
Qed.

Lemma total_times n (body : M unit) : total body -> total (times n body).
Proof.
  intros Hb. induction n as [| n IH]; cbn [times].
  - apply total_ret.
  - apply total_bind; auto.
Qed.

Lemma total_fillMap {A} n (f : M A) : total f -> total (fillMap n f).
Proof.
  intros Hf. induction n as [| n IH]; cbn [fillMap].
  - apply total_ret.
  - apply total_bind; [exact Hf | intros a].
    apply total_bind; [exact IH | intros l]. apply total_ret.
Qed.

Create HintDb total discriminated.

Ltac total_step :=
  lazymatch goal with
  | |- total (ret _) => apply total_ret
  | |- total get => apply total_get
  | |- total random => apply total_random
  | |- total (modify _) => apply total_modify
  | |- total (bind _ _) => apply total_bind; [ | intros ? ]
  | |- total (times _ _) => apply total_times
  | |- total (fillMap _ _) => apply total_fillMap
  | |- total (if ?b then _ else _) => destruct b
  | |- total (match ?x with _ => _ end) => destruct x
  | |- total (let _ := _ in _) => cbv zeta
  | |- total _ => solve [auto with total nocore]
  end.

Ltac totality := repeat total_step.

Lemma total_push_particle p : total (push_particle p).
Proof. unfold push_particle. totality. Qed.
Lemma total_push_orb o : total (push_orb o).
Proof. unfold push_orb. totality. Qed.
Lemma total_push_bullet b : total (push_bullet b).
Proof. unfold push_bullet. totality. Qed.
Lemma total_push_beam b : total (push_beam b).
Proof. unfold push_beam. totality. Qed.
Lemma total_push_enemy e : total (push_enemy e).
Proof. unfold push_enemy. totality. Qed.
Hint Resolve total_push_particle total_push_orb total_push_bullet total_push_beam
  total_push_enemy : total.

Lemma total_explosionParticle x y kind : total (explosionParticle x y kind).
Proof. unfold explosionParticle. totality. Qed.
Hint Resolve total_explosionParticle : total.

Lemma total_createExplosion x y kind : total (createExplosion x y kind).
Proof. unfold createExplosion. totality. Qed.
Hint Resolve total_createExplosion : total.

Lemma total_spawnOrb cx cy : total (spawnOrb cx cy).
Proof. unfold spawnOrb. totality. Qed.
Hint Resolve total_spawnOrb : total.

Lemma total_onEnemyDestroyed enemy : total (onEnemyDestroyed enemy).
Proof. unfold onEnemyDestroyed. totality. Qed.
Hint Resolve total_onEnemyDestroyed : total.

Lemma total_resetGame env : total (resetGame env).
Proof. unfold resetGame. totality. Qed.
Hint Resolve total_resetGame : total.

Lemma total_startGame env : total (startGame env).
Proof. unfold startGame. totality. Qed.
Hint Resolve total_startGame : total.

Lemma total_muzzleFlash origin direction : total (muzzleFlash origin direction).
Proof. unfold muzzleFlash. totality. Qed.
Hint Resolve total_muzzleFlash : total.

Lemma total_makeBullet origin dir : total (makeBullet origin dir).
Proof. unfold makeBullet. totality. Qed.
Hint Resolve total_makeBullet : total.

Lemma total_shootBullet env : total (shootBullet env).
Proof. unfold shootBullet. totality. Qed.
Hint Resolve total_shootBullet : total.

Lemma total_hitScan env mx my rects : total (hitScan env mx my rects).
Proof. induction rects as [| hit rects IH]; cbn [hitScan]; totality. Qed.
Hint Resolve total_hitScan : total.

Lemma total_handleMouseDown env e : total (handleMouseDown env e).
Proof. unfold handleMouseDown. totality. Qed.

Lemma total_shipLoop enemies : forall survivors, total (shipLoop enemies survivors).
Proof.
  induction enemies as [| enemy enemies IH]; intros survivors; cbn [shipLoop];
    totality.
Qed.
Hint Resolve total_shipLoop : total.

Lemma total_shipCollisions : total shipCollisions.
Proof. unfold shipCollisions. totality. Qed.

Lemma total_spawnFrom theme width height : total (spawnFrom theme width height).
Proof. unfold spawnFrom. totality. Qed.

Lemma total_bossWaves bossAlive dt width : total (bossWaves bossAlive dt width).
Proof. unfold bossWaves. totality. Qed.
Hint Resolve total_shipCollisions total_bossWaves : total.

Lemma total_mapM {A B} (f : A -> M B) l : (forall a, total (f a)) -> total (mapM f l).
Proof.
  intros Hf. induction l as [| a l IH]; cbn [mapM].
  - apply total_ret.
  - apply total_bind; [apply Hf | intros b].
    apply total_bind; [exact IH | intros bs]. apply total_ret.
Qed.

Lemma total_moveShip dt width height : total (moveShip dt width height).
Proof. unfold moveShip. totality. Qed.

Lemma total_comboDecay dt : total (comboDecay dt).
Proof. unfold comboDecay. totality. Qed.

Lemma total_difficulty dt : total (difficulty dt).
Proof. unfold difficulty. totality. Qed.

Lemma total_updateWells dt : total (updateWells dt).
Proof. unfold updateWells. totality. Qed.

Lemma total_slowMo dt : total (slowMo dt).
Proof. unfold slowMo. totality. Qed.

Lemma total_updateEnemies effectiveDt : total (updateEnemies effectiveDt).
Proof. unfold updateEnemies. totality. Qed.

Lemma total_moveBullet effectiveDt bullet : total (moveBullet effectiveDt bullet).
Proof. unfold moveBullet. totality. Qed.

Lemma total_updateBullets effectiveDt : total (updateBullets effectiveDt).
Proof.
  unfold updateBullets. apply total_bind; [apply total_get | intros s].
  apply total_bind; [apply total_mapM, total_moveBullet | intros bullets].
  apply total_modify.
Qed.

Lemma total_beamsLoop dt beams : forall remaining, total (beamsLoop dt beams remaining).
Proof.
  induction beams as [| b beams IH]; intros remaining; cbn [beamsLoop]; totality.
Qed.
Hint Resolve total_beamsLoop : total.

Lemma total_updateBeams dt : total (updateBeams dt).
Proof. unfold updateBeams. totality. Qed.

Lemma total_impactParticle bullet : total (impactParticle bullet).
Proof. unfold impactParticle. totality. Qed.
Hint Resolve total_impactParticle : total.

Lemma total_bulletLoop after : forall enemy before, total (bulletLoop enemy before after).
Proof.
  induction after as [| bullet after IH]; intros enemy before; cbn [bulletLoop];
    totality; apply IH.
Qed.
Hint Resolve total_bulletLoop : total.

Lemma total_enemyLoop enemies : forall remaining, total (enemyLoop enemies remaining).
Proof.
  induction enemies as [| enemy enemies IH]; intros remaining; cbn [enemyLoop];
    totality; apply IH.
Qed.
Hint Resolve total_enemyLoop : total.

Lemma total_collisions width height : total (collisions width height).
Proof. unfold collisions. totality. Qed.

Lemma total_orbsLoop effectiveDt orbs : forall remaining,
  total (orbsLoop effectiveDt orbs remaining).
Proof.
  induction orbs as [| orb orbs IH]; intros remaining; cbn [orbsLoop];
    totality; apply IH.
Qed.
Hint Resolve total_orbsLoop : total.

Lemma total_updateOrbs effectiveDt : total (updateOrbs effectiveDt).
Proof. unfold updateOrbs. totality. Qed.

Lemma total_collect type : total (collect type).
Proof. unfold collect. totality. Qed.
Hint Resolve total_collect : total.

Lemma total_powerUpsLoop dt pups : forall remaining, total (powerUpsLoop dt pups remaining).
Proof.
  induction pups as [| p pups IH]; intros remaining; cbn [powerUpsLoop];
    totality; apply IH.
Qed.
Hint Resolve total_powerUpsLoop : total.

Lemma total_updatePowerUps dt : total (updatePowerUps dt).
Proof. unfold updatePowerUps. totality. Qed.

Lemma total_decrementTimers dt : total (decrementTimers dt).
Proof. unfold decrementTimers. totality. Qed.

Lemma total_updateParticles dt effectiveDt : total (updateParticles dt effectiveDt).
Proof. unfold updateParticles. totality. Qed.

Lemma total_thrusterParticle rocket center dir : total (thrusterParticle rocket center dir).
Proof. unfold thrusterParticle. totality. Qed.
Hint Resolve total_thrusterParticle : total.

Lemma total_spawnThruster dt : total (spawnThruster dt).
Proof. unfold spawnThruster. totality. Qed.

Lemma total_shakeDecay : total shakeDecay.
Proof. unfold shakeDecay. totality. Qed.

Hint Resolve total_updateWells total_slowMo total_updateEnemies total_updateBullets
  total_updateBeams total_collisions total_updateOrbs total_updatePowerUps
  total_decrementTimers total_updateParticles total_spawnThruster total_shakeDecay : total.

(** The passes of a tick that follow the meteor shower always complete. *)
Lemma total_afterEvents dt width height :
  total
    (updateWells dt ;;
     effectiveDt <- slowMo dt ;;
     updateEnemies effectiveDt ;;
     updateBullets effectiveDt ;;
     updateBeams dt ;;
     collisions width height ;;
     updateOrbs effectiveDt ;;
     updatePowerUps dt ;;
     decrementTimers dt ;;
     updateParticles dt effectiveDt ;;
     spawnThruster dt ;;
     shakeDecay ;;
     shipCollisions).
Proof. totality. Qed.

End Total.

(** ** The ship against the enemies *)

Section ShipCollisions.

Context {host : Host}.

Lemma shipLoop_skip pre : forall rest survivors (s : State),
  Forall (fun e => touches (rocketRef s) e = false) pre ->
  shipLoop (pre ++ rest) survivors s = shipLoop rest (survivors ++ pre) s.
Proof.
  induction pre as [| e pre IH]; intros rest survivors s H.
  - now rewrite app_nil_r.
  - inversion H as [| ? ? He Hpre]; subst. cbn [app shipLoop].
    unfold bind at 1, get at 1. cbv zeta. unfold touches in He. rewrite He.
    rewrite IH by exact Hpre. now rewrite <- app_assoc.
Qed.

Lemma shipLoop_none l survivors (s : State) :
  Forall (fun e => touches (rocketRef s) e = false) l ->
  shipLoop l survivors s = Ok (survivors ++ l) s.
Proof.
  intros H. pose proof (shipLoop_skip l [] survivors s H) as E.
  rewrite app_nil_r in E. exact E.
Qed.

Lemma onEnemyDestroyed_gain enemy (s s' : State) :
  onEnemyDestroyed enemy s = Ok tt s' ->
  score s + 1 <= score s' /\
  mode s' = mode s /\ rocketRef s' = rocketRef s /\
  enemiesRef s' = enemiesRef s /\ bulletsRef s' = bulletsRef s /\
  effects s' = effects s.
Proof.
  intros Hrun. unfold onEnemyDestroyed in Hrun. cbv zeta in Hrun.
  apply bind_Ok in Hrun as ([] & s1 & H1 & Hrest).
  keeps_in Hrest (fun x : State =>
                    score x = score s1 /\ mode x = mode s1 /\
                    rocketRef x = rocketRef s1 /\ enemiesRef x = enemiesRef s1 /\
                    bulletsRef x = bulletsRef s1 /\ effects x = effects s1).
  destruct K as (A & B & C & D & E & F); [repeat split |].
  rewrite A, B, C, D, E, F. unfold modify in H1. inversion H1; subst s1. fields.
  repeat split. pose proof (Q.le_max_l 1 (floor (multiplierRef s))). lra.
Qed.

(** X11. Contact between the ship and an enemy, without a shield, ends the
    game: the first enemy (in list order) whose rectangle overlaps the
    rocket's turns the mode to game over, and only the enemies before it are
    kept.  With no enemy in contact the pass changes nothing. *)
Theorem ship_collision_ends_game (s : State) :
  (Forall (fun e => touches (rocketRef s) e = false) (enemiesRef s) ->
   exists s', shipCollisions s = Ok tt s' /\
     mode s' = mode s /\ enemiesRef s' = enemiesRef s /\
     hasShieldRef s' = hasShieldRef s /\ score s' = score s) /\
  (forall pre enemy post,
     hasShieldRef s = false ->
     enemiesRef s = pre ++ enemy :: post ->
     Forall (fun e => touches (rocketRef s) e = false) pre ->
     touches (rocketRef s) enemy = true ->
     shipCollisions s = Ok tt (set_enemiesRef pre (set_mode gameover s))).
Proof.
  split.
  - intros H. unfold shipCollisions, bind, get.
    rewrite shipLoop_none by exact H. cbn [app]. unfold modify.
    eexists. split; [reflexivity |]. fields. auto.
  - intros pre enemy post Hsh He Hpre Ht. unfold shipCollisions, bind at 1, get at 1.
    rewrite He. unfold bind at 1. rewrite shipLoop_skip by exact Hpre.
    cbn [shipLoop app]. unfold bind at 1, get at 1. cbv zeta.
    unfold touches in Ht. rewrite Ht, Hsh. reflexivity.
Qed.

(** X12. A shield absorbs a collision: with the shield up, the enemy in
    contact with the ship is destroyed in place of the ship (it leaves the
    enemy list and scores at least one point), the shield and its timer are
    spent, and the game goes on. *)
Theorem shield_absorbs_a_hit (s : State) pre enemy post :
  hasShieldRef s = true ->
  enemiesRef s = pre ++ enemy :: post ->
  Forall (fun e => touches (rocketRef s) e = false) pre ->
  touches (rocketRef s) enemy = true ->
  Forall (fun e => touches (rocketRef s) e = false) post ->
  exists s',
    shipCollisions s = Ok tt s' /\
    mode s' = mode s /\
    hasShieldRef s' = false /\ shieldTimerRef s' = 0 /\
    enemiesRef s' = pre ++ post /\
    score s + 1 <= score s' /\
    rocketRef s' = rocketRef s.
Proof.
  intros Hsh He Hpre Ht Hpost. unfold shipCollisions, bind at 1, get at 1.
  rewrite He. unfold bind at 1. rewrite shipLoop_skip by exact Hpre.
  cbn [shipLoop app]. unfold bind at 1, get at 1. cbv zeta.
  pose proof Ht as Ht'. unfold touches in Ht'. rewrite Ht', Hsh. clear Ht'.
  unfold bind at 1, modify at 1. unfold bind at 1, modify at 1.
  destruct (total_onEnemyDestroyed enemy
              (set_shieldTimerRef 0 (set_hasShieldRef false s))) as ([] & s3 & H3).
  unfold bind at 1. rewrite H3.
  destruct (onEnemyDestroyed_gain _ _ _ H3) as (A & B & C & D & E & F).
  fields_in A. fields_in B. fields_in C. fields_in F.
  rewrite shipLoop_none by (rewrite C; exact Hpost).
  unfold modify. eexists. split; [reflexivity |]. fields.
  rewrite B, C, F. fields. repeat split; try assumption.
Qed.

End ShipCollisions.

(** ** Invariants of the reachable states *)

Section Hoare.

Context {host : Host}.
Variable P : State -> Prop.

(** A bind whose first computation tells something of its result. *)
Lemma preserves_bind_with {A B} (Post : A -> Prop) (m : M A) (k : A -> M B) :
  (forall s a s', m s = Ok a s' -> Post a) ->
  preserves P m ->
  (forall a, Post a -> preserves P (k a)) ->
  preserves P (bind m k).
Proof.
  intros Hpost Hm Hk s b s' H HP. apply bind_Ok in H as (a & s1 & H1 & H2).
  eapply Hk; eauto.
Qed.

Lemma preserves_bind_random {B} (k : Q -> M B) :
  randomInRange ->
  (forall n s, P s -> P (set_randomCalls n s)) ->
  (forall r, 0 <= r -> r < 1 -> preserves P (k r)) ->
  preserves P (bind random k).
Proof.
  intros Hrand Hr Hk.
  apply (preserves_bind_with (fun r => 0 <= r /\ r < 1)).
  - intros s a s' H. unfold random in H. inversion H. apply Hrand.
  - apply preserves_random. exact Hr.
  - intros r [A B']. now apply Hk.
Qed.

End Hoare.

Lemma floor_range r (n : Z) :
  0 <= r -> r < 1 -> (0 < n)%Z -> (0 <= floorZ (r * inject_Z n) < n)%Z.
Proof.
  intros H0 H1 Hn. unfold floorZ.
  assert (Hq : 0 < inject_Z n).
  { change 0 with (inject_Z 0). rewrite <- Zlt_Qlt. exact Hn. }
  split.
  - change 0%Z with (Qfloor 0). apply Qfloor_resp_le. nra.
  - rewrite Zlt_Qlt. apply Qle_lt_trans with (r * inject_Z n); [apply Qfloor_le |].
    nra.
Qed.

Section ThemeIndices.

Context {host : Host}.
Hypothesis Hrand : randomInRange.

Lemma pickLoop_valid fuel : forall exclude idx (s s' : State) r,
  pickLoop fuel exclude idx s = Ok r s' ->
  (0 <= idx < THEMES_length)%Z -> (0 <= r < THEMES_length)%Z.
Proof.
  induction fuel as [| fuel IH]; intros exclude idx s s' r; cbn [pickLoop];
    destruct (idx =? exclude)%Z; intros H Hidx;
    try (inversion H; subst; exact Hidx).
  unfold bind, random in H. apply IH in H; [exact H |].
  destruct (Hrand (randomCalls s)). apply floor_range; [assumption .. | reflexivity].
Qed.

Lemma pickNextThemeIndex_valid fuel exclude (s s' : State) r :
  pickNextThemeIndex fuel exclude s = Ok r s' ->
  (0 <= exclude < THEMES_length)%Z ->
  validTheme exclude r /\ themeRotation s' = themeRotation s.
Proof.
  intros H He. pose proof (pickNextThemeIndex_Ok _ _ _ _ _ H) as [Hne Hsame].
  destruct Hsame as (_ & _ & _ & _ & _ & _ & _ & Hth & _).
  split; [| exact Hth]. split; [exact He |]. split; [| exact Hne].
  unfold pickNextThemeIndex in H. cbn in H. eapply pickLoop_valid; eauto.
Qed.

Lemma themeRotate_valid fuel dt :
  preserves (fun x : State => validTheme (currentThemeIdxRef x) (nextThemeIdxRef x))
    (themeRotate fuel dt).
Proof.
  intros s [] s' Hrun Hv. unfold themeRotate, bind, modify, get in Hrun.
  fields_in Hrun. pose proof Hv as (Hc & Hn & Hne).
  destruct (negb (themeTransitioningRef s)
            && Qgtb (themeTimerRef s + dt) (themeDurationRef s))%bool.
  - match type of Hrun with
    | context [pickNextThemeIndex ?f ?e ?st] =>
        destruct (pickNextThemeIndex f e st) as [r s1 | e1] eqn:Hp; [| discriminate]
    end.
    apply pickNextThemeIndex_valid in Hp as [Hv1 Hth]; [| exact Hc].
    fields_in Hth. fields_in Hrun. rewrite Hth in Hrun. fields_in Hrun.
    rewrite Hth in Hrun. fields_in Hrun.
    destruct (Qgeb (0 + dt / 4) 1).
    + match type of Hrun with
      | context [pickNextThemeIndex ?f ?e ?st] =>
          destruct (pickNextThemeIndex f e st) as [r2 s2 | e2] eqn:Hp2; [| discriminate]
      end.
      apply pickNextThemeIndex_valid in Hp2 as [Hv2 Hth2]; [| apply Hv1].
      fields_in Hth2. inversion Hrun; subst s'. fields. rewrite Hth2. fields.
      exact Hv2.
    + inversion Hrun; subst s'. fields. rewrite Hth. fields. exact Hv1.
  - unfold ret at 1 in Hrun. fields_in Hrun.
    destruct (themeTransitioningRef s).
    + fields_in Hrun. destruct (Qgeb (themeBlendRef s + dt / 4) 1).
      * match type of Hrun with
        | context [pickNextThemeIndex ?f ?e ?st] =>
            destruct (pickNextThemeIndex f e st) as [r2 s2 | e2] eqn:Hp2; [| discriminate]
        end.
        apply pickNextThemeIndex_valid in Hp2 as [Hv2 Hth2]; [| exact Hn].
        fields_in Hth2. inversion Hrun; subst s'. fields. rewrite Hth2. fields.
        exact Hv2.
      * inversion Hrun; subst s'. fields. exact Hv.
    + inversion Hrun; subst s'. fields. exact Hv.
Qed.
Hint Resolve themeRotate_valid : inv.

Lemma switchMap_valid fuel key :
  preserves (fun x : State => validTheme (currentThemeIdxRef x) (nextThemeIdxRef x))
    (switchMap fuel key).
Proof.
  intros s [] s' Hrun Hv. unfold switchMap, bind, modify, get in Hrun.
  fields_in Hrun. pose proof Hv as (Hc & Hn & Hne).
  match type of Hrun with
  | context [pickNextThemeIndex ?f ?e ?st] =>
      destruct (pickNextThemeIndex f e st) as [r s1 | e1] eqn:Hp; [| discriminate]
  end.
  apply pickNextThemeIndex_valid in Hp as [Hv1 Hth].
  - fields_in Hth. inversion Hrun; subst s'. fields. rewrite Hth. fields. exact Hv1.
  - unfold THEMES_length in *. cbn [THEMES List.length Z.of_nat Pos.of_succ_nat Pos.succ] in *.
    destruct (String.eqb key "e").
    + pose proof (Z.rem_bound_pos (currentThemeIdxRef s + 1 + 5) 5). lia.
    + pose proof (Z.rem_bound_pos (currentThemeIdxRef s + -1 + 5) 5). lia.
Qed.
Hint Resolve switchMap_valid : inv.

Lemma update_valid fuel dt width height :
  preserves (fun x : State => validTheme (currentThemeIdxRef x) (nextThemeIdxRef x))
    (update fuel dt width height).
Proof. unfold update. passes. Qed.
Hint Resolve update_valid : inv.

Lemma run_valid fuel c :
  preserves (fun x : State => validTheme (currentThemeIdxRef x) (nextThemeIdxRef x))
    (run fuel c).
Proof.
  destruct c; cbn [run]; unfold handleKeyDown, loop; passes.
Qed.

Lemma initialState_valid :
  validTheme (currentThemeIdxRef initialState) (nextThemeIdxRef initialState).
Proof.
  unfold initialState. fields.
  destruct (Hrand 0%nat) as [A B].
  pose proof (floor_range (Math_random 0) THEMES_length A B eq_refl) as Hr.
  set (c := floorZ (Math_random 0 * inject_Z THEMES_length)) in *. clearbody c.
  unfold validTheme, THEMES_length in *.
  cbn [THEMES List.length Z.of_nat Pos.of_succ_nat Pos.succ] in *.
  split; [exact Hr |].
  assert (Hrem : (0 <= Z.rem (c + 1) 5 < 5)%Z) by (apply Z.rem_bound_pos; lia).
  split; [exact Hrem |].
  intros E. rewrite Z.rem_mod_nonneg in E by lia.
  destruct (Z.eq_dec c 4) as [-> | Hc4]; [discriminate |].
  rewrite Z.mod_small in E by lia. lia.
Qed.

Lemma reachable_valid (s : State) :
  reachable s -> validTheme (currentThemeIdxRef s) (nextThemeIdxRef s).
Proof.
  induction 1 as [| s fuel c s' _ IH Hrun].
  - apply initialState_valid.
  - exact (run_valid fuel c s tt s' Hrun IH).
Qed.

Lemma themeAt_valid idx :
  (0 <= idx < THEMES_length)%Z -> exists theme, themeAt idx = Some theme.
Proof.
  unfold THEMES_length. cbn [THEMES List.length Z.of_nat Pos.of_succ_nat Pos.succ].
  intros H.
  assert (E : idx = 0%Z \/ idx = 1%Z \/ idx = 2%Z \/ idx = 3%Z \/ idx = 4%Z) by lia.
  destruct E as [-> | [-> | [-> | [-> | ->]]]]; eexists; reflexivity.
Qed.

(** X13. Given a [Math.random] that returns numbers in [0, 1), in every
    state reachable from the initial one the current and the next theme
    index are indices of the theme table and differ from one another,
    through every automatic rotation and every manual switch; so
    [THEMES[idx]] is never undefined where the game reads it, and
    [spawnEnemy] completes from every reachable state. *)
Theorem theme_indices_stay_valid (s : State) :
  reachable s ->
  validTheme (currentThemeIdxRef s) (nextThemeIdxRef s) /\
  (exists themeA themeB,
     getEffectiveThemeBlend s
       = (Some themeA, Some themeB,
          if themeTransitioningRef s then clamp (themeBlendRef s) 0 1 else 0)) /\
  forall width height, exists s', spawnEnemy width height s = Ok tt s'.
Proof.
  intros Hs. pose proof (reachable_valid s Hs) as Hv. split; [exact Hv |].
  destruct Hv as (Hc & Hn & _).
  destruct (themeAt_valid _ Hc) as (themeA & HA).
  destruct (themeAt_valid _ Hn) as (themeB & HB).
  split.
  - exists themeA, themeB. unfold getEffectiveThemeBlend. now rewrite HA, HB.
  - intros width height. unfold spawnEnemy, bind, get, spawnTheme, getEffectiveThemeBlend.
    rewrite HA, HB.
    destruct (Qgtb _ 0);
      [destruct (total_spawnFrom themeB width height s) as ([] & s' & H)
      | destruct (total_spawnFrom themeA width height s) as ([] & s' & H)];
      exists s'; exact H.
Qed.

End ThemeIndices.

Lemma preserves_and {host : Host} {A} (P1 P2 : State -> Prop) (m : M A) :
  preserves P1 m -> preserves P2 m -> preserves (fun x => P1 x /\ P2 x) m.
Proof. intros H1 H2 s a s' Hrun [A1 A2]. split; eauto. Qed.

Section Enemies.

Context {host : Host}.

Abbreviation healthyState :=
  (fun x : State => healthy (powerUpsRef x) (laserRef x) (beamsRef x) (enemiesRef x)).

(** What [spawnFrom] appends: one regular enemy of 2 or 3 hp, its center
    20 px outside one edge of the canvas. *)
Lemma spawnFrom_run theme width height (s : State) :
  exists e (s1 : State),
    spawnFrom theme width height s = Ok tt (set_enemiesRef (enemiesRef s1 ++ [e]) s1) /\
    sameButRandom s s1 /\
    Enemy.kind e =
      (if Qltb (Math_random (2 + randomCalls s)) (EnvironmentTheme.ufoChance theme)
       then ufo else asteroid) /\
    (Enemy.hp e = 2 \/ Enemy.hp e = 3) /\
    2 <= Enemy.hp e /\ Enemy.hp e <= 3 /\
    (Enemy.kind e = ufo -> Enemy.hp e = 2 /\ Enemy.asteroidRadii e = None) /\
    (Vector2D.x (enemyCenter e) == -20 \/ Vector2D.x (enemyCenter e) == width + 20 \/
     Vector2D.y (enemyCenter e) == -20 \/ Vector2D.y (enemyCenter e) == height + 20).
Proof.
  assert (Hwp : wp (spawnFrom theme width height)
           (fun _ s' => exists e (s1 : State),
              s' = set_enemiesRef (enemiesRef s1 ++ [e]) s1 /\
              sameButRandom s s1 /\
              Enemy.kind e =
                (if Qltb (Math_random (2 + randomCalls s)) (EnvironmentTheme.ufoChance theme)
                 then ufo else asteroid) /\
              (Enemy.hp e = 2 \/ Enemy.hp e = 3) /\
              2 <= Enemy.hp e /\ Enemy.hp e <= 3 /\
              (Enemy.kind e = ufo -> Enemy.hp e = 2 /\ Enemy.asteroidRadii e = None) /\
              (Vector2D.x (enemyCenter e) == -20 \/
               Vector2D.x (enemyCenter e) == width + 20 \/
               Vector2D.y (enemyCenter e) == -20 \/
               Vector2D.y (enemyCenter e) == height + 20)) s).
  { unfold spawnFrom.
    apply wp_bind, wp_random. apply wp_bind, wp_random.
    destruct (if (floorZ (Math_random (randomCalls s) * 4) =? 0)%Z then _ else _)
      as [x y] eqn:Exy.
    assert (Hedge : x == -20 \/ x == width + 20 \/ y == -20 \/ y == height + 20).
    { repeat match type of Exy with
             | (if ?b then _ else _) = _ => destruct b
             end; inversion Exy; subst; auto using Qeq_refl. }
    clear Exy.
    apply wp_bind, wp_random. cbn [randomCalls set_randomCalls set_io io].
    set (s3 := set_randomCalls _ (set_randomCalls _ (set_randomCalls _ s))).
    assert (H3 : sameButRandom s s3) by (unfold sameButRandom; cbn; tauto).
    clearbody s3.
    change (S (S (randomCalls s))) with (2 + randomCalls s)%nat.
    destruct (Qltb (Math_random (2 + randomCalls s)) (EnvironmentTheme.ufoChance theme)).
    - (* ufo *)
      apply wp_bind, wp_bind, wp_random_frame. intros rw s4 H4.
      apply wp_bind, wp_random_frame. intros rh s5 H5.
      apply wp_ret, wp_bind, wp_get.
      apply wp_bind, wp_random_frame. intros rx s6 H6.
      apply wp_bind, wp_random_frame. intros ry s7 H7.
      apply wp_bind, wp_random_frame. intros rspeed s8 H8.
      apply wp_bind, wp_random_frame. intros rrot s9 H9.
      apply wp_bind, wp_random_frame. intros rspin s10 H10.
      unfold push_enemy. apply wp_modify. eexists. exists s10.
      split; [reflexivity |]. split; [eauto 10 using sameButRandom_trans |].
      cbn [Enemy.kind Enemy.hp Enemy.asteroidRadii]. split; [reflexivity |].
      split; [left; reflexivity |].
      split; [lra |]. split; [lra |]. split; [auto |].
      unfold enemyCenter.
      cbn [Enemy.position Enemy.width Enemy.height Vector2D.x Vector2D.y].
      destruct Hedge as [E | [E | [E | E]]];
        [left | right; left | right; right; left | right; right; right];
        rewrite <- E; ring.
    - (* asteroid *)
      apply wp_bind, wp_bind, wp_random_frame. intros rb s4 H4.
      apply wp_bind, wp_random_frame. intros rs s5 H5.
      apply wp_bind, wp_fillMap_random. intros radii s5' H5'.
      apply wp_bind, wp_random_frame. intros rh s5'' H5''.
      apply wp_ret, wp_bind, wp_get.
      apply wp_bind, wp_random_frame. intros rx s6 H6.
      apply wp_bind, wp_random_frame. intros ry s7 H7.
      apply wp_bind, wp_random_frame. intros rspeed s8 H8.
      apply wp_bind, wp_random_frame. intros rrot s9 H9.
      apply wp_bind, wp_random_frame. intros rspin s10 H10.
      unfold push_enemy. apply wp_modify. eexists. exists s10.
      split; [reflexivity |]. split; [eauto 12 using sameButRandom_trans |].
      cbn [Enemy.kind Enemy.hp Enemy.asteroidRadii]. split; [reflexivity |].
      split; [destruct (Qltb rh 0.5); [right | left]; reflexivity |].
      split; [destruct (Qltb rh 0.5); lra |].
      split; [destruct (Qltb rh 0.5); lra |]. split; [discriminate |].
      unfold enemyCenter.
      cbn [Enemy.position Enemy.width Enemy.height Vector2D.x Vector2D.y].
      destruct Hedge as [E | [E | [E | E]]];
        [left | right; left | right; right; left | right; right; right];
        rewrite <- E; ring. }
  apply wp_Ok in Hwp as ([] & s' & Hrun & e & s1 & -> & Hrest).
  exists e, s1. split; [exact Hrun | exact Hrest].
Qed.

Lemma push_enemy_healthy e :
  0 < Enemy.hp e -> preserves healthyState (push_enemy e).
Proof.
  intros He. unfold push_enemy. apply preserves_modify.
  intros s (A & B & C & D). unfold healthy. fields. repeat split; try assumption.
  apply Forall_app. split; [exact D |]. now constructor.
Qed.
Hint Extern 1 (preserves _ (push_enemy _)) =>
  apply push_enemy_healthy; cbn [Enemy.hp]; lra : inv.

Lemma spawnFrom_healthy theme width height :
  preserves healthyState (spawnFrom theme width height).
Proof.
  intros s [] s' Hrun (A & B & C & D).
  destruct (spawnFrom_run theme width height s)
    as (e & s1 & Hrun' & Hsame & _ & _ & Hlo & _).
  rewrite Hrun' in Hrun. inversion Hrun; subst s'.
  destruct Hsame as (Hc & _ & Hg & _ & He & _).
  unfold healthy. fields. rewrite Hc, Hg, He. repeat split; try assumption.
  apply Forall_app. split; [exact D |]. constructor; [lra | constructor].
Qed.
Hint Resolve spawnFrom_healthy : inv.

Lemma spawnLoop_healthy fuel spawnStep bossAlive width height :
  preserves healthyState (spawnLoop fuel spawnStep bossAlive width height).
Proof.
  induction fuel as [| fuel IH]; cbn [spawnLoop]; unfold spawnEnemy; passes.
Qed.
Hint Resolve spawnLoop_healthy : inv.

Lemma bossWaves_healthy bossAlive dt width :
  preserves healthyState (bossWaves bossAlive dt width).
Proof. unfold bossWaves. passes. Qed.
Hint Resolve bossWaves_healthy : inv.

Lemma meteorLoop_healthy fuel width : preserves healthyState (meteorLoop fuel width).
Proof. induction fuel as [| fuel IH]; cbn [meteorLoop]; passes. Qed.
Hint Resolve meteorLoop_healthy : inv.

Lemma updateEnemies_healthy effectiveDt :
  preserves healthyState (updateEnemies effectiveDt).
Proof.
  unfold updateEnemies. apply preserves_modify. intros s (A & B & C & D).
  unfold healthy. fields. repeat split; try assumption.
  apply Forall_forall. intros e He. apply in_map_iff in He as (e0 & <- & H0).
  cbn [moveEnemy Enemy.hp]. revert e0 H0. now apply Forall_forall.
Qed.
Hint Resolve updateEnemies_healthy : inv.

Lemma updateBeams_healthy dt : preserves healthyState (updateBeams dt).
Proof.
  intros s [] s' Hrun H. pose proof H as (A & B & C & D).
  unfold updateBeams, bind, get in Hrun. rewrite C in Hrun.
  cbn [beamsLoop] in Hrun. unfold ret, modify in Hrun. inversion Hrun; subst s'.
  unfold healthy. fields. auto.
Qed.
Hint Resolve updateBeams_healthy : inv.

Lemma collisions_healthy width height :
  preserves healthyState (collisions width height).
Proof.
  intros s [] s' Hrun (A & B & C & D).
  pose proof (collisions_keep_positive _ _ _ _ Hrun D) as D'.
  keeps_in Hrun (fun x : State => powerUpsRef x = [] /\ laserRef x = 0 /\ beamsRef x = []).
  destruct K as (A' & B' & C'); [auto |]. unfold healthy. auto.
Qed.
Hint Resolve collisions_healthy : inv.

Lemma shipLoop_sub (Q : Enemy.t -> Prop) enemies : forall survivors (s : State) r s',
  shipLoop enemies survivors s = Ok r s' ->
  Forall Q enemies -> Forall Q survivors -> Forall Q r.
Proof.
  induction enemies as [| enemy enemies IH]; intros survivors s r s' Hrun He Hs;
    cbn [shipLoop] in Hrun.
  - inversion Hrun; now subst.
  - inversion He as [| ? ? Hq He']; subst.
    unfold bind at 1, get at 1 in Hrun. cbv zeta in Hrun.
    destruct (rectRectOverlap _ _ _ _ _ _ _ _).
    + destruct (hasShieldRef s).
      * apply bind_Ok in Hrun as (? & s1 & _ & Hrun).
        apply bind_Ok in Hrun as (? & s2 & _ & Hrun).
        apply bind_Ok in Hrun as (? & s3 & _ & Hrun).
        eapply IH; eauto.
      * unfold bind, modify, ret in Hrun. inversion Hrun; now subst.
    + eapply IH; eauto. apply Forall_app. split; [exact Hs | now constructor].
Qed.

Lemma shipCollisions_healthy : preserves healthyState shipCollisions.
Proof.
  intros s [] s' Hrun (A & B & C & D). unfold shipCollisions in Hrun.
  unfold bind at 1, get at 1 in Hrun.
  apply bind_Ok in Hrun as (r & s1 & H1 & H2).
  pose proof (shipLoop_sub _ _ _ _ _ _ H1 D (Forall_nil _)) as D'.
  keeps_in H1 (fun x : State => powerUpsRef x = [] /\ laserRef x = 0 /\ beamsRef x = []).
  destruct K as (A' & B' & C'); [auto |].
  unfold modify in H2. inversion H2; subst s'. unfold healthy. fields. auto.
Qed.
Hint Resolve shipCollisions_healthy : inv.

Lemma updatePowerUps_healthy dt : preserves healthyState (updatePowerUps dt).
Proof.
  intros s [] s' Hrun H. pose proof H as (A & B & C & D).
  unfold updatePowerUps, bind, get in Hrun. rewrite A in Hrun.
  cbn [powerUpsLoop] in Hrun. unfold ret, modify in Hrun. inversion Hrun; subst s'.
  unfold healthy. fields. auto.
Qed.
Hint Resolve updatePowerUps_healthy : inv.

Lemma laser_tick_healthy dt :
  preserves healthyState
    (s <- get ;;
     if Qgtb (laserRef s) 0 then modify (fun s => set_laserRef (laserRef s - dt) s)
     else ret tt).
Proof.
  intros s [] s' Hrun H. pose proof H as (A & B & C & D).
  unfold bind, get in Hrun. rewrite B in Hrun.
  change (Qgtb 0 0) with false in Hrun. inversion Hrun; now subst.
Qed.

Lemma decrementTimers_healthy dt : preserves healthyState (decrementTimers dt).
Proof.
  unfold decrementTimers.
  apply preserves_bind; [passes | intros ?].
  apply preserves_bind; [passes | intros ?].
  apply preserves_bind; [passes | intros ?].
  apply preserves_bind; [passes | intros ?].
  apply preserves_bind; [passes | intros ?].
  apply preserves_bind; [passes | intros ?].
  apply preserves_bind; [passes | intros ?].
  apply preserves_bind; [passes | intros ?].
  apply laser_tick_healthy.
Qed.
Hint Resolve decrementTimers_healthy : inv.

Lemma shootBullet_healthy env : preserves healthyState (shootBullet env).
Proof.
  unfold shootBullet. destruct (canvasRef env); [| passes].
  intros s [] s' Hrun H. pose proof H as (A & B & C & D).
  unfold bind at 1, get at 1 in Hrun. cbv zeta in Hrun. rewrite B in Hrun.
  change (Qgtb 0 0) with false in Hrun. cbv iota in Hrun.
  keeps_in Hrun (fun x : State =>
                   healthy (powerUpsRef x) (laserRef x) (beamsRef x) (enemiesRef x)).
  exact (K H).
Qed.
Hint Resolve shootBullet_healthy : inv.

Lemma resetGame_healthy env : preserves healthyState (resetGame env).
Proof.
  unfold resetGame.
  apply preserves_bind; [passes | intros ?].
  apply preserves_bind; [passes | intros ?].
  apply preserves_bind; [| intros ?; passes].
  apply preserves_modify. intros s (A & B & C & D). unfold healthy. fields. auto.
Qed.
Hint Resolve resetGame_healthy : inv.

Lemma hitScan_healthy env mx my rects :
  preserves healthyState (hitScan env mx my rects).
Proof.
  induction rects as [| hit rects IH]; cbn [hitScan]; unfold startGame; passes.
Qed.
Hint Resolve hitScan_healthy : inv.

Lemma run_healthy fuel c : preserves healthyState (run fuel c).
Proof.
  destruct c; cbn [run];
    unfold handleKeyDown, handleMouseDown, loop, update, startGame, events, spawning;
    passes.
Qed.

Lemma initialState_healthy : healthyState initialState.
Proof. unfold healthy, initialState. fields. auto. Qed.

Lemma reachable_healthy (s : State) : reachable s -> healthyState s.
Proof.
  induction 1 as [| s fuel c s' _ IH Hrun].
  - apply initialState_healthy.
  - exact (run_healthy fuel c s tt s' Hrun IH).
Qed.

(** X14. In every state reachable from the initial one, every enemy in the
    enemy list has hp above 0, and no beam is in flight: enemies enter with
    1, 2, 3, 50 or 60 hp, only a bullet impact lowers hp as long as no beam
    exists, and the impact that brings hp to 0 removes the enemy. *)
Theorem enemies_alive_in_play (s : State) :
  reachable s ->
  Forall (fun e => 0 < Enemy.hp e) (enemiesRef s) /\ beamsRef s = [].
Proof.
  intros H. destruct (reachable_healthy s H) as (_ & _ & B & E). auto.
Qed.

End Enemies.

(** ** The laser and the beams, on the runs of the game

    No power-up is ever put on the field, so in a reachable state the laser
    effect is off and no beam exists: hp is lost to bullet impacts only,
    and a shot always takes the bullet branch of [shootBullet]. *)

Section Runs.

Context {host : Host}.

(** One call of [onEnemyDestroyed] is one step of the combo multiplier and
    one award of score. *)
Lemma onEnemyDestroyed_step enemy (s s' : State) :
  onEnemyDestroyed enemy s = Ok tt s' ->
  multiplierRef s' = comboStep (multiplierRef s) /\
  score s' = score s + Qmax 1 (floor (multiplierRef s)).
Proof.
  intros H. unfold onEnemyDestroyed in H. cbv zeta in H.
  apply bind_Ok in H as ([] & s1 & H1 & H). unfold modify in H1. inversion H1; subst s1.
  apply bind_Ok in H as ([] & s2 & H2 & H). unfold modify in H2. inversion H2; subst s2.
  keeps_in H (fun z : State =>
                multiplierRef z = comboStep (multiplierRef s) /\
                score z = score s + Qmax 1 (floor (multiplierRef s))).
  apply K. fields. split; reflexivity.
Qed.

Lemma bulletLoop_step after : forall enemy before (s : State) enemy' isDestroyed s',
  bulletLoop enemy before after s = Ok (enemy', isDestroyed) s' ->
  multiplierRef s' = (if isDestroyed then comboStep (multiplierRef s) else multiplierRef s) /\
  score s' = (if isDestroyed then score s + Qmax 1 (floor (multiplierRef s)) else score s) /\
  (isDestroyed = true -> Enemy.hp enemy' <= 0).
Proof.
  induction after as [| bullet after IH]; intros enemy before s enemy' d s' Hrun;
    cbn [bulletLoop] in Hrun.
  - inversion Hrun; subst. split; [reflexivity |]. split; [reflexivity | discriminate].
  - destruct (hits enemy bullet); [| eapply IH; eauto].
    apply bind_Ok in Hrun as ([] & s1 & H1 & Hrun).
    unfold modify in H1. inversion H1; subst s1. cbv zeta in Hrun.
    apply bind_Ok in Hrun as ([] & s2 & H2 & Hrun).
    keeps_in H2 (fun z : State => multiplierRef z = multiplierRef s /\ score z = score s).
    destruct K as [K Ks]; [fields; split; reflexivity |].
    destruct (Qleb (Enemy.hp (set_hp (Enemy.hp enemy - 1) enemy)) 0) eqn:E.
    + apply bind_Ok in Hrun as ([] & s3 & H3 & Hrun). inversion Hrun; subst.
      apply onEnemyDestroyed_step in H3 as [H3 H3s]. rewrite H3, H3s, K, Ks.
      split; [reflexivity |]. split; [reflexivity |]. intros _. now apply Qleb_le in E.
    + apply IH in Hrun as (A & As & B). rewrite K in A, As. rewrite Ks in As. auto.
Qed.

(** The collision loop visits every enemy once: it keeps the enemy or
    destroys it, and per enemy destroyed the combo multiplier takes one
    step and the score one award. *)
Lemma enemyLoop_once enemies : forall remaining (s : State) r s',
  enemyLoop enemies remaining s = Ok r s' ->
  exists n,
    (List.length r + n = List.length remaining + List.length enemies)%nat /\
    multiplierRef s' = Nat.iter n comboStep (multiplierRef s) /\
    score s' == score s + comboGain n (multiplierRef s).
Proof.
  induction enemies as [| enemy enemies IH]; intros remaining s r s' Hrun;
    cbn [enemyLoop] in Hrun.
  - inversion Hrun; subst. exists 0%nat. split; [cbn; lia |].
    split; [reflexivity | cbn [comboGain]; ring].
  - apply bind_Ok in Hrun as (s0 & s1 & Hget & Hrun). inversion Hget; subst.
    apply bind_Ok in Hrun as ([enemy' d] & s2 & Hloop & Hrun).
    apply bulletLoop_step in Hloop as (Hm & Hsc & _).
    apply IH in Hrun as (n & Hlen & Hmul & Hscore).
    destruct d; cbn [negb] in Hlen.
    + exists (S n). split; [cbn [List.length]; lia |]. split.
      * rewrite Hmul, Hm. symmetry. apply Nat.iter_succ_r.
      * rewrite Hscore, Hsc, Hm. cbn [comboGain]. ring.
    + exists n. split; [rewrite length_app in Hlen; cbn [List.length] in *; lia |].
      rewrite Hscore, Hsc, Hmul, Hm. split; reflexivity.
Qed.


End Runs.

Section Steady.

Context {host : Host}.

Abbreviation steadyState :=
  (fun x : State =>
     steady (spawnIntervalRef x) (multiplierRef x) (score x) (scoreOrbsRef x)
       (rocketRef x)).

Ltac steady_modify :=
  apply preserves_modify;
  let s := fresh "s" in
  intros s (A & B & C & D & E & F & G & H);
  unfold steady; fields; repeat split; try assumption.

Lemma spawnOrb_steady cx cy : preserves steadyState (spawnOrb cx cy).
Proof.
  unfold spawnOrb. passes. unfold push_orb. steady_modify.
  apply Forall_app. split; [exact E | now repeat constructor].
Qed.
Hint Resolve spawnOrb_steady : inv.

Lemma onEnemyDestroyed_steady enemy : preserves steadyState (onEnemyDestroyed enemy).
Proof.
  unfold onEnemyDestroyed. cbv zeta.
  apply preserves_bind; [| intros ?].
  { steady_modify. pose proof (Q.le_max_l 1 (floor (multiplierRef s))). lra. }
  apply preserves_bind; [| intros ?; passes].
  steady_modify. apply Q.min_glb; lra.
Qed.
Hint Resolve onEnemyDestroyed_steady : inv.

Lemma bulletLoop_steady enemy before after :
  preserves steadyState (bulletLoop enemy before after).
Proof.
  revert enemy before. induction after as [| bullet after IH]; intros enemy before;
    cbn [bulletLoop]; passes.
Qed.
Hint Resolve bulletLoop_steady : inv.

Lemma enemyLoop_steady enemies remaining :
  preserves steadyState (enemyLoop enemies remaining).
Proof.
  revert remaining. induction enemies as [| enemy enemies IH]; intros remaining;
    cbn [enemyLoop]; passes.
Qed.
Hint Resolve enemyLoop_steady : inv.

Lemma shipLoop_steady enemies survivors :
  preserves steadyState (shipLoop enemies survivors).
Proof.
  revert survivors. induction enemies as [| enemy enemies IH]; intros survivors;
    cbn [shipLoop]; passes.
Qed.
Hint Resolve shipLoop_steady : inv.

Lemma orbsLoop_steady effectiveDt orbs : forall remaining (s : State) r s',
  orbsLoop effectiveDt orbs remaining s = Ok r s' ->
  Forall (fun o => ScoreOrb.value o = 1) orbs ->
  Forall (fun o => ScoreOrb.value o = 1) remaining ->
  0 <= score s ->
  Forall (fun o => ScoreOrb.value o = 1) r /\ 0 <= score s' /\
  spawn s' = spawn s /\ combo s' = combo s /\ rocketRef s' = rocketRef s.
Proof.
  induction orbs as [| orb orbs IH]; intros remaining s r s' Hrun Horbs Hrem Hs;
    cbn [orbsLoop] in Hrun.
  - inversion Hrun; subst. auto.
  - inversion Horbs as [| ? ? Hv Horbs']; subst.
    unfold bind at 1, get at 1 in Hrun. cbv zeta in Hrun.
    match type of Hrun with
    | (if ?b then _ else _) _ = _ => destruct b
    end.
    + unfold bind at 1, modify at 1 in Hrun.
      apply IH in Hrun; auto.
      fields. cbn [ScoreOrb.value]. rewrite Hv. lra.
    + apply IH in Hrun; auto.
      apply Forall_app. split; [exact Hrem |]. constructor; [| constructor].
      cbn [ScoreOrb.value]. exact Hv.
Qed.

Lemma updateOrbs_steady effectiveDt : preserves steadyState (updateOrbs effectiveDt).
Proof.
  intros s [] s' Hrun (A & B & C & D & E & F & G & H). unfold updateOrbs in Hrun.
  unfold bind at 1, get at 1 in Hrun.
  apply bind_Ok in Hrun as (r & s1 & H1 & H2).
  destruct (orbsLoop_steady _ _ _ _ _ _ H1 E (Forall_nil _) D)
    as (E' & D' & Hsp & Hco & Hro).
  unfold modify in H2. inversion H2; subst s'. unfold steady. fields.
  rewrite Hsp, Hco, Hro. repeat split; assumption.
Qed.
Hint Resolve updateOrbs_steady : inv.

Lemma comboDecay_steady dt : preserves steadyState (comboDecay dt).
Proof.
  unfold comboDecay. passes. steady_modify. apply Q.le_max_l.
Qed.
Hint Resolve comboDecay_steady : inv.

Lemma difficulty_steady dt : preserves steadyState (difficulty dt).
Proof.
  unfold difficulty. passes. steady_modify.
  - apply Q.le_max_l.
  - apply Q.max_lub; lra.
Qed.
Hint Resolve difficulty_steady : inv.

Lemma moveShip_steady dt width height : preserves steadyState (moveShip dt width height).
Proof. unfold moveShip. steady_modify. Qed.
Hint Resolve moveShip_steady : inv.

Lemma resetGame_steady env : preserves steadyState (resetGame env).
Proof.
  unfold resetGame.
  apply preserves_bind; [steady_modify; lra | intros ?].
  apply preserves_bind; [passes | intros ?].
  apply preserves_bind; [passes | intros ?].
  apply preserves_bind; [passes | intros ?].
  apply preserves_bind; [passes | intros ?].
  apply preserves_bind; [steady_modify; lra | intros ?].
  apply preserves_bind; [passes | intros ?].
  apply preserves_bind; [passes | intros ?].
  apply preserves_bind; [passes | intros ?].
  destruct (containerRef env); [steady_modify | passes].
Qed.
Hint Resolve resetGame_steady : inv.

Lemma hitScan_steady env mx my rects : preserves steadyState (hitScan env mx my rects).
Proof.
  induction rects as [| hit rects IH]; cbn [hitScan]; unfold startGame; passes.
Qed.
Hint Resolve hitScan_steady : inv.

Lemma resize_steady env : preserves steadyState (resizeCanvasToContainer env).
Proof.
  unfold resizeCanvasToContainer.
  destruct (canvasRef env), (containerRef env); passes.
Qed.

Lemma run_steady fuel c : preserves steadyState (run fuel c).
Proof.
  destruct c; cbn [run]; [| | | | apply resize_steady | | | |];
    unfold handleKeyDown, handleMouseDown, loop, update, startGame, collisions,
      shipCollisions;
    passes.
Qed.

Lemma initialState_steady : steadyState initialState.
Proof. unfold steady, initialState. fields. repeat split; try lra. constructor. Qed.

Lemma reachable_steady (s : State) : reachable s -> steadyState s.
Proof.
  induction 1 as [| s fuel c s' _ IH Hrun].
  - apply initialState_steady.
  - exact (run_steady fuel c s tt s' Hrun IH).
Qed.

(** X15. In every reachable state the spawn interval lies between 220 and
    900 ms: a game starts at 900 ms, the difficulty pass shortens the
    interval by 40 ms at a time and stops at 220 ms, and nothing lengthens
    it but a restart. *)
Theorem spawn_interval_in_range (s : State) :
  reachable s -> 220 <= spawnIntervalRef s /\ spawnIntervalRef s <= 900.
Proof.
  intros H. destruct (reachable_steady s H) as (A & B & _). auto.
Qed.

(** X16. In every reachable state the combo multiplier is at least 1, the
    score is not negative, and every score orb in flight is worth exactly
    one point. *)
Theorem score_and_multiplier_floor (s : State) :
  reachable s ->
  1 <= multiplierRef s /\ 0 <= score s /\
  Forall (fun o => ScoreOrb.value o = 1) (scoreOrbsRef s).
Proof.
  intros H. destruct (reachable_steady s H) as (_ & _ & C & D & E & _). auto.
Qed.

(** X17. In every reachable state the rocket is 48 by 28 with speed 460:
    moving, resizing and restarting only ever assign its position. *)
Theorem rocket_keeps_its_size (s : State) :
  reachable s ->
  Rocket.width (rocketRef s) = 48 /\ Rocket.height (rocketRef s) = 28 /\
  Rocket.speed (rocketRef s) = 460.
Proof.
  intros H. destruct (reachable_steady s H) as (_ & _ & _ & _ & _ & F). exact F.
Qed.

End Steady.

(** ** Spawning, the field after a tick, resizing and map switches *)

Section Field.

Context {host : Host}.

(** X18. [spawnEnemy], once the theme is read, always completes and appends
    exactly one enemy: a ufo or an asteroid, never a boss, with 2 hp (ufo) or
    2 or 3 hp (asteroid), its center 20 px outside one of the four edges of
    the canvas; everything else it leaves as it was (bullets, particles,
    rocket, score, mode, every timer, the effects, the combo, the toggles,
    the theme state and the input state), the count of random draws
    apart. *)
Theorem spawned_enemy theme width height (s : State) :
  exists e s',
    spawnFrom theme width height s = Ok tt s' /\
    enemiesRef s' = enemiesRef s ++ [e] /\
    (Enemy.kind e = ufo \/ Enemy.kind e = asteroid) /\
    isBoss e = false /\
    (Enemy.hp e = 2 \/ Enemy.hp e = 3) /\
    (Enemy.kind e = ufo -> Enemy.hp e = 2 /\ Enemy.asteroidRadii e = None) /\
    (Vector2D.x (enemyCenter e) == -20 \/ Vector2D.x (enemyCenter e) == width + 20 \/
     Vector2D.y (enemyCenter e) == -20 \/ Vector2D.y (enemyCenter e) == height + 20) /\
    bulletsRef s' = bulletsRef s /\ particlesRef s' = particlesRef s /\
    rocketRef s' = rocketRef s /\ score s' = score s /\ mode s' = mode s /\
    spawn s' = spawn s /\ gameplay s' = gameplay s /\ bossEvents s' = bossEvents s /\
    effects s' = effects s /\ combo s' = combo s /\ toggles s' = toggles s /\
    themeRotation s' = themeRotation s /\
    pressedKeysRef s' = pressedKeysRef s /\ aimPositionRef s' = aimPositionRef s /\
    lastTimeRef s' = lastTimeRef s /\ menuSectionRef s' = menuSectionRef s /\
    menuHitRectsRef s' = menuHitRectsRef s.
Proof.
  destruct (spawnFrom_run theme width height s)
    as (e & s1 & Hrun & Hsame & Hkind & Hhp & Hlo & Hhi & Hufo & Hedge).
  exists e. eexists. split; [exact Hrun |].
  destruct Hsame as (Hc & Hsp & Hg & Hb & He & Hco & Ht & Hth & Hp & Ha & Hl & Hm & Hr).
  fields. rewrite Hc, Hsp, Hg, Hb, He, Hco, Ht, Hth, Hp, Ha, Hl, Hm, Hr.
  split; [reflexivity |].
  split; [rewrite Hkind; destruct (Qltb _ _); auto |].
  split; [unfold isBoss; rewrite Hkind; now destruct (Qltb _ _) |].
  split; [exact Hhp |]. split; [exact Hufo |]. split; [exact Hedge |].
  repeat split.
Qed.

(** X19. After every tick of a game under way no bullet is left off the
    canvas and no enemy farther than 80 px outside it: the collision pass
    drops them, and no later pass of the tick adds a bullet or an enemy. *)
Theorem tick_clears_the_field fuel dt width height (s s' : State) :
  update fuel dt width height s = Ok tt s' ->
  mode s = playing -> pauseRef s = false ->
  Forall (fun b => onScreen width height b = true) (bulletsRef s') /\
  Forall (fun e => inMargin width height e = true) (enemiesRef s').
Proof.
  intros Hrun Hm Hp. tick_in Hrun Hm Hp.
  apply bind_Ok in Hrun as (? & s1 & _ & Hrun).
  apply bind_Ok in Hrun as (? & s2 & _ & Hrun).
  apply bind_Ok in Hrun as (? & s3 & _ & Hrun).
  apply bind_Ok in Hrun as (? & s4 & _ & Hrun).
  apply bind_Ok in Hrun as (bossAlive & s5 & _ & Hrun).
  apply bind_Ok in Hrun as (? & s6 & _ & Hrun).
  apply bind_Ok in Hrun as (? & s7 & _ & Hrun).
  apply bind_Ok in Hrun as (? & s8 & _ & Hrun).
  apply bind_Ok in Hrun as (effectiveDt & s9 & _ & Hrun).
  apply bind_Ok in Hrun as (? & s10 & _ & Hrun).
  apply bind_Ok in Hrun as (? & s11 & _ & Hrun).
  apply bind_Ok in Hrun as (? & s12 & _ & Hrun).
  apply bind_Ok in Hrun as (? & s13 & Hcol & Hrun).
  assert (Hfield : Forall (fun b => onScreen width height b = true) (bulletsRef s13) /\
                   Forall (fun e => inMargin width height e = true) (enemiesRef s13)).
  { unfold collisions in Hcol.
    apply bind_Ok in Hcol as (? & ? & _ & Hcol).
    apply bind_Ok in Hcol as (r & ? & _ & Hcol).
    apply bind_Ok in Hcol as (? & sg & Hg & Hcol). unfold get in Hg.
    injection Hg as E1 E2. subst.
    unfold bind, modify in Hcol. inversion Hcol; subst s13. fields.
    split; apply Forall_forall; intros a Ha; apply filter_In in Ha; tauto. }
  destruct Hfield as [Hb He].
  apply bind_Ok in Hrun as (? & s14 & H14 & Hrun).
  apply bind_Ok in Hrun as (? & s15 & H15 & Hrun).
  apply bind_Ok in Hrun as (? & s16 & H16 & Hrun).
  apply bind_Ok in Hrun as (? & s17 & H17 & Hrun).
  apply bind_Ok in Hrun as (? & s18 & H18 & Hrun).
  apply bind_Ok in Hrun as (? & s19 & H19 & Hrun).
  assert (K : bulletsRef s19 = bulletsRef s13 /\ enemiesRef s19 = enemiesRef s13).
  { keeps_in H14 (fun x : State =>
                    bulletsRef x = bulletsRef s13 /\ enemiesRef x = enemiesRef s13).
    keeps_in H15 (fun x : State =>
                    bulletsRef x = bulletsRef s13 /\ enemiesRef x = enemiesRef s13).
    keeps_in H16 (fun x : State =>
                    bulletsRef x = bulletsRef s13 /\ enemiesRef x = enemiesRef s13).
    keeps_in H17 (fun x : State =>
                    bulletsRef x = bulletsRef s13 /\ enemiesRef x = enemiesRef s13).
    keeps_in H18 (fun x : State =>
                    bulletsRef x = bulletsRef s13 /\ enemiesRef x = enemiesRef s13).
    keeps_in H19 (fun x : State =>
                    bulletsRef x = bulletsRef s13 /\ enemiesRef x = enemiesRef s13).
    auto 12. }
  destruct K as [Kb Ke]. rewrite <- Kb in Hb. rewrite <- Ke in He.
  unfold shipCollisions in Hrun. unfold bind at 1, get at 1 in Hrun.
  apply bind_Ok in Hrun as (r & s20 & Hloop & Hset).
  pose proof (shipLoop_sub _ _ _ _ _ _ Hloop He (Forall_nil _)) as He'.
  keeps_in Hloop (fun x : State => bulletsRef x = bulletsRef s19).
  unfold modify in Hset. inversion Hset; subst s'. fields.
  rewrite (K eq_refl). auto.
Qed.

(** X20. Resizing with a canvas and a container mounted leaves the rocket
    within the new canvas, whose sides are the container's, rounded down and
    at least 360: a rocket still at the origin is centered, any other is
    clamped into the canvas; its size and speed stay. *)
Theorem resize_keeps_ship_visible env canvas rect (s : State) :
  canvasRef env = Some canvas -> containerRef env = Some rect ->
  Rocket.width (rocketRef s) <= 360 -> Rocket.height (rocketRef s) <= 360 ->
  0 <= Rocket.width (rocketRef s) -> 0 <= Rocket.height (rocketRef s) ->
  exists s',
    resizeCanvasToContainer env s = Ok tt s' /\
    inBounds (Qmax 360 (floor (DOMRect.width rect)))
      (Qmax 360 (floor (DOMRect.height rect))) (rocketRef s') /\
    Rocket.width (rocketRef s') = Rocket.width (rocketRef s) /\
    Rocket.height (rocketRef s') = Rocket.height (rocketRef s) /\
    Rocket.speed (rocketRef s') = Rocket.speed (rocketRef s) /\
    (Vector2D.x (Rocket.position (rocketRef s)) == 0 ->
     Vector2D.y (Rocket.position (rocketRef s)) == 0 ->
     Vector2D.x (center (rocketRef s')) == Qmax 360 (floor (DOMRect.width rect)) / 2 /\
     Vector2D.y (center (rocketRef s')) == Qmax 360 (floor (DOMRect.height rect)) / 2).
Proof.
  intros Hc Hr Hw Hh Hw0 Hh0. unfold resizeCanvasToContainer. rewrite Hc, Hr.
  cbv zeta. unfold modify. eexists. split; [reflexivity |]. fields.
  pose proof (Q.le_max_l 360 (floor (DOMRect.width rect))) as Wmin.
  pose proof (Q.le_max_l 360 (floor (DOMRect.height rect))) as Hmin.
  set (W := Qmax 360 (floor (DOMRect.width rect))) in *.
  set (H := Qmax 360 (floor (DOMRect.height rect))) in *.
  unfold inBounds, set_position, center.
  cbn [Rocket.position Rocket.width Rocket.height Rocket.speed].
  split; [| split; [reflexivity | split; [reflexivity | split; [reflexivity |]]]].
  - destruct (Qeq_bool (Vector2D.x (Rocket.position (rocketRef s))) 0
              && Qeq_bool (Vector2D.y (Rocket.position (rocketRef s))) 0)%bool;
      cbn [Vector2D.x Vector2D.y].
    + setoid_replace (W / 2) with (W * (1 # 2)) by (now field).
      setoid_replace (H / 2) with (H * (1 # 2)) by (now field).
      setoid_replace (Rocket.width (rocketRef s) / 2)
        with (Rocket.width (rocketRef s) * (1 # 2)) by (now field).
      setoid_replace (Rocket.height (rocketRef s) / 2)
        with (Rocket.height (rocketRef s) * (1 # 2)) by (now field).
      repeat split; lra.
    + destruct (clamp_bounds (Vector2D.x (Rocket.position (rocketRef s))) 0
                  (W - Rocket.width (rocketRef s))); [lra |].
      destruct (clamp_bounds (Vector2D.y (Rocket.position (rocketRef s))) 0
                  (H - Rocket.height (rocketRef s))); [lra |].
      repeat split; assumption.
  - intros Hx Hy. apply Qeq_bool_iff in Hx, Hy. rewrite Hx, Hy.
    cbn [andb Vector2D.x Vector2D.y]. split; field.
Qed.

End Field.

(** ** Map switches and menu clicks *)

Section Menu.

Context {host : Host}.

Lemma switchMap_run fuel key (s s' : State) :
  switchMap fuel key s = Ok tt s' ->
  currentThemeIdxRef s' =
    Z.rem (currentThemeIdxRef s + (if String.eqb key "e" then 1 else -1) + THEMES_length)
      THEMES_length /\
  nextThemeIdxRef s' <> currentThemeIdxRef s' /\
  themeTransitioningRef s' = false /\ themeBlendRef s' = 0 /\ themeTimerRef s' = 0 /\
  core s' = core s /\ spawn s' = spawn s /\ gameplay s' = gameplay s /\
  bossEvents s' = bossEvents s /\ effects s' = effects s /\ combo s' = combo s /\
  toggles s' = toggles s /\ pressedKeysRef s' = pressedKeysRef s.
Proof.
  intros Hrun. unfold switchMap, bind, modify, get in Hrun. fields_in Hrun.
  match type of Hrun with
  | context [pickNextThemeIndex ?f ?e ?st] =>
      destruct (pickNextThemeIndex f e st) as [r s1 | e1] eqn:Hp; [| discriminate]
  end.
  apply pickNextThemeIndex_Ok in Hp as [Hne Hsame].
  destruct Hsame as (Hc & Hsp & Hg & Hb & He & Hco & Ht & Hth & Hk & _).
  fields_in Hc. fields_in Hsp. fields_in Hg. fields_in Hb. fields_in He.
  fields_in Hco. fields_in Ht. fields_in Hth. fields_in Hk.
  inversion Hrun; subst s'. fields. rewrite Hc, Hsp, Hg, Hb, He, Hco, Ht, Hth, Hk.
  fields. repeat split. exact Hne.
Qed.

Lemma handleKeyDown_switch fuel env k (s : State) :
  toLowerCase k = "e"%string \/ toLowerCase k = "q"%string ->
  handleKeyDown fuel env (KeyboardEvent.mk k false) s =
    switchMap fuel (toLowerCase k)
      (set_pressedKeysRef (add (toLowerCase k) (pressedKeysRef s)) s).
Proof.
  intros Hk. unfold handleKeyDown. cbn [KeyboardEvent.repeat KeyboardEvent.key].
  unfold bind at 1, modify at 1. unfold bind at 1, get at 1. fields.
  destruct Hk as [-> | ->]; unfold isKey; cbn [String.eqb Ascii.eqb Bool.eqb orb andb];
    destruct (mode s); unfold bind, ret; reflexivity.
Qed.

Lemma pickLoop_calls fuel : forall exclude idx (s s' : State) r,
  pickLoop fuel exclude idx s = Ok r s' ->
  exists j, (j <= fuel)%nat /\ randomCalls s' = (randomCalls s + j)%nat.
Proof.
  induction fuel as [| fuel IH]; intros exclude idx s s' r; cbn [pickLoop];
    destruct (Z.eqb_spec idx exclude) as [-> | Hne]; intros H;
    try (inversion H; subst; exists 0%nat; split; [lia | now rewrite Nat.add_0_r]).
  - discriminate.
  - unfold bind, random, get, modify in H. cbn beta iota in H.
    apply IH in H as (j & Hj & E). fields_in E.
    exists (S j). split; [lia | rewrite E; lia].
Qed.

(** A map key completes whenever one of the next [fuel] draws picks an index
    other than the new current one; it makes at most [fuel] draws. *)
Lemma switchMap_total fuel key (s : State) :
  pickable fuel
    (Z.rem (currentThemeIdxRef s + (if String.eqb key "e" then 1 else -1) + THEMES_length)
       THEMES_length) (randomCalls s) ->
  exists s' j,
    switchMap fuel key s = Ok tt s' /\
    (j <= fuel)%nat /\ randomCalls s' = (randomCalls s + j)%nat.
Proof.
  intros Hpick. unfold switchMap. unfold bind at 1, modify at 1.
  unfold bind at 1, get at 1. fields.
  assert (Hwp : wp (pickNextThemeIndex fuel
                      (Z.rem (currentThemeIdxRef s
                              + (if String.eqb key "e" then 1 else -1) + THEMES_length)
                         THEMES_length))
                  (fun _ _ => True)
                  (set_currentThemeIdxRef
                     (Z.rem (currentThemeIdxRef s
                             + (if String.eqb key "e" then 1 else -1) + THEMES_length)
                        THEMES_length) s)).
  { apply wp_pickNextThemeIndex; [fields; exact Hpick | auto]. }
  apply wp_Ok in Hwp as (r & s1 & Hp & _).
  unfold bind at 1. rewrite Hp.
  unfold pickNextThemeIndex in Hp. cbn in Hp.
  apply pickLoop_calls in Hp as (j & Hj & E). fields_in E.
  unfold bind, modify. eexists. exists j. split; [reflexivity |].
  split; [exact Hj |]. fields. exact E.
Qed.

Lemma next_index (c : Z) :
  (0 <= c < THEMES_length)%Z ->
  Z.rem (c + 1 + THEMES_length) THEMES_length = ((c + 1) mod THEMES_length)%Z /\
  Z.rem (c + -1 + THEMES_length) THEMES_length = ((c - 1) mod THEMES_length)%Z /\
  Z.rem (((c + 1) mod THEMES_length) + -1 + THEMES_length) THEMES_length = c.
Proof.
  intros Hc. unfold THEMES_length in *.
  cbn [THEMES List.length Z.of_nat Pos.of_succ_nat Pos.succ] in *.
  assert (Hcase : c = 0%Z \/ c = 1%Z \/ c = 2%Z \/ c = 3%Z \/ c = 4%Z) by lia.
  destruct Hcase as [-> | [-> | [-> | [-> | ->]]]]; repeat split; reflexivity.
Qed.

(** X21. The map keys, in any mode and from any state: E switches to the
    following map and Q to the preceding one, around the table; either
    cancels a running crossfade, restarts the theme timer and draws a next
    map other than the new current one, and changes nothing else of the
    game; and E followed by Q comes back to the map it started from.  A key
    press completes whenever one of the next [fuel] draws of [Math.random]
    picks an index other than the new current one. *)
Theorem switch_map_round_trip fuel env k1 k2 (s : State) :
  toLowerCase k1 = "e"%string -> toLowerCase k2 = "q"%string ->
  (0 <= currentThemeIdxRef s < THEMES_length)%Z ->
  (pickable fuel ((currentThemeIdxRef s + 1) mod THEMES_length) (randomCalls s) ->
   exists s1 : State,
     run fuel (KeyDown env (KeyboardEvent.mk k1 false)) s = Ok tt s1 /\
     currentThemeIdxRef s1 = ((currentThemeIdxRef s + 1) mod THEMES_length)%Z /\
     nextThemeIdxRef s1 <> currentThemeIdxRef s1 /\
     themeTransitioningRef s1 = false /\ themeBlendRef s1 = 0 /\ themeTimerRef s1 = 0 /\
     core s1 = core s /\ spawn s1 = spawn s /\ gameplay s1 = gameplay s /\
     bossEvents s1 = bossEvents s /\ effects s1 = effects s /\ combo s1 = combo s /\
     toggles s1 = toggles s)
  /\
  (pickable fuel ((currentThemeIdxRef s - 1) mod THEMES_length) (randomCalls s) ->
   exists s1 : State,
     run fuel (KeyDown env (KeyboardEvent.mk k2 false)) s = Ok tt s1 /\
     currentThemeIdxRef s1 = ((currentThemeIdxRef s - 1) mod THEMES_length)%Z /\
     nextThemeIdxRef s1 <> currentThemeIdxRef s1 /\
     themeTransitioningRef s1 = false /\ themeBlendRef s1 = 0 /\ themeTimerRef s1 = 0 /\
     core s1 = core s /\ spawn s1 = spawn s /\ gameplay s1 = gameplay s /\
     bossEvents s1 = bossEvents s /\ effects s1 = effects s /\ combo s1 = combo s /\
     toggles s1 = toggles s)
  /\
  (pickable fuel ((currentThemeIdxRef s + 1) mod THEMES_length) (randomCalls s) ->
   (forall j, (j <= fuel)%nat ->
      pickable fuel (currentThemeIdxRef s) (randomCalls s + j)) ->
   exists s1 s2 : State,
     run fuel (KeyDown env (KeyboardEvent.mk k1 false)) s = Ok tt s1 /\
     run fuel (KeyDown env (KeyboardEvent.mk k2 false)) s1 = Ok tt s2 /\
     currentThemeIdxRef s2 = currentThemeIdxRef s /\
     nextThemeIdxRef s2 <> currentThemeIdxRef s2 /\
     themeTransitioningRef s2 = false /\ themeBlendRef s2 = 0 /\ themeTimerRef s2 = 0 /\
     core s2 = core s /\ spawn s2 = spawn s /\ gameplay s2 = gameplay s /\
     bossEvents s2 = bossEvents s /\ effects s2 = effects s /\ combo s2 = combo s /\
     toggles s2 = toggles s).
Proof.
  intros Hk1 Hk2 Hc.
  destruct (next_index _ Hc) as (Ne & Nq & Nback).
  assert (Hkey : forall k key dir (x : State),
             toLowerCase k = key -> (key = "e" \/ key = "q")%string ->
             dir = (if String.eqb key "e" then 1 else -1)%Z ->
             pickable fuel
               (Z.rem (currentThemeIdxRef x + dir + THEMES_length) THEMES_length)
               (randomCalls x) ->
             exists (x' : State) j,
               run fuel (KeyDown env (KeyboardEvent.mk k false)) x = Ok tt x' /\
               (j <= fuel)%nat /\ randomCalls x' = (randomCalls x + j)%nat /\
               currentThemeIdxRef x' =
                 Z.rem (currentThemeIdxRef x + dir + THEMES_length) THEMES_length /\
               nextThemeIdxRef x' <> currentThemeIdxRef x' /\
               themeTransitioningRef x' = false /\ themeBlendRef x' = 0 /\
               themeTimerRef x' = 0 /\
               core x' = core x /\ spawn x' = spawn x /\ gameplay x' = gameplay x /\
               bossEvents x' = bossEvents x /\ effects x' = effects x /\
               combo x' = combo x /\ toggles x' = toggles x).
  { intros k key dir x Hk Hkey -> Hpick. cbn [run].
    rewrite handleKeyDown_switch by (rewrite Hk; destruct Hkey as [-> | ->]; auto).
    rewrite Hk.
    destruct (switchMap_total fuel key
                (set_pressedKeysRef (add key (pressedKeysRef x)) x))
      as (x' & j & Hrun & Hj & Hcalls); [fields; exact Hpick |].
    exists x', j. split; [exact Hrun |]. split; [exact Hj |].
    fields_in Hcalls. split; [exact Hcalls |].
    apply switchMap_run in Hrun
      as (A & B & C & D & E & F & G & I & J & K & L & M & _).
    fields_in A. fields_in F. fields_in G. fields_in I. fields_in J.
    fields_in K. fields_in L. fields_in M.
    repeat split; assumption. }
  split; [| split].
  - intros Hpick.
    destruct (Hkey k1 "e"%string 1%Z s Hk1 (or_introl eq_refl) eq_refl)
      as (s1 & j & Hrun & _ & _ & A & Hrest); [rewrite Ne; exact Hpick |].
    exists s1. split; [exact Hrun |]. rewrite A, Ne. split; [reflexivity |].
    rewrite <- Ne, <- A. exact Hrest.
  - intros Hpick.
    destruct (Hkey k2 "q"%string (-1)%Z s Hk2 (or_intror eq_refl) eq_refl)
      as (s1 & j & Hrun & _ & _ & A & Hrest); [rewrite Nq; exact Hpick |].
    exists s1. split; [exact Hrun |]. rewrite A, Nq. split; [reflexivity |].
    rewrite <- Nq, <- A. exact Hrest.
  - intros Hpick Hback.
    destruct (Hkey k1 "e"%string 1%Z s Hk1 (or_introl eq_refl) eq_refl)
      as (s1 & j & Hrun1 & Hj & Hcalls & A1 & _ & _ & _ & _ & F1 & G1 & I1 & J1 & K1 & L1 & M1);
      [rewrite Ne; exact Hpick |].
    rewrite Ne in A1.
    destruct (Hkey k2 "q"%string (-1)%Z s1 Hk2 (or_intror eq_refl) eq_refl)
      as (s2 & j2 & Hrun2 & _ & _ & A2 & B2 & C2 & D2 & E2 & F2 & G2 & I2 & J2 & K2 & L2 & M2).
    { rewrite A1, Nback, Hcalls. apply Hback. exact Hj. }
    rewrite A1, Nback in A2.
    exists s1, s2. split; [exact Hrun1 |]. split; [exact Hrun2 |].
    rewrite F2, G2, I2, J2, K2, L2, M2, F1, G1, I1, J1, K1, L1, M1.
    repeat split; assumption.
Qed.

Lemma hitScan_inside env mx my hit rects (s : State) :
  hitScan env mx my (hit :: rects) s =
    (if inside mx my hit then
       match HitRect.type hit, HitRect.section hit with
       | hitStart, _ => startGame env ;; ret true
       | hitSection, Some section => modify (set_menuSectionRef section) ;; ret true
       | hitSection, None => hitScan env mx my rects
       end
     else hitScan env mx my rects) s.
Proof. reflexivity. Qed.

Lemma hitScan_skip env mx my pre : forall rest (s : State),
  Forall (fun h => inside mx my h = false) pre ->
  hitScan env mx my (pre ++ rest) s = hitScan env mx my rest s.
Proof.
  induction pre as [| h pre IH]; intros rest s H; [reflexivity |].
  inversion H as [| ? ? Hh Hpre]; subst. cbn [app].
  rewrite hitScan_inside, Hh. now apply IH.
Qed.

Lemma hitScan_no_tab env mx my rects : forall s : State,
  (forall hit, In hit rects -> HitRect.type hit = hitSection -> inside mx my hit = false) ->
  hitScan env mx my rects s = Ok false s \/
  exists s', startGame env s = Ok tt s' /\ hitScan env mx my rects s = Ok true s'.
Proof.
  induction rects as [| hit rects IH]; intros s H; [now left |].
  rewrite hitScan_inside.
  assert (IH' := IH s (fun h Hin => H h (or_intror Hin))).
  destruct (inside mx my hit) eqn:Ein; [| exact IH'].
  destruct (HitRect.type hit) eqn:Et.
  - rewrite (H hit (or_introl eq_refl) Et) in Ein. discriminate.
  - right. destruct (total_startGame env s) as ([] & s' & Hs).
    exists s'. split; [exact Hs |].
    destruct (HitRect.section hit); unfold bind; rewrite Hs; reflexivity.
Qed.

(** X22. A click in the menu: on a section tab (the first hit rectangle
    holding the point, when it is a tab) it selects that section and the
    menu stays; anywhere else, on the start button or beside every button,
    it starts the game. *)
Theorem menu_click env rect e (s : State) :
  mode s = menu -> canvasRef env = Some rect ->
  (forall pre hit post section,
     menuHitRectsRef s = pre ++ hit :: post ->
     Forall (fun h => inside (MouseEvent.clientX e - DOMRect.left rect)
                        (MouseEvent.clientY e - DOMRect.top rect) h = false) pre ->
     inside (MouseEvent.clientX e - DOMRect.left rect)
       (MouseEvent.clientY e - DOMRect.top rect) hit = true ->
     HitRect.type hit = hitSection -> HitRect.section hit = Some section ->
     handleMouseDown env (Some e) s = Ok tt (set_menuSectionRef section s)) /\
  ((forall hit, In hit (menuHitRectsRef s) -> HitRect.type hit = hitSection ->
      inside (MouseEvent.clientX e - DOMRect.left rect)
        (MouseEvent.clientY e - DOMRect.top rect) hit = false) ->
   exists s', handleMouseDown env (Some e) s = Ok tt s' /\
              startGame env s = Ok tt s' /\ mode s' = playing).
Proof.
  intros Hm Hc. split.
  - intros pre hit post section Hr Hpre Hin Ht Hs.
    unfold handleMouseDown. unfold bind at 1, get at 1. rewrite Hm, Hc. cbv zeta.
    unfold bind at 1. rewrite Hr, hitScan_skip by exact Hpre.
    rewrite hitScan_inside, Hin, Ht, Hs. reflexivity.
  - intros H. unfold handleMouseDown. unfold bind at 1, get at 1. rewrite Hm, Hc.
    cbv zeta. unfold bind at 1.
    destruct (hitScan_no_tab env _ _ _ s H) as [E | (s' & Hs & E)]; rewrite E.
    + destruct (startGame_run env s) as (s' & Hs & Hmode & _).
      exists s'. auto.
    + exists s'. split; [reflexivity |]. split; [exact Hs |].
      destruct (startGame_run env s) as (s'' & Hs' & Hmode & _).
      rewrite Hs in Hs'. inversion Hs'; subst. exact Hmode.
Qed.

End Menu.

(** ** The seeded generator *)

Lemma createRng_range seed : (0 <= createRng seed <= 2147483646)%Z.
Proof.
  unfold createRng. cbv zeta.
  pose proof (Z.rem_bound_abs (Qfloor (seed * 1000000000)) 2147483647
                ltac:(discriminate)) as Habs.
  destruct (Z.leb_spec (Z.rem (Qfloor (seed * 1000000000)) 2147483647) 0); lia.
Qed.

Lemma rngNext_state s :
  (0 < s < 2147483647)%Z -> (0 < fst (rngNext s) < 2147483647)%Z.
Proof.
  intros Hs. unfold rngNext. cbv zeta. cbn [fst].
  rewrite Z.rem_mod_nonneg by lia.
  pose proof (Z.mod_pos_bound (s * 48271) 2147483647 ltac:(lia)) as Hb.
  assert (Hne : ((s * 48271) mod 2147483647 <> 0)%Z); [| lia].
  intros E. apply Z.mod_divide in E; [| lia].
  rewrite Z.mul_comm in E. apply Z.gauss in E; [| reflexivity].
  apply Z.divide_pos_le in E; lia.
Qed.

Lemma rngNext_value s :
  (0 < fst (rngNext s) < 2147483647)%Z -> 0 < snd (rngNext s) /\ snd (rngNext s) < 1.
Proof.
  unfold rngNext. cbv zeta. cbn [fst snd]. intros [Hlo Hhi].
  set (z := Z.rem (s * 48271) 2147483647) in *. clearbody z.
  unfold Qlt, Qdiv, Qmult, Qinv, inject_Z. cbn [Qnum Qden]. split; lia.
Qed.

(** X23. The seeded generator [createRng]: its state starts between 0 and
    2147483646; from a state other than 0 every number it returns lies
    strictly between 0 and 1, for ever; a seed that is not negative never
    gives the state 0; and from the state 0 it returns only zeros. *)
Theorem seeded_generator_stays_in_range seed n :
  (0 <= createRng seed <= 2147483646)%Z /\
  (createRng seed <> 0%Z ->
   Forall (fun r => 0 < r /\ r < 1) (rngDraws n (createRng seed))) /\
  (0 <= seed -> createRng seed <> 0%Z) /\
  Forall (fun r => r == 0) (rngDraws n 0).
Proof.
  pose proof (createRng_range seed) as Hr. split; [exact Hr |]. split; [| split].
  - intros Hne.
    assert (Hs : (0 < createRng seed < 2147483647)%Z) by lia.
    revert Hs. generalize (createRng seed). clear. induction n as [| n IH];
      intros s Hs; cbn [rngDraws]; [constructor |].
    pose proof (rngNext_state s Hs) as Hst.
    pose proof (rngNext_value s Hst) as Hv.
    destruct (rngNext s) as [s' r]. cbn [fst snd] in *.
    constructor; [exact Hv | now apply IH].
  - intros Hseed. unfold createRng. cbv zeta.
    assert (Hf : (0 <= Qfloor (seed * 1000000000))%Z).
    { change 0%Z with (Qfloor 0). apply Qfloor_resp_le. lra. }
    pose proof (Z.rem_bound_pos _ 2147483647 Hf ltac:(lia)).
    destruct (Z.leb_spec (Z.rem (Qfloor (seed * 1000000000)) 2147483647) 0); lia.
  - clear. induction n as [| n IH]; cbn [rngDraws]; [constructor |].
    change (rngNext 0) with (0%Z, inject_Z 0 / 2147483647).
    constructor; [reflexivity | exact IH].
Qed.

(** ** Particles *)

Section Particles.

Context {host : Host}.
Hypothesis Hrand : randomInRange.

Abbreviation liveState :=
  (fun x : State => Forall liveParticle (particlesRef x)).

(** Like [passes], remembering of each draw that it lies in [0, 1). *)
Ltac draws :=
  repeat lazymatch goal with
         | |- preserves _ (bind random _) =>
             apply preserves_bind_random; [exact Hrand | stable | intros ? ? ?]
         | |- preserves _ _ => pass_step
         end.

Lemma push_particle_live p : liveParticle p -> preserves liveState (push_particle p).
Proof.
  intros Hp. unfold push_particle. apply preserves_modify. intros s H. fields.
  apply Forall_app. split; [exact H | now constructor].
Qed.
Hint Extern 1 (preserves _ (push_particle _)) =>
  apply push_particle_live; unfold liveParticle;
  cbn [Particle.life Particle.maxLife]; split; lra : inv.

Lemma muzzleFlash_live origin direction :
  preserves liveState (muzzleFlash origin direction).
Proof. unfold muzzleFlash. draws. Qed.
Hint Resolve muzzleFlash_live : inv.

Lemma explosionParticle_live x y kind :
  preserves liveState (explosionParticle x y kind).
Proof. unfold explosionParticle. draws. Qed.
Hint Resolve explosionParticle_live : inv.

Lemma thrusterParticle_live rocket c dir :
  preserves liveState (thrusterParticle rocket c dir).
Proof. unfold thrusterParticle. draws. Qed.
Hint Resolve thrusterParticle_live : inv.

Lemma impactParticle_live bullet : preserves liveState (impactParticle bullet).
Proof. unfold impactParticle. draws. Qed.
Hint Resolve impactParticle_live : inv.

Lemma bulletLoop_live enemy before after :
  preserves liveState (bulletLoop enemy before after).
Proof.
  revert enemy before. induction after as [| bullet after IH]; intros enemy before;
    cbn [bulletLoop]; unfold onEnemyDestroyed, createExplosion; passes.
Qed.
Hint Resolve bulletLoop_live : inv.

Lemma enemyLoop_live enemies remaining :
  preserves liveState (enemyLoop enemies remaining).
Proof.
  revert remaining. induction enemies as [| enemy enemies IH]; intros remaining;
    cbn [enemyLoop]; passes.
Qed.
Hint Resolve enemyLoop_live : inv.

Lemma shipLoop_live enemies survivors :
  preserves liveState (shipLoop enemies survivors).
Proof.
  revert survivors. induction enemies as [| enemy enemies IH]; intros survivors;
    cbn [shipLoop]; unfold onEnemyDestroyed, createExplosion; passes.
Qed.
Hint Resolve shipLoop_live : inv.

Lemma updateParticles_live dt effectiveDt :
  preserves liveState (updateParticles dt effectiveDt).
Proof.
  unfold updateParticles. apply preserves_modify. intros s H. fields.
  apply Forall_forall. intros p Hp. apply filter_In in Hp as [Hin Hle].
  apply in_map_iff in Hin as (p0 & <- & Hin0).
  apply Qleb_le in Hle. split; [exact Hle |].
  cbn [ageParticle Particle.maxLife].
  rewrite Forall_forall in H. exact (proj2 (H p0 Hin0)).
Qed.
Hint Resolve updateParticles_live : inv.

Lemma resetGame_live env : preserves liveState (resetGame env).
Proof.
  unfold resetGame.
  apply preserves_bind; [passes | intros ?].
  apply preserves_bind; [passes | intros ?].
  apply preserves_bind; [passes | intros ?].
  apply preserves_bind; [| intros ?; passes].
  apply preserves_modify. intros s H. fields. constructor.
Qed.
Hint Resolve resetGame_live : inv.

Lemma hitScan_live env mx my rects : preserves liveState (hitScan env mx my rects).
Proof.
  induction rects as [| hit rects IH]; cbn [hitScan]; unfold startGame; passes.
Qed.
Hint Resolve hitScan_live : inv.

Lemma run_live fuel c : preserves liveState (run fuel c).
Proof.
  destruct c; cbn [run];
    unfold handleKeyDown, handleMouseDown, loop, update, startGame, collisions,
      shipCollisions, shootBullet, spawnThruster;
    passes.
Qed.

Lemma reachable_live (s : State) : reachable s -> liveState s.
Proof.
  induction 1 as [| s fuel c s' _ IH Hrun].
  - constructor.
  - exact (run_live fuel c s tt s' Hrun IH).
Qed.

(** X24. Given a [Math.random] that returns numbers in [0, 1), every
    particle of every reachable state has a positive maximum lifetime and an
    age that does not exceed it: particles are born at age 0 with a lifetime
    of at least 0.18 s, and the particle pass drops those that outlive it.
    So the ratio [life / maxLife] the painter computes never divides by
    zero. *)
Theorem particles_within_lifetime (s : State) :
  reachable s ->
  Forall (fun p => Particle.life p <= Particle.maxLife p /\ 0 < Particle.maxLife p)
    (particlesRef s).
Proof. exact (reachable_live s). Qed.

End Particles.

(** ** Bosses *)

Section Bosses.

Context {host : Host}.

Abbreviation atMost n :=
  (fun x : State => (bossCount (enemiesRef x) <= n)%nat).

Lemma bossCount_app a b : bossCount (a ++ b) = (bossCount a + bossCount b)%nat.
Proof. unfold bossCount. now rewrite filter_app, length_app. Qed.

Lemma bossCount_one e : bossCount [e] = if isBoss e then 1%nat else 0%nat.
Proof. unfold bossCount. cbn. now destruct (isBoss e). Qed.

Lemma bossCount_filter f l : (bossCount (filter f l) <= bossCount l)%nat.
Proof.
  unfold bossCount. induction l as [| e l IH]; [reflexivity |].
  cbn. destruct (f e), (isBoss e) eqn:E; cbn; rewrite ?E; cbn; lia.
Qed.

Lemma bossCount_map (f : Enemy.t -> Enemy.t) l :
  (forall e, isBoss (f e) = isBoss e) -> bossCount (map f l) = bossCount l.
Proof.
  intros Hf. unfold bossCount. induction l as [| e l IH]; [reflexivity |].
  cbn. rewrite Hf. destruct (isBoss e); cbn; now rewrite IH.
Qed.

Lemma bossAliveIn_count l : bossAliveIn l = false -> bossCount l = 0%nat.
Proof.
  unfold bossAliveIn, bossCount. induction l as [| e l IH]; [reflexivity |].
  cbn. destruct (isBoss e); [discriminate | exact IH].
Qed.

Lemma push_regular n e :
  isBoss e = false -> preserves (atMost n) (push_enemy e).
Proof.
  intros He. unfold push_enemy. apply preserves_modify. intros s H. fields.
  rewrite bossCount_app, bossCount_one, He. lia.
Qed.
Hint Extern 1 (preserves _ (push_enemy _)) =>
  apply push_regular; reflexivity : inv.

Lemma spawnFrom_bosses n theme width height :
  preserves (atMost n) (spawnFrom theme width height).
Proof.
  intros s [] s' Hrun H.
  destruct (spawnFrom_run theme width height s) as (e & s1 & Hrun' & Hsame & Hk & _).
  rewrite Hrun' in Hrun. inversion Hrun; subst s'.
  destruct Hsame as (Hc & _). fields. rewrite Hc, bossCount_app, bossCount_one.
  rewrite (kind_regular _ _ Hk). lia.
Qed.
Hint Resolve spawnFrom_bosses : inv.

Lemma spawnLoop_bosses n fuel spawnStep bossAlive width height :
  preserves (atMost n) (spawnLoop fuel spawnStep bossAlive width height).
Proof.
  induction fuel as [| fuel IH]; cbn [spawnLoop]; unfold spawnEnemy; passes.
Qed.
Hint Resolve spawnLoop_bosses : inv.

Lemma meteorLoop_bosses n fuel width : preserves (atMost n) (meteorLoop fuel width).
Proof. induction fuel as [| fuel IH]; cbn [meteorLoop]; passes. Qed.
Hint Resolve meteorLoop_bosses : inv.

Lemma updateEnemies_bosses n effectiveDt :
  preserves (atMost n) (updateEnemies effectiveDt).
Proof.
  unfold updateEnemies. apply preserves_modify. intros s H. fields.
  now rewrite bossCount_map.
Qed.
Hint Resolve updateEnemies_bosses : inv.

Lemma beamsLoop_bosses n dt beams : forall remaining,
  preserves (atMost n) (beamsLoop dt beams remaining).
Proof.
  induction beams as [| b beams IH]; intros remaining; cbn [beamsLoop]; passes.
  apply preserves_modify. intros s H. fields. rewrite bossCount_map; [exact H |].
  intros e. unfold beamDamage. now destruct (inCapsule _ e).
Qed.
Hint Resolve beamsLoop_bosses : inv.

Lemma bulletLoop_kind after : forall enemy before (s : State) enemy' isDestroyed s',
  bulletLoop enemy before after s = Ok (enemy', isDestroyed) s' ->
  isBoss enemy' = isBoss enemy.
Proof.
  induction after as [| bullet after IH];
    intros enemy before s enemy' isDestroyed s' Hrun; cbn [bulletLoop] in Hrun.
  - inversion Hrun. reflexivity.
  - destruct (hits enemy bullet).
    + apply bind_Ok in Hrun as (? & s1 & _ & Hrun).
      apply bind_Ok in Hrun as (? & s2 & _ & Hrun).
      destruct (Qleb (Enemy.hp (set_hp (Enemy.hp enemy - 1) enemy)) 0).
      * apply bind_Ok in Hrun as (? & s3 & _ & Hrun). inversion Hrun. reflexivity.
      * apply IH in Hrun. exact Hrun.
    + eapply IH; eauto.
Qed.

Lemma enemyLoop_bosses enemies : forall remaining (s : State) r s',
  enemyLoop enemies remaining s = Ok r s' ->
  (bossCount r <= bossCount remaining + bossCount enemies)%nat.
Proof.
  induction enemies as [| enemy enemies IH]; intros remaining s r s' Hrun;
    cbn [enemyLoop] in Hrun.
  - inversion Hrun; subst. lia.
  - apply bind_Ok in Hrun as (s0 & s1 & Hget & Hrun). inversion Hget; subst.
    apply bind_Ok in Hrun as ([enemy' d] & s2 & Hloop & Hrun).
    apply bulletLoop_kind in Hloop. apply IH in Hrun.
    change (enemy :: enemies) with ([enemy] ++ enemies).
    rewrite bossCount_app, bossCount_one, <- Hloop.
    destruct d; cbn [negb] in Hrun.
    + destruct (isBoss enemy'); lia.
    + rewrite bossCount_app, bossCount_one in Hrun. destruct (isBoss enemy'); lia.
Qed.

Lemma collisions_bosses n width height :
  preserves (atMost n) (collisions width height).
Proof.
  intros s [] s' Hrun H. unfold collisions in Hrun.
  apply bind_Ok in Hrun as (s0 & s1 & Hget & Hrun). inversion Hget; subst.
  apply bind_Ok in Hrun as (r & s2 & Hloop & Hrun).
  apply bind_Ok in Hrun as (s3 & s4 & Hget' & Hrun). inversion Hget'; subst.
  unfold bind, modify in Hrun. inversion Hrun; subst. fields.
  apply enemyLoop_bosses in Hloop.
  pose proof (bossCount_filter (inMargin width height) r).
  change (bossCount []) with 0%nat in Hloop. lia.
Qed.
Hint Resolve collisions_bosses : inv.

Lemma shipLoop_bosses enemies : forall survivors (s : State) r s',
  shipLoop enemies survivors s = Ok r s' ->
  (bossCount r <= bossCount survivors + bossCount enemies)%nat.
Proof.
  induction enemies as [| enemy enemies IH]; intros survivors s r s' Hrun;
    cbn [shipLoop] in Hrun.
  - inversion Hrun; subst. lia.
  - change (enemy :: enemies) with ([enemy] ++ enemies). rewrite bossCount_app.
    unfold bind at 1, get at 1 in Hrun. cbv zeta in Hrun.
    destruct (rectRectOverlap _ _ _ _ _ _ _ _).
    + destruct (hasShieldRef s).
      * apply bind_Ok in Hrun as (? & s1 & _ & Hrun).
        apply bind_Ok in Hrun as (? & s2 & _ & Hrun).
        apply bind_Ok in Hrun as (? & s3 & _ & Hrun).
        apply IH in Hrun. lia.
      * unfold bind, modify, ret in Hrun. inversion Hrun; subst. lia.
    + apply IH in Hrun. rewrite bossCount_app in Hrun. lia.
Qed.

Lemma shipCollisions_bosses n : preserves (atMost n) shipCollisions.
Proof.
  intros s [] s' Hrun H. unfold shipCollisions in Hrun.
  unfold bind at 1, get at 1 in Hrun.
  apply bind_Ok in Hrun as (r & s1 & H1 & H2).
  apply shipLoop_bosses in H1.
  unfold modify in H2. inversion H2; subst s'. fields.
  change (bossCount []) with 0%nat in H1. lia.
Qed.
Hint Resolve shipCollisions_bosses : inv.

Lemma resetGame_bosses n env : preserves (atMost n) (resetGame env).
Proof.
  unfold resetGame.
  apply preserves_bind; [passes | intros ?].
  apply preserves_bind; [passes | intros ?].
  apply preserves_bind; [| intros ?; passes].
  apply preserves_modify. intros s H. fields. apply Nat.le_0_l.
Qed.
Hint Resolve resetGame_bosses : inv.

(** The boss pass reads [bossAlive] as the spawning pass found it: a boss
    enters only when none was there. *)
Lemma spawning_then_boss fuel dt width height (rest : M unit) :
  preserves (atMost 1) rest ->
  preserves (atMost 1)
    (bossAlive <- spawning fuel dt width height ;;
     bossWaves bossAlive dt width ;; rest).
Proof.
  intros Hrest s [] s' Hrun H.
  apply bind_Ok in Hrun as (bossAlive & s1 & Hspawn & Hrun).
  apply bind_Ok in Hrun as ([] & s2 & Hboss & Hrun).
  apply (Hrest _ _ _ Hrun). clear Hrun Hrest s'.
  unfold spawning in Hspawn. unfold bind at 1, modify at 1 in Hspawn.
  unfold bind at 1, get at 1 in Hspawn. cbv zeta in Hspawn. fields_in Hspawn.
  apply bind_Ok in Hspawn as ([] & s1' & Hloop & Hret).
  unfold ret in Hret. injection Hret as Hb Hs. subst s1'.
  destruct bossAlive.
  - keeps_in Hloop (fun x : State => (bossCount (enemiesRef x) <= 1)%nat).
    specialize (K H).
    unfold bossWaves in Hboss. unfold bind at 1, modify at 1 in Hboss.
    unfold bind at 1, get at 1 in Hboss. cbn [negb andb] in Hboss.
    inversion Hboss; subst s2. fields. exact K.
  - apply bossAliveIn_count in Hb.
    keeps_in Hloop (fun x : State => (bossCount (enemiesRef x) <= 0)%nat).
    specialize (K ltac:(fields; lia)).
    assert (Hwave : forall (x y : State),
               bossWaves false dt width x = Ok tt y ->
               (bossCount (enemiesRef x) <= 0)%nat ->
               (bossCount (enemiesRef y) <= 1)%nat).
    { clear. intros x y Hrun Hx. unfold bossWaves in Hrun.
      apply bind_Ok in Hrun as ([] & x1 & H1 & Hrun).
      unfold modify in H1. inversion H1; subst x1; clear H1.
      unfold bind at 1, get at 1 in Hrun. cbn [negb andb] in Hrun.
      destruct (Qgtb _ 45); [| inversion Hrun; subst; fields; lia].
      apply bind_Ok in Hrun as ([] & x2 & H2 & Hrun).
      unfold modify in H2. inversion H2; subst x2; clear H2.
      assert (Hone : forall e (z z' : State),
                 push_enemy e z = Ok tt z' ->
                 (bossCount (enemiesRef z) <= 0)%nat ->
                 (bossCount (enemiesRef z') <= 1)%nat).
      { intros e z z' Hp Hz. unfold push_enemy, modify in Hp.
        inversion Hp; subst z'. fields. rewrite bossCount_app, bossCount_one.
        destruct (isBoss e); lia. }
      apply bind_Ok in Hrun as (rk & x3 & H3 & Hrun).
      keeps_in H3 (fun z : State => (bossCount (enemiesRef z) <= 0)%nat).
      specialize (K ltac:(fields; exact Hx)).
      destruct (Qltb rk 0.5).
      - apply bind_Ok in Hrun as (rv & x4 & H4 & Hrun).
        keeps_in H4 (fun z : State => (bossCount (enemiesRef z) <= 0)%nat).
        exact (Hone _ _ _ Hrun (K0 K)).
      - cbv zeta in Hrun.
        apply bind_Ok in Hrun as (radii & x4 & H4 & Hrun).
        keeps_in H4 (fun z : State => (bossCount (enemiesRef z) <= 0)%nat).
        apply bind_Ok in Hrun as (? & x5 & H5 & Hrun).
        keeps_in H5 (fun z : State => (bossCount (enemiesRef z) <= 0)%nat).
        apply bind_Ok in Hrun as (? & x6 & H6 & Hrun).
        keeps_in H6 (fun z : State => (bossCount (enemiesRef z) <= 0)%nat).
        apply bind_Ok in Hrun as (? & x7 & H7 & Hrun).
        keeps_in H7 (fun z : State => (bossCount (enemiesRef z) <= 0)%nat).
        apply bind_Ok in Hrun as (? & x8 & H8 & Hrun).
        keeps_in H8 (fun z : State => (bossCount (enemiesRef z) <= 0)%nat).
        exact (Hone _ _ _ Hrun (K4 (K3 (K2 (K1 (K0 K)))))). }
    exact (Hwave _ _ Hboss K).
Qed.

Lemma update_bosses fuel dt width height :
  preserves (atMost 1) (update fuel dt width height).
Proof.
  unfold update. apply preserves_bind; [passes | intros s0].
  destruct (mode s0); [passes | | passes].
  destruct (pauseRef s0); [passes |].
  apply preserves_bind; [passes | intros ?].
  apply preserves_bind; [passes | intros ?].
  apply preserves_bind; [passes | intros ?].
  apply preserves_bind; [passes | intros ?].
  apply spawning_then_boss. unfold events, updateBeams. passes.
Qed.
Hint Resolve update_bosses : inv.

Lemma hitScan_bosses env mx my rects :
  preserves (atMost 1) (hitScan env mx my rects).
Proof.
  induction rects as [| hit rects IH]; cbn [hitScan]; unfold startGame; passes.
Qed.
Hint Resolve hitScan_bosses : inv.

Lemma run_bosses fuel c : preserves (atMost 1) (run fuel c).
Proof.
  destruct c; cbn [run]; unfold handleKeyDown, handleMouseDown, loop, startGame;
    passes.
Qed.

(** X25. Never two bosses at once: in every reachable state the enemy list
    holds at most one boss.  The boss pass lets a boss in only when the
    spawning pass of the same tick found none, and nothing else adds one. *)
Theorem one_boss_at_a_time (s : State) :
  reachable s -> (bossCount (enemiesRef s) <= 1)%nat.
Proof.
  induction 1 as [| s fuel c s' _ IH Hrun].
  - cbn. lia.
  - exact (run_bosses fuel c s tt s' Hrun IH).
Qed.

(** X26. The boss pass: it adds the tick to the boss timer; while a boss is
    alive, or the timer has not passed 45 s, it does nothing else; otherwise
    it resets the timer and lets one boss in above the canvas, a ufo
    mothership (240 by 120, 50 hp, centered) or an asteroid golem (160 by
    160, 60 hp), leaving bullets, score, rocket and mode as they were. *)
Theorem boss_wave bossAlive dt width (s : State) :
  (bossAlive = true \/ bossTimerRef s + dt <= 45 ->
   bossWaves bossAlive dt width s = Ok tt (set_bossTimerRef (bossTimerRef s + dt) s)) /\
  (bossAlive = false -> 45 < bossTimerRef s + dt ->
   exists boss s',
     bossWaves bossAlive dt width s = Ok tt s' /\
     bossTimerRef s' = 0 /\
     enemiesRef s' = enemiesRef s ++ [boss] /\
     (Enemy.kind boss = bossUfo /\ Enemy.hp boss = 50 /\
      Enemy.width boss = 240 /\ Enemy.height boss = 120 /\
      Enemy.position boss = vec (width / 2 - 120) (-100)
      \/
      Enemy.kind boss = bossGolem /\ Enemy.hp boss = 60 /\
      Enemy.width boss = 80 * 2 /\ Enemy.height boss = 80 * 2 /\
      Vector2D.y (Enemy.position boss) = - 80 * 2) /\
     bulletsRef s' = bulletsRef s /\ score s' = score s /\
     rocketRef s' = rocketRef s /\ mode s' = mode s).
Proof.
  split.
  - intros H. unfold bossWaves, bind, modify, get. fields.
    destruct H as [-> | H]; [reflexivity |].
    apply Qgtb_le in H. rewrite H. now rewrite andb_false_r.
  - intros -> Hgt.
    destruct (total_bossWaves false dt width s) as ([] & s' & Hrun).
    pose proof Hrun as Hrun'. unfold bossWaves in Hrun'.
    apply bind_Ok in Hrun' as ([] & x1 & H1 & Hrun').
    unfold modify in H1. inversion H1; subst x1; clear H1.
    unfold bind at 1, get at 1 in Hrun'. fields_in Hrun'.
    apply Qgtb_lt in Hgt. rewrite Hgt in Hrun'. cbn [negb andb] in Hrun'.
    apply bind_Ok in Hrun' as ([] & x2 & H2 & Hrun').
    unfold modify in H2. inversion H2; subst x2; clear H2.
    apply bind_Ok in Hrun' as (rk & x3 & H3 & Hrun').
    assert (Hend : forall e (z : State),
               (bossTimerRef z = 0 /\ enemiesRef z = enemiesRef s /\
                bulletsRef z = bulletsRef s /\ score z = score s /\
                rocketRef z = rocketRef s /\ mode z = mode s) ->
               push_enemy e z = Ok tt s' ->
               bossTimerRef s' = 0 /\ enemiesRef s' = enemiesRef s ++ [e] /\
               bulletsRef s' = bulletsRef s /\ score s' = score s /\
               rocketRef s' = rocketRef s /\ mode s' = mode s).
    { intros e z (Hz & He & Hc) Hp. unfold push_enemy, modify in Hp.
      inversion Hp; subst s'. fields. rewrite He. auto. }
    keeps_in H3 (fun z : State => bossTimerRef z = 0 /\ enemiesRef z = enemiesRef s /\ bulletsRef z = bulletsRef s /\ score z = score s /\ rocketRef z = rocketRef s /\ mode z = mode s).
    specialize (K ltac:(fields; repeat split)).
    destruct (Qltb rk 0.5).
    + apply bind_Ok in Hrun' as (rv & x4 & H4 & Hrun').
      keeps_in H4 (fun z : State => bossTimerRef z = 0 /\ enemiesRef z = enemiesRef s /\ bulletsRef z = bulletsRef s /\ score z = score s /\ rocketRef z = rocketRef s /\ mode z = mode s).
      destruct (Hend _ _ (K0 K) Hrun') as (A & B & C & D & E & F).
      eexists. exists s'. split; [exact Hrun |]. split; [exact A |].
      split; [exact B |]. split; [left; cbn; auto | auto].
    + cbv zeta in Hrun'.
      apply bind_Ok in Hrun' as (radii & x4 & H4 & Hrun').
      keeps_in H4 (fun z : State => bossTimerRef z = 0 /\ enemiesRef z = enemiesRef s /\ bulletsRef z = bulletsRef s /\ score z = score s /\ rocketRef z = rocketRef s /\ mode z = mode s).
      apply bind_Ok in Hrun' as (? & x5 & H5 & Hrun').
      keeps_in H5 (fun z : State => bossTimerRef z = 0 /\ enemiesRef z = enemiesRef s /\ bulletsRef z = bulletsRef s /\ score z = score s /\ rocketRef z = rocketRef s /\ mode z = mode s).
      apply bind_Ok in Hrun' as (? & x6 & H6 & Hrun').
      keeps_in H6 (fun z : State => bossTimerRef z = 0 /\ enemiesRef z = enemiesRef s /\ bulletsRef z = bulletsRef s /\ score z = score s /\ rocketRef z = rocketRef s /\ mode z = mode s).
      apply bind_Ok in Hrun' as (? & x7 & H7 & Hrun').
      keeps_in H7 (fun z : State => bossTimerRef z = 0 /\ enemiesRef z = enemiesRef s /\ bulletsRef z = bulletsRef s /\ score z = score s /\ rocketRef z = rocketRef s /\ mode z = mode s).
      apply bind_Ok in Hrun' as (? & x8 & H8 & Hrun').
      keeps_in H8 (fun z : State => bossTimerRef z = 0 /\ enemiesRef z = enemiesRef s /\ bulletsRef z = bulletsRef s /\ score z = score s /\ rocketRef z = rocketRef s /\ mode z = mode s).
      destruct (Hend _ _ (K4 (K3 (K2 (K1 (K0 K))))) Hrun') as (A & B & C & D & E & F).
      eexists. exists s'. split; [exact Hrun |]. split; [exact A |].
      split; [exact B |]. split; [right; cbn; auto | auto].
Qed.

End Bosses.

(** ** What a tick leaves alone *)

Section Untouched.

Context {host : Host}.

(** X27. A tick never touches the input state: the keys held, the pointer
    position, the pause, contrast and motion toggles, the HUD flag, the
    menu's section and hit rectangles, and the time of the last frame are
    after [update] what they were before it. *)
Theorem tick_leaves_input_alone fuel dt width height (s s' : State) :
  update fuel dt width height s = Ok tt s' ->
  pressedKeysRef s' = pressedKeysRef s /\ aimPositionRef s' = aimPositionRef s /\
  toggles s' = toggles s /\ hideHUDRef s' = hideHUDRef s /\
  menuSectionRef s' = menuSectionRef s /\ menuHitRectsRef s' = menuHitRectsRef s /\
  lastTimeRef s' = lastTimeRef s.
Proof.
  intros Hrun.
  keeps_in Hrun (fun x : State =>
                   pressedKeysRef x = pressedKeysRef s /\
                   aimPositionRef x = aimPositionRef s /\
                   toggles x = toggles s /\ hideHUDRef x = hideHUDRef s /\
                   menuSectionRef x = menuSectionRef s /\
                   menuHitRectsRef x = menuHitRectsRef s /\
                   lastTimeRef x = lastTimeRef s).
  apply K. repeat split.
Qed.

End Untouched.

(** ** Score orbs *)

Section Orbs.

Context {host : Host}.

Lemma set_score_same (s : State) : set_score (score s) s = s.
Proof. destruct s as [[] ? ? ? ? ? ? ? ?]. reflexivity. Qed.

Lemma set_score_twice v w (s : State) : set_score v (set_score w s) = set_score v s.
Proof. reflexivity. Qed.

Lemma orbsLoop_run effectiveDt orbs : forall remaining (s : State),
  let moved := map (movedOrb (Qgtb (magnetRef s) 0) (rocketRef s) effectiveDt) orbs in
  exists v,
    orbsLoop effectiveDt orbs remaining s =
      Ok (remaining ++ filter (fun o => negb (inOrbRange (rocketRef s) o)) moved)
         (set_score v s) /\
    v == score s + sumOf (map ScoreOrb.value (filter (inOrbRange (rocketRef s)) moved)).
Proof.
  induction orbs as [| orb orbs IH]; intros remaining s; cbn [orbsLoop map].
  - exists (score s). cbn. rewrite app_nil_r, set_score_same. split; [reflexivity | lra].
  - unfold bind at 1, get at 1. cbv zeta.
    change (ScoreOrb.mk _ _ (ScoreOrb.value orb))
      with (movedOrb (Qgtb (magnetRef s) 0) (rocketRef s) effectiveDt orb).
    set (o := movedOrb (Qgtb (magnetRef s) 0) (rocketRef s) effectiveDt orb).
    change (Qltb _ (26 * 26)) with (inOrbRange (rocketRef s) o).
    cbn [filter]. destruct (inOrbRange (rocketRef s) o); cbn [negb].
    + unfold bind at 1, modify at 1.
      destruct (IH remaining (set_score (score s + ScoreOrb.value o) s)) as (v & Hrun & Hv).
      rewrite set_score_twice in Hrun. fields_in Hrun. fields_in Hv.
      exists v. split; [exact Hrun |].
      cbn [map sumOf fold_right]. unfold sumOf in Hv. rewrite Hv. lra.
    + destruct (IH (remaining ++ [o]) s) as (v & Hrun & Hv).
      exists v. split; [| exact Hv].
      rewrite Hrun, <- app_assoc. reflexivity.
Qed.

(** X28. The orb pass always completes. It moves every orb (steered toward
    the rocket while the magnet lasts), removes those that end within 26 px
    of the rocket's center and keeps the others in order; the score grows
    by the values of the removed ones; the rocket, the enemies, the mode and
    the multiplier stay as they were. *)
Theorem orbs_collected effectiveDt (s : State) :
  let moved :=
    map (movedOrb (Qgtb (magnetRef s) 0) (rocketRef s) effectiveDt) (scoreOrbsRef s) in
  exists s',
    updateOrbs effectiveDt s = Ok tt s' /\
    scoreOrbsRef s' = filter (fun o => negb (inOrbRange (rocketRef s) o)) moved /\
    score s' == score s
                + sumOf (map ScoreOrb.value (filter (inOrbRange (rocketRef s)) moved)) /\
    rocketRef s' = rocketRef s /\ enemiesRef s' = enemiesRef s /\
    mode s' = mode s /\ multiplierRef s' = multiplierRef s.
Proof.
  intros moved. unfold updateOrbs. unfold bind at 1, get at 1.
  destruct (orbsLoop_run effectiveDt (scoreOrbsRef s) [] s) as (v & Hrun & Hv).
  unfold bind. rewrite Hrun. unfold modify. eexists. split; [reflexivity |].
  fields. repeat split; try reflexivity. exact Hv.
Qed.

End Orbs.

(** ** Ticks that complete *)

Section Ticks.

Context {host : Host}.

Hypothesis Hrand : randomInRange.

Abbreviation readyState :=
  (fun x : State =>
     paced (currentThemeIdxRef x) (nextThemeIdxRef x) (spawnIntervalRef x)
       (spawnAccumulatorRef x) (meteorSpawnAccRef x)).

Lemma spawnTheme_valid (s : State) :
  validTheme (currentThemeIdxRef s) (nextThemeIdxRef s) ->
  exists theme, spawnTheme s = Some theme.
Proof.
  intros (Hc & Hn & _). unfold spawnTheme, getEffectiveThemeBlend. cbv zeta.
  destruct (themeAt_valid _ Hc) as [a ->]. destruct (themeAt_valid _ Hn) as [b ->].
  destruct (Qgtb _ 0); eauto.
Qed.

(** The spawn loop completes when the fuel covers the intervals fallen due. *)
Lemma spawnLoop_total spawnStep bossAlive width height :
  0 < spawnStep ->
  forall fuel (s : State),
    spawnAccumulatorRef s < (inject_Z (Z.of_nat fuel) + 1) * spawnStep ->
    (exists theme, spawnTheme s = Some theme) ->
    exists s', spawnLoop fuel spawnStep bossAlive width height s = Ok tt s'.
Proof.
  intros Hstep. induction fuel as [| fuel IH]; intros s Hacc [theme Ht];
    cbn [spawnLoop]; unfold bind at 1, get at 1.
  - destruct (Qgeb (spawnAccumulatorRef s) spawnStep) eqn:E; [| eexists; reflexivity].
    apply Qgeb_le in E. change (inject_Z (Z.of_nat 0)) with 0 in Hacc. lra.
  - destruct (Qgeb (spawnAccumulatorRef s) spawnStep) eqn:E; [| eexists; reflexivity].
    unfold bind at 1, modify at 1.
    set (s1 := set_spawnAccumulatorRef (spawnAccumulatorRef s - spawnStep) s).
    assert (H1 : exists s2 : State,
               (if negb bossAlive then spawnEnemy width height else ret tt) s1 = Ok tt s2 /\
               spawnAccumulatorRef s2 = spawnAccumulatorRef s - spawnStep /\
               themeRotation s2 = themeRotation s).
    { destruct bossAlive; cbn [negb].
      - exists s1. repeat split.
      - unfold spawnEnemy. unfold bind at 1, get at 1.
        replace (spawnTheme s1) with (Some theme)
          by (rewrite <- Ht; symmetry; apply spawnTheme_ext; reflexivity).
        destruct (total_spawnFrom theme width height s1) as ([] & s2 & H2).
        exists s2. split; [exact H2 |].
        keeps_in H2 (fun x : State =>
                       spawnAccumulatorRef x = spawnAccumulatorRef s - spawnStep /\
                       themeRotation x = themeRotation s).
        apply K. subst s1. fields. auto. }
    destruct H1 as (s2 & H2 & Hacc2 & Hth2).
    unfold bind at 1. rewrite H2. apply IH.
    + rewrite Hacc2. rewrite inject_nat_S in Hacc. lra.
    + exists theme. rewrite <- Ht. apply spawnTheme_ext. exact Hth2.
Qed.

(** It stops with less than one interval in the accumulator. *)
Lemma spawnLoop_exit spawnStep bossAlive width height :
  forall fuel (s s' : State),
    spawnLoop fuel spawnStep bossAlive width height s = Ok tt s' ->
    spawnAccumulatorRef s' < spawnStep.
Proof.
  induction fuel as [| fuel IH]; intros s s' Hrun; cbn [spawnLoop] in Hrun;
    unfold bind at 1, get at 1 in Hrun;
    destruct (Qgeb (spawnAccumulatorRef s) spawnStep) eqn:E;
    try discriminate;
    try (inversion Hrun; subst s'; now apply Qgeb_lt in E).
  apply bind_Ok in Hrun as ([] & s1 & _ & Hrun).
  apply bind_Ok in Hrun as ([] & s2 & _ & Hrun).
  eapply IH. exact Hrun.
Qed.

Lemma spawning_total fuel dt width height (s : State) :
  ready s -> shortTick fuel dt ->
  exists b s', spawning fuel dt width height s = Ok b s'.
Proof.
  intros (Hv & Hlo & Hhi & Hacc & _) [Hshort _]. unfold spawning.
  unfold bind at 1, modify at 1. unfold bind at 1, get at 1. cbv zeta. fields.
  set (s1 := set_spawnAccumulatorRef (spawnAccumulatorRef s + dt * 1000) s).
  set (b := bossAliveIn (enemiesRef s)).
  assert (Hstep : 220 <= spawnStepOf b s1).
  { unfold spawnStepOf. subst s1. fields. destruct b; lra. }
  assert (Hfuel : 0 <= inject_Z (Z.of_nat fuel)).
  { change 0 with (inject_Z 0). rewrite <- Zle_Qle. lia. }
  destruct (spawnLoop_total (spawnStepOf b s1) b width height ltac:(lra) fuel s1)
    as (s2 & H2).
  - subst s1. fields. nra.
  - apply spawnTheme_valid. subst s1. fields. exact Hv.
  - unfold bind. rewrite H2. eexists. eexists. reflexivity.
Qed.

(** The meteor loop likewise. *)
Lemma meteorLoop_total width :
  forall fuel (s : State),
    meteorSpawnAccRef s <= inject_Z (Z.of_nat fuel) * 180 ->
    wp (meteorLoop fuel width) (fun _ _ => True) s.
Proof.
  induction fuel as [| fuel IH]; intros s Hacc; cbn [meteorLoop]; cbv zeta;
    apply wp_bind, wp_get.
  - destruct (Qgtb (meteorSpawnAccRef s) 180) eqn:E; [| exact I].
    apply Qgtb_lt in E. change (inject_Z (Z.of_nat 0)) with 0 in Hacc. lra.
  - destruct (Qgtb (meteorSpawnAccRef s) 180) eqn:E; [| exact I].
    apply wp_bind, wp_modify.
    repeat first [ apply wp_bind, wp_random_frame; intros ? ? ?
                 | progress cbv zeta ].
    unfold push_enemy. apply wp_bind, wp_modify. apply IH. fields.
    repeat match goal with
           | H : sameButRandom _ _ |- _ =>
               let Hb := fresh "Hb" in destruct H as (_ & _ & _ & Hb & _)
           end.
    repeat match goal with
           | H : bossEvents _ = bossEvents _ |- _ => rewrite H; clear H
           end.
    fields. rewrite inject_nat_S in Hacc. lra.
Qed.

Lemma meteorLoop_exit width :
  forall fuel (s s' : State),
    meteorLoop fuel width s = Ok tt s' -> meteorSpawnAccRef s' <= 180.
Proof.
  induction fuel as [| fuel IH]; intros s s' Hrun; cbn [meteorLoop] in Hrun;
    cbv zeta in Hrun; unfold bind at 1, get at 1 in Hrun;
    destruct (Qgtb (meteorSpawnAccRef s) 180) eqn:E;
    try discriminate;
    try (inversion Hrun; subst s'; now apply Qgtb_le in E).
  repeat (apply bind_Ok in Hrun as (? & ? & _ & Hrun)).
  eapply IH. exact Hrun.
Qed.

Lemma events_total fuel dt width (s : State) :
  meteorSpawnAccRef s <= 180 -> shortTick fuel dt ->
  exists s', events fuel dt width s = Ok tt s'.
Proof.
  intros Hacc [_ Hshort].
  assert (Hwp : wp (events fuel dt width) (fun _ _ => True) s).
  { unfold events. apply wp_bind, wp_modify, wp_bind, wp_get. fields.
    assert (Hloop : forall x : State,
               meteorSpawnAccRef x <= 180 ->
               wp (modify (fun s => set_eventTimeLeftRef (eventTimeLeftRef s - dt) s) ;;
                   modify (fun s => set_meteorSpawnAccRef
                                      (meteorSpawnAccRef s + dt * 1000) s) ;;
                   meteorLoop fuel width ;;
                   s <- get ;;
                   if Qleb (eventTimeLeftRef s) 0 then modify (set_eventActiveRef None)
                   else ret tt) (fun _ _ => True) x).
    { intros x Hx. apply wp_bind, wp_modify, wp_bind, wp_modify, wp_bind.
      eapply wp_mono; [apply meteorLoop_total; fields; lra |].
      intros [] x' _. apply wp_bind, wp_get.
      destruct (Qleb (eventTimeLeftRef x') 0); exact I. }
    destruct (eventActiveRef s) as [[] |] eqn:Ea.
    - apply wp_bind, wp_ret, wp_bind, wp_get. fields. rewrite Ea.
      apply Hloop. fields. exact Hacc.
    - destruct (Qgtb (eventTimerRef s + dt) 25).
      + apply wp_bind, wp_bind, wp_modify, wp_bind, wp_modify, wp_bind, wp_modify,
          wp_modify, wp_bind, wp_get. fields.
        apply Hloop. fields. lra.
      + apply wp_bind, wp_ret, wp_bind, wp_get. fields. rewrite Ea. exact I. }
  apply wp_Ok in Hwp as ([] & s' & Hrun & _). eauto.
Qed.

(** A tick keeps a state ready for the next one. *)
Lemma themeRotate_ready fuel dt : preserves readyState (themeRotate fuel dt).
Proof.
  intros s a s' Hrun (V & R). split.
  - exact (themeRotate_valid Hrand fuel dt s a s' Hrun V).
  - keeps_in Hrun (fun x : State =>
                     220 <= spawnIntervalRef x /\ spawnIntervalRef x <= 900 /\
                     spawnAccumulatorRef x < 1620 /\ meteorSpawnAccRef x <= 180).
    apply K. exact R.
Qed.

Lemma switchMap_ready fuel key : preserves readyState (switchMap fuel key).
Proof.
  intros s a s' Hrun (V & R). split.
  - exact (switchMap_valid Hrand fuel key s a s' Hrun V).
  - keeps_in Hrun (fun x : State =>
                     220 <= spawnIntervalRef x /\ spawnIntervalRef x <= 900 /\
                     spawnAccumulatorRef x < 1620 /\ meteorSpawnAccRef x <= 180).
    apply K. exact R.
Qed.

Lemma difficulty_ready dt : preserves readyState (difficulty dt).
Proof.
  intros s [] s' Hrun (V & Lo & Hi & A & M). rewrite difficulty_run in Hrun.
  inversion Hrun; subst s'. unfold paced.
  destruct (Qgtb (difficultyTimerRef s + dt * 1000) 5000); fields;
    repeat split; try assumption; try apply V.
  - apply Q.le_max_l.
  - apply Q.max_lub; lra.
Qed.

Lemma spawning_ready fuel dt width height :
  preserves readyState (spawning fuel dt width height).
Proof.
  intros s b s' Hrun (V & Lo & Hi & A & M). unfold spawning in Hrun.
  apply bind_Ok in Hrun as ([] & s1 & H1 & Hrun).
  unfold modify in H1. inversion H1; subst s1; clear H1.
  unfold bind at 1, get at 1 in Hrun. cbv zeta in Hrun.
  apply bind_Ok in Hrun as ([] & s2 & H2 & Hrun). inversion Hrun; subst; clear Hrun.
  pose proof (spawnLoop_exit _ _ _ _ _ _ _ H2) as Hexit.
  keeps_in H2 (fun x : State =>
                 validTheme (currentThemeIdxRef x) (nextThemeIdxRef x) /\
                 220 <= spawnIntervalRef x /\ spawnIntervalRef x <= 900 /\
                 meteorSpawnAccRef x <= 180).
  destruct K as (V' & Lo' & Hi' & M'); [fields; auto |].
  unfold paced. repeat split; try assumption; try apply V'.
  unfold spawnStepOf in Hexit. fields_in Hexit.
  destruct (bossAliveIn (enemiesRef s)); lra.
Qed.

Lemma events_ready fuel dt width : preserves readyState (events fuel dt width).
Proof.
  intros s [] s' Hrun (V & Lo & Hi & A & M).
  keeps_in Hrun (fun x : State =>
                   validTheme (currentThemeIdxRef x) (nextThemeIdxRef x) /\
                   220 <= spawnIntervalRef x /\ spawnIntervalRef x <= 900 /\
                   spawnAccumulatorRef x < 1620).
  destruct K as (V' & Lo' & Hi' & A'); [auto |].
  unfold paced. repeat split; try assumption; try apply V'.
  unfold events in Hrun.
  apply bind_Ok in Hrun as ([] & s1 & H1 & Hrun).
  unfold modify in H1. inversion H1; subst s1; clear H1.
  unfold bind at 1, get at 1 in Hrun.
  apply bind_Ok in Hrun as ([] & s2 & H2 & Hrun).
  assert (M2 : meteorSpawnAccRef s2 <= 180).
  { fields_in H2. destruct (eventActiveRef s) as [[] |].
    - inversion H2; subst s2. fields. exact M.
    - destruct (Qgtb (eventTimerRef s + dt) 25).
      + unfold bind, modify in H2. inversion H2; subst s2. fields. lra.
      + inversion H2; subst s2. fields. exact M. }
  unfold bind at 1, get at 1 in Hrun.
  destruct (eventActiveRef s2) as [[] |].
  - apply bind_Ok in Hrun as ([] & s3 & _ & Hrun).
    apply bind_Ok in Hrun as ([] & s4 & _ & Hrun).
    apply bind_Ok in Hrun as ([] & s5 & H5 & Hrun).
    apply meteorLoop_exit in H5.
    unfold bind at 1, get at 1 in Hrun.
    destruct (Qleb (eventTimeLeftRef s5) 0); inversion Hrun; subst s'; fields; exact H5.
  - inversion Hrun; subst s'. exact M2.
Qed.

Lemma resetGame_ready env : preserves readyState (resetGame env).
Proof.
  intros s [] s' Hrun (V & Lo & Hi & A & M).
  keeps_in Hrun (fun x : State =>
                   validTheme (currentThemeIdxRef x) (nextThemeIdxRef x) /\
                   meteorSpawnAccRef x <= 180).
  destruct K as (V' & M'); [auto |].
  assert (E : spawnAccumulatorRef s' = 0 /\ spawnIntervalRef s' = 900).
  { unfold resetGame, bind, modify in Hrun.
    destruct (containerRef env); inversion Hrun; subst s'; fields; auto. }
  destruct E as [Ea Ei]. unfold paced. rewrite Ea, Ei.
  repeat split; try assumption; try apply V'; lra.
Qed.

#[local] Hint Resolve themeRotate_ready switchMap_ready difficulty_ready spawning_ready
  events_ready resetGame_ready : inv.

Lemma update_ready fuel dt width height :
  preserves readyState (update fuel dt width height).
Proof. unfold update. passes. Qed.

#[local] Hint Resolve update_ready : inv.

Lemma hitScan_ready env mx my rects : preserves readyState (hitScan env mx my rects).
Proof.
  induction rects as [| hit rects IH]; cbn [hitScan]; unfold startGame; passes.
Qed.

#[local] Hint Resolve hitScan_ready : inv.

Lemma run_ready fuel c : preserves readyState (run fuel c).
Proof.
  destruct c; cbn [run];
    unfold handleKeyDown, handleMouseDown, loop, startGame; passes.
Qed.

Lemma initialState_ready : ready initialState.
Proof.
  split; [exact (initialState_valid Hrand) |].
  unfold initialState. fields. repeat split; lra.
Qed.

(** Every state of every run is ready for its next tick. *)
Lemma reachable_ready (s : State) : reachable s -> ready s.
Proof.
  induction 1 as [| s fuel c s' _ IH Hrun].
  - apply initialState_ready.
  - exact (run_ready fuel c s tt s' Hrun IH).
Qed.

(** The theme pass within a tick starts from the theme refs and the count of
    draws the tick started with. *)
Lemma update_theme_pass fuel dt width height (s s' : State) :
  update fuel dt width height s = Ok tt s' ->
  mode s = playing -> pauseRef s = false ->
  exists s0 s1 : State,
    themeRotation s0 = themeRotation s /\ randomCalls s0 = randomCalls s /\
    themeRotate fuel dt s0 = Ok tt s1 /\
    themeRotation s' = themeRotation s1.
Proof.
  intros H Hm Hp. unfold update in H.
  apply bind_Ok in H as (x & sx & Hg & H). unfold get in Hg.
  inversion Hg; subst x sx; clear Hg. rewrite Hm, Hp in H.
  apply bind_Ok in H as ([] & s0 & H0 & H).
  apply bind_Ok in H as ([] & s1 & H1 & H).
  exists s0, s1.
  keeps_in H0 (fun x : State =>
                 themeRotation x = themeRotation s /\ randomCalls x = randomCalls s).
  destruct K as [Eth Ecalls]; [auto |].
  pose proof (frame_after_theme _ (passStable_theme (themeRotation s1))
                fuel dt width height s1 tt s' H eq_refl) as E1.
  auto.
Qed.

(** A tick of a game under way completes from a ready state when the fuel
    covers it and the theme pass completes. *)
Lemma update_completes fuel dt width height (s : State) :
  mode s = playing -> pauseRef s = false ->
  ready s -> shortTick fuel dt ->
  (forall x : State,
      themeRotation x = themeRotation s -> randomCalls x = randomCalls s ->
      exists x', themeRotate fuel dt x = Ok tt x') ->
  exists s', update fuel dt width height s = Ok tt s'.
Proof.
  intros Hm Hp Hready Hshort Htheme. unfold update.
  unfold bind at 1, get at 1. rewrite Hm, Hp.
  destruct (total_moveShip dt width height s) as ([] & s0 & H0).
  rewrite (bind_run _ _ _ _ _ H0).
  keeps_in H0 (fun x : State =>
                 themeRotation x = themeRotation s /\ randomCalls x = randomCalls s).
  destruct K as [Eth Ecalls]; [auto |].
  keeps_in H0 (fun x : State =>
                 paced (currentThemeIdxRef x) (nextThemeIdxRef x) (spawnIntervalRef x)
                   (spawnAccumulatorRef x) (meteorSpawnAccRef x)). specialize (K Hready).
  destruct (Htheme s0 Eth Ecalls) as (s1 & H1). rewrite (bind_run _ _ _ _ _ H1).
  pose proof (themeRotate_ready fuel dt s0 tt s1 H1 K) as R1.
  destruct (total_comboDecay dt s1) as ([] & s2 & H2). rewrite (bind_run _ _ _ _ _ H2).
  keeps_in H2 (fun x : State =>
                 paced (currentThemeIdxRef x) (nextThemeIdxRef x) (spawnIntervalRef x)
                   (spawnAccumulatorRef x) (meteorSpawnAccRef x)). specialize (K0 R1).
  destruct (total_difficulty dt s2) as ([] & s3 & H3). rewrite (bind_run _ _ _ _ _ H3).
  pose proof (difficulty_ready dt s2 tt s3 H3 K0) as R3.
  destruct (spawning_total fuel dt width height s3 R3 Hshort) as (b & s4 & H4).
  rewrite (bind_run _ _ _ _ _ H4).
  pose proof (spawning_ready fuel dt width height s3 b s4 H4 R3) as R4.
  destruct (total_bossWaves b dt width s4) as ([] & s5 & H5).
  rewrite (bind_run _ _ _ _ _ H5).
  keeps_in H5 (fun x : State =>
                 paced (currentThemeIdxRef x) (nextThemeIdxRef x) (spawnIntervalRef x)
                   (spawnAccumulatorRef x) (meteorSpawnAccRef x)). specialize (K1 R4).
  destruct (events_total fuel dt width s5) as (s6 & H6);
    [apply K1 | exact Hshort |].
  rewrite (bind_run _ _ _ _ _ H6).
  destruct (total_afterEvents dt width height s6) as ([] & s' & H').
  exists s'. exact H'.
Qed.

(** Runs of ticks before and within a crossfade complete. *)
Lemma updates_stay_complete fuel width height dts : forall s : State,
  pauseRef s = false -> ready s ->
  Forall (fun dt => 0 <= dt /\ shortTick fuel dt) dts ->
  themeTransitioningRef s = false ->
  themeTimerRef s + sumOf dts <= themeDurationRef s ->
  exists s', updates fuel dts width height s = Ok tt s'.
Proof.
  induction dts as [| dt dts IH]; intros s Hp Hr Hdts Htr Hle;
    cbn [updates sumOf fold_right] in *; [eexists; reflexivity |].
  fold (sumOf dts) in *.
  inversion Hdts as [| ? ? [Hdt Hshort] Hdts']; subst.
  assert (Hsum : 0 <= sumOf dts).
  { apply sumOf_nonneg. eapply Forall_impl; [| exact Hdts']. now intros ? []. }
  assert (Hstep : exists s1 : State,
             update fuel dt width height s = Ok tt s1 /\
             pauseRef s1 = false /\ ready s1 /\
             themeTransitioningRef s1 = false /\
             themeTimerRef s1 + sumOf dts <= themeDurationRef s1).
  { destruct (mode s) eqn:Em;
      try (exists s; split; [apply update_inactive; left; congruence |];
           split; [exact Hp | split; [exact Hr | split; [exact Htr | lra]]]).
    destruct (update_completes fuel dt width height s Em Hp Hr Hshort) as (s1 & H1).
    { intros x Ex _. eexists. apply themeRotate_stays; rewrite Ex; [exact Htr | lra]. }
    exists s1. split; [exact H1 |].
    pose proof (update_toggles _ _ _ _ _ _ H1) as Ht.
    destruct (update_active _ _ _ _ _ _ H1 Em Hp) as (s0 & s0' & E0 & Hrot & E1 & _).
    rewrite themeRotate_stays in Hrot by (rewrite E0; first [exact Htr | lra]).
    inversion Hrot; subst s0'; clear Hrot. fields_in E1. rewrite E0 in E1.
    split; [rewrite Ht; exact Hp |].
    split; [exact (update_ready fuel dt width height s tt s1 H1 Hr) |].
    rewrite E1. fields. split; [exact Htr | lra]. }
  destruct Hstep as (s1 & H1 & Hp1 & Hr1 & Htr1 & Hle1).
  destruct (IH s1 Hp1 Hr1 Hdts' Htr1 Hle1) as (s' & Hrun).
  exists s'. unfold bind. rewrite H1. exact Hrun.
Qed.

Lemma updates_grow_complete fuel width height dts : forall s : State,
  pauseRef s = false -> ready s ->
  Forall (fun dt => 0 <= dt /\ shortTick fuel dt) dts ->
  themeTransitioningRef s = true ->
  themeBlendRef s + sumOf dts / 4 < 1 ->
  exists s', updates fuel dts width height s = Ok tt s'.
Proof.
  induction dts as [| dt dts IH]; intros s Hp Hr Hdts Htr Hlt;
    cbn [updates sumOf fold_right] in *; [eexists; reflexivity |].
  fold (sumOf dts) in *.
  inversion Hdts as [| ? ? [Hdt Hshort] Hdts']; subst.
  assert (Hsum : 0 <= sumOf dts).
  { apply sumOf_nonneg. eapply Forall_impl; [| exact Hdts']. now intros ? []. }
  assert (Hsplit : (dt + sumOf dts) / 4 == dt / 4 + sumOf dts / 4) by field.
  assert (Hq : 0 <= sumOf dts / 4).
  { setoid_replace (sumOf dts / 4) with (sumOf dts * (1 # 4)) by (now field). lra. }
  assert (Hd : 0 <= dt / 4).
  { setoid_replace (dt / 4) with (dt * (1 # 4)) by (now field). lra. }
  assert (Hstep : exists s1 : State,
             update fuel dt width height s = Ok tt s1 /\
             pauseRef s1 = false /\ ready s1 /\
             themeTransitioningRef s1 = true /\
             themeBlendRef s1 + sumOf dts / 4 < 1).
  { destruct (mode s) eqn:Em;
      try (exists s; split; [apply update_inactive; left; congruence |];
           split; [exact Hp | split; [exact Hr | split; [exact Htr | lra]]]).
    destruct (update_completes fuel dt width height s Em Hp Hr Hshort) as (s1 & H1).
    { intros x Ex _. eexists. apply themeRotate_grows; rewrite Ex; [exact Htr | lra]. }
    exists s1. split; [exact H1 |].
    pose proof (update_toggles _ _ _ _ _ _ H1) as Ht.
    destruct (update_active _ _ _ _ _ _ H1 Em Hp) as (s0 & s0' & E0 & Hrot & E1 & _).
    rewrite themeRotate_grows in Hrot by (rewrite E0; first [exact Htr | lra]).
    inversion Hrot; subst s0'; clear Hrot. fields_in E1. rewrite E0 in E1.
    split; [rewrite Ht; exact Hp |].
    split; [exact (update_ready fuel dt width height s tt s1 H1 Hr) |].
    rewrite E1. fields. split; [exact Htr | lra]. }
  destruct Hstep as (s1 & H1 & Hp1 & Hr1 & Htr1 & Hlt1).
  destruct (IH s1 Hp1 Hr1 Hdts' Htr1 Hlt1) as (s' & Hrun).
  exists s'. unfold bind. rewrite H1. exact Hrun.
Qed.

(** C8, amended. A theme stays active, not transitioning, while the theme
    timer has not passed 35 seconds; the tick that passes them starts a
    transition: it resets the timer and puts a fresh draw, other than the
    current index, in place of the next index held until then; the blend then
    grows by dt/4 each tick, that is linearly over 4 seconds; the tick that
    brings it to 1 commits: the current index becomes the next index drawn
    when the transition began, and a new next index, different from the new
    current one, is drawn.  First for the theme pass alone, which completes
    whenever a draw can succeed; then for whole ticks of a game under way,
    which complete from a ready state when the fuel covers them: over any
    run of ticks the timer and the blend add up the elapsed time, and the
    tick that crosses a threshold begins or commits. *)
Theorem theme_rotation fuel width height (s : State) :
  themeDurationRef s = 35 ->
  (forall dt,
     (themeTransitioningRef s = false ->
      themeTimerRef s + dt <= 35 ->
      exists s', themeRotate fuel dt s = Ok tt s' /\
        themeTransitioningRef s' = false /\
        themeTimerRef s' = themeTimerRef s + dt /\
        currentThemeIdxRef s' = currentThemeIdxRef s /\
        nextThemeIdxRef s' = nextThemeIdxRef s)
     /\
     (themeTransitioningRef s = false ->
      35 < themeTimerRef s + dt ->
      dt < 4 ->
      pickable fuel (currentThemeIdxRef s) (randomCalls s) ->
      exists s', themeRotate fuel dt s = Ok tt s' /\
        themeTransitioningRef s' = true /\
        themeBlendRef s' == dt / 4 /\
        themeTimerRef s' = 0 /\
        currentThemeIdxRef s' = currentThemeIdxRef s /\
        nextThemeIdxRef s' <> currentThemeIdxRef s' /\
        drawn fuel (randomCalls s) (nextThemeIdxRef s'))
     /\
     (themeTransitioningRef s = true ->
      themeBlendRef s + dt / 4 < 1 ->
      exists s', themeRotate fuel dt s = Ok tt s' /\
        themeTransitioningRef s' = true /\
        themeBlendRef s' = themeBlendRef s + dt / 4 /\
        currentThemeIdxRef s' = currentThemeIdxRef s /\
        nextThemeIdxRef s' = nextThemeIdxRef s)
     /\
     (themeTransitioningRef s = true ->
      1 <= themeBlendRef s + dt / 4 ->
      pickable fuel (nextThemeIdxRef s) (randomCalls s) ->
      exists s', themeRotate fuel dt s = Ok tt s' /\
        themeTransitioningRef s' = false /\
        themeBlendRef s' = 0 /\
        currentThemeIdxRef s' = nextThemeIdxRef s /\
        nextThemeIdxRef s' <> currentThemeIdxRef s' /\
        drawn fuel (randomCalls s) (nextThemeIdxRef s')))
  /\
  (forall dts,
     pauseRef s = false -> ready s ->
     Forall (fun dt => 0 <= dt /\ shortTick fuel dt) dts ->
     (themeTransitioningRef s = false ->
      themeTimerRef s + sumOf dts <= 35 ->
      exists s' : State,
        updates fuel dts width height s = Ok tt s' /\
        (mode s' = playing ->
         themeTransitioningRef s' = false /\
         themeTimerRef s' == themeTimerRef s + sumOf dts /\
         currentThemeIdxRef s' = currentThemeIdxRef s /\
         nextThemeIdxRef s' = nextThemeIdxRef s))
     /\
     (themeTransitioningRef s = true ->
      themeBlendRef s + sumOf dts / 4 < 1 ->
      exists s' : State,
        updates fuel dts width height s = Ok tt s' /\
        (mode s' = playing ->
         themeTransitioningRef s' = true /\
         themeBlendRef s' == themeBlendRef s + sumOf dts / 4 /\
         currentThemeIdxRef s' = currentThemeIdxRef s /\
         nextThemeIdxRef s' = nextThemeIdxRef s)))
  /\
  (forall dt,
     mode s = playing -> pauseRef s = false -> ready s -> shortTick fuel dt ->
     (themeTransitioningRef s = false ->
      35 < themeTimerRef s + dt ->
      dt < 4 ->
      pickable fuel (currentThemeIdxRef s) (randomCalls s) ->
      exists s' : State,
        update fuel dt width height s = Ok tt s' /\
        themeTransitioningRef s' = true /\
        themeBlendRef s' == dt / 4 /\
        themeTimerRef s' = 0 /\
        currentThemeIdxRef s' = currentThemeIdxRef s /\
        nextThemeIdxRef s' <> currentThemeIdxRef s' /\
        drawn fuel (randomCalls s) (nextThemeIdxRef s'))
     /\
     (themeTransitioningRef s = true ->
      1 <= themeBlendRef s + dt / 4 ->
      pickable fuel (nextThemeIdxRef s) (randomCalls s) ->
      exists s' : State,
        update fuel dt width height s = Ok tt s' /\
        themeTransitioningRef s' = false /\
        themeBlendRef s' = 0 /\
        currentThemeIdxRef s' = nextThemeIdxRef s /\
        nextThemeIdxRef s' <> currentThemeIdxRef s' /\
        drawn fuel (randomCalls s) (nextThemeIdxRef s'))).
Proof.
  intros Hdur. split; [| split].
  - intros dt. repeat split.
    + intros Htr Hle. eexists. split.
      * apply themeRotate_stays; [assumption | rewrite Hdur; assumption].
      * fields. auto.
    + intros Htr Hgt Hdt Hpick.
      assert (Hwp : wp (themeRotate fuel dt)
                      (fun _ s' => themeTransitioningRef s' = true /\
                                   themeBlendRef s' == dt / 4 /\
                                   themeTimerRef s' = 0 /\
                                   currentThemeIdxRef s' = currentThemeIdxRef s /\
                                   nextThemeIdxRef s' <> currentThemeIdxRef s') s).
      { apply wp_themeRotate_begins; try assumption; [rewrite Hdur; assumption |].
        intros s' next Hnext Hrot _ _ _. rewrite Hrot. fields.
        repeat split; try assumption. ring. }
      apply wp_Ok in Hwp as ([] & s' & Hrun & A & B & C & D & E). exists s'.
      repeat (split; [assumption |]).
      apply (themeRotate_redraws _ _ _ _ Hrun Htr); [rewrite Hdur |]; assumption.
    + intros Htr Hlt. eexists. split.
      * apply themeRotate_grows; assumption.
      * fields. auto.
    + intros Htr Hge Hpick.
      assert (Hwp : wp (themeRotate fuel dt)
                      (fun _ s' => themeTransitioningRef s' = false /\
                                   themeBlendRef s' = 0 /\
                                   currentThemeIdxRef s' = nextThemeIdxRef s /\
                                   nextThemeIdxRef s' <> currentThemeIdxRef s') s).
      { apply wp_themeRotate_commits; try assumption.
        intros s' next Hnext Hrot _ _ _. rewrite Hrot. fields. auto. }
      apply wp_Ok in Hwp as ([] & s' & Hrun & A & B & C & D). exists s'.
      repeat (split; [assumption |]).
      exact (themeRotate_draws _ _ _ _ Hrun Htr Hge).
  - intros dts Hp Hr Hdts.
    assert (Hpos : Forall (fun dt => 0 <= dt) dts).
    { eapply Forall_impl; [| exact Hdts]. now intros ? []. }
    split.
    + intros Htr Hle. rewrite <- Hdur in Hle.
      destruct (updates_stay_complete fuel width height dts s Hp Hr Hdts Htr Hle)
        as (s' & Hrun).
      exists s'. split; [exact Hrun |]. intros Hm.
      destruct (updates_stay _ _ _ _ _ _ Hrun Hm Hp Hpos Htr Hle) as (A & B & _ & C & D).
      auto.
    + intros Htr Hlt.
      destruct (updates_grow_complete fuel width height dts s Hp Hr Hdts Htr Hlt)
        as (s' & Hrun).
      exists s'. split; [exact Hrun |]. intros Hm.
      exact (updates_grow _ _ _ _ _ _ Hrun Hm Hp Hpos Htr Hlt).
  - intros dt Hm Hp Hr Hshort. split.
    + intros Htr Hgt Hdt Hpick.
      destruct (update_completes fuel dt width height s Hm Hp Hr Hshort) as (s' & Hrun).
      { intros x Ex Ec.
        assert (Hwp : wp (themeRotate fuel dt) (fun _ _ => True) x).
        { apply wp_themeRotate_begins; rewrite ?Ex, ?Ec, ?Hdur; auto. }
        apply wp_Ok in Hwp as ([] & x' & Hx & _). eauto. }
      exists s'. split; [exact Hrun |].
      destruct (update_theme_pass _ _ _ _ _ _ Hrun Hm Hp)
        as (s0 & s1 & E0 & Ec & Hrot & E1).
      assert (Htr0 : themeTransitioningRef s0 = false) by (rewrite E0; exact Htr).
      assert (Hgt0 : themeDurationRef s0 < themeTimerRef s0 + dt)
        by (rewrite E0, Hdur; exact Hgt).
      pose proof (themeRotate_redraws _ _ _ _ Hrot Htr0 Hgt0 Hdt) as Hd.
      destruct (themeRotate_begins _ _ _ _ Hrot Htr0 Hgt0 Hdt) as (next & Hnext & Hth).
      rewrite Hth, Ec in Hd. fields_in Hd.
      rewrite E0 in Hnext, Hth. rewrite E1, Hth. fields.
      repeat split; try assumption. ring.
    + intros Htr Hge Hpick.
      destruct (update_completes fuel dt width height s Hm Hp Hr Hshort) as (s' & Hrun).
      { intros x Ex Ec.
        assert (Hwp : wp (themeRotate fuel dt) (fun _ _ => True) x).
        { apply wp_themeRotate_commits; rewrite ?Ex, ?Ec; auto. }
        apply wp_Ok in Hwp as ([] & x' & Hx & _). eauto. }
      exists s'. split; [exact Hrun |].
      destruct (update_theme_pass _ _ _ _ _ _ Hrun Hm Hp)
        as (s0 & s1 & E0 & Ec & Hrot & E1).
      assert (Htr0 : themeTransitioningRef s0 = true) by (rewrite E0; exact Htr).
      assert (Hge0 : 1 <= themeBlendRef s0 + dt / 4) by (rewrite E0; exact Hge).
      pose proof (themeRotate_draws _ _ _ _ Hrot Htr0 Hge0) as Hd.
      destruct (themeRotate_commits _ _ _ _ Hrot Htr0 Hge0) as (next & Hnext & Hth).
      rewrite Hth, Ec in Hd. fields_in Hd.
      rewrite E0 in Hnext, Hth. rewrite E1, Hth. fields. auto.
Qed.

(** The theme pass of a tick shorter than the crossfade completes whenever
    the draws it may make can succeed. *)
Lemma themeRotate_total fuel dt (s : State) :
  dt < 4 ->
  pickable fuel (currentThemeIdxRef s) (randomCalls s) ->
  pickable fuel (nextThemeIdxRef s) (randomCalls s) ->
  exists s', themeRotate fuel dt s = Ok tt s'.
Proof.
  intros Hdt Hcur Hnext. destruct (themeTransitioningRef s) eqn:Htr.
  - destruct (Qlt_le_dec (themeBlendRef s + dt / 4) 1) as [Hlt | Hge].
    + eexists. apply themeRotate_grows; assumption.
    + assert (Hwp : wp (themeRotate fuel dt) (fun _ _ => True) s)
        by (apply wp_themeRotate_commits; auto).
      apply wp_Ok in Hwp as ([] & s' & Hrun & _). eauto.
  - destruct (Qlt_le_dec (themeDurationRef s) (themeTimerRef s + dt)) as [Hgt | Hle].
    + assert (Hwp : wp (themeRotate fuel dt) (fun _ _ => True) s)
        by (apply wp_themeRotate_begins; auto).
      apply wp_Ok in Hwp as ([] & s' & Hrun & _). eauto.
    + eexists. apply themeRotate_stays; assumption.
Qed.


End Ticks.

(** ** A session that lasts through a theme transition *)

Section Play.

Context {host : Host}.
Hypothesis Hrand : randomInRange.

Lemma runAll_then fuel cs cs' : forall s s1 : State,
  runAll fuel cs s = Ok tt s1 ->
  runAll fuel (cs ++ cs') s = runAll fuel cs' s1.
Proof.
  induction cs as [| c cs IH]; intros s s1 H; cbn [runAll app] in *.
  - inversion H. reflexivity.
  - apply bind_Ok in H as ([] & s0 & H0 & H).
    unfold bind at 1. rewrite H0. exact (IH s0 s1 H).
Qed.

(** Enter starts the game from the menu and after a game over; the theme
    rotation and the toggles are as they were. *)
Lemma enter_restarts fuel env k (s : State) :
  toLowerCase k = "enter"%string -> mode s <> playing ->
  exists s' : State,
    run fuel (KeyDown env (KeyboardEvent.mk k false)) s = Ok tt s' /\
    mode s' = playing /\ themeRotation s' = themeRotation s /\
    toggles s' = toggles s.
Proof.
  intros Hk Hm. cbn [run]. unfold handleKeyDown.
  cbn [KeyboardEvent.repeat KeyboardEvent.key]. rewrite Hk.
  unfold bind at 1, modify at 1. unfold bind at 1, get at 1. fields.
  unfold isKey. cbn [String.eqb Ascii.eqb Bool.eqb orb andb].
  destruct (mode s); [| congruence |];
    unfold startGame, resetGame, bind, modify, ret; destruct (containerRef env);
    eexists; (split; [reflexivity |]); fields; auto.
Qed.

Lemma resume fuel env k (s : State) :
  toLowerCase k = "enter"%string -> pauseRef s = false -> ready s ->
  exists cs (s' : State),
    (cs = [] \/ cs = [KeyDown env (KeyboardEvent.mk k false)]) /\
    runAll fuel cs s = Ok tt s' /\
    mode s' = playing /\ themeRotation s' = themeRotation s /\
    pauseRef s' = false /\ ready s'.
Proof.
  intros Hk Hp Hr. destruct (mode s) eqn:Em.
  2: { exists [], s. split; [now left |]. split; [reflexivity |]. auto. }
  all: destruct (enter_restarts fuel env k s Hk) as (s' & Hrun & Hm & Hth & Ht);
    [congruence |];
    exists [KeyDown env (KeyboardEvent.mk k false)], s';
    (split; [now right |]); cbn [runAll]; unfold bind; rewrite Hrun;
    (split; [reflexivity |]); (split; [exact Hm |]); (split; [exact Hth |]);
    (split; [rewrite Ht; exact Hp |]);
    exact (run_ready Hrand fuel _ s tt s' Hrun Hr).
Qed.

(** A tick of a game under way, then Enter when the tick ended the game. *)
Lemma play_on fuel dt width height env k (s : State) :
  toLowerCase k = "enter"%string ->
  mode s = playing -> pauseRef s = false -> ready s -> shortTick fuel dt ->
  (forall x : State,
      themeRotation x = themeRotation s -> randomCalls x = randomCalls s ->
      exists x', themeRotate fuel dt x = Ok tt x') ->
  exists cs (s0 s1 s' : State),
    (cs = [Tick dt width height] \/
     cs = [Tick dt width height; KeyDown env (KeyboardEvent.mk k false)]) /\
    runAll fuel cs s = Ok tt s' /\
    themeRotation s0 = themeRotation s /\ randomCalls s0 = randomCalls s /\
    themeRotate fuel dt s0 = Ok tt s1 /\
    themeRotation s' = themeRotation s1 /\
    mode s' = playing /\ pauseRef s' = false /\ ready s'.
Proof.
  intros Hk Hm Hp Hr Hshort Htheme.
  destruct (update_completes Hrand fuel dt width height s Hm Hp Hr Hshort Htheme)
    as (s1 & H1).
  destruct (update_theme_pass _ _ _ _ _ _ H1 Hm Hp) as (x0 & x1 & E0 & Ec & Hrot & E1).
  pose proof (update_toggles _ _ _ _ _ _ H1) as Ht.
  assert (Hp1 : pauseRef s1 = false) by (rewrite Ht; exact Hp).
  assert (Hr1 : ready s1)
    by exact (run_ready Hrand fuel (Tick dt width height) s tt s1 H1 Hr).
  destruct (resume fuel env k s1 Hk Hp1 Hr1) as (cs & s' & Hcs & Hrun & Hm' & Hth & Hp' & Hr').
  exists (Tick dt width height :: cs), x0, x1, s'.
  split; [destruct Hcs as [-> | ->]; auto |].
  split; [cbn [runAll run]; unfold bind at 1; rewrite H1; exact Hrun |].
  rewrite Hth. auto 10.
Qed.

Hypothesis Henter : toLowerCase "Enter" = "enter"%string.

(** Play goes on, tick after tick of 25 ms, while the theme timer has not
    passed the duration. *)
Lemma stay_phase (n : nat) : forall (s : State) (t : Q),
  mode s = playing -> pauseRef s = false -> ready s ->
  themeTransitioningRef s = false -> themeDurationRef s = 35 ->
  themeTimerRef s == t ->
  t + inject_Z (Z.of_nat n) * 0.025 <= 35 ->
  exists cs (s' : State),
    Forall sessionCommand cs /\ runAll 20 cs s = Ok tt s' /\
    mode s' = playing /\ pauseRef s' = false /\ ready s' /\
    themeTransitioningRef s' = false /\ themeDurationRef s' = 35 /\
    currentThemeIdxRef s' = currentThemeIdxRef s /\
    nextThemeIdxRef s' = nextThemeIdxRef s /\
    themeTimerRef s' == t + inject_Z (Z.of_nat n) * 0.025.
Proof.
  induction n as [| n IH]; intros s t Hm Hp Hr Htr Hdur Ht Hle.
  - exists [], s. split; [constructor |]. split; [reflexivity |].
    repeat (split; [assumption || reflexivity |]).
    rewrite Ht. change (inject_Z (Z.of_nat 0)) with 0. ring.
  - rewrite inject_nat_S in Hle.
    assert (Hn : 0 <= inject_Z (Z.of_nat n)).
    { change 0 with (inject_Z 0). rewrite <- Zle_Qle. lia. }
    destruct (play_on 20 0.025 800 600 sampleEnv "Enter" s Henter Hm Hp Hr)
      as (cs1 & x0 & x1 & s1 & Hcs1 & Hrun1 & E0 & _ & Hrot & E1 & Hm1 & Hp1 & Hr1).
    { split; vm_compute; discriminate. }
    { intros x Ex _. eexists. apply themeRotate_stays; rewrite Ex;
        [exact Htr | rewrite Hdur, Ht; nra]. }
    rewrite themeRotate_stays in Hrot
      by (rewrite E0; first [exact Htr | rewrite Hdur, Ht; nra]).
    inversion Hrot; subst x1; clear Hrot. fields_in E1. rewrite E0 in E1.
    destruct (IH s1 (t + 0.025) Hm1 Hp1 Hr1) as (cs2 & s2 & Hcs2 & Hrun2 & Hrest).
    { rewrite E1. exact Htr. }
    { rewrite E1. exact Hdur. }
    { rewrite E1. fields. rewrite Ht. reflexivity. }
    { nra. }
    exists (cs1 ++ cs2), s2.
    split.
    { apply Forall_app. split; [| exact Hcs2].
      destruct Hcs1 as [-> | ->];
        [constructor; [now left | constructor]
        | constructor; [now left | constructor; [now right | constructor]]]. }
    split; [rewrite (runAll_then _ _ _ _ _ Hrun1); exact Hrun2 |].
    destruct Hrest as (A & B & C & D & E & F & G & H).
    rewrite E1 in F, G. fields_in F. fields_in G.
    repeat (split; [assumption |]).
    rewrite H, inject_nat_S. ring.
Qed.

(** Play goes on within a crossfade while the blend stays below 1. *)
Lemma grow_phase (n : nat) : forall (s : State) (b : Q),
  mode s = playing -> pauseRef s = false -> ready s ->
  themeTransitioningRef s = true ->
  themeBlendRef s == b ->
  b + inject_Z (Z.of_nat n) * (1 # 160) < 1 ->
  exists cs (s' : State),
    Forall sessionCommand cs /\ runAll 20 cs s = Ok tt s' /\
    mode s' = playing /\ pauseRef s' = false /\ ready s' /\
    themeTransitioningRef s' = true /\
    currentThemeIdxRef s' = currentThemeIdxRef s /\
    nextThemeIdxRef s' = nextThemeIdxRef s /\
    themeBlendRef s' == b + inject_Z (Z.of_nat n) * (1 # 160).
Proof.
  assert (Hq : 0.025 / 4 == 1 # 160) by reflexivity.
  induction n as [| n IH]; intros s b Hm Hp Hr Htr Hb Hlt.
  - exists [], s. split; [constructor |]. split; [reflexivity |].
    repeat (split; [assumption || reflexivity |]).
    rewrite Hb. change (inject_Z (Z.of_nat 0)) with 0. ring.
  - rewrite inject_nat_S in Hlt.
    assert (Hn : 0 <= inject_Z (Z.of_nat n)).
    { change 0 with (inject_Z 0). rewrite <- Zle_Qle. lia. }
    destruct (play_on 20 0.025 800 600 sampleEnv "Enter" s Henter Hm Hp Hr)
      as (cs1 & x0 & x1 & s1 & Hcs1 & Hrun1 & E0 & _ & Hrot & E1 & Hm1 & Hp1 & Hr1).
    { split; vm_compute; discriminate. }
    { intros x Ex _. eexists. apply themeRotate_grows; rewrite Ex;
        [exact Htr | rewrite Hq, Hb; nra]. }
    rewrite themeRotate_grows in Hrot
      by (rewrite E0; first [exact Htr | rewrite Hq, Hb; nra]).
    inversion Hrot; subst x1; clear Hrot. fields_in E1. rewrite E0 in E1.
    destruct (IH s1 (b + (1 # 160)) Hm1 Hp1 Hr1) as (cs2 & s2 & Hcs2 & Hrun2 & Hrest).
    { rewrite E1. exact Htr. }
    { rewrite E1. fields. rewrite Hq, Hb. reflexivity. }
    { nra. }
    exists (cs1 ++ cs2), s2.
    split.
    { apply Forall_app. split; [| exact Hcs2].
      destruct Hcs1 as [-> | ->];
        [constructor; [now left | constructor]
        | constructor; [now left | constructor; [now right | constructor]]]. }
    split; [rewrite (runAll_then _ _ _ _ _ Hrun1); exact Hrun2 |].
    destruct Hrest as (A & B & C & D & F & G & H).
    rewrite E1 in F, G. fields_in F. fields_in G.
    repeat (split; [assumption |]).
    rewrite H, inject_nat_S. ring.
Qed.

End Play.

(** The stream [redrawRandom]: every draw is in range and picks theme 0, 3
    or 4; two draws in a row pick different themes, so that a draw of the
    next index always completes. *)
Lemma redrawRandom_range : randomInRange (host := redrawHost).
Proof.
  intros [| n]; cbn [Math_random redrawHost redrawRandom];
    [| destruct (Nat.even (S n))]; split; (discriminate || reflexivity).
Qed.

Lemma redraw_index n :
  floorZ (@Math_random redrawHost n * inject_Z THEMES_length) = 0%Z \/
  floorZ (@Math_random redrawHost n * inject_Z THEMES_length) = 3%Z \/
  floorZ (@Math_random redrawHost n * inject_Z THEMES_length) = 4%Z.
Proof.
  destruct n as [| n]; cbn [Math_random redrawHost redrawRandom];
    [left; reflexivity |].
  destruct (Nat.even (S n)); [right; left | right; right]; reflexivity.
Qed.

Lemma redraw_alternates n :
  floorZ (@Math_random redrawHost n * inject_Z THEMES_length) <>
  floorZ (@Math_random redrawHost (n + 1) * inject_Z THEMES_length).
Proof.
  destruct n as [| n]; [vm_compute; discriminate |].
  replace (S n + 1)%nat with (S (S n)) by lia.
  cbn [Math_random redrawHost redrawRandom].
  change (Nat.even (S (S n))) with (Nat.even n).
  rewrite Nat.even_succ, <- Nat.negb_even.
  destruct (Nat.even n); vm_compute; discriminate.
Qed.

Lemma redraw_pickable exclude n : pickable (host := redrawHost) 20 exclude n.
Proof.
  destruct (Z.eq_dec
              (floorZ (@Math_random redrawHost n * inject_Z THEMES_length))
              exclude) as [E | E].
  - exists 1%nat. split; [lia |]. rewrite <- E. intros H.
    exact (redraw_alternates n (eq_sym H)).
  - exists 0%nat. split; [lia |]. now rewrite Nat.add_0_r.
Qed.

(** C8, as stated, fails on a session of 25 ms ticks, with Enter pressed
    whenever a game is over, on the draws of [redrawRandom]: after 35
    seconds of play the next theme index is 1; the tick that begins the
    transition draws another next index, 3 or 4; the crossfade follows, and
    at the commit the index that becomes current is the one drawn when the
    transition began, not the index that was next before it. *)
Lemma next_theme_is_redrawn :
  exists (before during : list Command) (s0 s1 s1' s2 : State),
    Forall sessionCommand before /\ Forall sessionCommand during /\
    runAll (host := redrawHost) 20 before (initialState (host := redrawHost)) = Ok tt s0 /\
    mode s0 = playing /\ themeTransitioningRef s0 = false /\
    themeTimerRef s0 == 35 /\ nextThemeIdxRef s0 = 1%Z /\
    update (host := redrawHost) 20 0.025 800 600 s0 = Ok tt s1 /\
    themeTransitioningRef s1 = true /\ nextThemeIdxRef s1 <> 1%Z /\
    runAll (host := redrawHost) 20 during s1 = Ok tt s1' /\
    mode s1' = playing /\ themeTransitioningRef s1' = true /\
    update (host := redrawHost) 20 0.025 800 600 s1' = Ok tt s2 /\
    themeTransitioningRef s2 = false /\
    currentThemeIdxRef s2 = nextThemeIdxRef s1 /\
    currentThemeIdxRef s2 <> 1%Z.
Proof.
  pose proof redrawRandom_range as Hrand.
  assert (Henter : @toLowerCase redrawHost "Enter" = "enter"%string)
    by reflexivity.
  assert (Hshort : shortTick 20 0.025) by (split; vm_compute; discriminate).
  (* the game is started from the menu *)
  destruct (enter_restarts (host := redrawHost) 20 sampleEnv "Enter"
              (initialState (host := redrawHost)) Henter)
    as (sa & Hrun_a & Hm_a & Hth_a & Ht_a); [discriminate |].
  assert (Hr_a : ready sa)
    by exact (run_ready Hrand 20 _ _ tt sa Hrun_a (initialState_ready Hrand)).
  (* 1400 ticks of play *)
  destruct (stay_phase Hrand Henter 1400 sa 0 Hm_a) as
    (cs0 & s0 & Hcs0 & Hrun0 & Hm0 & Hp0 & Hr0 & Htr0 & Hdur0 & Hcur0 & Hnext0 & Htimer0);
    try (rewrite ?Ht_a, ?Hth_a; reflexivity); [exact Hr_a | vm_compute; discriminate |].
  assert (Htimer : themeTimerRef s0 == 35) by (rewrite Htimer0; reflexivity).
  rewrite Hth_a in Hcur0, Hnext0.
  change (currentThemeIdxRef s0 = 0%Z) in Hcur0.
  change (nextThemeIdxRef s0 = 1%Z) in Hnext0.
  (* the tick that begins the transition *)
  destruct (update_completes Hrand 20 0.025 800 600 s0 Hm0 Hp0 Hr0 Hshort) as (s1 & Hrun1).
  { intros x Ex Ec.
    assert (Hwp : wp (themeRotate (host := redrawHost) 20 0.025) (fun _ _ => True) x).
    { apply wp_themeRotate_begins; rewrite ?Ex; auto using redraw_pickable.
      - rewrite Hdur0, Htimer. reflexivity.
      - reflexivity. }
    apply wp_Ok in Hwp as ([] & x' & Hx & _). eauto. }
  destruct (update_theme_pass _ _ _ _ _ _ Hrun1 Hm0 Hp0) as (x0 & x1 & E0 & _ & Hrot & E1).
  assert (Hgt : themeDurationRef x0 < themeTimerRef x0 + 0.025)
    by (rewrite E0, Hdur0, Htimer; reflexivity).
  assert (Htrx : themeTransitioningRef x0 = false) by (rewrite E0; exact Htr0).
  pose proof (themeRotate_redraws _ _ _ _ Hrot Htrx Hgt eq_refl) as (j & _ & Hdrawn).
  destruct (themeRotate_begins _ _ _ _ Hrot Htrx Hgt eq_refl) as (next & Hne & Hth1).
  rewrite <- E1 in Hth1. rewrite E0 in Hne, Hth1. rewrite Hcur0 in Hne, Hth1.
  rewrite Hdur0 in Hth1.
  rewrite <- E1, Hth1 in Hdrawn. fields_in Hdrawn.
  assert (Hnext : next = 3%Z \/ next = 4%Z).
  { destruct (redraw_index (randomCalls x0 + j)) as [H | H];
      rewrite <- Hdrawn in H; [congruence | exact H]. }
  pose proof (update_toggles _ _ _ _ _ _ Hrun1) as Ht1.
  assert (Hp1 : pauseRef s1 = false) by (rewrite Ht1; exact Hp0).
  assert (Hr1 : ready s1)
    by exact (run_ready Hrand 20 (Tick 0.025 800 600) s0 tt s1 Hrun1 Hr0).
  (* the crossfade *)
  destruct (resume Hrand 20 sampleEnv "Enter" s1 Henter Hp1 Hr1)
    as (cs1 & s1a & Hcs1 & Hrun1a & Hm1a & Hth1a & Hp1a & Hr1a).
  destruct (grow_phase Hrand Henter 158 s1a (1 # 160) Hm1a Hp1a Hr1a)
    as (cs2 & s1' & Hcs2 & Hrun2 & Hm2 & Hp2 & Hr2 & Htr2 & Hcur2 & Hnext2 & Hblend2);
    try (rewrite Hth1a, Hth1; reflexivity); [vm_compute; reflexivity |].
  rewrite Hth1a, Hth1 in Hcur2, Hnext2. fields_in Hcur2. fields_in Hnext2.
  (* the tick that commits *)
  assert (Hge : 1 <= themeBlendRef s1' + 0.025 / 4) by (rewrite Hblend2; vm_compute; discriminate).
  destruct (update_completes Hrand 20 0.025 800 600 s1' Hm2 Hp2 Hr2 Hshort) as (s2 & Hrun3).
  { intros x Ex Ec.
    assert (Hwp : wp (themeRotate (host := redrawHost) 20 0.025) (fun _ _ => True) x).
    { apply wp_themeRotate_commits; rewrite ?Ex; auto using redraw_pickable. }
    apply wp_Ok in Hwp as ([] & x' & Hx & _). eauto. }
  destruct (update_theme_pass _ _ _ _ _ _ Hrun3 Hm2 Hp2) as (y0 & y1 & F0 & _ & Hrot3 & F1).
  assert (Htry : themeTransitioningRef y0 = true) by (rewrite F0; exact Htr2).
  assert (Hgey : 1 <= themeBlendRef y0 + 0.025 / 4) by (rewrite F0; exact Hge).
  destruct (themeRotate_commits _ _ _ _ Hrot3 Htry Hgey) as (next' & _ & Hth3).
  rewrite <- F1 in Hth3. rewrite F0 in Hth3.
  exists (KeyDown sampleEnv enterKey :: cs0), (cs1 ++ cs2), s0, s1, s1', s2.
  split; [constructor; [now right | exact Hcs0] |].
  split.
  { apply Forall_app. split; [| exact Hcs2].
    destruct Hcs1 as [-> | ->]; [constructor | constructor; [now right | constructor]]. }
  split; [cbn [runAll]; unfold bind at 1; unfold enterKey; rewrite Hrun_a; exact Hrun0 |].
  split; [exact Hm0 |]. split; [exact Htr0 |]. split; [exact Htimer |].
  split; [exact Hnext0 |]. split; [exact Hrun1 |].
  split; [rewrite Hth1; reflexivity |].
  split; [rewrite Hth1; fields; destruct Hnext as [-> | ->]; discriminate |].
  split; [rewrite (runAll_then _ _ _ _ _ Hrun1a); exact Hrun2 |].
  split; [exact Hm2 |]. split; [exact Htr2 |]. split; [exact Hrun3 |].
  rewrite Hth3, Hnext2, Hth1. fields.
  split; [reflexivity |]. split; [reflexivity |].
  destruct Hnext as [-> | ->]; discriminate.
Qed.

(** ** Instances of the further properties *)

Lemma ship_stays_in_canvas_witness :
  exists s',
    update (host := sampleHost) 20 (1 / 60) 800 600
      (set_pressedKeysRef ["d"%string] playingState) = Ok tt s' /\
    inBounds 800 600 (rocketRef s') /\ Rocket.width (rocketRef s') = 48.
Proof.
  assert (R : exists s', update (host := sampleHost) 20 (1 / 60) 800 600
                           (set_pressedKeysRef ["d"%string] playingState) = Ok tt s')
    by (vm_compute; eexists; reflexivity).
  destruct R as [s' R]. exists s'. split; [exact R |].
  destruct (ship_stays_in_canvas (host := sampleHost) 20 (1 / 60) 800 600 _ s' R
              eq_refl eq_refl ltac:(vm_compute; discriminate)
              ltac:(vm_compute; discriminate)) as (A & B & _).
  split; [exact A | exact B].
Defined.

Lemma clamp_range_witness : clamp 7 0 5 == 5 /\ clamp 3 0 5 == 3 /\ clamp 3 5 0 == 5.
Proof.
  destruct (clamp_range 7 0 5) as (_ & _ & _ & A & _).
  destruct (clamp_range 3 0 5) as (_ & B & _).
  destruct (clamp_range 3 5 0) as (_ & _ & _ & _ & C).
  split; [apply A; discriminate |]. split; [apply B; discriminate | apply C; discriminate].
Defined.

Lemma circle_hits_rect_witness :
  rectCircleCollide 0 0 10 10 5 5 1 = true /\ -1 <= 5 /\ 5 <= 0 + 10 + 1.
Proof.
  destruct (circle_hits_rect 0 0 10 10 5 5 1) as [A B].
  assert (H : rectCircleCollide 0 0 10 10 5 5 1 = true)
    by (apply A; discriminate).
  split; [exact H |].
  destruct B as (B1 & B2 & _); [discriminate | discriminate | discriminate | exact H |].
  split; [exact B1 | exact B2].
Defined.

Lemma rect_overlap_symmetric_witness :
  rectRectOverlap 0 0 10 10 10 0 5 5 = false /\ rectRectOverlap 0 0 10 10 0 0 10 10 = true.
Proof.
  destruct (rect_overlap_symmetric 0 0 10 10 10 0 5 5) as (_ & A & _ & B).
  split; [apply A; discriminate | apply B; reflexivity].
Defined.

Lemma key_down_then_up_witness :
  exists s1,
    handleKeyDown (host := sampleHost) 20 sampleEnv (KeyboardEvent.mk "D" false) playingState
      = Ok tt s1 /\
    has "d" (pressedKeysRef s1) = true /\
    exists s2,
      handleKeyUp (host := sampleHost) (KeyboardEvent.mk "D" false) s1 = Ok tt s2 /\
      has "d" (pressedKeysRef s2) = false.
Proof.
  assert (R : exists s1, handleKeyDown (host := sampleHost) 20 sampleEnv
                           (KeyboardEvent.mk "D" false) playingState = Ok tt s1)
    by (vm_compute; eexists; reflexivity).
  destruct R as [s1 R]. exists s1. split; [exact R |].
  destruct (key_down_then_up (host := sampleHost) 20 sampleEnv "D" playingState s1 R)
    as (A & _ & B).
  split; [exact A |].
  destruct (B false) as (s2 & R2 & C & _). exists s2. split; [exact R2 | exact C].
Defined.

Lemma frames_outside_play_witness :
  exists s',
    runAll (host := sampleHost) 20 (map (Frame sampleCanvas) [0; 16; 32])
      (set_pauseRef true playingState) = Ok tt s' /\
    core s' = core playingState /\ lastTimeRef s' = Some 32.
Proof.
  destruct (frames_outside_play (host := sampleHost) 20 sampleCanvas [0; 16; 32]
              (set_pauseRef true playingState) (or_intror eq_refl))
    as (s' & R & A & _ & _ & _ & _ & _ & _ & _ & _ & _ & B).
  exists s'. split; [exact R |]. split; [exact A | exact B].
Defined.

Lemma pause_and_resume_witness :
  exists s',
    runAll (host := sampleHost) 20
      (KeyDown sampleEnv (KeyboardEvent.mk "p" false)
       :: map (Frame sampleCanvas) [0; 16; 32]
          ++ [KeyDown sampleEnv (KeyboardEvent.mk "P" false)]) playingState
      = Ok tt s' /\
    pauseRef s' = false /\ core s' = core playingState /\
    effects s' = effects playingState.
Proof.
  destruct (pause_and_resume (host := sampleHost) 20 sampleEnv sampleCanvas [0; 16; 32]
              "p" "P" playingState eq_refl eq_refl eq_refl eq_refl)
    as (s' & R & _ & A & B & _ & _ & _ & C & _).
  exists s'. split; [exact R |]. split; [exact A |]. split; [exact B | exact C].
Defined.

Lemma difficulty_ramp_witness :
  exists s',
    update (host := sampleHost) 20 (1 / 60) 800 600
      (set_difficultyTimerRef 4990 playingState) = Ok tt s' /\
    spawnIntervalRef s' = Qmax 220 (900 - 40) /\ difficultyTimerRef s' = 0.
Proof.
  assert (R : exists s', update (host := sampleHost) 20 (1 / 60) 800 600
                           (set_difficultyTimerRef 4990 playingState) = Ok tt s')
    by (vm_compute; eexists; reflexivity).
  destruct R as [s' R]. exists s'. split; [exact R |].
  destruct (difficulty_ramp (host := sampleHost) 20 (1 / 60) 800 600 _ s' R
              eq_refl eq_refl) as (_ & A & _).
  exact (A eq_refl).
Defined.

Lemma multiplier_between_1_and_5_witness :
  exists s',
    update (host := sampleHost) 20 (1 / 60) 800 600 playingState = Ok tt s' /\
    1 <= multiplierRef s' /\ multiplierRef s' <= 5.
Proof.
  assert (R : exists s', update (host := sampleHost) 20 (1 / 60) 800 600 playingState
                         = Ok tt s')
    by (vm_compute; eexists; reflexivity).
  destruct R as [s' R]. exists s'. split; [exact R |].
  apply (multiplier_between_1_and_5 (host := sampleHost) 20 (1 / 60) 800 600 _ s' R);
    discriminate.
Defined.

Lemma score_never_decreases_witness :
  exists s',
    update (host := sampleHost) 20 (1 / 60) 800 600 orbsState = Ok tt s' /\
    score orbsState <= score s'.
Proof.
  assert (R : exists s', update (host := sampleHost) 20 (1 / 60) 800 600 orbsState
                         = Ok tt s')
    by (vm_compute; eexists; reflexivity).
  destruct R as [s' R]. exists s'. split; [exact R |].
  apply (score_never_decreases (host := sampleHost) 20 (1 / 60) 800 600 _ s' R).
  repeat constructor; discriminate.
Defined.

Lemma ship_collision_ends_game_witness :
  touches (rocketRef contactState) contactEnemy = true /\
  shipCollisions (host := sampleHost) contactState
    = Ok tt (set_enemiesRef [] (set_mode gameover contactState)).
Proof.
  split; [reflexivity |].
  destruct (ship_collision_ends_game (host := sampleHost) contactState) as [_ A].
  exact (A [] contactEnemy [] eq_refl eq_refl (Forall_nil _) eq_refl).
Defined.

Lemma shield_absorbs_a_hit_witness :
  hasShieldRef shieldedState = true /\
  touches (rocketRef shieldedState) contactEnemy = true /\
  exists s',
    shipCollisions (host := sampleHost) shieldedState = Ok tt s' /\
    mode s' = playing /\ hasShieldRef s' = false /\ enemiesRef s' = [] /\
    score shieldedState + 1 <= score s'.
Proof.
  split; [reflexivity |]. split; [reflexivity |].
  destruct (shield_absorbs_a_hit (host := sampleHost) shieldedState [] contactEnemy []
              eq_refl eq_refl (Forall_nil _) eq_refl (Forall_nil _))
    as (s' & R & A & B & _ & C & D & _).
  exists s'. split; [exact R |]. split; [exact A |]. split; [exact B |].
  split; [exact C | exact D].
Defined.

Lemma briefState_run :
  runAll (host := sampleHost) 20 briefScript (initialState (host := sampleHost))
  = Ok tt briefState.
Proof. vm_compute. reflexivity. Qed.

Lemma briefState_reachable : reachable (host := sampleHost) briefState.
Proof.
  apply (reachable_runAll (host := sampleHost) 20 briefScript
           (initialState (host := sampleHost))).
  - apply reachable_init.
  - exact briefState_run.
Qed.

Lemma theme_indices_stay_valid_witness :
  runAll (host := sampleHost) 20 briefScript (initialState (host := sampleHost))
    = Ok tt briefState /\
  reachable (host := sampleHost) briefState /\
  validTheme (currentThemeIdxRef briefState) (nextThemeIdxRef briefState).
Proof.
  pose proof briefState_reachable as H.
  split; [exact briefState_run |]. split; [exact H |].
  exact (proj1 (theme_indices_stay_valid (host := sampleHost) sampleRandom_range _ H)).
Defined.

Lemma enemies_alive_in_play_witness :
  runAll (host := sampleHost) 20 briefScript (initialState (host := sampleHost))
    = Ok tt briefState /\
  reachable (host := sampleHost) briefState /\
  List.length (enemiesRef briefState) = 1%nat /\
  Forall (fun e => 0 < Enemy.hp e) (enemiesRef briefState) /\ beamsRef briefState = [].
Proof.
  pose proof briefState_reachable as H.
  split; [exact briefState_run |]. split; [exact H |].
  split; [reflexivity |].
  exact (enemies_alive_in_play (host := sampleHost) _ H).
Defined.

Lemma spawn_interval_in_range_witness :
  runAll (host := sampleHost) 20 briefScript (initialState (host := sampleHost))
    = Ok tt briefState /\
  reachable (host := sampleHost) briefState /\
  220 <= spawnIntervalRef briefState /\ spawnIntervalRef briefState <= 900.
Proof.
  pose proof briefState_reachable as H.
  split; [exact briefState_run |]. split; [exact H |].
  exact (spawn_interval_in_range (host := sampleHost) _ H).
Defined.

Lemma score_and_multiplier_floor_witness :
  runAll (host := sampleHost) 20 briefScript (initialState (host := sampleHost))
    = Ok tt briefState /\
  reachable (host := sampleHost) briefState /\
  1 <= multiplierRef briefState /\ 0 <= score briefState /\
  Forall (fun o => ScoreOrb.value o = 1) (scoreOrbsRef briefState).
Proof.
  pose proof briefState_reachable as H.
  split; [exact briefState_run |]. split; [exact H |].
  exact (score_and_multiplier_floor (host := sampleHost) _ H).
Defined.

Lemma rocket_keeps_its_size_witness :
  runAll (host := sampleHost) 20 briefScript (initialState (host := sampleHost))
    = Ok tt briefState /\
  reachable (host := sampleHost) briefState /\
  Rocket.width (rocketRef briefState) = 48 /\ Rocket.height (rocketRef briefState) = 28 /\
  Rocket.speed (rocketRef briefState) = 460.
Proof.
  pose proof briefState_reachable as H.
  split; [exact briefState_run |]. split; [exact H |].
  exact (rocket_keeps_its_size (host := sampleHost) _ H).
Defined.

Lemma particles_within_lifetime_witness :
  runAll (host := sampleHost) 20 briefScript (initialState (host := sampleHost))
    = Ok tt briefState /\
  reachable (host := sampleHost) briefState /\
  particlesRef briefState <> [] /\
  Forall (fun p => Particle.life p <= Particle.maxLife p /\ 0 < Particle.maxLife p)
    (particlesRef briefState).
Proof.
  pose proof briefState_reachable as H.
  split; [exact briefState_run |]. split; [exact H |].
  split; [discriminate |].
  exact (particles_within_lifetime (host := sampleHost) sampleRandom_range _ H).
Defined.

Lemma one_boss_at_a_time_witness :
  runAll (host := sampleHost) 20 briefScript (initialState (host := sampleHost))
    = Ok tt briefState /\
  reachable (host := sampleHost) briefState /\
  (bossCount (enemiesRef briefState) <= 1)%nat.
Proof.
  pose proof briefState_reachable as H.
  split; [exact briefState_run |]. split; [exact H |].
  exact (one_boss_at_a_time (host := sampleHost) _ H).
Defined.

Lemma tick_clears_the_field_witness :
  exists s',
    update (host := sampleHost) 20 (1 / 60) 800 600 strayState = Ok tt s' /\
    onScreen 800 600 (Bullet.mk (-50) 300 3.2 1000 (vec (-1) 0) false) = false /\
    Forall (fun b => onScreen 800 600 b = true) (bulletsRef s') /\
    Forall (fun e => inMargin 800 600 e = true) (enemiesRef s').
Proof.
  assert (R : exists s', update (host := sampleHost) 20 (1 / 60) 800 600 strayState
                         = Ok tt s')
    by (vm_compute; eexists; reflexivity).
  destruct R as [s' R]. exists s'. split; [exact R |]. split; [reflexivity |].
  exact (tick_clears_the_field (host := sampleHost) 20 (1 / 60) 800 600 _ s' R
           eq_refl eq_refl).
Defined.

Lemma resize_keeps_ship_visible_witness :
  exists s',
    resizeCanvasToContainer sampleEnv (initialState (host := sampleHost)) = Ok tt s' /\
    inBounds (Qmax 360 (floor 800)) (Qmax 360 (floor 600)) (rocketRef s') /\
    Vector2D.x (center (rocketRef s')) == Qmax 360 (floor 800) / 2.
Proof.
  destruct (resize_keeps_ship_visible sampleEnv sampleCanvas sampleCanvas
              (initialState (host := sampleHost)) eq_refl eq_refl
              ltac:(discriminate) ltac:(discriminate) ltac:(discriminate)
              ltac:(discriminate))
    as (s' & R & A & _ & _ & _ & B).
  exists s'. split; [exact R |]. split; [exact A |].
  exact (proj1 (B ltac:(reflexivity) ltac:(reflexivity))).
Defined.

Lemma switch_map_round_trip_witness :
  (exists s1 : State,
     run (host := sampleHost) 2 (KeyDown sampleEnv (KeyboardEvent.mk "e" false))
       playingState = Ok tt s1 /\
     currentThemeIdxRef s1 = 1%Z) /\
  (exists s1 : State,
     run (host := sampleHost) 2 (KeyDown sampleEnv (KeyboardEvent.mk "Q" false))
       playingState = Ok tt s1 /\
     currentThemeIdxRef s1 = 4%Z) /\
  (exists s1 s2 : State,
     run (host := sampleHost) 2 (KeyDown sampleEnv (KeyboardEvent.mk "e" false))
       playingState = Ok tt s1 /\
     run (host := sampleHost) 2 (KeyDown sampleEnv (KeyboardEvent.mk "Q" false))
       s1 = Ok tt s2 /\
     currentThemeIdxRef s2 = 0%Z /\ core s2 = core playingState).
Proof.
  destruct (switch_map_round_trip (host := sampleHost) 2 sampleEnv "e" "Q" playingState
              eq_refl eq_refl ltac:(vm_compute; split; congruence)) as (HE & HQ & HR).
  assert (P1 : pickable (host := sampleHost) 2 1 16).
  { exists 0%nat. split; [lia | vm_compute; discriminate]. }
  assert (P4 : pickable (host := sampleHost) 2 4 16).
  { exists 0%nat. split; [lia | vm_compute; discriminate]. }
  assert (P0 : forall j, (j <= 2)%nat -> pickable (host := sampleHost) 2 0 (16 + j)).
  { intros j Hj. exists 0%nat. split; [lia |].
    destruct j as [| [| [| j]]]; [vm_compute; discriminate .. | lia]. }
  split; [| split].
  - destruct (HE P1) as (s1 & R & A & _). exists s1. split; [exact R | exact A].
  - destruct (HQ P4) as (s1 & R & A & _). exists s1. split; [exact R | exact A].
  - destruct (HR P1 P0) as (s1 & s2 & R1 & R2 & A & _ & _ & _ & _ & B & _).
    exists s1, s2. split; [exact R1 |]. split; [exact R2 |]. split; [exact A | exact B].
Defined.

Lemma menu_click_witness :
  mode menuState = menu /\
  handleMouseDown (host := sampleHost) sampleEnv (Some (MouseEvent.mk 150 110)) menuState
    = Ok tt (set_menuSectionRef Maps menuState) /\
  exists s',
    handleMouseDown (host := sampleHost) sampleEnv (Some (MouseEvent.mk 10 10)) menuState
      = Ok tt s' /\
    mode s' = playing.
Proof.
  split; [reflexivity |]. split.
  - destruct (menu_click (host := sampleHost) sampleEnv sampleCanvas
                (MouseEvent.mk 150 110) menuState eq_refl eq_refl) as [A _].
    exact (A [] (HitRect.mk 100 100 120 30 hitSection (Some Maps))
             [HitRect.mk 290 400 220 36 hitStart None] Maps
             eq_refl (Forall_nil _) eq_refl eq_refl eq_refl).
  - destruct (menu_click (host := sampleHost) sampleEnv sampleCanvas
                (MouseEvent.mk 10 10) menuState eq_refl eq_refl) as [_ B].
    destruct B as (s' & R & _ & M).
    + intros hit [<- | [<- | []]] Ht; [reflexivity | discriminate Ht].
    + exists s'. split; [exact R | exact M].
Defined.

Lemma seeded_generator_stays_in_range_witness :
  createRng 0.5 = 500000000%Z /\
  Forall (fun r => 0 < r /\ r < 1) (rngDraws 3 (createRng 0.5)).
Proof.
  split; [reflexivity |].
  destruct (seeded_generator_stays_in_range 0.5 3) as (_ & A & _).
  apply A. discriminate.
Defined.

Lemma boss_wave_witness :
  exists boss s',
    bossWaves (host := sampleHost) false (1 / 60) 800 (set_bossTimerRef 44.99 playingState)
      = Ok tt s' /\
    bossTimerRef s' = 0 /\ enemiesRef s' = [boss] /\
    (Enemy.hp boss = 50 \/ Enemy.hp boss = 60).
Proof.
  destruct (boss_wave (host := sampleHost) false (1 / 60) 800
              (set_bossTimerRef 44.99 playingState)) as [_ A].
  destruct (A eq_refl eq_refl) as (boss & s' & R & T & E & K & _).
  exists boss, s'. split; [exact R |]. split; [exact T |]. split; [exact E |].
  destruct K as [(_ & K & _) | (_ & K & _)]; [left | right]; exact K.
Defined.

Lemma tick_leaves_input_alone_witness :
  exists s',
    update (host := sampleHost) 20 (1 / 60) 800 600
      (set_pressedKeysRef ["d"%string] playingState) = Ok tt s' /\
    pressedKeysRef s' = ["d"%string] /\ toggles s' = toggles playingState.
Proof.
  assert (R : exists s', update (host := sampleHost) 20 (1 / 60) 800 600
                           (set_pressedKeysRef ["d"%string] playingState) = Ok tt s')
    by (vm_compute; eexists; reflexivity).
  destruct R as [s' R]. exists s'. split; [exact R |].
  destruct (tick_leaves_input_alone (host := sampleHost) 20 (1 / 60) 800 600 _ s' R)
    as (A & _ & B & _).
  split; [exact A | exact B].
Defined.

Lemma orbs_collected_witness :
  exists s',
    updateOrbs (host := sampleHost) (1 / 60) orbsState = Ok tt s' /\
    List.length (scoreOrbsRef orbsState) = 2%nat /\
    List.length (scoreOrbsRef s') = 1%nat /\
    score s' == 1.
Proof.
  destruct (orbs_collected (host := sampleHost) (1 / 60) orbsState)
    as (s' & R & A & B & _).
  exists s'. split; [exact R |]. split; [reflexivity |].
  split; [rewrite A; reflexivity | rewrite B; reflexivity].
Defined.

(** ** Instances of the properties of whole runs *)

Lemma theme_rotation_witness :
  themeDurationRef playingState = 35 /\
  (* the theme pass: stays, begins, grows, commits *)
  (exists s', themeRotate (host := sampleHost) 20 (1 / 60) playingState = Ok tt s' /\
              themeTransitioningRef s' = false /\ currentThemeIdxRef s' = 0%Z) /\
  (exists s', themeRotate (host := sampleHost) 20 (1 / 60) ripeState = Ok tt s' /\
              themeTransitioningRef s' = true /\ themeBlendRef s' == 1 / 240 /\
              themeTimerRef s' = 0 /\
              drawn (host := sampleHost) 20 16 (nextThemeIdxRef s')) /\
  (exists s', themeRotate (host := sampleHost) 20 (1 / 60) blendingState = Ok tt s' /\
              themeTransitioningRef s' = true /\ themeBlendRef s' = 0.5 + 1 / 60 / 4) /\
  (exists s', themeRotate (host := sampleHost) 20 (1 / 60) commitState = Ok tt s' /\
              themeTransitioningRef s' = false /\ currentThemeIdxRef s' = 1%Z /\
              nextThemeIdxRef s' <> 1%Z) /\
  (* three ticks before the transition, three ticks within it *)
  (exists s', updates (host := sampleHost) 20 [1 / 60; 1 / 60; 1 / 60] 800 600
                playingState = Ok tt s' /\
              (mode s' = playing ->
               themeTransitioningRef s' = false /\ themeTimerRef s' == 1 / 20)) /\
  (exists s', updates (host := sampleHost) 20 [1 / 60; 1 / 60; 1 / 60] 800 600
                blendingState = Ok tt s' /\
              (mode s' = playing ->
               themeTransitioningRef s' = true /\ themeBlendRef s' == 41 / 80)) /\
  (* the tick that begins, the tick that commits *)
  (exists s', update (host := sampleHost) 20 (1 / 60) 800 600 ripeState = Ok tt s' /\
              themeTransitioningRef s' = true /\ themeBlendRef s' == 1 / 240 /\
              themeTimerRef s' = 0 /\
              drawn (host := sampleHost) 20 16 (nextThemeIdxRef s')) /\
  (exists s', update (host := sampleHost) 20 (1 / 60) 800 600 commitState = Ok tt s' /\
              themeTransitioningRef s' = false /\ currentThemeIdxRef s' = 1%Z /\
              nextThemeIdxRef s' <> 1%Z).
Proof.
  assert (Hpick : forall exclude, exclude <> 3%Z ->
                    pickable (host := sampleHost) 20 exclude 16).
  { intros exclude Hne. exists 0%nat. split; [lia |]. vm_compute. congruence. }
  assert (Hshort : shortTick 20 (1 / 60)) by (split; vm_compute; discriminate).
  assert (Hdts : Forall (fun dt => 0 <= dt /\ shortTick 20 dt) [1 / 60; 1 / 60; 1 / 60]).
  { repeat constructor; try exact Hshort; discriminate. }
  assert (Hready : ready playingState /\ ready ripeState /\
                   ready blendingState /\ ready commitState).
  { repeat split; vm_compute; first [reflexivity | intros; discriminate]. }
  destruct Hready as (Rp & Rr & Rb & Rc).
  split; [reflexivity |]. repeat apply conj.
  - destruct (theme_rotation (host := sampleHost) sampleRandom_range
                20 800 600 playingState eq_refl) as (Hpass & _).
    destruct (Hpass (1 / 60)) as (Hstay & _).
    destruct (Hstay eq_refl) as (s' & Hrun & Htr & _ & Hcur & _); [discriminate |].
    exists s'. auto.
  - destruct (theme_rotation (host := sampleHost) sampleRandom_range
                20 800 600 ripeState eq_refl) as (Hpass & _).
    destruct (Hpass (1 / 60)) as (_ & Hbegin & _).
    destruct (Hbegin eq_refl) as (s' & Hrun & Htr & Hbl & Ht & _ & _ & Hd);
      [reflexivity | reflexivity | apply Hpick; discriminate |].
    exists s'. split; [exact Hrun |]. split; [exact Htr |].
    split; [rewrite Hbl; reflexivity |]. split; [exact Ht | exact Hd].
  - destruct (theme_rotation (host := sampleHost) sampleRandom_range
                20 800 600 blendingState eq_refl) as (Hpass & _).
    destruct (Hpass (1 / 60)) as (_ & _ & Hgrow & _).
    destruct (Hgrow eq_refl) as (s' & Hrun & Htr & Hbl & _); [reflexivity |].
    exists s'. auto.
  - destruct (theme_rotation (host := sampleHost) sampleRandom_range
                20 800 600 commitState eq_refl) as (Hpass & _).
    destruct (Hpass (1 / 60)) as (_ & _ & _ & Hcommit).
    destruct (Hcommit eq_refl) as (s' & Hrun & Htr & _ & Hcur & Hnext & _);
      [discriminate | apply Hpick; discriminate |].
    exists s'. split; [exact Hrun |]. split; [exact Htr |]. split; [exact Hcur |].
    rewrite Hcur in Hnext. exact Hnext.
  - destruct (theme_rotation (host := sampleHost) sampleRandom_range
                20 800 600 playingState eq_refl) as (_ & Hticks & _).
    destruct (Hticks [1 / 60; 1 / 60; 1 / 60] eq_refl) as [Hstay _];
      [exact Rp | exact Hdts |].
    destruct (Hstay eq_refl) as (s' & Hrun & Hafter); [discriminate |].
    exists s'. split; [exact Hrun |]. intros Hm.
    destruct (Hafter Hm) as (Htr & Ht & _).
    split; [exact Htr |]. rewrite Ht. reflexivity.
  - destruct (theme_rotation (host := sampleHost) sampleRandom_range
                20 800 600 blendingState eq_refl) as (_ & Hticks & _).
    destruct (Hticks [1 / 60; 1 / 60; 1 / 60] eq_refl) as [_ Hgrow];
      [exact Rb | exact Hdts |].
    destruct (Hgrow eq_refl) as (s' & Hrun & Hafter); [reflexivity |].
    exists s'. split; [exact Hrun |]. intros Hm.
    destruct (Hafter Hm) as (Htr & Hb & _).
    split; [exact Htr |]. rewrite Hb. reflexivity.
  - destruct (theme_rotation (host := sampleHost) sampleRandom_range
                20 800 600 ripeState eq_refl) as (_ & _ & Htick).
    destruct (Htick (1 / 60) eq_refl eq_refl) as [Hbegin _];
      [exact Rr | exact Hshort |].
    destruct (Hbegin eq_refl) as (s' & Hrun & Htr & Hb & Ht & _ & _ & Hd);
      [reflexivity | reflexivity | apply Hpick; discriminate |].
    exists s'. split; [exact Hrun |]. split; [exact Htr |].
    split; [rewrite Hb; reflexivity |]. split; [exact Ht | exact Hd].
  - destruct (theme_rotation (host := sampleHost) sampleRandom_range
                20 800 600 commitState eq_refl) as (_ & _ & Htick).
    destruct (Htick (1 / 60) eq_refl eq_refl) as [_ Hcommit];
      [exact Rc | exact Hshort |].
    destruct (Hcommit eq_refl) as (s' & Hrun & Htr & _ & Hcur & Hnext & _);
      [discriminate | apply Hpick; discriminate |].
    exists s'. split; [exact Hrun |]. split; [exact Htr |]. split; [exact Hcur |].
    rewrite Hcur in Hnext. exact Hnext.
Defined.


